(** * Sudoku DLX solver: a shallow embedding of [sudoku.cpp]

    The development follows the source file function by function:
    the constructor, the exact-cover encoder, the builder of the
    circular doubly-linked structure (the torus), [coverColumn] and
    [uncoverColumn], the clue applicator, the recursive search, the
    grid mapper, [solve] and the two printing functions.

    Conventions of the embedding.
    - The constructor computes the sizes as the 32-bit [int]s of the
      source.  After it, an [int] that holds a size, a count or an
      index is a [nat], and an [int] that holds a datum (a digit, a
      column size, the search limit, the solution counter) is a [Z].
      The sizes of the object are those naturals for the grids up to
      1225 x 1225 (35 x 35 blocks), where [gridSize * cellCount] fits
      an [int]; the argument of [allNodes.reserve], which the builder
      computes in [int] and which is left out here, fits for the grids
      up to 784 x 784 (28 x 28 blocks).  A statement that the code
      returns a result is made within these bounds.  Storage is never
      exhausted.
    - A [DLXNode*] is the position of the node in [allNodes], counted
      from 1; [nullptr] is 0.  The nodes live in a finite map from
      these positions to records.
    - [v[i]] on a [std::vector] is checked: an index that is not below
      the size of the vector is undefined behaviour in the source and
      is the failure [out_of_range] here.
    - A loop that follows pointers takes a bound on its number of
      iterations; running out of it is the failure [no_fuel]. *)

From Stdlib Require Import ZArith Lia Bool Ascii.
From stdpp Require Import base list gmap fin_maps strings pretty.

Open Scope nat_scope.

(** ** Results *)

Inductive failure : Type :=
| invalid_argument   (* std::invalid_argument *)
| length_error       (* std::length_error *)
| out_of_range       (* an index past the end of a std::vector *)
| no_fuel.           (* a loop ran past its bound *)

Inductive result (A : Type) : Type :=
| Ok (a : A)
| Fail (f : failure).

Arguments Ok {A} a.
Arguments Fail {A} f.

Definition bind {A B : Type} (r : result A) (k : A -> result B) : result B :=
  match r with
  | Ok a => k a
  | Fail f => Fail f
  end.

Notation "'let*' x ':=' e 'in' k" := (bind e (fun x => k))
  (at level 10, x name, e at level 200, k at level 200).

(** [for (int i = lo; count-- > 0; ++i) body]: a counted loop. *)
Fixpoint for_range {St : Type} (count i : nat)
    (body : nat -> St -> result St) (st : St) : result St :=
  match count with
  | O => Ok st
  | S c => let* st' := body i st in for_range c (S i) body st'
  end.

(** [for (int i = lo; i < hi; i += step) body]. *)
Fixpoint for_step {St : Type} (fuel i hi step : nat)
    (body : nat -> St -> result St) (st : St) : result St :=
  match fuel with
  | O => Fail no_fuel
  | S f =>
      if i <? hi
      then let* st' := body i st in for_step f (i + step) hi step body st'
      else Ok st
  end.

(** [for (p = start; p != stop; p = next(p)) body], where [next] reads
    the state that the body left. *)
Fixpoint for_ring {St : Type} (fuel : nat) (next : St -> nat -> nat)
    (stop : nat) (body : nat -> St -> result St) (p : nat) (st : St)
    : result St :=
  match fuel with
  | O => Fail no_fuel
  | S f =>
      if p =? stop then Ok st
      else let* st' := body p st in for_ring f next stop body (next st' p) st'
  end.

(** ** Vectors *)

Definition vget {A : Type} (v : list A) (i : nat) : result A :=
  match v !! i with
  | Some a => Ok a
  | None => Fail out_of_range
  end.

Definition vset {A : Type} (v : list A) (i : nat) (a : A) : result (list A) :=
  if decide (i < length v) then Ok (<[i := a]> v) else Fail out_of_range.

(** An [int] used as an index: a negative one is out of range. *)
Definition index_of (z : Z) : result nat :=
  if (z <? 0)%Z then Fail out_of_range else Ok (Z.to_nat z).

(** ** The solver object *)

(** The five sizes of a solver object, as naturals. *)
Record SudokuDLXSolver : Type := mkSolver {
  gridSize : nat;
  blockSize : nat;
  cellCount : nat;
  exactCoverRows : nat;
  exactCoverCols : nat
}.

(** An [int] is 32 bits wide.  Signed overflow is undefined in the
    language; the usual targets compute in two's complement, and so
    does [wrap_int]. *)
Definition wrap_int (z : Z) : Z := ((z + 2 ^ 31) mod 2 ^ 32 - 2 ^ 31)%Z.

(** [std::vector::max_size()] of a vector of pointers: the largest
    count of 8-byte elements that a 64-bit [ptrdiff_t] can span. *)
Definition pointers_max_size : Z := (2 ^ 63 - 1) / 8.

(** [std::vector<DLXNode*>(n, nullptr)] for an [int] [n]: the count is
    cast to [size_t], and a count above [max_size()] throws
    [std::length_error]. *)
Definition new_pointers (n : Z) : result (list nat) :=
  if (pointers_max_size <? n mod 2 ^ 64)%Z then Fail length_error
  else Ok (replicate (Z.to_nat n) 0).

(** The object as the constructor leaves it: the five [const int]
    members as the [int]s that they are, and the members that
    [solve] resets ([allNodes] is empty). *)
Module Object.
Record t : Type := mk {
  gridSize : Z;
  blockSize : Z;
  cellCount : Z;
  exactCoverRows : Z;
  exactCoverCols : Z;
  rootHeader : nat;
  solution : list nat;
  fixedClues : list nat;
  solutionCount : Z
}.
End Object.

(** [SudokuDLXSolver::SudokuDLXSolver(int size)].  The members are
    initialised in the order of their declaration, the two vectors
    before the body tests the size.  [std::sqrt] of an [int] that is
    not negative, truncated to [int], is the integer square root: the
    argument is exact in a double, the square root of a double is
    correctly rounded, and the nearest integer above is further away
    than the rounding error.  For a negative size [std::sqrt] gives a
    NaN, whose cast to [int] is undefined; the usual targets give 0 or
    the least [int], whose square in [int] is 0, as is the square of
    the 0 that [blockSize] is here. *)
Definition construct (size : Z) : result Object.t :=
  let gridSize := size in
  let blockSize := Z.sqrt size in
  let cellCount := wrap_int (size * size) in
  let exactCoverRows := wrap_int (size * cellCount) in
  let exactCoverCols := wrap_int (4 * cellCount) in
  let* solution := new_pointers cellCount in
  let* fixedClues := new_pointers cellCount in
  if negb (wrap_int (blockSize * blockSize) =? size)%Z then Fail invalid_argument
  else Ok (Object.mk gridSize blockSize cellCount exactCoverRows exactCoverCols
             0 solution fixedClues 0).

(** The sizes of an object none of whose sizes is negative. *)
Definition sizes_of (o : Object.t) : SudokuDLXSolver :=
  {| gridSize := Z.to_nat (Object.gridSize o);
     blockSize := Z.to_nat (Object.blockSize o);
     cellCount := Z.to_nat (Object.cellCount o);
     exactCoverRows := Z.to_nat (Object.exactCoverRows o);
     exactCoverCols := Z.to_nat (Object.exactCoverCols o) |}.

(** ** The exact-cover matrix *)

Abbreviation matrix := (list (list bool)).

Definition new_matrix (rows cols : nat) : matrix :=
  replicate rows (replicate cols false).

(** [exactCoverMatrix[i][j]] *)
Definition mget (M : matrix) (i j : nat) : result bool :=
  let* row := vget M i in vget row j.

(** [exactCoverMatrix[i][j] = true] *)
Definition mset (i j : nat) (M : matrix) : result matrix :=
  let* row := vget M i in
  let* row' := vset row j true in
  vset M i row'.

(** Constraint 1: the loop state is [(j, counter, matrix)]. *)
Definition cell_step (sv : SudokuDLXSolver) (i : nat)
    (st : nat * nat * matrix) : result (nat * nat * matrix) :=
  let '(j, counter, M) := st in
  let* M' := mset i j M in
  let counter := counter + 1 in
  if gridSize sv <=? counter then Ok (j + 1, 0, M') else Ok (j, counter, M').

(** Constraint 2: the loop state is [(x, counter, matrix)]. *)
Definition row_step (sv : SudokuDLXSolver) (j : nat)
    (st : nat * nat * matrix) : result (nat * nat * matrix) :=
  let '(x, counter, M) := st in
  let* M' := for_step (S (counter * cellCount sv)) x (counter * cellCount sv)
             (gridSize sv) (fun i M => mset i j M) M in
  if (j + 1) mod gridSize sv =? 0
  then Ok (counter * cellCount sv, counter + 1, M')
  else Ok (x + 1, counter, M').

(** Constraint 3: the loop state is [(j, matrix)]. *)
Definition col_step (sv : SudokuDLXSolver) (i : nat)
    (st : nat * matrix) : result (nat * matrix) :=
  let '(j, M) := st in
  let* M' := mset i j M in
  let j := j + 1 in
  if 3 * cellCount sv <=? j then Ok (2 * cellCount sv, M') else Ok (j, M').

(** Constraint 4: the loop state is [(x, matrix)]. *)
Definition block_step (sv : SudokuDLXSolver) (j : nat)
    (st : nat * matrix) : result (nat * matrix) :=
  let '(x, M) := st in
  let* M' := for_range (blockSize sv) 0 (fun l M =>
             for_range (blockSize sv) 0 (fun k M =>
               mset (x + l * gridSize sv + k * cellCount sv) j M) M) M in
  let temp := j + 1 - 3 * cellCount sv in
  if temp mod (blockSize sv * gridSize sv) =? 0
  then Ok (x + ((blockSize sv - 1) * cellCount sv
                + (blockSize sv - 1) * gridSize sv + 1), M')
  else if temp mod gridSize sv =? 0
  then Ok (x + (gridSize sv * (blockSize sv - 1) + 1), M')
  else Ok (x + 1, M').

(** [SudokuDLXSolver::buildExactCoverMatrix] *)
Definition buildExactCoverMatrix (sv : SudokuDLXSolver) (M : matrix)
    : result matrix :=
  let* st1 := for_range (exactCoverRows sv) 0 (cell_step sv) (0, 0, M) in
  let* st2 := for_range (cellCount sv) (cellCount sv) (row_step sv) (0, 1, st1.2) in
  let* st3 := for_range (exactCoverRows sv) 0 (col_step sv) (2 * cellCount sv, st2.2) in
  let* st4 := for_range (exactCoverCols sv - 3 * cellCount sv) (3 * cellCount sv)
                (block_step sv) (0, st3.2) in
  Ok st4.2.

(** ** Nodes and the arena *)

Record DLXNode : Type := mkNode {
  left : nat;
  right : nat;
  up : nat;
  down : nat;
  column : nat;
  columnSize : Z;
  rowData : list Z   (* [value, row, col] *)
}.

(** [DLXNode::DLXNode()] *)
Definition new_node : DLXNode := mkNode 0 0 0 0 0 0%Z [0; 0; 0]%Z.

#[global] Instance DLXNode_inhabited : Inhabited DLXNode := populate new_node.

(** The nodes that [allNodes] owns, by position (from 1). *)
Abbreviation heap := (gmap nat DLXNode).

Definition left_of (h : heap) (p : nat) : nat := left (h !!! p).
Definition right_of (h : heap) (p : nat) : nat := right (h !!! p).
Definition up_of (h : heap) (p : nat) : nat := up (h !!! p).
Definition down_of (h : heap) (p : nat) : nat := down (h !!! p).
Definition column_of (h : heap) (p : nat) : nat := column (h !!! p).
Definition size_of (h : heap) (p : nat) : Z := columnSize (h !!! p).
Definition rowData_of (h : heap) (p : nat) : list Z := rowData (h !!! p).

Definition with_left (v : nat) (n : DLXNode) : DLXNode :=
  mkNode v (right n) (up n) (down n) (column n) (columnSize n) (rowData n).
Definition with_right (v : nat) (n : DLXNode) : DLXNode :=
  mkNode (left n) v (up n) (down n) (column n) (columnSize n) (rowData n).
Definition with_up (v : nat) (n : DLXNode) : DLXNode :=
  mkNode (left n) (right n) v (down n) (column n) (columnSize n) (rowData n).
Definition with_down (v : nat) (n : DLXNode) : DLXNode :=
  mkNode (left n) (right n) (up n) v (column n) (columnSize n) (rowData n).
Definition with_column (v : nat) (n : DLXNode) : DLXNode :=
  mkNode (left n) (right n) (up n) (down n) v (columnSize n) (rowData n).
Definition with_size (v : Z) (n : DLXNode) : DLXNode :=
  mkNode (left n) (right n) (up n) (down n) (column n) v (rowData n).
Definition with_rowData (v : list Z) (n : DLXNode) : DLXNode :=
  mkNode (left n) (right n) (up n) (down n) (column n) (columnSize n) v.

(** [p->field = v] *)
Definition store (p : nat) (f : DLXNode -> DLXNode) (h : heap) : heap :=
  <[p := f (h !!! p)]> h.

Definition set_left (p v : nat) (h : heap) : heap := store p (with_left v) h.
Definition set_right (p v : nat) (h : heap) : heap := store p (with_right v) h.
Definition set_up (p v : nat) (h : heap) : heap := store p (with_up v) h.
Definition set_down (p v : nat) (h : heap) : heap := store p (with_down v) h.
Definition set_column (p v : nat) (h : heap) : heap := store p (with_column v) h.
Definition set_size (p : nat) (v : Z) (h : heap) : heap := store p (with_size v) h.
Definition set_rowData (p : nat) (v : list Z) (h : heap) : heap :=
  store p (with_rowData v) h.

(** ** Cover and uncover *)

(** [col->left->right = col->right; col->right->left = col->left;] *)
Definition unlink_lr (col : nat) (h : heap) : heap :=
  let h := set_right (left_of h col) (right_of h col) h in
  set_left (right_of h col) (left_of h col) h.

(** The body of the inner loop of [coverColumn]. *)
Definition unlink_ud (temp : nat) (h : heap) : heap :=
  let h := set_up (down_of h temp) (up_of h temp) h in
  let h := set_down (up_of h temp) (down_of h temp) h in
  set_size (column_of h temp) (size_of h (column_of h temp) - 1)%Z h.

(** [SudokuDLXSolver::coverColumn] *)
Definition coverColumn (fuel : nat) (col : nat) (h : heap) : result heap :=
  let h := unlink_lr col h in
  for_ring fuel down_of col
    (fun node h =>
       for_ring fuel right_of node
         (fun temp h => Ok (unlink_ud temp h)) (right_of h node) h)
    (down_of h col) h.

(** The body of the inner loop of [uncoverColumn]. *)
Definition relink_ud (temp : nat) (h : heap) : heap :=
  let h := set_size (column_of h temp) (size_of h (column_of h temp) + 1)%Z h in
  let h := set_up (down_of h temp) temp h in
  set_down (up_of h temp) temp h.

(** [col->left->right = col; col->right->left = col;] *)
Definition relink_lr (col : nat) (h : heap) : heap :=
  let h := set_right (left_of h col) col h in
  set_left (right_of h col) col h.

(** [SudokuDLXSolver::uncoverColumn] *)
Definition uncoverColumn (fuel : nat) (col : nat) (h : heap) : result heap :=
  let* h := for_ring fuel up_of col
    (fun node h =>
       for_ring fuel left_of node
         (fun temp h => Ok (relink_ud temp h)) (left_of h node) h)
    (up_of h col) h in
  Ok (relink_lr col h).

(** ** The builder of the torus *)

(** [allNodes.push_back(std::make_unique<DLXNode>())]: the state is the
    size of [allNodes] and the nodes; the new node is the last one. *)
Definition push_node (st : nat * heap) : nat * heap :=
  (S st.1, <[S st.1 := new_node]> st.2).

(** The body of the loop that creates the column nodes; the state is
    [(temp, allNodes)]. *)
Definition column_step (header : nat) (i : nat) (st : nat * (nat * heap))
    : result (nat * (nat * heap)) :=
  let temp := st.1 in
  let a := push_node st.2 in
  let newNode := a.1 in
  let h := a.2 in
  let h := set_size newNode 0%Z h in
  let h := set_up newNode newNode h in
  let h := set_down newNode newNode h in
  let h := set_column newNode newNode h in
  let h := set_right newNode header h in
  let h := set_left newNode temp h in
  let h := set_right temp newNode h in
  Ok (newNode, (a.1, h)).

(** The update of [id] at the head of the loop over the matrix rows. *)
Definition next_id (sv : SudokuDLXSolver) (i : nat) (id : Z * Z * Z) : Z * Z * Z :=
  let '(id0, id1, id2) := id in
  let n := Z.of_nat (gridSize sv) in
  if negb (i =? 0) && (i mod cellCount sv =? 0)
  then (id0 - (n - 1), id1 + 1, id2 - (n - 1))%Z
  else if negb (i =? 0) && (i mod gridSize sv =? 0)
  then (id0 - (n - 1), id1, id2 + 1)%Z
  else (id0 + 1, id1, id2)%Z.

(** The statements under [if (exactCoverMatrix[i][j])]; they return the
    new value of [prev]. *)
Definition link_node (id : Z * Z * Z) (top prev : nat) (st : nat * heap)
    : nat * (nat * heap) :=
  let a := push_node st in
  let newNode := a.1 in
  let h := a.2 in
  let h := set_rowData newNode (<[0 := id.1.1]> (rowData_of h newNode)) h in
  let h := set_rowData newNode (<[1 := id.1.2]> (rowData_of h newNode)) h in
  let h := set_rowData newNode (<[2 := id.2]> (rowData_of h newNode)) h in
  let prev_h :=
    if prev =? 0 then (newNode, set_right newNode newNode h) else (prev, h) in
  let prev := prev_h.1 in
  let h := prev_h.2 in
  let h := set_left newNode prev h in
  let h := set_right newNode (right_of h prev) h in
  let h := set_left (right_of h newNode) newNode h in
  let h := set_right prev newNode h in
  let h := set_column newNode top h in
  let h := set_down newNode top h in
  let h := set_up newNode (up_of h top) h in
  let h := set_down (up_of h top) newNode h in
  let h := set_size top (size_of h top + 1)%Z h in
  let h := set_up top newNode h in
  let h := if down_of h top =? top then set_down top newNode h else h in
  (newNode, (a.1, h)).

(** The body of the loop over the matrix columns, with its increment
    [top = top->right]; the state is [(top, prev, allNodes)]. *)
Definition entry_step (M : matrix) (id : Z * Z * Z) (i j : nat)
    (st : nat * nat * (nat * heap)) : result (nat * nat * (nat * heap)) :=
  let '(top, prev, a) := st in
  let* b := mget M i j in
  let r := if b then link_node id top prev a else (prev, a) in
  Ok (right_of r.2.2 top, r.1, r.2).

(** The body of the loop over the matrix rows; the state is
    [(id, allNodes)]. *)
Definition row_nodes_step (sv : SudokuDLXSolver) (M : matrix) (header : nat)
    (i : nat) (st : Z * Z * Z * (nat * heap)) : result (Z * Z * Z * (nat * heap)) :=
  let '(id, a) := st in
  let top := right_of a.2 header in
  let prev := 0 in
  let id := next_id sv i id in
  let* r := for_range (exactCoverCols sv) 0 (entry_step M id i) (top, prev, a) in
  Ok (id, r.2).

(** [SudokuDLXSolver::buildDLXLinkedList]: from the empty [allNodes] to
    [(rootHeader, allNodes)]. *)
Definition buildDLXLinkedList (sv : SudokuDLXSolver) (M : matrix)
    : result (nat * heap) :=
  let a := push_node (0, ∅) in
  let header := a.1 in
  let h := a.2 in
  let h := set_left header header h in
  let h := set_right header header h in
  let h := set_down header header h in
  let h := set_up header header h in
  let h := set_size header (-1)%Z h in
  let h := set_column header header h in
  let* c := for_range (exactCoverCols sv) 0 (column_step header) (header, (a.1, h)) in
  let* r := for_range (exactCoverRows sv) 0 (row_nodes_step sv M header)
              ((0, 1, 1)%Z, c.2) in
  Ok (header, r.2.2).

(** ** The mutable members of the solver during one [solve] *)

Abbreviation grid := (list (list Z)).

Record state : Type := mkState {
  rootHeader : nat;
  solution : list nat;
  fixedClues : list nat;
  allNodes : heap;
  solutionCount : Z;
  solutions : list grid   (* the vector that [solve] passes by reference *)
}.

Definition with_nodes (h : heap) (s : state) : state :=
  mkState (rootHeader s) (solution s) (fixedClues s) h (solutionCount s) (solutions s).
Definition with_solution (v : list nat) (s : state) : state :=
  mkState (rootHeader s) v (fixedClues s) (allNodes s) (solutionCount s) (solutions s).
Definition with_fixedClues (v : list nat) (s : state) : state :=
  mkState (rootHeader s) (solution s) v (allNodes s) (solutionCount s) (solutions s).

(** [for (p = start; p != stop; p = next(p)) if (f p) return it], the
    shape of both loops of [findNodeForClue]. *)
Fixpoint find_ring (fuel : nat) (next : nat -> nat) (stop : nat)
    (f : nat -> result nat) (p : nat) : result nat :=
  match fuel with
  | O => Fail no_fuel
  | S k =>
      if p =? stop then Ok 0
      else let* r := f p in
           if r =? 0 then find_ring k next stop f (next p) else Ok r
  end.

(** [node->rowData[k]] *)
Definition rowData_at (h : heap) (p k : nat) : result Z := vget (rowData_of h p) k.

(** [SudokuDLXSolver::findNodeForClue]; the result is 0 for [nullptr]. *)
Definition findNodeForClue (fuel : nat) (s : state) (value : Z) (row col : nat)
    : result nat :=
  let h := allNodes s in
  find_ring fuel (right_of h) (rootHeader s)
    (fun colHeader =>
       find_ring fuel (down_of h) colHeader
         (fun node =>
            let* d0 := rowData_at h node 0 in
            let* d1 := rowData_at h node 1 in
            let* d2 := rowData_at h node 2 in
            if (d0 =? value)%Z && (d1 - 1 =? Z.of_nat row)%Z
               && (d2 - 1 =? Z.of_nat col)%Z
            then Ok node else Ok 0)
         (down_of h colHeader))
    (right_of h (rootHeader s)).

(** The body of the inner loop of [applyInitialConstraints]; the state
    is [(index, solver state)]. *)
Definition clue_step (fuel : nat) (puzzle : grid) (i j : nat)
    (st : nat * state) : result (nat * state) :=
  let '(index, s) := st in
  let* row := vget puzzle i in
  let* v := vget row j in
  if (0 <? v)%Z then
    let* temp := findNodeForClue fuel s v i j in
    if temp =? 0 then Ok st
    else
      let col := column_of (allNodes s) temp in
      let* h := coverColumn fuel col (allNodes s) in
      let* clues := vset (fixedClues s) index temp in
      let index := index + 1 in
      let* h := for_ring fuel right_of temp
                  (fun node h => coverColumn fuel (column_of h node) h)
                  (right_of h temp) h in
      Ok (index, with_nodes h (with_fixedClues clues s))
  else Ok st.

(** [SudokuDLXSolver::applyInitialConstraints] *)
Definition applyInitialConstraints (sv : SudokuDLXSolver) (fuel : nat)
    (puzzle : grid) (s : state) : result state :=
  let* r := for_range (gridSize sv) 0
              (fun i st => for_range (gridSize sv) 0 (clue_step fuel puzzle i) st)
              (0, s) in
  Ok r.2.

(** [sudoku[r][c] = d] *)
Definition grid_set (g : grid) (r c : nat) (d : Z) : result grid :=
  let* row := vget g r in
  let* row' := vset row c d in
  vset g r row'.

(** One loop of [mapSolutionToGrid]: [nodes] is what is left of the
    vector from position [i] on; the loop reads [nodes[i]] until it
    finds [nullptr], and past the end of the vector if there is none. *)
Fixpoint place_nodes (h : heap) (nodes : list nat) (sudoku : grid) : result grid :=
  match nodes with
  | [] => Fail out_of_range
  | p :: rest =>
      if p =? 0 then Ok sudoku
      else
        let* d1 := rowData_at h p 1 in
        let* r := index_of (d1 - 1) in
        let* d2 := rowData_at h p 2 in
        let* c := index_of (d2 - 1) in
        let* d0 := rowData_at h p 0 in
        let* sudoku' := grid_set sudoku r c d0 in
        place_nodes h rest sudoku'
  end.

(** [SudokuDLXSolver::mapSolutionToGrid] *)
Definition mapSolutionToGrid (s : state) (sudoku : grid) : result grid :=
  let* sudoku := place_nodes (allNodes s) (solution s) sudoku in
  place_nodes (allNodes s) (fixedClues s) sudoku.

(** The column that [searchDLX] selects: the first of least size. *)
Definition select_column (fuel : nat) (h : heap) (root : nat) : result nat :=
  let col := right_of h root in
  for_ring fuel (fun _ p => right_of h p) root
    (fun temp col => Ok (if (size_of h temp <? size_of h col)%Z then temp else col))
    (right_of h col) col.

(** The loop of [searchDLX] over the rows of the selected column; [rec]
    is the recursive call [searchDLX(k + 1, searchLimit, solutions)].
    The body assigns both [temp] and [col], so the loop carries them. *)
Fixpoint search_rows (rec : state -> result state) (fuel n k : nat)
    (temp col : nat) (s : state) : result (nat * state) :=
  match n with
  | O => Fail no_fuel
  | S n' =>
      if temp =? col then Ok (col, s)
      else
        let* sol := vset (solution s) k temp in
        let* h := for_ring fuel right_of temp
                    (fun node h => coverColumn fuel (column_of h node) h)
                    (right_of (allNodes s) temp) (allNodes s) in
        let* s := rec (with_nodes h (with_solution sol s)) in
        let* temp := vget (solution s) k in
        let* sol := vset (solution s) k 0 in
        let col := column_of (allNodes s) temp in
        let* h := for_ring fuel left_of temp
                    (fun node h => uncoverColumn fuel (column_of h node) h)
                    (left_of (allNodes s) temp) (allNodes s) in
        search_rows rec fuel n' k (down_of h temp) col
          (with_nodes h (with_solution sol s))
  end.

(** [SudokuDLXSolver::searchDLX]; [depth] bounds the recursion. *)
Fixpoint searchDLX (depth : nat) (sv : SudokuDLXSolver) (fuel : nat) (k : nat)
    (searchLimit : Z) (s : state) : result state :=
  match depth with
  | O => Fail no_fuel
  | S d =>
      if (searchLimit <=? solutionCount s)%Z then Ok s
      else if right_of (allNodes s) (rootHeader s) =? rootHeader s then
        let sudokuGrid := replicate (gridSize sv) (replicate (gridSize sv) 0%Z) in
        let* sudokuGrid := mapSolutionToGrid s sudokuGrid in
        Ok (mkState (rootHeader s) (solution s) (fixedClues s) (allNodes s)
              (solutionCount s + 1)%Z (solutions s ++ [sudokuGrid]))
      else
        let* col := select_column fuel (allNodes s) (rootHeader s) in
        let* h := coverColumn fuel col (allNodes s) in
        let* r := search_rows (searchDLX d sv fuel (k + 1) searchLimit) fuel fuel k
                    (down_of h col) col (with_nodes h s) in
        let* h := uncoverColumn fuel r.1 (allNodes r.2) in
        Ok (with_nodes h r.2)
  end.

(** [std::vector::max_size()] of the vector of solutions: the largest
    count of 24-byte elements that a 64-bit [ptrdiff_t] can span. *)
Definition solutions_max_size : Z := (2 ^ 63 - 1) / 24.

(** The validation at the head of [solve]. *)
Definition dimensions_ok (sv : SudokuDLXSolver) (puzzle : grid) : bool :=
  negb (negb (length puzzle =? gridSize sv)
        || match puzzle with
           | [] => false
           | row0 :: _ => negb (length row0 =? gridSize sv)
           end).

(** The bound given to the pointer loops: one more than the number of
    nodes that [buildDLXLinkedList] reserves. *)
Definition ring_fuel (sv : SudokuDLXSolver) : nat :=
  S (1 + exactCoverCols sv + 4 * exactCoverRows sv).

(** [SudokuDLXSolver::solve] *)
Definition solve (sv : SudokuDLXSolver) (puzzle : grid) (searchLimit : Z)
    : result (list grid) :=
  if negb (dimensions_ok sv puzzle) then Fail invalid_argument
  else if (solutions_max_size <? searchLimit mod 2 ^ 64)%Z then Fail length_error
  else
    let exactCoverMatrix := new_matrix (exactCoverRows sv) (exactCoverCols sv) in
    let* exactCoverMatrix := buildExactCoverMatrix sv exactCoverMatrix in
    let* b := buildDLXLinkedList sv exactCoverMatrix in
    let s := mkState b.1 (replicate (cellCount sv) 0) (replicate (cellCount sv) 0)
               b.2 0%Z [] in
    let* s := applyInitialConstraints sv (ring_fuel sv) puzzle s in
    let* s := searchDLX (S (exactCoverCols sv)) sv (ring_fuel sv) 0 searchLimit s in
    Ok (solutions s).

(** ** Notions that the statements use *)

(** The solver for 4 x 4 grids, on which the concrete runs are made. *)
Definition solver4 : SudokuDLXSolver := mkSolver 4 2 16 64 64.

(** The torus as [solve] builds it, before any clue is applied. *)
Definition initial_torus (sv : SudokuDLXSolver) : result (nat * heap) :=
  let* M := buildExactCoverMatrix sv
              (new_matrix (exactCoverRows sv) (exactCoverCols sv)) in
  buildDLXLinkedList sv M.

(** A puzzle of the configured dimensions: [gridSize] rows of
    [gridSize] entries each. *)
Definition is_square (sv : SudokuDLXSolver) (puzzle : grid) : bool :=
  (length puzzle =? gridSize sv)
  && forallb (fun row => length row =? gridSize sv) puzzle.

(** [grid[r][c]], 0 when there is no such cell. *)
Definition cell (g : grid) (r c : nat) : Z := nth c (nth r g []) 0%Z.

(** The cells of row [r], of column [c] and of block [b] of a grid;
    block [b] lies at block-row [b / blockSize] and block-column
    [b mod blockSize]. *)
Definition row_cells (sv : SudokuDLXSolver) (g : grid) (r : nat) : list Z :=
  map (fun c => cell g r c) (seq 0 (gridSize sv)).
Definition column_cells (sv : SudokuDLXSolver) (g : grid) (c : nat) : list Z :=
  map (fun r => cell g r c) (seq 0 (gridSize sv)).
Definition block_cells (sv : SudokuDLXSolver) (g : grid) (b : nat) : list Z :=
  flat_map (fun l =>
    map (fun k => cell g (b / blockSize sv * blockSize sv + l)
                         (b mod blockSize sv * blockSize sv + k))
      (seq 0 (blockSize sv))) (seq 0 (blockSize sv)).

(** Each of the digits 1..gridSize occurs exactly once in [cells]. *)
Definition each_digit_once (sv : SudokuDLXSolver) (cells : list Z) : bool :=
  forallb (fun d => count_occ Z.eq_dec cells (Z.of_nat d) =? 1)
    (seq 1 (gridSize sv)).

(** A fully solved valid grid: N x N, and each digit exactly once in
    every row, column and block. *)
Definition is_solved (sv : SudokuDLXSolver) (g : grid) : bool :=
  is_square sv g
  && forallb (fun i => each_digit_once sv (row_cells sv g i)
                       && each_digit_once sv (column_cells sv g i)
                       && each_digit_once sv (block_cells sv g i))
       (seq 0 (gridSize sv)).

(** [g] keeps every given digit of [puzzle]. *)
Definition extends (sv : SudokuDLXSolver) (puzzle g : grid) : bool :=
  forallb (fun r =>
    forallb (fun c => (cell puzzle r c =? 0)%Z || (cell puzzle r c =? cell g r c)%Z)
      (seq 0 (gridSize sv))) (seq 0 (gridSize sv)).

(** A valid completion of a puzzle. *)
Definition valid_completion (sv : SudokuDLXSolver) (puzzle g : grid) : bool :=
  is_solved sv g && extends sv puzzle g.

(** The entries of a puzzle are in 0..gridSize. *)
Definition entries_in_range (sv : SudokuDLXSolver) (puzzle : grid) : bool :=
  forallb (forallb (fun v => (0 <=? v)%Z && (v <=? Z.of_nat (gridSize sv))%Z)) puzzle.

(** The metadata that [buildDLXLinkedList] stores in the nodes that it
    creates for matrix row [i]: the value of [id] after the update at
    the head of iteration [i]. *)
Definition row_id (sv : SudokuDLXSolver) (i : nat) : Z * Z * Z :=
  fold_left (fun id i' => next_id sv i' id) (seq 0 (S i)) (0, 1, 1)%Z.

(** The convention of the specification for the matrix rows: one group
    of [cellCount] rows per digit, and within a group the index
    [cellRowIndex * gridSize + cellColIndex].  Under it, matrix row [i]
    would carry the metadata (digit, row + 1, col + 1) below. *)
Definition spec_row_metadata (sv : SudokuDLXSolver) (i : nat) : Z * Z * Z :=
  (Z.of_nat (i / cellCount sv + 1),
   Z.of_nat (i mod cellCount sv / gridSize sv + 1),
   Z.of_nat (i mod gridSize sv + 1)).

(** The convention of the source: one group of [cellCount] rows per
    grid row, within it one run of [gridSize] rows per grid column, and
    within the run one row per digit. *)
Definition code_row_metadata (sv : SudokuDLXSolver) (i : nat) : Z * Z * Z :=
  (Z.of_nat (i mod gridSize sv + 1),
   Z.of_nat (i / cellCount sv + 1),
   Z.of_nat (i / gridSize sv mod gridSize sv + 1)).

(** The torus after [coverColumn] on each column of [cols] in turn,
    from the torus as built. *)
Definition covered_torus (sv : SudokuDLXSolver) (cols : list nat) : result heap :=
  let* b := initial_torus sv in
  fold_left (fun r c => let* h := r in coverColumn (ring_fuel sv) c h)
    cols (Ok b.2).

(** The columns of [cols] uncovered in turn. *)
Definition uncovered (sv : SudokuDLXSolver) (cols : list nat) (h : heap) : result heap :=
  fold_left (fun r c => let* h := r in uncoverColumn (ring_fuel sv) c h)
    cols (Ok h).


(** ** The shape of the exact-cover matrix *)

(** The entry [(i, j)] of a matrix, [false] outside of it. *)
Definition mat (M : matrix) (i j : nat) : bool := nth j (nth i M []) false.

(** The number of true entries of row [i], and of column [j]. *)
Definition row_count (M : matrix) (i : nat) : nat :=
  count_occ bool_dec (nth i M []) true.
Definition column_count (M : matrix) (j : nat) : nat :=
  count_occ bool_dec (map (fun row => nth j row false) M) true.

(** The sizes of the object that [construct] builds for the size
    [k * k]: they are the [int] members of the object for [k] up to
    35, where [gridSize * cellCount] does not overflow. *)
Definition solver (k : nat) : SudokuDLXSolver :=
  mkSolver (k * k) k (k * k * (k * k)) (k * k * (k * k * (k * k)))
    (4 * (k * k * (k * k))).

(** The matrix row of digit [d + 1] in the cell [(r, c)]. *)
Definition row_index (sv : SudokuDLXSolver) (r c d : nat) : nat :=
  r * cellCount sv + c * gridSize sv + d.

(** The block of the cell [(r, c)]. *)
Definition block_of (sv : SudokuDLXSolver) (r c : nat) : nat :=
  r / blockSize sv * blockSize sv + c / blockSize sv.

(** The matrix columns of the four constraints on digit [d + 1] in the
    cell [(r, c)]: the cell is filled, the digit is in row [r], the
    digit is in column [c], the digit is in the block of the cell. *)
Definition cell_column (sv : SudokuDLXSolver) (r c : nat) : nat :=
  r * gridSize sv + c.
Definition row_column (sv : SudokuDLXSolver) (r d : nat) : nat :=
  cellCount sv + r * gridSize sv + d.
Definition col_column (sv : SudokuDLXSolver) (c d : nat) : nat :=
  2 * cellCount sv + c * gridSize sv + d.
Definition block_column (sv : SudokuDLXSolver) (r c d : nat) : nat :=
  3 * cellCount sv + block_of sv r c * gridSize sv + d.

(** The grid row, the grid column and the digit (less one) of a matrix
    row. *)
Definition row_r (sv : SudokuDLXSolver) (i : nat) : nat := i / cellCount sv.
Definition row_c (sv : SudokuDLXSolver) (i : nat) : nat :=
  i mod cellCount sv / gridSize sv.
Definition row_d (sv : SudokuDLXSolver) (i : nat) : nat := i mod gridSize sv.

(** The true entries of matrix row [i], as the four loops of
    [buildExactCoverMatrix] place them. *)
Definition entry1 (sv : SudokuDLXSolver) (i j : nat) : bool :=
  j =? cell_column sv (row_r sv i) (row_c sv i).
Definition entry2 (sv : SudokuDLXSolver) (i j : nat) : bool :=
  j =? row_column sv (row_r sv i) (row_d sv i).
Definition entry3 (sv : SudokuDLXSolver) (i j : nat) : bool :=
  j =? col_column sv (row_c sv i) (row_d sv i).
Definition entry4 (sv : SudokuDLXSolver) (i j : nat) : bool :=
  j =? block_column sv (row_r sv i) (row_c sv i) (row_d sv i).
Definition entry (sv : SudokuDLXSolver) (i j : nat) : bool :=
  entry1 sv i j || entry2 sv i j || entry3 sv i j || entry4 sv i j.

(** A matrix of [rows] rows of [cols] entries each. *)
Definition dims (rows cols : nat) (M : matrix) : Prop :=
  length M = rows /\ forall i, i < rows -> length (nth i M []) = cols.

(** ** Rings of nodes *)

(** The last node of [x :: l]. *)
Fixpoint last_of (x : nat) (l : list nat) : nat :=
  match l with
  | [] => x
  | y :: l' => last_of y l'
  end.

(** The first node of [l ++ [z]]. *)
Definition first_of (l : list nat) (z : nat) : nat :=
  match l with
  | [] => z
  | y :: _ => y
  end.

(** [seg nx pv x l z]: from [x], following [nx] visits the nodes of [l]
    in turn and then arrives at [z]; [pv] leads from each node of [l]
    back to the node before it. *)
Fixpoint seg (nx pv : nat -> nat) (x : nat) (l : list nat) (z : nat) : Prop :=
  match l with
  | [] => nx x = z
  | y :: l' => nx x = y /\ pv y = x /\ seg nx pv y l' z
  end.

(** The ring of the head [c] through the distinct nodes of [l], closed
    both ways. *)
Definition ring (nx pv : nat -> nat) (c : nat) (l : list nat) : Prop :=
  NoDup (c :: l) /\ seg nx pv c l c /\ pv c = last_of c l.

(** ** The torus, abstractly *)

(** The nodes of a torus: the root header, the column headers in the
    order of the matrix columns, and the nodes of each matrix row in
    the order of their creation. *)
Record torus : Type := mkTorus {
  t_root : nat;
  t_cols : list nat;
  t_rows : list (list nat)
}.

(** The position of [n] in a row. *)
Fixpoint index_in (n : nat) (row : list nat) : option nat :=
  match row with
  | [] => None
  | x :: r => if decide (x = n) then Some 0 else S <$> index_in n r
  end.

(** The other nodes of the row of [n], in the order in which the right
    links lead from [n] around the row. *)
Definition others_in (n : nat) (row : list nat) : list nat :=
  match index_in n row with
  | Some i => drop (S i) row ++ take i row
  | None => []
  end.

Definition row_of (T : torus) (n : nat) : list nat :=
  default [] (head (filter (fun row => n ∈ row) (t_rows T))).

Definition others (T : torus) (n : nat) : list nat := others_in n (row_of T n).

(** The nodes that [coverColumn] unlinks from their columns when the
    column holds the nodes [ns], in the order of unlinking. *)
Definition hidden_by (T : torus) (ns : list nat) : list nat :=
  concat (others T <$> ns).

(** Every row is a ring through its nodes, by the right and left links. *)
Definition rows_ok (T : torus) (h : heap) : Prop :=
  forall a n b, a ++ n :: b ∈ t_rows T ->
    ring (right_of h) (left_of h) n (b ++ a).

(** The nodes of a row lie in distinct columns. *)
Definition row_columns_ok (T : torus) (h : heap) : Prop :=
  forall row, row ∈ t_rows T ->
    NoDup (column_of h <$> row) /\ forall p, p ∈ row -> column_of h p ∈ t_cols T.

(** The column headers [hs] are linked, in this order, in the ring of
    the root by the right links; the left links lead back, except that
    the left link of the root is not constrained. *)
Definition header_ring_ok (T : torus) (hs : list nat) (h : heap) : Prop :=
  NoDup hs /\ (forall c, c ∈ hs -> c ∈ t_cols T)
  /\ seg (right_of h) (left_of h) (t_root T) hs (t_root T).

(** Every column, linked or covered, is a ring through the nodes
    [vr c] by the down and up links. *)
Definition column_rings_ok (T : torus) (vr : nat -> list nat) (h : heap) : Prop :=
  forall c, c ∈ t_cols T ->
    ring (down_of h) (up_of h) c (vr c)
    /\ forall p, p ∈ vr c -> column_of h p = c /\ p ∈ concat (t_rows T).

(** A row met in a linked column is linked in all its columns, and all
    its columns are linked. *)
Definition active_rows_ok (T : torus) (hs : list nat) (vr : nat -> list nat)
    (h : heap) : Prop :=
  forall c p row q, c ∈ hs -> p ∈ vr c -> row ∈ t_rows T -> p ∈ row -> q ∈ row ->
    q ∈ vr (column_of h q) /\ column_of h q ∈ hs.

(** The nodes [h] represent the torus [T] with the linked columns [hs]
    and the column rings [vr]. *)
Definition Rep (T : torus) (hs : list nat) (vr : nat -> list nat) (h : heap) : Prop :=
  NoDup (t_root T :: t_cols T ++ concat (t_rows T))
  /\ rows_ok T h /\ row_columns_ok T h
  /\ header_ring_ok T hs h /\ column_rings_ok T vr h /\ active_rows_ok T hs vr h.

(** Two states of the nodes that agree on every field but the left
    link of the root, which no loop of the solver reads. *)
Definition same_links (root : nat) (h h' : heap) : Prop :=
  forall p,
    right_of h p = right_of h' p /\ up_of h p = up_of h' p
    /\ down_of h p = down_of h' p /\ column_of h p = column_of h' p
    /\ size_of h p = size_of h' p /\ rowData_of h p = rowData_of h' p
    /\ (p <> root -> left_of h p = left_of h' p).

(** [c] is met by the loop [for (p = root->right; p != root; p = p->right)]:
    the column is linked in the ring of the root. *)
Inductive on_ring (nx : nat -> nat) (stop : nat) : nat -> nat -> Prop :=
| on_ring_here (p : nat) : p <> stop -> on_ring nx stop p p
| on_ring_next (p x : nat) : p <> stop -> on_ring nx stop (nx p) x -> on_ring nx stop p x.

Definition linked (root : nat) (h : heap) (c : nat) : Prop :=
  on_ring (right_of h) root (right_of h root) c.

(** The inner statements of [coverColumn] on the nodes [ts] in turn,
    and those of [uncoverColumn]. *)
Definition unlink_all (ts : list nat) (h : heap) : heap :=
  fold_left (fun h t => unlink_ud t h) ts h.
Definition relink_all (ts : list nat) (h : heap) : heap :=
  fold_left (fun h t => relink_ud t h) ts h.

(** The bound on the pointer loops suffices for the torus [T]. *)
Definition enough_fuel (T : torus) (fuel : nat) : Prop :=
  length (t_cols T) + length (concat (t_rows T)) < fuel.

(** ** The torus of a matrix *)

(** The three parts of [link_node]: the metadata, the links of the row
    and the links of the column. *)
Definition set_id (x : nat) (id : Z * Z * Z) (h : heap) : heap :=
  let h := set_rowData x (<[0 := id.1.1]> (rowData_of h x)) h in
  let h := set_rowData x (<[1 := id.1.2]> (rowData_of h x)) h in
  set_rowData x (<[2 := id.2]> (rowData_of h x)) h.

Definition link_row (x prev : nat) (h : heap) : heap :=
  let h := set_left x prev h in
  let h := set_right x (right_of h prev) h in
  let h := set_left (right_of h x) x h in
  set_right prev x h.

Definition link_column (x top : nat) (h : heap) : heap :=
  let h := set_column x top h in
  let h := set_down x top h in
  let h := set_up x (up_of h top) h in
  let h := set_down (up_of h top) x h in
  let h := set_size top (size_of h top + 1)%Z h in
  let h := set_up top x h in
  if down_of h top =? top then set_down top x h else h.

(** The columns of the true entries of matrix row [i], among the first
    [C] columns. *)
Definition row_entries (M : matrix) (C i : nat) : list nat :=
  filter (fun j => mat M i j = true) (seq 0 C).

(** Rows of consecutive nodes from [start] on, of the given lengths. *)
Fixpoint rows_from (start : nat) (counts : list nat) : list (list nat) :=
  match counts with
  | [] => []
  | k :: ks => seq start k :: rows_from (start + k) ks
  end.

(** The torus of the matrix [M] of [R] rows and [C] columns: the root
    is node 1, the column headers are the nodes 2 .. C + 1, and the
    nodes of the true entries follow row by row. *)
Definition matrix_torus (M : matrix) (R C : nat) : torus :=
  mkTorus 1 (seq 2 C)
    (rows_from (C + 2) ((fun i => length (row_entries M C i)) <$> seq 0 R)).

(** The nodes of a column of the torus, from the top. *)
Definition column_nodes (T : torus) (h : heap) (c : nat) : list nat :=
  filter (fun p => column_of h p = c) (concat (t_rows T)).

(** The metadata as the vector that a node stores. *)
Definition id_vector (id : Z * Z * Z) : list Z := [id.1.1; id.1.2; id.2].

(** The state of [allNodes] while [buildDLXLinkedList] creates the row
    nodes: the nodes of [rows] are linked, they are numbered in the
    order of their creation after the root and the [C] column headers,
    and the count of nodes is [a.1]. *)
Definition building (C : nat) (rows : list (list nat)) : torus :=
  mkTorus 1 (seq 2 C) rows.

Definition built (C : nat) (rows : list (list nat)) (a : nat * heap) : Prop :=
  a.1 = 1 + C + length (concat rows)
  /\ concat rows = seq (C + 2) (length (concat rows))
  /\ rows_ok (building C rows) a.2
  /\ row_columns_ok (building C rows) a.2
  /\ header_ring_ok (building C rows) (seq 2 C) a.2
  /\ column_rings_ok (building C rows) (column_nodes (building C rows) a.2) a.2.

(** The nodes of matrix row [i] carry the metadata of the row and lie
    in the columns of its true entries. *)
Definition labelled (sv : SudokuDLXSolver) (M : matrix) (C : nat)
    (rows : list (list nat)) (h : heap) : Prop :=
  forall i row, rows !! i = Some row ->
    (forall p, p ∈ row -> rowData_of h p = id_vector (row_id sv i))
    /\ column_of h <$> row = (fun j => j + 2) <$> row_entries M C i.

(** The column header that the loop over the matrix columns holds in
    [top] at column [j]. *)
Definition top_at (C j : nat) : nat := if j <? C then j + 2 else 1.

(** ** The torus of a Sudoku *)

(** The four matrix columns of matrix row [i], in increasing order: the
    cell, the digit in the row, the digit in the column, the digit in
    the block. *)
Definition row_columns (sv : SudokuDLXSolver) (i : nat) : list nat :=
  [cell_column sv (row_r sv i) (row_c sv i);
   row_column sv (row_r sv i) (row_d sv i);
   col_column sv (row_c sv i) (row_d sv i);
   block_column sv (row_r sv i) (row_c sv i) (row_d sv i)].

(** The four nodes of matrix row [i]: [allNodes] holds the root, the
    column headers and then four nodes for each matrix row. *)
Definition row_nodes (sv : SudokuDLXSolver) (i : nat) : list nat :=
  seq (exactCoverCols sv + 2 + 4 * i) 4.

Definition sudoku_torus (sv : SudokuDLXSolver) : torus :=
  mkTorus 1 (seq 2 (exactCoverCols sv))
    (row_nodes sv <$> seq 0 (exactCoverRows sv)).

(** ** What a node says about the grid *)

(** The digit, the row and the column (from 0) that the metadata of a
    node stand for. *)
Definition node_digit (h : heap) (p : nat) : Z := nth 0 (rowData_of h p) 0%Z.
Definition node_row (h : heap) (p : nat) : Z := (nth 1 (rowData_of h p) 0 - 1)%Z.
Definition node_col (h : heap) (p : nat) : Z := (nth 2 (rowData_of h p) 0 - 1)%Z.

(** A node, not [nullptr], whose metadata address a cell of a grid of
    [N] rows and [N] columns. *)
Definition addresses_cell (N : nat) (h : heap) (p : nat) : Prop :=
  p <> 0 /\ 3 <= length (rowData_of h p)
  /\ (0 <= node_row h p < Z.of_nat N)%Z /\ (0 <= node_col h p < Z.of_nat N)%Z.

(** The last node of [l] that addresses the cell [(r, c)]. *)
Definition last_at (h : heap) (l : list nat) (r c : nat) : option nat :=
  last (filter (fun p => node_row h p = Z.of_nat r /\ node_col h p = Z.of_nat c) l).

(** A grid of [N] rows of [N] entries. *)
Definition square_grid (N : nat) (g : grid) : Prop :=
  length g = N /\ forall r, r < N -> length (nth r g []) = N.

(** ** States of the torus during a run *)

(** The nodes represent the torus [T] with the columns [hs] linked, in
    this order, in the ring of the root. *)
Definition well_formed (T : torus) (hs : list nat) (h : heap) : Prop :=
  exists vr, Rep T hs vr h.

(** Two states with the same [column] pointers and metadata everywhere
    and the same right and left links of the row nodes. *)
Definition same_rows (T : torus) (h h' : heap) : Prop :=
  (forall q, column_of h' q = column_of h q /\ rowData_of h' q = rowData_of h q)
  /\ forall q, q ∈ concat (t_rows T) ->
       right_of h' q = right_of h q /\ left_of h' q = left_of h q.

(** Every row node holds its three metadata. *)
Definition data_ok (T : torus) (h : heap) : Prop :=
  forall p, p ∈ concat (t_rows T) -> length (rowData_of h p) = 3.

(** The state of the solver while [applyInitialConstraints] runs on the
    torus [T]: some columns are linked, the vector of the clues has
    [cellCount] entries, and the vectors of the search are as [s0] has
    them. *)
Definition clues_state (T : torus) (cc : nat) (s0 s : state) : Prop :=
  rootHeader s = t_root T
  /\ (exists hs, well_formed T hs (allNodes s))
  /\ data_ok T (allNodes s)
  /\ length (fixedClues s) = cc
  /\ solution s = solution s0 /\ solutionCount s = solutionCount s0
  /\ solutions s = solutions s0.

(** ** The search *)

(** [coverColumn(q->column)] for the nodes [qs] in turn. *)
Fixpoint cover_nodes (fuel : nat) (qs : list nat) (h : heap) : result heap :=
  match qs with
  | [] => Ok h
  | q :: qs' =>
      let* h1 := coverColumn fuel (column_of h q) h in
      cover_nodes fuel qs' h1
  end.

(** The vector [solution], or [fixedClues]: the nodes [l], then
    [nullptr] up to the length [cc]. *)
Definition pad (cc : nat) (l : list nat) : list nat :=
  l ++ replicate (cc - length l) 0.

(** The columns of the row of the node [p]. *)
Definition row_cols (T : torus) (h : heap) (p : nat) : list nat :=
  column_of h <$> row_of T p.

(** The linked columns [hs] and the rows of the nodes [nodes] share the
    columns of the torus among them: each column is linked or lies in
    the row of exactly one of the nodes. *)
Definition partition_of (T : torus) (h : heap) (hs : list nat) (nodes : list nat)
    : Prop :=
  (forall p, p ∈ nodes -> p ∈ concat (t_rows T))
  /\ hs ++ concat (row_cols T h <$> nodes) ≡ₚ t_cols T.

(** The state of the solver on entry to [searchDLX] at depth
    [length chosen]: the columns [hs] are linked, [solution] holds the
    nodes [chosen], [fixedClues] holds the nodes [clues], and the
    [column] pointers and the metadata are those of [h0]. *)
Definition search_state (T : torus) (cc : nat) (clues : list nat) (h0 : heap)
    (hs chosen : list nat) (s : state) : Prop :=
  rootHeader s = t_root T
  /\ well_formed T hs (allNodes s)
  /\ (forall q, column_of (allNodes s) q = column_of h0 q
                /\ rowData_of (allNodes s) q = rowData_of h0 q)
  /\ solution s = pad cc chosen
  /\ fixedClues s = pad cc clues
  /\ partition_of T h0 hs (chosen ++ clues).

(** A result that is [Ok] with the property [P], or else a failure,
    which [allow_fail] admits or not. *)
Definition outcome {A : Type} (allow_fail : Prop) (P : A -> Prop) (r : result A)
    : Prop :=
  match r with
  | Ok a => P a
  | Fail _ => allow_fail
  end.

(** ** Clues and grids *)

(** The node [p] stands for a given digit of the puzzle: its metadata
    name a cell and the positive entry of the puzzle there. *)
Definition clue_of (puzzle : grid) (h : heap) (p : nat) : Prop :=
  exists i j, node_row h p = Z.of_nat i /\ node_col h p = Z.of_nat j
    /\ node_digit h p = cell puzzle i j /\ (0 < cell puzzle i j)%Z.

(** The grid [g] holds the digit of the node [p] in the cell of [p]. *)
Definition keeps_node (h : heap) (g : grid) (p : nat) : Prop :=
  cell g (Z.to_nat (node_row h p)) (Z.to_nat (node_col h p)) = node_digit h p.

(** The state of the loops of [applyInitialConstraints]. *)
Definition clues_inv (T : torus) (cc : nat) (puzzle : grid) (h0 : heap) (s0 : state)
    (st : nat * state) : Prop :=
  exists clues hs,
    st.1 = length clues
    /\ search_state T cc clues h0 hs [] st.2
    /\ solutionCount st.2 = solutionCount s0 /\ solutions st.2 = solutions s0
    /\ Forall (clue_of puzzle h0) clues.

(** What the grids of [solve] are checked against: a solved grid that
    keeps the digit of each of the nodes [clues]. *)
Definition solved_with (sv : SudokuDLXSolver) (h : heap) (clues : list nat)
    (g : grid) : Prop :=
  is_solved sv g = true /\ forall p, p ∈ clues -> keeps_node h g p.

(** ** Completeness of the search *)

(** No row is hidden that need not be: when all the columns of a row
    are linked, each of its nodes is met by the loop down from the
    header of its column. *)
Definition complete (T : torus) (hs : list nat) (h : heap) : Prop :=
  forall row q, row ∈ t_rows T ->
    (forall q', q' ∈ row -> column_of h q' ∈ hs) -> q ∈ row ->
    on_ring (down_of h) (column_of h q) (down_of h (column_of h q)) q.

(** The rows of the nodes [sol] share out exactly the columns [hs]. *)
Definition exact_cover (T : torus) (h : heap) (hs sol : list nat) : Prop :=
  (forall p, p ∈ sol -> p ∈ concat (t_rows T))
  /\ concat (row_cols T h <$> sol) ≡ₚ hs.

(** The grids [new] hold one for each exact cover of the columns [hs],
    unless the limit is reached: [leaf nodes g] says that [g] is the
    grid of the leaf at which [solution] holds [nodes]. *)
Definition found (T : torus) (h0 : heap) (limit : Z)
    (leaf : list nat -> grid -> Prop) (hs chosen : list nat)
    (new : list grid) (count : Z) : Prop :=
  (count < limit)%Z ->
  forall sol, exact_cover T h0 hs sol ->
    exists ext g,
      row_of T <$> ext ≡ₚ row_of T <$> sol /\ g ∈ new /\ leaf (chosen ++ ext) g.

(** The columns that stay linked when the row of the node [t] is
    chosen. *)
Definition columns_without (T : torus) (h0 : heap) (hs : list nat) (t : nat)
    : list nat :=
  filter (fun x => x ∉ column_of h0 <$> row_of T t) hs.

(** What [searchDLX] finds from the state [s] with the columns [hs]
    linked, and what its loop over the rows [rest] of the selected
    column finds: grids of leaves below the chosen nodes, no grid
    twice, and a grid for each exact cover if no row is hidden that
    need not be. *)
Definition found_from (T : torus) (h0 : heap) (limit : Z)
    (leaf : list nat -> grid -> Prop) (hs chosen : list nat) (h : heap)
    (new : list grid) (count : Z) : Prop :=
  Forall (fun g => exists ext, leaf (chosen ++ ext) g) new
  /\ NoDup new
  /\ (complete T hs h -> found T h0 limit leaf hs chosen new count).

Definition found_rows (T : torus) (h0 : heap) (limit : Z)
    (leaf : list nat -> grid -> Prop) (hs hs1 chosen : list nat) (h1 : heap)
    (rest : list nat) (new : list grid) (count : Z) : Prop :=
  Forall (fun g => exists t ext, t ∈ rest /\ leaf (chosen ++ t :: ext) g) new
  /\ NoDup new
  /\ (complete T hs1 h1 ->
      forall t, t ∈ rest ->
        found T h0 limit leaf (columns_without T h0 hs t) (chosen ++ [t]) new count).

(** What a call of [searchDLX] does to the state [s]: it restores the
    nodes, but for the left link of the root, and the vectors, and it
    adds the grids [new] to the solutions.  Each of them is the grid
    of a leaf, and [Found] holds of them. *)
Definition search_result (T : torus) (limit : Z) (leaf : list nat -> grid -> Prop)
    (Found : list grid -> Z -> Prop) (s s' : state) : Prop :=
  same_links (t_root T) (allNodes s') (allNodes s)
  /\ rootHeader s' = rootHeader s
  /\ solution s' = solution s /\ fixedClues s' = fixedClues s
  /\ exists new,
       solutions s' = solutions s ++ new
       /\ solutionCount s' = (solutionCount s + Z.of_nat (length new))%Z
       /\ Forall (fun g => exists nodes, leaf nodes g) new
       /\ ((solutionCount s <= limit)%Z -> (solutionCount s' <= limit)%Z)
       /\ Found new (solutionCount s').


(** The grid of a leaf of the search of a Sudoku: a solved grid that
    keeps the digit of each chosen node and of each clue. *)
Definition sudoku_leaf (sv : SudokuDLXSolver) (h : heap) (clues : list nat)
    (nodes : list nat) (g : grid) : Prop :=
  solved_with sv h (nodes ++ clues) g
  /\ forall p, p ∈ nodes -> p ∈ concat (t_rows (sudoku_torus sv)).

(** ** A grid as a choice of rows of the matrix *)

(** The cell of index [n], counting the cells row by row, holds a
    given digit of the puzzle. *)
Definition given (N : nat) (puzzle : grid) (n : nat) : Prop :=
  (0 < cell puzzle (n / N) (n mod N))%Z.

(** The first node of the matrix row that stands for the digit of the
    grid [G] in the cell of index [n]. *)
Definition grid_node (sv : SudokuDLXSolver) (G : grid) (n : nat) : nat :=
  exactCoverCols sv + 2
  + 4 * row_index sv (n / gridSize sv) (n mod gridSize sv)
          (Z.to_nat (cell G (n / gridSize sv) (n mod gridSize sv)) - 1).

(** The index of the cell that a node addresses. *)
Definition cell_index (N : nat) (h : heap) (p : nat) : nat :=
  Z.to_nat (node_row h p) * N + Z.to_nat (node_col h p).

#[global] Instance given_dec (N : nat) (puzzle : grid) (n : nat)
    : Decision (given N puzzle n) :=
  Z_lt_dec 0 (cell puzzle (n / N) (n mod N)).

(** The state of the loops of [applyInitialConstraints] on a puzzle
    that the solved grid [G] completes, when the cells before the cell
    [n] have been visited: the clues recorded are the rows of [G] for
    the given digits, in the order of the cells. *)
Definition located_inv (sv : SudokuDLXSolver) (puzzle G : grid) (h0 : heap)
    (s0 : state) (n : nat) (st : nat * state) : Prop :=
  exists clues hs,
    st.1 = length clues
    /\ search_state (sudoku_torus sv) (cellCount sv) clues h0 hs [] st.2
    /\ complete (sudoku_torus sv) hs (allNodes st.2)
    /\ solutionCount st.2 = solutionCount s0 /\ solutions st.2 = solutions s0
    /\ row_of (sudoku_torus sv) <$> clues
       = (fun n' => row_of (sudoku_torus sv) (grid_node sv G n'))
           <$> filter (given (gridSize sv) puzzle) (seq 0 n).

(** The cells of indices [n] and [n'] are two cells of one row, column
    or block that hold the same given digit. *)
Definition clash (sv : SudokuDLXSolver) (puzzle : grid) (n n' : nat) : bool :=
  let N := gridSize sv in
  (0 <? cell puzzle (n / N) (n mod N))%Z
  && (cell puzzle (n / N) (n mod N) =? cell puzzle (n' / N) (n' mod N))%Z
  && negb (n =? n')
  && ((n / N =? n' / N) || (n mod N =? n' mod N)
      || (block_of sv (n / N) (n mod N) =? block_of sv (n' / N) (n' mod N))).

(** No digit is given twice in a row, a column or a block. *)
Definition consistent (sv : SudokuDLXSolver) (puzzle : grid) : bool :=
  forallb (fun n => forallb (fun n' => negb (clash sv puzzle n n'))
                      (seq 0 (cellCount sv)))
    (seq 0 (cellCount sv)).

(** The vector [fixedClues] when [applyInitialConstraints] has run on
    the torus as built. *)
Definition recorded_clues (sv : SudokuDLXSolver) (puzzle : grid)
    : result (list nat) :=
  let* b := initial_torus sv in
  let* s := applyInitialConstraints sv (ring_fuel sv) puzzle
              (mkState b.1 (replicate (cellCount sv) 0) (replicate (cellCount sv) 0)
                 b.2 0%Z []) in
  Ok (fixedClues s).
(** * The printing functions

    [printGrid] and [printSolutions] write to [std::cout].  The
    characters written are a list of characters, and the functions
    take the characters written so far and return them with what they
    have added.  A [std::string] is a list of characters as well.
    [grid[i][j]] is read as the vectors of the solver are: a read past
    the end of a row, undefined in the source, is [out_of_range]. *)

Abbreviation text := (list ascii).

Definition newline : ascii := "010"%char.

(** [std::cout << v] for an [int] and for a [size_t]: the decimal
    digits, after a minus sign for a negative number. *)
Definition print_int (v : Z) : text := String.list_ascii_of_string (pretty v).
Definition print_size (n : nat) : text := String.list_ascii_of_string (pretty n).

(** One round of the loop that builds the two borders. *)
Definition border_step (gridSize blockSize : nat) (st : text * text * nat) (i : nat)
    : text * text * nat :=
  let '(outerBorder, innerBorder, blockCounter) := st in
  let outerBorder := outerBorder ++ ["-"%char] in
  let separatorPosition :=
    (blockSize * 2 + blockSize * (if 9 <? gridSize then 1 else 0) + 1) * blockCounter
    + blockCounter - 1 in
  if (0 <? i) && (i mod separatorPosition =? 0)
  then (outerBorder, innerBorder ++ ["+"%char], blockCounter + 1)
  else (outerBorder, innerBorder ++ ["-"%char], blockCounter).

(** [outerBorder] and [innerBorder] as [printGrid] prints them. *)
Definition borders (gridSize blockSize : nat) : text * text :=
  let extraSpacing := if 9 <? gridSize then gridSize else 0 in
  let borderLength := (gridSize + blockSize - 1) * 2 + extraSpacing + 1 in
  let '(outerBorder, innerBorder, _) :=
    fold_left (border_step gridSize blockSize) (seq 0 borderLength)
      (["+"%char], ["|"%char], 1) in
  (outerBorder ++ ["+"%char], innerBorder ++ ["|"%char]).

(** The cell [grid[i][j]], [row] being [grid[i]]. *)
Definition print_cell (gridSize blockSize : nat) (row : list Z) (j : nat) (out : text)
    : result text :=
  let extraSpacing := if 9 <? gridSize then gridSize else 0 in
  let* v := vget row j in
  let out := if (v =? 0)%Z then out ++ ["."%char] else out ++ print_int v in
  let out := out ++ [" "%char] in
  let out := if (0 <? extraSpacing) && (v <? 10)%Z then out ++ [" "%char] else out in
  Ok (if (j + 1) mod blockSize =? 0 then out ++ ["|"; " "]%char else out).

(** The row [grid[i]], and the inner border after the last row of a
    block that is not the last block. *)
Definition print_row (gridSize blockSize : nat) (innerBorder : text) (grid : grid)
    (i : nat) (out : text) : result text :=
  let out := out ++ ["|"; " "]%char in
  let* row := vget grid i in
  let* out := for_range gridSize 0 (print_cell gridSize blockSize row) out in
  let out := out ++ [newline] in
  Ok (if ((i + 1) mod blockSize =? 0) && (i + 1 <? gridSize)
      then out ++ innerBorder ++ [newline] else out).

(** [std::sqrt] of a size is exact on the squares, and its truncation
    to [int] is the integer square root. *)
Definition printGrid (grid : grid) (out : text) : result text :=
  if decide (grid = []) then Ok out
  else
    let gridSize := length grid in
    let blockSize := Nat.sqrt gridSize in
    if negb (blockSize * blockSize =? gridSize) then Ok out
    else
      let '(outerBorder, innerBorder) := borders gridSize blockSize in
      let out := out ++ outerBorder ++ [newline] in
      let* out := for_range gridSize 0
                    (print_row gridSize blockSize innerBorder grid) out in
      Ok (out ++ outerBorder ++ [newline; newline]).

(** [printLimit] is cast to [size_t], 64 bits wide. *)
Definition printSolutions (solutions : list grid) (printLimit : Z) (out : text)
    : result text :=
  let count := Z.to_nat (Z.min (printLimit mod 2 ^ 64) (Z.of_nat (length solutions))) in
  for_range count 0
    (fun i out =>
       let out := out ++ String.list_ascii_of_string "Solution " ++ print_size (i + 1)
                      ++ [":"%char; newline] in
       let* g := vget solutions i in
       printGrid g out)
    out.

(** ** The lines of a printed grid *)

(** The lines, each followed by a new line. *)
Definition unlines (ls : list text) : text :=
  concat ((fun l => l ++ [newline]) <$> ls).

(** The character at the position [p] of a line separates two blocks. *)
Definition separator_at (l : text) (p : nat) : bool :=
  match l !! p with
  | Some c => bool_decide (c = "|"%char) || bool_decide (c = "+"%char)
  | None => false
  end.

(** The width of a block of cells in a printed row, with the separator
    that follows it. *)
Definition block_width (gridSize blockSize : nat) : nat :=
  (if 9 <? gridSize then 3 else 2) * blockSize + 2.

(** The separators of a line stand at the multiples of [W], and only
    there. *)
Definition aligned (W : nat) (l : text) : Prop :=
  forall p, p < length l -> (separator_at l p = true <-> p mod W = 0).

(** The largest entry that [printGrid] prints in the width of a cell. *)
Definition widest_entry (gridSize : nat) : Z := if 9 <? gridSize then 99%Z else 9%Z.

(** The grids [gs] printed one after the other under the headings
    [Solution k:], [Solution k + 1:] and so on. *)
Fixpoint print_numbered (k : nat) (gs : list grid) (out : text) : result text :=
  match gs with
  | [] => Ok out
  | g :: gs =>
      let* out := printGrid g (out ++ String.list_ascii_of_string "Solution "
                                   ++ print_size k ++ [":"%char; newline]) in
      print_numbered (S k) gs out
  end.
(** * Theorems *)

(** ** The constructor *)

Lemma construct_solver4 :
  exists o, construct 4 = Ok o /\ sizes_of o = solver4
    /\ Object.solution o = replicate 16 0 /\ Object.fixedClues o = replicate 16 0.
Proof. eexists. split; [reflexivity |]. repeat split. Qed.

Lemma wrap_int_small (z : Z) : (- 2 ^ 31 <= z < 2 ^ 31)%Z -> wrap_int z = z.
Proof.
  intros H. unfold wrap_int. rewrite Z.mod_small by lia. lia.
Qed.

Lemma wrap_int_range (z : Z) : (- 2 ^ 31 <= wrap_int z < 2 ^ 31)%Z.
Proof.
  unfold wrap_int. pose proof (Z.mod_pos_bound (z + 2 ^ 31) (2 ^ 32) ltac:(lia)). lia.
Qed.

Lemma new_pointers_outcome (n : Z) :
  (- 2 ^ 31 <= n < 2 ^ 31)%Z ->
  new_pointers n = if (n <? 0)%Z then Fail length_error else Ok (replicate (Z.to_nat n) 0).
Proof.
  intros Hn. unfold new_pointers, pointers_max_size.
  assert (Hmax : (2 ^ 31 <= (2 ^ 63 - 1) / 8 < 2 ^ 63)%Z).
  { split; [apply Z.div_le_lower_bound; lia | apply Z.div_lt_upper_bound; lia]. }
  destruct (Z.ltb_spec n 0) as [Hneg | Hpos].
  - assert (E : (n mod 2 ^ 64 = n + 2 ^ 64)%Z).
    { symmetry. apply (Z.mod_unique _ _ (-1)); lia. }
    rewrite E. destruct (Z.ltb_spec ((2 ^ 63 - 1) / 8) (n + 2 ^ 64)); [reflexivity | lia].
  - rewrite Z.mod_small by lia.
    destruct (Z.ltb_spec ((2 ^ 63 - 1) / 8) n); [lia | reflexivity].
Qed.

(** The constructor on a size whose square fits an [int]. *)
Lemma construct_small (s : Z) :
  (0 <= s <= 46340)%Z ->
  construct s
  = if (Z.sqrt s * Z.sqrt s =? s)%Z
    then Ok (Object.mk s (Z.sqrt s) (s * s) (wrap_int (s * (s * s)))
               (wrap_int (4 * (s * s))) 0
               (replicate (Z.to_nat (s * s)) 0) (replicate (Z.to_nat (s * s)) 0) 0)
    else Fail invalid_argument.
Proof.
  intros Hs. unfold construct.
  assert (Hss : (0 <= s * s < 2 ^ 31)%Z) by nia.
  rewrite (wrap_int_small (s * s)) by lia.
  rewrite new_pointers_outcome by lia.
  destruct (Z.ltb_spec (s * s) 0) as [| _]; [lia |]. cbn [bind].
  pose proof (Z.sqrt_spec s ltac:(lia)) as [Hq _]. pose proof (Z.sqrt_nonneg s) as Hq0.
  assert (Hqq : (0 <= Z.sqrt s * Z.sqrt s)%Z) by (apply Z.mul_nonneg_nonneg; exact Hq0).
  rewrite (wrap_int_small (Z.sqrt s * Z.sqrt s)) by lia.
  destruct (Z.sqrt s * Z.sqrt s =? s)%Z; reflexivity.
Qed.

(** C6 (evaluation at the failing input).  A puzzle of four rows whose
    second row has three entries is not 4 x 4, yet [solve] does not
    reject it: the validation reads the length of the first row only,
    and the clue applicator then reads [puzzle[1][3]] past the end of
    the row. *)
Theorem solve_accepts_ragged_puzzle :
  let puzzle := [[0; 0; 0; 0]; [0; 0; 0]; [0; 0; 0; 0]; [0; 0; 0; 0]]%Z in
  is_square solver4 puzzle = false
  /\ dimensions_ok solver4 puzzle = true
  /\ solve solver4 puzzle 1 = Fail out_of_range.
Proof. vm_compute. auto. Qed.

(** C7 (counterexample).  216 x 216 = 46656 is a square, yet the
    constructor does not succeed on it, and 50000 is not a square,
    yet the constructor does not throw [invalid_argument] on it: the
    square of either size does not fit an [int], [cellCount] is
    negative, and the constructor of the vector [solution] throws
    [std::length_error] before the body tests the size. *)
Theorem construct_large_size_length_error :
  construct (216 * 216) = Fail length_error
  /\ construct 50000 = Fail length_error
  /\ wrap_int (46656 * 46656) = (-2118184960)%Z.
Proof. vm_compute. auto. Qed.

(** C7.  On the sizes up to 46340, whose square fits an [int], the
    constructor succeeds on every square [k * k] with [2 <= k] (these
    are the [k] up to 215), throws [std::invalid_argument] on every
    positive size that is not a square, and has no other outcome.  On
    an [int] whatever, it succeeds, throws [std::invalid_argument] or
    throws [std::length_error]. *)
Theorem construct_outcomes :
  (forall k : Z, (2 <= k <= 215)%Z ->
     exists o, construct (k * k) = Ok o
       /\ Object.gridSize o = (k * k)%Z /\ Object.blockSize o = k
       /\ Object.cellCount o = (k * k * (k * k))%Z)
  /\ (forall s : Z, (0 < s <= 46340)%Z -> (forall k : Z, (k * k)%Z <> s) ->
       construct s = Fail invalid_argument)
  /\ (forall s : Z, (0 < s <= 46340)%Z ->
       (exists o, construct s = Ok o) \/ construct s = Fail invalid_argument)
  /\ (forall s : Z, (- 2 ^ 31 <= s < 2 ^ 31)%Z ->
       (exists o, construct s = Ok o) \/ construct s = Fail invalid_argument
       \/ construct s = Fail length_error).
Proof.
  split; [| split; [| split]].
  - intros k Hk. rewrite construct_small by nia.
    assert (Hs : Z.sqrt (k * k) = k) by (apply Z.sqrt_square; lia).
    rewrite Hs, Z.eqb_refl. eexists. split; [reflexivity |]. cbn. auto.
  - intros s Hs Hns. rewrite construct_small by lia.
    destruct (Z.eqb_spec (Z.sqrt s * Z.sqrt s) s) as [E | E]; [| reflexivity].
    exfalso. apply (Hns (Z.sqrt s)). exact E.
  - intros s Hs. rewrite construct_small by lia.
    destruct (Z.sqrt s * Z.sqrt s =? s)%Z; [left; eexists; reflexivity | right; reflexivity].
  - intros s Hs. unfold construct.
    rewrite new_pointers_outcome by apply wrap_int_range.
    destruct (wrap_int (s * s) <? 0)%Z; cbn [bind]; [right; right; reflexivity |].
    destruct (negb _); [right; left; reflexivity | left; eexists; reflexivity].
Qed.

Lemma construct_outcomes_witness :
  (exists o, construct (3 * 3) = Ok o
     /\ Object.gridSize o = (3 * 3)%Z /\ Object.blockSize o = 3%Z
     /\ Object.cellCount o = (3 * 3 * (3 * 3))%Z)
  /\ construct 5 = Fail invalid_argument
  /\ ((exists o, construct 7 = Ok o) \/ construct 7 = Fail invalid_argument)
  /\ ((exists o, construct (-4) = Ok o) \/ construct (-4) = Fail invalid_argument
      \/ construct (-4) = Fail length_error).
Proof.
  split; [| split; [| split]].
  - apply (proj1 construct_outcomes 3%Z). lia.
  - apply (proj1 (proj2 construct_outcomes) 5%Z); [lia |].
    intros k Hk.
    assert (k <= -3 \/ k = -2 \/ k = -1 \/ k = 0 \/ k = 1 \/ k = 2 \/ 3 <= k)%Z
      as [H | [H | [H | [H | [H | [H | H]]]]]] by lia;
      try (subst k; discriminate Hk); nia.
  - apply (proj1 (proj2 (proj2 construct_outcomes)) 7%Z). lia.
  - apply (proj2 (proj2 (proj2 construct_outcomes)) (-4)%Z). lia.
Defined.

(** ** Runs on the 4 x 4 solver *)

(** C8 (evaluation at the failing input).  On the empty 4 x 4 puzzle
    the search fills all 16 entries of [solution]; the first loop of
    [mapSolutionToGrid] then looks for a [nullptr] past the end of the
    vector, so [solve] does not return a sequence of grids. *)
Theorem solve_empty_puzzle_overruns_solution :
  let puzzle := replicate 4 (replicate 4 0%Z) in
  is_square solver4 puzzle = true
  /\ entries_in_range solver4 puzzle = true
  /\ solve solver4 puzzle 1 = Fail out_of_range.
Proof. vm_compute. auto. Qed.

(** C9 (evaluation at the failing input).  On a fully solved valid
    grid all 16 entries of [fixedClues] are set; the second loop of
    [mapSolutionToGrid] then looks for a [nullptr] past the end of the
    vector, so [solve] does not return the grid. *)
Theorem solve_full_grid_overruns_fixedClues :
  let G := [[1; 2; 3; 4]; [3; 4; 1; 2]; [2; 1; 4; 3]; [4; 3; 2; 1]]%Z in
  is_solved solver4 G = true
  /\ solve solver4 G 1 = Fail out_of_range.
Proof. vm_compute. auto. Qed.

(** C4 (evaluation at the failing input).  The builder never sets the
    left link of the root header, which stays the root itself.
    Covering and then uncovering the last column header (node 65)
    leaves that link pointing to the column: it is not restored. *)
Theorem cover_uncover_last_column_changes_root_left :
  (let* b := initial_torus solver4 in
   let* h1 := coverColumn (ring_fuel solver4) 65 b.2 in
   let* h2 := uncoverColumn (ring_fuel solver4) 65 h1 in
   Ok (b.1, right_of b.2 65, left_of b.2 b.1, left_of h2 b.1))
  = Ok (1, 1, 1, 65).
Proof. vm_compute. reflexivity. Qed.

(** C1 (counterexample).  The puzzle gives the digit 1 twice in its
    first row, so it has no valid completion.  The node of the second
    clue is no longer linked when the clue is looked up, the clue is
    skipped, and the search completes the puzzle without it: [solve]
    returns a grid. *)
Lemma solve_skips_conflicting_clue :
  let puzzle := [[1; 1; 0; 0]; [0; 0; 0; 0]; [0; 0; 0; 0]; [0; 0; 0; 0]]%Z in
  is_square solver4 puzzle = true
  /\ entries_in_range solver4 puzzle = true
  /\ (forall g, valid_completion solver4 puzzle g = false)
  /\ solve solver4 puzzle 1
     = Ok [[[1; 2; 3; 4]; [3; 4; 1; 2]; [2; 1; 4; 3]; [4; 3; 2; 1]]%Z].
Proof.
  cbv zeta. split; [reflexivity |]. split; [reflexivity |]. split.
  - intros g. destruct (valid_completion _ _ g) eqn:E; [exfalso | reflexivity].
    unfold valid_completion, is_solved in E.
    apply andb_true_iff in E as [E Hext].
    apply andb_true_iff in E as [_ Hall].
    assert (H00 : cell g 0 0 = 1%Z /\ cell g 0 1 = 1%Z).
    { unfold extends in Hext. rewrite forallb_forall in Hext.
      specialize (Hext 0). rewrite forallb_forall in Hext.
      split.
      - specialize (Hext ltac:(cbn; auto) 0 ltac:(cbn; auto)).
        change ((1 =? cell g 0 0)%Z = true) in Hext.
        apply Z.eqb_eq in Hext. auto.
      - specialize (Hext ltac:(cbn; auto) 1 ltac:(cbn; auto)).
        change ((1 =? cell g 0 1)%Z = true) in Hext.
        apply Z.eqb_eq in Hext. auto. }
    destruct H00 as [H00 H01].
    rewrite forallb_forall in Hall. specialize (Hall 0 ltac:(cbn; auto)).
    apply andb_true_iff in Hall as [Hall _].
    apply andb_true_iff in Hall as [Hall _].
    unfold each_digit_once in Hall. rewrite forallb_forall in Hall.
    specialize (Hall 1 ltac:(cbn; auto)). apply Nat.eqb_eq in Hall.
    change (row_cells solver4 g 0)
      with [cell g 0 0; cell g 0 1; cell g 0 2; cell g 0 3] in Hall.
    rewrite H00, H01 in Hall.
    rewrite !(count_occ_cons_eq Z.eq_dec _ (eq_refl (Z.of_nat 1))) in Hall.
    discriminate Hall.
  - vm_compute. reflexivity.
Qed.

(** C10 (counterexample).  A negative limit does not reach the search:
    [solutions.reserve(searchLimit)] converts it to an unsigned size
    above [max_size()] and throws [std::length_error]. *)
Lemma solve_negative_limit_throws :
  let puzzle := replicate 4 (replicate 4 0%Z) in
  is_square solver4 puzzle = true
  /\ solve solver4 puzzle (-1) = Fail length_error.
Proof. vm_compute. auto. Qed.

(** C5 (counterexample).  After [coverColumn] on the first column
    header (node 2) has completed, the header still points right to
    node 3, whose left link is now the root (node 1); node 67, a node
    of a removed row, still points down to node 83, whose up link now
    skips it. *)
Lemma links_of_covered_nodes_are_one_way :
  (let* h := covered_torus solver4 [2] in
   Ok (right_of h 2, left_of h (right_of h 2),
       down_of h 67, up_of h (down_of h 67)))
  = Ok (3, 1, 83, 18).
Proof. vm_compute. reflexivity. Qed.

(** C3 (counterexample).  Matrix row 1 of the 4 x 4 solver is the row
    of digit 2 in cell (0, 0): its nodes (70..73) hang under the
    header of matrix column 0, the cell-occupied column of cell (0, 0),
    and store (2, 1, 1).  Under the convention of the specification it
    would be the row of digit 1 in cell (0, 1), with metadata (1, 1, 2). *)
Lemma row_index_convention_differs :
  (let* b := initial_torus solver4 in
   Ok (map (rowData_of b.2) [70; 71; 72; 73], map (column_of b.2) [70; 71; 72; 73]))
  = Ok ([[2; 1; 1]; [2; 1; 1]; [2; 1; 1]; [2; 1; 1]]%Z, [2; 19; 35; 51])
  /\ row_id solver4 1 = (2, 1, 1)%Z
  /\ spec_row_metadata solver4 1 = (1, 1, 2)%Z.
Proof. vm_compute. auto. Qed.

(** ** Counted loops *)

Lemma for_range_inv {St : Type} (P : nat -> St -> Prop)
    (body : nat -> St -> result St) (count lo : nat) (st : St) :
  P lo st ->
  (forall i s, lo <= i < lo + count -> P i s ->
     exists s', body i s = Ok s' /\ P (S i) s') ->
  exists s', for_range count lo body st = Ok s' /\ P (lo + count) s'.
Proof.
  revert lo st. induction count as [| n IH]; intros lo st H0 Hstep.
  - exists st. rewrite Nat.add_0_r. split; [reflexivity | exact H0].
  - destruct (Hstep lo st ltac:(lia) H0) as (s1 & E1 & P1).
    destruct (IH (S lo) s1 P1) as (s2 & E2 & P2).
    { intros i s Hi. apply Hstep. lia. }
    exists s2. cbn [for_range]. rewrite E1. cbn [bind].
    split; [exact E2 |]. replace (lo + S n) with (S lo + n) by lia. exact P2.
Qed.

Lemma for_step_inv {St : Type} (P : nat -> St -> Prop)
    (body : nat -> St -> result St) (step hi n : nat) :
  forall (x fuel : nat) (st : St),
  P 0 st ->
  (forall t s, t < n -> P t s ->
     exists s', body (x + t * step) s = Ok s' /\ P (S t) s') ->
  (forall t, t < n -> x + t * step < hi) ->
  hi <= x + n * step -> n < fuel ->
  exists s', for_step fuel x hi step body st = Ok s' /\ P n s'.
Proof.
  revert P. induction n as [| n IH]; intros P x fuel st H0 Hstep Hlt Hge Hfuel.
  - destruct fuel as [| f]; [lia |]. exists st. cbn [for_step].
    destruct (Nat.ltb_spec x hi); [lia |]. auto.
  - destruct fuel as [| f]; [lia |]. cbn [for_step].
    specialize (Hlt 0 ltac:(lia)) as Hx. rewrite Nat.mul_0_l, Nat.add_0_r in Hx.
    destruct (Nat.ltb_spec x hi); [| lia].
    destruct (Hstep 0 st ltac:(lia) H0) as (s1 & E1 & P1).
    rewrite Nat.mul_0_l, Nat.add_0_r in E1. rewrite E1. cbn [bind].
    apply (IH (fun t s => P (S t) s) (x + step) f s1 P1).
    + intros t s Ht HP. destruct (Hstep (S t) s ltac:(lia) HP) as (s' & E & HP').
      exists s'. split; [| exact HP'].
      rewrite <- E. f_equal. lia.
    + intros t Ht. specialize (Hlt (S t) ltac:(lia)). lia.
    + lia.
    + lia.
Qed.

(** ** Writing an entry of the matrix *)

Lemma dims_new_matrix (rows cols : nat) : dims rows cols (new_matrix rows cols).
Proof.
  unfold dims, new_matrix. split; [apply length_replicate |].
  intros i Hi. rewrite nth_lookup, lookup_replicate_2 by exact Hi.
  apply length_replicate.
Qed.

Lemma mat_new_matrix (rows cols i j : nat) : mat (new_matrix rows cols) i j = false.
Proof.
  unfold mat, new_matrix. rewrite !nth_lookup.
  destruct (replicate rows (replicate cols false) !! i) as [row |] eqn:E; cbn.
  - apply lookup_replicate in E as [-> _].
    destruct (replicate cols false !! j) as [b |] eqn:E'; cbn; [| reflexivity].
    apply lookup_replicate in E' as [-> _]. reflexivity.
  - destruct j; reflexivity.
Qed.

Lemma mset_ok (rows cols : nat) (M : matrix) (i j : nat) :
  dims rows cols M -> i < rows -> j < cols ->
  exists M', mset i j M = Ok M' /\ dims rows cols M'
    /\ forall i' j', mat M' i' j' = (i' =? i) && (j' =? j) || mat M i' j'.
Proof.
  intros [Hlen Hrow] Hi Hj. unfold mset, vget, vset.
  destruct (M !! i) as [row |] eqn:E.
  2:{ apply lookup_ge_None in E. lia. }
  assert (Hr : length row = cols).
  { rewrite <- (Hrow i Hi). rewrite nth_lookup, E. reflexivity. }
  cbn [bind]. destruct (decide (j < length row)) as [_ | Hn]; [| lia].
  cbn [bind]. destruct (decide (i < length M)) as [_ | Hn]; [| lia].
  eexists. split; [reflexivity |]. split.
  - split; [rewrite length_insert; exact Hlen |].
    intros i' Hi'. rewrite nth_lookup.
    destruct (decide (i' = i)) as [-> | Hne].
    + rewrite list_lookup_insert_eq by lia. cbn. rewrite length_insert. exact Hr.
    + rewrite list_lookup_insert_ne by congruence. rewrite <- nth_lookup.
      apply Hrow. exact Hi'.
  - intros i' j'. unfold mat. rewrite !(nth_lookup _ i').
    destruct (Nat.eqb_spec i' i) as [-> | Hne].
    + rewrite list_lookup_insert_eq by lia. rewrite E. cbn.
      rewrite !(nth_lookup _ j').
      destruct (Nat.eqb_spec j' j) as [-> | Hne'].
      * rewrite list_lookup_insert_eq by lia. reflexivity.
      * rewrite list_lookup_insert_ne by congruence. reflexivity.
    + rewrite list_lookup_insert_ne by congruence. reflexivity.
Qed.

(** ** Quotients and remainders of matrix row indices *)

Lemma divmod_intro (n q r : nat) :
  r < n -> (q * n + r) / n = q /\ (q * n + r) mod n = r.
Proof.
  intros Hr. split.
  - rewrite Nat.div_add_l by lia. rewrite Nat.div_small by exact Hr. lia.
  - rewrite Nat.add_comm, Nat.Div0.mod_add. apply Nat.mod_small. exact Hr.
Qed.

Lemma divmod_elim (n i : nat) :
  0 < n -> i = i / n * n + i mod n /\ i mod n < n.
Proof.
  intros Hn. split.
  - rewrite (Nat.div_mod_eq i n) at 1. lia.
  - apply Nat.mod_upper_bound. lia.
Qed.

Lemma divmod_succ (n i : nat) :
  0 < n ->
  (i mod n + 1 < n /\ (i + 1) / n = i / n /\ (i + 1) mod n = i mod n + 1)
  \/ (i mod n + 1 = n /\ (i + 1) / n = i / n + 1 /\ (i + 1) mod n = 0).
Proof.
  intros Hn. destruct (divmod_elim n i Hn) as [E Hlt].
  destruct (Nat.eq_dec (i mod n + 1) n) as [Heq | Hne].
  - right. split; [exact Heq |].
    replace (i + 1) with ((i / n + 1) * n + 0) by lia.
    apply divmod_intro. exact Hn.
  - left. split; [lia |].
    replace (i + 1) with (i / n * n + (i mod n + 1)) at 1 2 by lia.
    apply divmod_intro. lia.
Qed.

Section Indices.
Variable sv : SudokuDLXSolver.
Variable N : nat.
Hypothesis HN : gridSize sv = N.
Hypothesis Hcc : cellCount sv = N * N.
Hypothesis HNpos : 0 < N.

Lemma row_index_parts (r c d : nat) :
  c < N -> d < N ->
  row_r sv (row_index sv r c d) = r
  /\ row_c sv (row_index sv r c d) = c
  /\ row_d sv (row_index sv r c d) = d.
Proof.
  intros Hc Hd. unfold row_r, row_c, row_d, row_index. rewrite HN, Hcc.
  assert (Hcd : c * N + d < N * N) by nia.
  replace (r * (N * N) + c * N + d) with (r * (N * N) + (c * N + d)) by lia.
  destruct (divmod_intro (N * N) r (c * N + d) Hcd) as [E1 E2].
  destruct (divmod_intro N c d Hd) as [E3 E4].
  rewrite E1, E2, E3. split; [reflexivity |]. split; [reflexivity |].
  replace (r * (N * N) + (c * N + d)) with ((r * N + c) * N + d) by lia.
  apply divmod_intro. exact Hd.
Qed.

Lemma row_parts_index (i : nat) :
  i = row_index sv (row_r sv i) (row_c sv i) (row_d sv i)
  /\ row_c sv i < N /\ row_d sv i < N.
Proof.
  unfold row_r, row_c, row_d, row_index. rewrite HN, Hcc.
  assert (Hcc0 : 0 < N * N) by nia.
  destruct (divmod_elim (N * N) i Hcc0) as [E1 H1].
  destruct (divmod_elim N (i mod (N * N)) HNpos) as [E2 H2].
  assert (E3 : i mod (N * N) mod N = i mod N).
  { rewrite Nat.Div0.mod_mul_r.
    rewrite (Nat.mul_comm N (i / N mod N)), Nat.Div0.mod_add.
    apply Nat.Div0.mod_mod. }
  rewrite E3 in E2, H2. split; [lia |]. split; [| exact H2].
  apply Nat.Div0.div_lt_upper_bound. lia.
Qed.

Lemma row_r_bound (i : nat) : i < N * (N * N) -> row_r sv i < N.
Proof.
  intros Hi. unfold row_r. rewrite Hcc.
  apply Nat.Div0.div_lt_upper_bound. lia.
Qed.

Lemma row_index_bound (r c d : nat) :
  r < N -> c < N -> d < N -> row_index sv r c d < N * (N * N).
Proof. intros Hr Hc Hd. unfold row_index. rewrite HN, Hcc. nia. Qed.

Lemma div_gridSize (i : nat) :
  i / N = cell_column sv (row_r sv i) (row_c sv i).
Proof.
  destruct (row_parts_index i) as (E & Hc & Hd).
  unfold cell_column. rewrite HN. rewrite E at 1. unfold row_index.
  rewrite HN, Hcc.
  replace (row_r sv i * (N * N) + row_c sv i * N + row_d sv i)
    with ((row_r sv i * N + row_c sv i) * N + row_d sv i) by lia.
  apply divmod_intro. exact Hd.
Qed.

Lemma mod_cellCount (i : nat) :
  i mod (N * N) = row_c sv i * N + row_d sv i.
Proof.
  destruct (row_parts_index i) as (E & Hc & Hd).
  rewrite E at 1. unfold row_index. rewrite HN, Hcc.
  replace (row_r sv i * (N * N) + row_c sv i * N + row_d sv i)
    with (row_r sv i * (N * N) + (row_c sv i * N + row_d sv i)) by lia.
  apply divmod_intro. nia.
Qed.

(** A row index is its three parts. *)
Lemma row_index_eq (i r c d : nat) :
  c < N -> d < N ->
  i = row_index sv r c d <-> (row_r sv i = r /\ row_c sv i = c /\ row_d sv i = d).
Proof.
  intros Hc Hd. split.
  - intros ->. apply row_index_parts; assumption.
  - intros (<- & <- & <-). apply row_parts_index.
Qed.
End Indices.

(** ** Counting the true entries of a row and of a column *)

Lemma count_true_none (l : list bool) :
  (forall i, i < length l -> nth i l false = false) ->
  count_occ bool_dec l true = 0.
Proof.
  induction l as [| b l IH]; intros H; [reflexivity |].
  pose proof (H 0 ltac:(cbn; lia)) as H0. cbn in H0. subst b.
  rewrite count_occ_cons_neq by discriminate. apply IH.
  intros i Hi. apply (H (S i)). cbn. lia.
Qed.

Lemma count_true_clear (l : list bool) (p : nat) :
  nth p l false = true ->
  count_occ bool_dec l true = S (count_occ bool_dec (<[p := false]> l) true).
Proof.
  revert p. induction l as [| b l IH]; intros p Hp.
  - destruct p; discriminate Hp.
  - destruct p as [| p]; cbn in Hp.
    + subst b. cbn [insert list_insert]. change (<[0 := false]> (true :: l)) with (false :: l).
      rewrite count_occ_cons_eq by reflexivity.
      rewrite count_occ_cons_neq by discriminate. reflexivity.
    + change (<[S p := false]> (b :: l)) with (b :: <[p := false]> l).
      destruct b.
      * rewrite !(count_occ_cons_eq bool_dec _ (eq_refl true)).
        f_equal. apply IH. exact Hp.
      * rewrite !count_occ_cons_neq by discriminate. apply IH. exact Hp.
Qed.

Lemma nth_clear (l : list bool) (p i : nat) :
  nth i (<[p := false]> l) false = if i =? p then false else nth i l false.
Proof.
  rewrite !nth_lookup. destruct (Nat.eqb_spec i p) as [-> | Hne].
  - destruct (decide (p < length l)) as [Hlt | Hge].
    + rewrite list_lookup_insert_eq by exact Hlt. reflexivity.
    + rewrite list_insert_ge by lia.
      rewrite (proj2 (lookup_ge_None l p)) by lia. reflexivity.
  - rewrite list_lookup_insert_ne by congruence. reflexivity.
Qed.

(** A list of booleans that is true exactly at the [n] distinct
    positions [f 0 .. f (n - 1)] has [n] true entries. *)
Lemma count_true_positions (n : nat) :
  forall (f : nat -> nat) (l : list bool),
  (forall t t', t < n -> t' < n -> f t = f t' -> t = t') ->
  (forall i, i < length l /\ nth i l false = true <-> exists t, t < n /\ i = f t) ->
  count_occ bool_dec l true = n.
Proof.
  induction n as [| n IH]; intros f l Hinj Hpos.
  - apply count_true_none. intros i Hi.
    destruct (nth i l false) eqn:E; [| reflexivity].
    destruct (proj1 (Hpos i) (conj Hi E)) as (t & Ht & _). lia.
  - destruct (proj2 (Hpos (f n)) (ex_intro _ n (conj (Nat.lt_succ_diag_r n) eq_refl)))
      as [Hlt Htrue].
    rewrite (count_true_clear l (f n) Htrue). f_equal.
    apply (IH f).
    + intros t t' Ht Ht'. apply Hinj; lia.
    + intros i. rewrite length_insert, nth_clear. split.
      * intros [Hi Hv]. destruct (Nat.eqb_spec i (f n)) as [-> | Hne]; [discriminate |].
        destruct (proj1 (Hpos i) (conj Hi Hv)) as (t & Ht & ->).
        exists t. split; [| reflexivity].
        destruct (Nat.eq_dec t n) as [-> | Hn]; [congruence | lia].
      * intros (t & Ht & ->).
        destruct (proj2 (Hpos (f t)) (ex_intro _ t (conj (Nat.lt_lt_succ_r _ _ Ht) eq_refl)))
          as [Hlt' Htrue'].
        split; [exact Hlt' |].
        destruct (Nat.eqb_spec (f t) (f n)) as [E | _]; [| exact Htrue'].
        apply Hinj in E; lia.
Qed.

(** ** The four loops of the encoder *)

Ltac bool_cases :=
  repeat match goal with
  | |- context [Nat.eqb ?a ?b] => destruct (Nat.eqb_spec a b)
  | |- context [Nat.ltb ?a ?b] => destruct (Nat.ltb_spec a b)
  | |- context [Nat.leb ?a ?b] => destruct (Nat.leb_spec a b)
  end;
  cbn [andb orb negb]; rewrite ?orb_false_r, ?orb_true_r, ?andb_false_r, ?andb_true_r.

Section Encoder.
Variable sv : SudokuDLXSolver.
Variables N bs : nat.
Hypothesis HN : gridSize sv = N.
Hypothesis Hbs : blockSize sv = bs.
Hypothesis Hcc : cellCount sv = N * N.
Hypothesis HR : exactCoverRows sv = N * (N * N).
Hypothesis HC : exactCoverCols sv = 4 * (N * N).
Hypothesis Hsq : N = bs * bs.
Hypothesis Hbspos : 0 < bs.

Local Abbreviation R := (N * (N * N)).
Local Abbreviation C := (4 * (N * N)).

Lemma gridSize_pos : 0 < N.
Proof. nia. Qed.

Lemma cell_loop (M0 : matrix) :
  dims R C M0 ->
  exists st, for_range R 0 (cell_step sv) (0, 0, M0) = Ok st
    /\ dims R C st.2
    /\ forall i j, i < R -> mat st.2 i j = mat M0 i j || entry1 sv i j.
Proof.
  intros Hd. pose proof gridSize_pos as HNpos.
  destruct (for_range_inv
    (fun i (st : nat * nat * matrix) =>
       st.1.1 = i / N /\ st.1.2 = i mod N /\ dims R C st.2
       /\ forall i' j', mat st.2 i' j' = mat M0 i' j' || (i' <? i) && (j' =? i' / N))
    (cell_step sv) R 0 (0, 0, M0)) as (st & E & HP).
  - cbn [fst snd]. rewrite Nat.Div0.div_0_l, Nat.Div0.mod_0_l.
    repeat split; try apply Hd. intros i' j'.
    destruct (mat M0 i' j'); reflexivity.
  - intros i [[j counter] M] Hi (Hj & Hcnt & HdM & Hmat). cbn [fst snd] in *.
    assert (Hjlt : j < C).
    { subst j. apply Nat.Div0.div_lt_upper_bound. lia. }
    destruct (mset_ok R C M i j HdM ltac:(lia) Hjlt) as (M' & EM & HdM' & HM').
    unfold cell_step. rewrite EM. cbn [bind]. rewrite HN.
    replace (S i) with (i + 1) by lia.
    destruct (divmod_succ N i HNpos) as [(H1 & H2 & H3) | (H1 & H2 & H3)].
    + destruct (Nat.leb_spec N (counter + 1)); [lia |].
      eexists. split; [reflexivity |]. cbn [fst snd].
      rewrite H2, H3. repeat split; try apply HdM'; try congruence.
      intros i' j'. rewrite HM', Hmat. subst j.
      destruct (mat M0 i' j'); [bool_cases; reflexivity |].
      bool_cases; try reflexivity; try lia; subst; try lia; congruence.
    + destruct (Nat.leb_spec N (counter + 1)); [| lia].
      eexists. split; [reflexivity |]. cbn [fst snd].
      rewrite H2, H3. repeat split; try apply HdM'; try congruence.
      intros i' j'. rewrite HM', Hmat. subst j.
      destruct (mat M0 i' j'); [bool_cases; reflexivity |].
      bool_cases; try reflexivity; try lia; subst; try lia; congruence.
  - exists st. split; [exact E |]. destruct HP as (_ & _ & HdM & Hmat).
    split; [exact HdM |]. intros i j Hi. rewrite Hmat. cbn [Nat.add].
    unfold entry1. rewrite <- (div_gridSize sv N HN Hcc HNpos).
    destruct (Nat.ltb_spec i R); [| lia]. reflexivity.
Qed.

Lemma col_loop (M0 : matrix) :
  dims R C M0 ->
  exists st, for_range R 0 (col_step sv) (2 * cellCount sv, M0) = Ok st
    /\ dims R C st.2
    /\ forall i j, i < R -> mat st.2 i j = mat M0 i j || entry3 sv i j.
Proof.
  intros Hd. pose proof gridSize_pos as HNpos.
  assert (Hccpos : 0 < N * N) by nia.
  destruct (for_range_inv
    (fun i (st : nat * matrix) =>
       st.1 = 2 * (N * N) + i mod (N * N) /\ dims R C st.2
       /\ forall i' j', mat st.2 i' j'
            = mat M0 i' j' || (i' <? i) && (j' =? 2 * (N * N) + i' mod (N * N)))
    (col_step sv) R 0 (2 * cellCount sv, M0)) as (st & E & HP).
  - cbn [fst snd]. rewrite Hcc, Nat.Div0.mod_0_l.
    repeat split; try apply Hd; try lia. intros i' j'.
    destruct (mat M0 i' j'); reflexivity.
  - intros i [j M] Hi (Hj & HdM & Hmat). cbn [fst snd] in *.
    assert (Hjlt : j < C).
    { subst j. pose proof (Nat.mod_upper_bound i (N * N)). lia. }
    destruct (mset_ok R C M i j HdM ltac:(lia) Hjlt) as (M' & EM & HdM' & HM').
    unfold col_step. rewrite EM. cbn [bind]. rewrite Hcc.
    replace (S i) with (i + 1) by lia.
    destruct (divmod_succ (N * N) i Hccpos) as [(H1 & H2 & H3) | (H1 & H2 & H3)].
    + destruct (Nat.leb_spec (3 * (N * N)) (j + 1)); [lia |].
      eexists. split; [reflexivity |]. cbn [fst snd].
      rewrite H3. repeat split; try apply HdM'; try lia.
      intros i' j'. rewrite HM', Hmat. subst j.
      destruct (mat M0 i' j'); [bool_cases; reflexivity |].
      bool_cases; try reflexivity; try lia; subst; try lia; congruence.
    + destruct (Nat.leb_spec (3 * (N * N)) (j + 1)); [| lia].
      eexists. split; [reflexivity |]. cbn [fst snd].
      rewrite H3. repeat split; try apply HdM'; try lia.
      intros i' j'. rewrite HM', Hmat. subst j.
      destruct (mat M0 i' j'); [bool_cases; reflexivity |].
      bool_cases; try reflexivity; try lia; subst; try lia; congruence.
  - exists st. split; [exact E |]. destruct HP as (_ & HdM & Hmat).
    split; [exact HdM |]. intros i j Hi. rewrite Hmat. cbn [Nat.add].
    unfold entry3, col_column. rewrite Hcc, HN.
    rewrite (mod_cellCount sv N HN Hcc HNpos).
    destruct (Nat.ltb_spec i R); [| lia].
    cbn [andb]. f_equal. f_equal. lia.
Qed.

Lemma entry2_iff (a b i : nat) :
  b < N -> i < R ->
  entry2 sv i (N * N + (a * N + b)) = (row_r sv i =? a) && (row_d sv i =? b).
Proof.
  intros Hb Hi. pose proof gridSize_pos as HNpos.
  destruct (row_parts_index sv N HN Hcc HNpos i) as (_ & _ & Hd).
  unfold entry2, row_column. rewrite HN, Hcc.
  apply eq_iff_eq_true.
  rewrite andb_true_iff, !Nat.eqb_eq. split.
  - intros H.
    assert (E : row_r sv i * N + row_d sv i = a * N + b) by lia.
    destruct (divmod_intro N (row_r sv i) (row_d sv i) Hd) as [E1 E2].
    destruct (divmod_intro N a b Hb) as [E3 E4].
    rewrite E in E1, E2. split; congruence.
  - intros [-> ->]. lia.
Qed.

Lemma row_loop (M0 : matrix) :
  dims R C M0 ->
  exists st, for_range (cellCount sv) (cellCount sv) (row_step sv) (0, 1, M0) = Ok st
    /\ dims R C st.2
    /\ forall i j, i < R -> mat st.2 i j = mat M0 i j || entry2 sv i j.
Proof.
  intros Hd. pose proof gridSize_pos as HNpos.
  assert (Hccpos : 0 < N * N) by nia.
  assert (Hrange : forall i j, i < R -> entry2 sv i j = true -> N * N <= j < 2 * (N * N)).
  { intros i j Hi H. unfold entry2, row_column in H. apply Nat.eqb_eq in H.
    rewrite HN, Hcc in H.
    destruct (row_parts_index sv N HN Hcc HNpos i) as (_ & _ & Hdd).
    pose proof (row_r_bound sv N HN Hcc HNpos i Hi). nia. }
  rewrite Hcc.
  destruct (for_range_inv
    (fun j (st : nat * nat * matrix) =>
       st.1.1 = (j - N * N) / N * (N * N) + (j - N * N) mod N
       /\ st.1.2 = (j - N * N) / N + 1 /\ dims R C st.2
       /\ forall i' j', i' < R ->
            mat st.2 i' j' = mat M0 i' j' || (j' <? j) && entry2 sv i' j')
    (row_step sv) (N * N) (N * N) (0, 1, M0)) as (st & E & HP).
  - cbn [fst snd]. rewrite Nat.sub_diag, Nat.Div0.div_0_l, Nat.Div0.mod_0_l.
    repeat split; try apply Hd; try lia. intros i' j' Hi'.
    destruct (mat M0 i' j'); [reflexivity |]. cbn [orb].
    destruct (entry2 sv i' j') eqn:E2; [| rewrite andb_false_r; reflexivity].
    apply Hrange in E2; [| exact Hi'].
    destruct (Nat.ltb_spec j' (N * N)); [lia | reflexivity].
  - intros j [[x counter] M] Hj (Hx & Hcnt & HdM & Hmat). cbn [fst snd] in *.
    set (m := j - N * N) in *.
    assert (Ej : j = N * N + m) by lia.
    set (a := m / N) in *. set (b := m mod N) in *.
    destruct (divmod_elim N m HNpos) as [Em Hb]. fold a b in Em, Hb.
    assert (Ha : a < N).
    { unfold a. apply Nat.Div0.div_lt_upper_bound. lia. }
    unfold row_step. rewrite Hcc, HN.
    destruct (for_step_inv
      (fun t (M' : matrix) =>
         dims R C M'
         /\ forall i' j', mat M' i' j'
              = mat M i' j' || (j' =? j) && (row_r sv i' =? a) && (row_d sv i' =? b)
                               && (row_c sv i' <? t))
      (fun i M => mset i j M) N (counter * (N * N)) N x
      (S (counter * (N * N))) M) as (M' & EM & HdM' & HM').
    + split; [exact HdM |]. intros i' j'. rewrite andb_false_r, orb_false_r.
      reflexivity.
    + intros t M1 Ht (HdM1 & HM1).
      assert (Ei : x + t * N = row_index sv a t b).
      { unfold row_index. rewrite Hcc, HN. lia. }
      rewrite Ei.
      destruct (mset_ok R C M1 (row_index sv a t b) j HdM1) as (M2 & E2 & HdM2 & HM2).
      { apply (row_index_bound sv N HN Hcc HNpos); assumption. }
      { lia. }
      exists M2. split; [exact E2 |]. split; [exact HdM2 |].
      intros i' j'. rewrite HM2, HM1.
      destruct (mat M i' j'); [bool_cases; reflexivity |]. cbn [orb].
      apply eq_iff_eq_true.
      rewrite !orb_true_iff, !andb_true_iff, !Nat.eqb_eq, !Nat.ltb_lt.
      rewrite (row_index_eq sv N HN Hcc HNpos i' a t b Ht Hb).
      intuition lia.
    + intros t Ht. subst x counter. nia.
    + subst x counter. nia.
    + subst counter. nia.
    + rewrite EM. cbn [bind].
      assert (Hnew : forall i' j', i' < R ->
        mat M' i' j' = mat M0 i' j' || (j' <? S j) && entry2 sv i' j').
      { intros i' j' Hi'. rewrite HM', (Hmat i' j' Hi').
        destruct (row_parts_index sv N HN Hcc HNpos i') as (_ & Hc' & _).
        destruct (Nat.ltb_spec (row_c sv i') N); [| lia]. rewrite andb_true_r.
        destruct (mat M0 i' j'); [reflexivity |]. cbn [orb].
        destruct (Nat.eqb_spec j' j) as [-> | Hne].
        - assert (Hent : entry2 sv i' j = (row_r sv i' =? a) && (row_d sv i' =? b)).
          { replace j with (N * N + (a * N + b)) by lia.
            apply (entry2_iff a b i' Hb Hi'). }
          rewrite Hent, Nat.ltb_irrefl.
          destruct (Nat.ltb_spec j (S j)); [| lia].
          cbn [andb orb]. reflexivity.
        - cbn [andb]. rewrite orb_false_r.
          destruct (Nat.ltb_spec j' j), (Nat.ltb_spec j' (S j)); try lia; reflexivity. }
      assert (Emod : (j + 1) mod N = (m + 1) mod N).
      { rewrite Ej. replace (N * N + m + 1) with (m + 1 + N * N) by lia.
        apply Nat.Div0.mod_add. }
      rewrite Emod.
      replace (S j - N * N) with (m + 1) by lia.
      destruct (divmod_succ N m HNpos) as [(H1 & H2 & H3) | (H1 & H2 & H3)];
        fold a b in H1, H2, H3; rewrite H2, H3.
      * destruct (Nat.eqb_spec (b + 1) 0); [lia |].
        eexists. split; [reflexivity |]. cbn [fst snd].
        repeat split; try apply HdM'; try lia. exact Hnew.
      * rewrite Nat.eqb_refl.
        eexists. split; [reflexivity |]. cbn [fst snd].
        repeat split; try apply HdM'; try lia. exact Hnew.
  - exists st. split; [exact E |]. destruct HP as (_ & _ & HdM & Hmat).
    split; [exact HdM |]. intros i j Hi. rewrite (Hmat i j Hi).
    destruct (entry2 sv i j) eqn:E2; [| rewrite andb_false_r; reflexivity].
    apply Hrange in E2; [| exact Hi].
    destruct (Nat.ltb_spec j (N * N + N * N)); [reflexivity | lia].
Qed.

Lemma entry4_iff (q b i : nat) :
  b < N -> i < R ->
  entry4 sv i (3 * (N * N) + (q * N + b))
  = (row_d sv i =? b) && (row_r sv i / bs =? q / bs)
    && (row_c sv i / bs =? q mod bs).
Proof.
  intros Hb Hi. pose proof gridSize_pos as HNpos.
  destruct (row_parts_index sv N HN Hcc HNpos i) as (_ & Hc & Hd).
  assert (Hcb : row_c sv i / bs < bs).
  { apply Nat.Div0.div_lt_upper_bound. lia. }
  unfold entry4, block_column, block_of. rewrite HN, Hcc, Hbs.
  set (blk := row_r sv i / bs * bs + row_c sv i / bs).
  destruct (divmod_intro bs (row_r sv i / bs) (row_c sv i / bs) Hcb) as [B1 B2].
  fold blk in B1, B2.
  destruct (divmod_elim bs q Hbspos) as [Eq Hq].
  apply eq_iff_eq_true.
  rewrite !andb_true_iff, !Nat.eqb_eq. split.
  - intros H.
    assert (E : blk * N + row_d sv i = q * N + b) by lia.
    destruct (divmod_intro N blk (row_d sv i) Hd) as [E1 E2].
    destruct (divmod_intro N q b Hb) as [E3 E4].
    rewrite E in E1, E2.
    assert (blk = q) by congruence. subst q.
    repeat split; congruence.
  - intros [[Hd' Hr'] Hc'].
    assert (blk = q) by (unfold blk; rewrite Hr', Hc'; lia).
    lia.
Qed.

Lemma block_loop (M0 : matrix) :
  dims R C M0 ->
  exists st, for_range (exactCoverCols sv - 3 * cellCount sv) (3 * cellCount sv)
               (block_step sv) (0, M0) = Ok st
    /\ dims R C st.2
    /\ forall i j, i < R -> mat st.2 i j = mat M0 i j || entry4 sv i j.
Proof.
  intros Hd. pose proof gridSize_pos as HNpos.
  assert (Hccpos : 0 < N * N) by nia.
  assert (Hrange : forall i j, i < R -> entry4 sv i j = true ->
            3 * (N * N) <= j < 4 * (N * N)).
  { intros i j Hi H. unfold entry4, block_column, block_of in H.
    apply Nat.eqb_eq in H. rewrite HN, Hcc, Hbs in H.
    destruct (row_parts_index sv N HN Hcc HNpos i) as (_ & Hc & Hdd).
    pose proof (row_r_bound sv N HN Hcc HNpos i Hi) as Hr.
    assert (row_r sv i / bs < bs) by (apply Nat.Div0.div_lt_upper_bound; lia).
    assert (row_c sv i / bs < bs) by (apply Nat.Div0.div_lt_upper_bound; lia).
    assert (row_r sv i / bs * bs + row_c sv i / bs < N) by nia.
    nia. }
  rewrite HC, Hcc.
  replace (4 * (N * N) - 3 * (N * N)) with (N * N) by lia.
  destruct (for_range_inv
    (fun j (st : nat * matrix) =>
       st.1 = row_index sv ((j - 3 * (N * N)) / N / bs * bs)
                ((j - 3 * (N * N)) / N mod bs * bs) ((j - 3 * (N * N)) mod N)
       /\ dims R C st.2
       /\ forall i' j', i' < R ->
            mat st.2 i' j' = mat M0 i' j' || (j' <? j) && entry4 sv i' j')
    (block_step sv) (N * N) (3 * (N * N)) (0, M0)) as (st & E & HP).
  - cbn [fst snd]. rewrite Nat.sub_diag, Nat.Div0.div_0_l, Nat.Div0.mod_0_l.
    rewrite Nat.Div0.div_0_l, Nat.Div0.mod_0_l.
    repeat split; try apply Hd; try (unfold row_index; lia). intros i' j' Hi'.
    destruct (mat M0 i' j'); [reflexivity |]. cbn [orb].
    destruct (entry4 sv i' j') eqn:E4; [| rewrite andb_false_r; reflexivity].
    apply Hrange in E4; [| exact Hi'].
    destruct (Nat.ltb_spec j' (3 * (N * N))); [lia | reflexivity].
  - intros j [x M] Hj (Hx & HdM & Hmat). cbn [fst snd] in *.
    set (m := j - 3 * (N * N)) in *.
    assert (Ej : j = 3 * (N * N) + m) by lia.
    set (q := m / N) in *. set (b := m mod N) in *.
    destruct (divmod_elim N m HNpos) as [Em Hb]. fold q b in Em, Hb.
    assert (Hqlt : q < N).
    { unfold q. apply Nat.Div0.div_lt_upper_bound. lia. }
    destruct (divmod_elim bs q Hbspos) as [Eq Hqm].
    assert (Hqd : q / bs < bs).
    { apply Nat.Div0.div_lt_upper_bound. lia. }
    unfold block_step. rewrite Hcc, HN, Hbs.
    destruct (for_range_inv
      (fun l (M' : matrix) =>
         dims R C M'
         /\ forall i' j', mat M' i' j'
              = mat M i' j' || (j' =? j) && (row_d sv i' =? b)
                               && (row_r sv i' / bs =? q / bs)
                               && (row_c sv i' / bs =? q mod bs)
                               && (row_c sv i' mod bs <? l))
      (fun l M => for_range bs 0
         (fun k M => mset (x + l * N + k * (N * N)) j M) M)
      bs 0 M) as (M' & EM & HdM' & HM').
    + split; [exact HdM |]. intros i' j'. rewrite andb_false_r, orb_false_r.
      reflexivity.
    + intros l M1 Hl (HdM1 & HM1).
      destruct (for_range_inv
        (fun k (M'' : matrix) =>
           dims R C M''
           /\ forall i' j', mat M'' i' j'
                = mat M1 i' j' || (j' =? j) && (row_d sv i' =? b)
                                  && (row_r sv i' / bs =? q / bs)
                                  && (row_c sv i' =? q mod bs * bs + l)
                                  && (row_r sv i' mod bs <? k))
        (fun k M => mset (x + l * N + k * (N * N)) j M)
        bs 0 M1) as (M2 & EM2 & HdM2 & HM2).
      * split; [exact HdM1 |]. intros i' j'. rewrite andb_false_r, orb_false_r.
        reflexivity.
      * intros k M3 Hk (HdM3 & HM3).
        assert (Ei : x + l * N + k * (N * N)
                     = row_index sv (q / bs * bs + k) (q mod bs * bs + l) b).
        { rewrite Hx. unfold row_index. rewrite Hcc, HN. lia. }
        rewrite Ei.
        assert (Hr0 : q / bs * bs + k < N) by nia.
        assert (Hc0 : q mod bs * bs + l < N) by nia.
        destruct (mset_ok R C M3 _ j HdM3
                    (row_index_bound sv N HN Hcc HNpos _ _ _ Hr0 Hc0 Hb)
                    ltac:(lia)) as (M4 & E4 & HdM4 & HM4).
        exists M4. split; [exact E4 |]. split; [exact HdM4 |].
        intros i' j'. rewrite HM4, HM3.
        destruct (mat M1 i' j'); [bool_cases; reflexivity |]. cbn [orb].
        apply eq_iff_eq_true.
        rewrite !orb_true_iff, !andb_true_iff, !Nat.eqb_eq, !Nat.ltb_lt.
        rewrite (row_index_eq sv N HN Hcc HNpos i' _ _ b Hc0 Hb).
        destruct (divmod_elim bs (row_r sv i') Hbspos) as [Er Hrm].
        destruct (divmod_intro bs (q / bs) k ltac:(lia)) as [D1 D2].
        split.
        -- intros [[(Hr & Hc & Hdd) Hjj] | H]; [| intuition lia].
           rewrite Hr, D1, D2. intuition lia.
        -- intros [[[[Hjj Hdd] Hr] Hc] Hlt].
           destruct (Nat.eq_dec (row_r sv i' mod bs) k) as [Hk' | Hk'].
           ++ left. split; [| exact Hjj]. repeat split; try assumption.
              rewrite Er at 1. rewrite Hr, Hk'. reflexivity.
           ++ right. repeat split; try assumption. lia.
      * cbn [Nat.add] in *. exists M2. split; [exact EM2 |]. split; [exact HdM2 |].
        intros i' j'. rewrite HM2, HM1.
        destruct (mat M i' j'); [bool_cases; reflexivity |]. cbn [orb].
        apply eq_iff_eq_true.
        rewrite !orb_true_iff, !andb_true_iff, !Nat.eqb_eq, !Nat.ltb_lt.
        destruct (divmod_elim bs (row_r sv i') Hbspos) as [Er Hrm].
        destruct (divmod_elim bs (row_c sv i') Hbspos) as [Ec Hcm].
        destruct (divmod_intro bs (q mod bs) l ltac:(lia)) as [D1 D2].
        split.
        -- intros [H | H]; [intuition lia |].
           destruct H as [[[[Hjj Hdd] Hr] Hc] _].
           rewrite Hc, D1, D2. intuition lia.
        -- intros [[[[Hjj Hdd] Hr] Hc] Hlt].
           destruct (Nat.eq_dec (row_c sv i' mod bs) l) as [Hl' | Hl'].
           ++ right. repeat split; try assumption.
              rewrite Ec at 1. rewrite Hc, Hl'. reflexivity.
           ++ left. repeat split; try assumption. lia.
    + cbn [Nat.add] in *. rewrite EM. cbn [bind].
      assert (Hnew : forall i' j', i' < R ->
        mat M' i' j' = mat M0 i' j' || (j' <? S j) && entry4 sv i' j').
      { intros i' j' Hi'. rewrite HM', (Hmat i' j' Hi').
        destruct (row_parts_index sv N HN Hcc HNpos i') as (_ & Hc' & _).
        assert (Hcm : row_c sv i' mod bs < bs) by (apply Nat.mod_upper_bound; lia).
        destruct (Nat.ltb_spec (row_c sv i' mod bs) bs); [| lia]. rewrite andb_true_r.
        destruct (mat M0 i' j'); [reflexivity |]. cbn [orb].
        destruct (Nat.eqb_spec j' j) as [-> | Hne].
        - assert (Hent : entry4 sv i' j
                         = (row_d sv i' =? b) && (row_r sv i' / bs =? q / bs)
                           && (row_c sv i' / bs =? q mod bs)).
          { replace j with (3 * (N * N) + (q * N + b)) by lia.
            apply (entry4_iff q b i' Hb Hi'). }
          rewrite Hent, Nat.ltb_irrefl.
          destruct (Nat.ltb_spec j (S j)); [| lia].
          cbn [andb orb]. reflexivity.
        - cbn [andb]. rewrite orb_false_r.
          destruct (Nat.ltb_spec j' j), (Nat.ltb_spec j' (S j)); try lia; reflexivity. }
      replace (j + 1 - 3 * (N * N)) with (m + 1) by lia.
      replace (S j - 3 * (N * N)) with (m + 1) by lia.
      rewrite (Nat.mul_comm bs N), Nat.Div0.mod_mul_r.
      destruct (divmod_succ N m HNpos) as [(H1 & H2 & H3) | (H1 & H2 & H3)];
        fold q b in H1, H2, H3; rewrite H2, H3.
      * destruct (Nat.eqb_spec (b + 1 + N * (q mod bs)) 0); [lia |].
        destruct (Nat.eqb_spec (b + 1) 0); [lia |].
        eexists. split; [reflexivity |]. cbn [fst snd].
        split; [| split; [exact HdM' | exact Hnew]].
        rewrite Hx. unfold row_index. lia.
      * destruct (divmod_succ bs q Hbspos) as [(G1 & G2 & G3) | (G1 & G2 & G3)];
          rewrite G2, G3.
        -- destruct (Nat.eqb_spec (0 + N * (q mod bs + 1)) 0); [nia |].
           rewrite Nat.eqb_refl.
           eexists. split; [reflexivity |]. cbn [fst snd].
           split; [| split; [exact HdM' | exact Hnew]].
           rewrite Hx. unfold row_index. rewrite Hcc, HN. nia.
        -- rewrite Nat.mul_0_r. cbn [Nat.add]. rewrite Nat.eqb_refl.
           eexists. split; [reflexivity |]. cbn [fst snd].
           split; [| split; [exact HdM' | exact Hnew]].
           rewrite Hx. unfold row_index. rewrite Hcc, HN.
           assert (Hbs1 : bs - 1 + 1 = bs) by lia.
           assert (E1 : q mod bs = bs - 1) by lia.
           assert (E2 : b = N - 1) by lia.
           rewrite E1, E2. clear - Hsq Hbspos Hbs1.
           remember (bs - 1) as u. assert (bs = u + 1) by lia. subst bs.
           subst N. nia.
  - exists st. split; [exact E |]. destruct HP as (_ & HdM & Hmat).
    split; [exact HdM |]. intros i j Hi. rewrite (Hmat i j Hi).
    destruct (entry4 sv i j) eqn:E4; [| rewrite andb_false_r; reflexivity].
    apply Hrange in E4; [| exact Hi].
    destruct (Nat.ltb_spec j (3 * (N * N) + N * N)); [reflexivity | lia].
Qed.

Lemma entry1_iff (a b i : nat) :
  b < N ->
  entry1 sv i (a * N + b) = (row_r sv i =? a) && (row_c sv i =? b).
Proof.
  intros Hb. pose proof gridSize_pos as HNpos.
  destruct (row_parts_index sv N HN Hcc HNpos i) as (_ & Hc & _).
  unfold entry1, cell_column. rewrite HN.
  apply eq_iff_eq_true.
  rewrite andb_true_iff, !Nat.eqb_eq. split.
  - intros E.
    destruct (divmod_intro N (row_r sv i) (row_c sv i) Hc) as [E1 E2].
    destruct (divmod_intro N a b Hb) as [E3 E4].
    rewrite <- E in E1, E2. split; congruence.
  - intros [-> ->]. reflexivity.
Qed.

Lemma entry3_iff (a b i : nat) :
  b < N ->
  entry3 sv i (2 * (N * N) + (a * N + b)) = (row_c sv i =? a) && (row_d sv i =? b).
Proof.
  intros Hb. pose proof gridSize_pos as HNpos.
  destruct (row_parts_index sv N HN Hcc HNpos i) as (_ & _ & Hd).
  unfold entry3, col_column. rewrite HN, Hcc.
  apply eq_iff_eq_true.
  rewrite andb_true_iff, !Nat.eqb_eq. split.
  - intros H.
    assert (E : row_c sv i * N + row_d sv i = a * N + b) by lia.
    destruct (divmod_intro N (row_c sv i) (row_d sv i) Hd) as [E1 E2].
    destruct (divmod_intro N a b Hb) as [E3 E4].
    rewrite E in E1, E2. split; congruence.
  - intros [-> ->]. lia.
Qed.

(** The four columns of a matrix row lie one in each quarter. *)
Lemma columns_in_blocks (r c d : nat) :
  r < N -> c < N -> d < N ->
  cell_column sv r c < N * N
  /\ N * N <= row_column sv r d < 2 * (N * N)
  /\ 2 * (N * N) <= col_column sv c d < 3 * (N * N)
  /\ 3 * (N * N) <= block_column sv r c d < 4 * (N * N).
Proof.
  intros Hr Hc Hd.
  unfold cell_column, row_column, col_column, block_column, block_of.
  rewrite HN, Hcc, Hbs.
  assert (r / bs < bs) by (apply Nat.Div0.div_lt_upper_bound; lia).
  assert (c / bs < bs) by (apply Nat.Div0.div_lt_upper_bound; lia).
  assert (r / bs * bs + c / bs < N) by nia.
  repeat split; nia.
Qed.

Lemma encoder_ok :
  exists M,
    buildExactCoverMatrix sv (new_matrix (exactCoverRows sv) (exactCoverCols sv)) = Ok M
    /\ dims R C M
    /\ forall i j, i < R -> mat M i j = entry sv i j.
Proof.
  assert (Hd0 : dims R C (new_matrix (exactCoverRows sv) (exactCoverCols sv))).
  { rewrite HR, HC. apply dims_new_matrix. }
  assert (H0 : forall i j,
            mat (new_matrix (exactCoverRows sv) (exactCoverCols sv)) i j = false)
    by (intros; apply mat_new_matrix).
  revert Hd0 H0. generalize (new_matrix (exactCoverRows sv) (exactCoverCols sv)).
  intros M0 Hd0 H0.
  unfold buildExactCoverMatrix. rewrite HR.
  destruct (cell_loop _ Hd0) as (st1 & E1 & Hd1 & H1). rewrite E1. cbn [bind].
  destruct (row_loop _ Hd1) as (st2 & E2 & Hd2 & H2). rewrite E2. cbn [bind].
  destruct (col_loop _ Hd2) as (st3 & E3 & Hd3 & H3). rewrite E3. cbn [bind].
  destruct (block_loop _ Hd3) as (st4 & E4 & Hd4 & H4). rewrite E4. cbn [bind].
  exists st4.2. split; [reflexivity |]. split; [exact Hd4 |].
  intros i j Hi. rewrite (H4 i j Hi), (H3 i j Hi), (H2 i j Hi), (H1 i j Hi).
  rewrite H0. reflexivity.
Qed.

(** The true entries of the row of digit [d + 1] in cell [(r, c)]. *)
Lemma entry_row_index (r c d j : nat) :
  r < N -> c < N -> d < N ->
  entry sv (row_index sv r c d) j = true
  <-> j = cell_column sv r c \/ j = row_column sv r d
      \/ j = col_column sv c d \/ j = block_column sv r c d.
Proof.
  intros Hr Hc Hd. pose proof gridSize_pos as HNpos.
  destruct (row_index_parts sv N HN Hcc HNpos r c d Hc Hd) as (E1 & E2 & E3).
  unfold entry, entry1, entry2, entry3, entry4. rewrite E1, E2, E3.
  rewrite !orb_true_iff, !Nat.eqb_eq. tauto.
Qed.

Lemma row_count_4 (M : matrix) (i : nat) :
  dims R C M -> (forall i j, i < R -> mat M i j = entry sv i j) ->
  i < R -> row_count M i = 4.
Proof.
  intros [Hlen Hrows] HM Hi. pose proof gridSize_pos as HNpos.
  destruct (row_parts_index sv N HN Hcc HNpos i) as (Ei & Hc & Hd).
  pose proof (row_r_bound sv N HN Hcc HNpos i Hi) as Hr.
  destruct (columns_in_blocks _ _ _ Hr Hc Hd) as (B1 & B2 & B3 & B4).
  unfold row_count.
  apply (count_true_positions 4
    (fun t => nth t [cell_column sv (row_r sv i) (row_c sv i);
                     row_column sv (row_r sv i) (row_d sv i);
                     col_column sv (row_c sv i) (row_d sv i);
                     block_column sv (row_r sv i) (row_c sv i) (row_d sv i)] 0)).
  - intros t t' Ht Ht' E.
    destruct t as [| [| [| [| t]]]]; [| | | | lia];
      destruct t' as [| [| [| [| t']]]]; try lia; cbn [nth] in E; lia.
  - intros j. rewrite (Hrows i Hi).
    change (nth j (nth i M []) false) with (mat M i j).
    split.
    + intros [Hj Hv]. rewrite (HM i j Hi), Ei in Hv.
      apply entry_row_index in Hv; try assumption.
      destruct Hv as [-> | [-> | [-> | ->]]];
        [exists 0 | exists 1 | exists 2 | exists 3]; split; try lia; reflexivity.
    + intros (t & Ht & ->).
      assert (Hv : forall j, j = cell_column sv (row_r sv i) (row_c sv i)
                     \/ j = row_column sv (row_r sv i) (row_d sv i)
                     \/ j = col_column sv (row_c sv i) (row_d sv i)
                     \/ j = block_column sv (row_r sv i) (row_c sv i) (row_d sv i) ->
                   mat M i j = true).
      { intros j Hj. rewrite (HM i j Hi). rewrite Ei.
        apply entry_row_index; assumption. }
      destruct t as [| [| [| [| t]]]]; [| | | | lia]; cbn [nth];
        (split; [lia | apply Hv; tauto]).
Qed.

Lemma column_count_N (M : matrix) (j : nat) :
  dims R C M -> (forall i j, i < R -> mat M i j = entry sv i j) ->
  j < C -> column_count M j = N.
Proof.
  intros [Hlen Hrows] HM Hj. pose proof gridSize_pos as HNpos.
  assert (Hnth : forall i, nth i (map (fun row => nth j row false) M) false = mat M i j).
  { intros i. unfold mat. rewrite (nth_lookup _ i), (nth_lookup M i).
    change (map (fun row => nth j row false) M)
      with ((fun row => nth j row false) <$> M).
    rewrite list_lookup_fmap. destruct (M !! i); cbn; [reflexivity |].
    destruct j; reflexivity. }
  assert (Hpos : forall f : nat -> nat,
    (forall t t', t < N -> t' < N -> f t = f t' -> t = t') ->
    (forall i, i < R /\ entry sv i j = true <-> exists t, t < N /\ i = f t) ->
    column_count M j = N).
  { intros f Hinj Hiff. unfold column_count.
    apply (count_true_positions N f); [exact Hinj |].
    intros i. rewrite length_map, Hlen, Hnth. rewrite <- Hiff.
    split; intros [Hi Hv]; (split; [exact Hi |]);
      [rewrite <- (HM i j Hi) | rewrite (HM i j Hi)]; exact Hv. }
  assert (Hparts : forall i, i < R ->
    row_r sv i < N /\ row_c sv i < N /\ row_d sv i < N).
  { intros i Hi. destruct (row_parts_index sv N HN Hcc HNpos i) as (_ & Hc & Hd).
    pose proof (row_r_bound sv N HN Hcc HNpos i Hi). auto. }
  assert (Hblocks : forall i, i < R ->
    (entry1 sv i j = true -> j < N * N)
    /\ (entry2 sv i j = true -> N * N <= j < 2 * (N * N))
    /\ (entry3 sv i j = true -> 2 * (N * N) <= j < 3 * (N * N))
    /\ (entry4 sv i j = true -> 3 * (N * N) <= j < 4 * (N * N))).
  { intros i Hi. destruct (Hparts i Hi) as (Hr & Hc & Hd).
    destruct (columns_in_blocks _ _ _ Hr Hc Hd) as (B1 & B2 & B3 & B4).
    unfold entry1, entry2, entry3, entry4.
    split; [| split; [| split]]; intros E; apply Nat.eqb_eq in E; lia. }
  destruct (Nat.lt_ge_cases j (N * N)) as [J1 | J1];
    [| destruct (Nat.lt_ge_cases j (2 * (N * N))) as [J2 | J2];
       [| destruct (Nat.lt_ge_cases j (3 * (N * N))) as [J3 | J3]]].
  - (* a cell-occupied column *)
    destruct (divmod_elim N j HNpos) as [Ej Hb].
    assert (Ha : j / N < N) by (apply Nat.Div0.div_lt_upper_bound; lia).
    apply (Hpos (fun t => row_index sv (j / N) (j mod N) t)).
    + intros t t' Ht Ht' E.
      destruct (row_index_parts sv N HN Hcc HNpos (j / N) (j mod N) t Hb Ht) as (_ & _ & E1).
      destruct (row_index_parts sv N HN Hcc HNpos (j / N) (j mod N) t' Hb Ht') as (_ & _ & E2).
      congruence.
    + intros i. split.
      * intros [Hi Hv]. destruct (Hblocks i Hi) as (_ & B2 & B3 & B4).
        destruct (Hparts i Hi) as (Hr & Hc & Hd).
        exists (row_d sv i). split; [exact Hd |].
        apply (row_index_eq sv N HN Hcc HNpos); try assumption.
        unfold entry in Hv. rewrite !orb_true_iff in Hv.
        destruct Hv as [[[Hv | Hv] | Hv] | Hv];
          [| apply B2 in Hv; lia | apply B3 in Hv; lia | apply B4 in Hv; lia].
        rewrite Ej in Hv. rewrite (entry1_iff _ _ i Hb) in Hv.
        apply andb_true_iff in Hv as [Hv1 Hv2].
        apply Nat.eqb_eq in Hv1, Hv2. auto.
      * intros (t & Ht & ->).
        split; [apply (row_index_bound sv N HN Hcc HNpos); assumption |].
        apply entry_row_index; try assumption. left.
        unfold cell_column. rewrite HN. lia.
  - (* a row-number column *)
    assert (Em : j = N * N + ((j - N * N) / N * N + (j - N * N) mod N)).
    { destruct (divmod_elim N (j - N * N) HNpos) as [E _]. lia. }
    assert (Hb : (j - N * N) mod N < N) by (apply Nat.mod_upper_bound; lia).
    assert (Ha : (j - N * N) / N < N) by (apply Nat.Div0.div_lt_upper_bound; lia).
    set (a := (j - N * N) / N) in *. set (b := (j - N * N) mod N) in *.
    apply (Hpos (fun t => row_index sv a t b)).
    + intros t t' Ht Ht' E.
      destruct (row_index_parts sv N HN Hcc HNpos a t b Ht Hb) as (_ & E1 & _).
      destruct (row_index_parts sv N HN Hcc HNpos a t' b Ht' Hb) as (_ & E2 & _).
      congruence.
    + intros i. split.
      * intros [Hi Hv]. destruct (Hblocks i Hi) as (B1 & _ & B3 & B4).
        destruct (Hparts i Hi) as (Hr & Hc & Hd).
        exists (row_c sv i). split; [exact Hc |].
        apply (row_index_eq sv N HN Hcc HNpos); try assumption.
        unfold entry in Hv. rewrite !orb_true_iff in Hv.
        destruct Hv as [[[Hv | Hv] | Hv] | Hv];
          [apply B1 in Hv; lia | | apply B3 in Hv; lia | apply B4 in Hv; lia].
        rewrite Em in Hv. rewrite (entry2_iff _ _ i Hb Hi) in Hv.
        apply andb_true_iff in Hv as [Hv1 Hv2].
        apply Nat.eqb_eq in Hv1, Hv2. auto.
      * intros (t & Ht & ->).
        split; [apply (row_index_bound sv N HN Hcc HNpos); assumption |].
        apply entry_row_index; try assumption. right. left.
        unfold row_column. rewrite HN, Hcc. lia.
  - (* a column-number column *)
    assert (Em : j = 2 * (N * N)
                     + ((j - 2 * (N * N)) / N * N + (j - 2 * (N * N)) mod N)).
    { destruct (divmod_elim N (j - 2 * (N * N)) HNpos) as [E _]. lia. }
    assert (Hb : (j - 2 * (N * N)) mod N < N) by (apply Nat.mod_upper_bound; lia).
    assert (Ha : (j - 2 * (N * N)) / N < N)
      by (apply Nat.Div0.div_lt_upper_bound; lia).
    set (a := (j - 2 * (N * N)) / N) in *. set (b := (j - 2 * (N * N)) mod N) in *.
    apply (Hpos (fun t => row_index sv t a b)).
    + intros t t' Ht Ht' E.
      destruct (row_index_parts sv N HN Hcc HNpos t a b Ha Hb) as (E1 & _ & _).
      destruct (row_index_parts sv N HN Hcc HNpos t' a b Ha Hb) as (E2 & _ & _).
      congruence.
    + intros i. split.
      * intros [Hi Hv]. destruct (Hblocks i Hi) as (B1 & B2 & _ & B4).
        destruct (Hparts i Hi) as (Hr & Hc & Hd).
        exists (row_r sv i). split; [exact Hr |].
        apply (row_index_eq sv N HN Hcc HNpos); try assumption.
        unfold entry in Hv. rewrite !orb_true_iff in Hv.
        destruct Hv as [[[Hv | Hv] | Hv] | Hv];
          [apply B1 in Hv; lia | apply B2 in Hv; lia | | apply B4 in Hv; lia].
        rewrite Em in Hv. rewrite (entry3_iff _ _ i Hb) in Hv.
        apply andb_true_iff in Hv as [Hv1 Hv2].
        apply Nat.eqb_eq in Hv1, Hv2. auto.
      * intros (t & Ht & ->).
        split; [apply (row_index_bound sv N HN Hcc HNpos); assumption |].
        apply entry_row_index; try assumption. right. right. left.
        unfold col_column. rewrite HN, Hcc. lia.
  - (* a block-number column *)
    assert (Em : j = 3 * (N * N)
                     + ((j - 3 * (N * N)) / N * N + (j - 3 * (N * N)) mod N)).
    { destruct (divmod_elim N (j - 3 * (N * N)) HNpos) as [E _]. lia. }
    assert (Hb : (j - 3 * (N * N)) mod N < N) by (apply Nat.mod_upper_bound; lia).
    assert (Hq : (j - 3 * (N * N)) / N < N)
      by (apply Nat.Div0.div_lt_upper_bound; lia).
    set (q := (j - 3 * (N * N)) / N) in *. set (b := (j - 3 * (N * N)) mod N) in *.
    destruct (divmod_elim bs q Hbspos) as [Eq Hqm].
    assert (Hqd : q / bs < bs) by (apply Nat.Div0.div_lt_upper_bound; lia).
    assert (Hin : forall t, t < N ->
              q / bs * bs + t / bs < N /\ q mod bs * bs + t mod bs < N
              /\ t / bs < bs /\ t mod bs < bs).
    { intros t Ht.
      assert (t / bs < bs) by (apply Nat.Div0.div_lt_upper_bound; lia).
      assert (t mod bs < bs) by (apply Nat.mod_upper_bound; lia).
      repeat split; try assumption; nia. }
    apply (Hpos (fun t => row_index sv (q / bs * bs + t / bs)
                            (q mod bs * bs + t mod bs) b)).
    + intros t t' Ht Ht' E.
      destruct (Hin t Ht) as (R1 & C1 & D1 & M1).
      destruct (Hin t' Ht') as (R2 & C2 & D2 & M2).
      destruct (row_index_parts sv N HN Hcc HNpos (q / bs * bs + t / bs) _ b C1 Hb)
        as (E1 & E2 & _).
      destruct (row_index_parts sv N HN Hcc HNpos (q / bs * bs + t' / bs) _ b C2 Hb)
        as (E3 & E4 & _).
      rewrite E in E1, E2. rewrite E1 in E3. rewrite E2 in E4.
      destruct (divmod_elim bs t Hbspos) as [Et _].
      destruct (divmod_elim bs t' Hbspos) as [Et' _].
      assert (t / bs = t' / bs) by lia. assert (t mod bs = t' mod bs) by lia.
      congruence.
    + intros i. split.
      * intros [Hi Hv]. destruct (Hblocks i Hi) as (B1 & B2 & B3 & _).
        destruct (Hparts i Hi) as (Hr & Hc & Hd).
        unfold entry in Hv. rewrite !orb_true_iff in Hv.
        destruct Hv as [[[Hv | Hv] | Hv] | Hv];
          [apply B1 in Hv; lia | apply B2 in Hv; lia | apply B3 in Hv; lia |].
        rewrite Em in Hv. rewrite (entry4_iff _ _ i Hb Hi) in Hv.
        apply andb_true_iff in Hv as [Hv Hv3].
        apply andb_true_iff in Hv as [Hv1 Hv2].
        apply Nat.eqb_eq in Hv1, Hv2, Hv3.
        destruct (divmod_elim bs (row_r sv i) Hbspos) as [Er Hrm].
        destruct (divmod_elim bs (row_c sv i) Hbspos) as [Ec Hcm].
        exists (row_r sv i mod bs * bs + row_c sv i mod bs).
        destruct (divmod_intro bs (row_r sv i mod bs) (row_c sv i mod bs) Hcm)
          as [F1 F2].
        split; [nia |].
        apply (row_index_eq sv N HN Hcc HNpos); [nia | assumption |].
        rewrite F1, F2. repeat split; try assumption; lia.
      * intros (t & Ht & ->). destruct (Hin t Ht) as (R1 & C1 & D1 & M1).
        split; [apply (row_index_bound sv N HN Hcc HNpos); assumption |].
        apply entry_row_index; try assumption. right. right. right.
        unfold block_column, block_of. rewrite HN, Hcc, Hbs.
        destruct (divmod_intro bs (q / bs) (t / bs) D1) as [G1 _].
        destruct (divmod_intro bs (q mod bs) (t mod bs) M1) as [G2 _].
        rewrite G1, G2. lia.
Qed.
End Encoder.

Lemma solver_fields (k : nat) :
  gridSize (solver k) = k * k /\ blockSize (solver k) = k
  /\ cellCount (solver k) = k * k * (k * k)
  /\ exactCoverRows (solver k) = k * k * (k * k * (k * k))
  /\ exactCoverCols (solver k) = 4 * (k * k * (k * k)).
Proof. repeat split. Qed.

(** [solver k] is the object that the constructor builds for the
    size [k * k], as long as no size overflows. *)
Lemma construct_solver (k : nat) :
  k <= 35 ->
  exists o, construct (Z.of_nat (k * k)) = Ok o /\ sizes_of o = solver k
    /\ Object.exactCoverRows o = Z.of_nat (exactCoverRows (solver k))
    /\ Object.exactCoverCols o = Z.of_nat (exactCoverCols (solver k))
    /\ Object.solution o = replicate (cellCount (solver k)) 0
    /\ Object.fixedClues o = replicate (cellCount (solver k)) 0.
Proof.
  intros Hk.
  assert (HN : (0 <= Z.of_nat (k * k) <= 1225)%Z) by nia.
  rewrite construct_small by lia.
  replace (Z.of_nat (k * k)) with (Z.of_nat k * Z.of_nat k)%Z in * by lia.
  rewrite Z.sqrt_square by lia. rewrite Z.eqb_refl.
  set (N := (Z.of_nat k * Z.of_nat k)%Z) in *.
  assert (HR : (0 <= N * (N * N) < 2 ^ 31)%Z) by nia.
  assert (HC : (0 <= 4 * (N * N) < 2 ^ 31)%Z) by nia.
  rewrite !wrap_int_small by lia.
  eexists. split; [reflexivity |]. unfold sizes_of, solver. cbn.
  split; [f_equal; unfold N; lia |].
  split; [unfold N; lia |]. split; [unfold N; lia |].
  split; f_equal; unfold N; lia.
Qed.

(** C2.  For the grid size [N = k * k] with [k] up to 35, the sizes
    for which the [int] members of the object hold [N * N^2] and
    [4 * N^2], the matrix that [buildExactCoverMatrix] fills has
    [N * N^2] rows of [4 * N^2] entries; the row of a digit in a cell
    has exactly four true entries, one in each quarter of the columns,
    at the columns of its cell, of its digit in its row, of its digit
    in its column and of its digit in its block [r / k * k + c / k];
    and every column has exactly [N] true entries. *)
Theorem exact_cover_matrix_shape (k : nat) :
  1 <= k <= 35 ->
  let sv := solver k in
  let N := k * k in
  exists M,
    buildExactCoverMatrix sv (new_matrix (exactCoverRows sv) (exactCoverCols sv)) = Ok M
    /\ length M = N * (N * N)
    /\ (forall i, i < N * (N * N) -> length (nth i M []) = 4 * (N * N))
    /\ (forall i, i < N * (N * N) -> row_count M i = 4)
    /\ (forall r c d, r < N -> c < N -> d < N ->
          row_index sv r c d < N * (N * N)
          /\ (forall j, mat M (row_index sv r c d) j = true
                <-> j = cell_column sv r c \/ j = row_column sv r d
                    \/ j = col_column sv c d \/ j = block_column sv r c d)
          /\ cell_column sv r c < N * N
          /\ N * N <= row_column sv r d < 2 * (N * N)
          /\ 2 * (N * N) <= col_column sv c d < 3 * (N * N)
          /\ 3 * (N * N) <= block_column sv r c d < 4 * (N * N)
          /\ block_of sv r c = r / k * k + c / k)
    /\ (forall j, j < 4 * (N * N) -> column_count M j = N).
Proof.
  intros [Hk _] sv N.
  assert (HN : gridSize sv = N) by reflexivity.
  assert (Hbs : blockSize sv = k) by reflexivity.
  assert (Hcc : cellCount sv = N * N) by reflexivity.
  assert (HR : exactCoverRows sv = N * (N * N)) by reflexivity.
  assert (HC : exactCoverCols sv = 4 * (N * N)) by reflexivity.
  assert (Hsq : N = k * k) by reflexivity.
  assert (Hpos : 0 < k) by lia.
  assert (HNpos : 0 < N) by (unfold N; nia).
  clearbody sv N.
  destruct (encoder_ok sv N k HN Hbs Hcc HR HC Hsq Hpos) as (M & E & Hd & HM).
  exists M. split; [exact E |]. split; [apply Hd |]. split; [apply Hd |].
  split; [| split].
  - intros i Hi. apply (row_count_4 sv N k HN Hbs Hcc HR HC Hsq Hpos M i Hd HM Hi).
  - intros r c d Hr Hc Hdd.
    pose proof (row_index_bound sv N HN Hcc HNpos r c d Hr Hc Hdd) as Hi.
    split; [exact Hi |]. split.
    + intros j. rewrite (HM _ j Hi).
      apply (entry_row_index sv N k HN Hbs Hcc HR HC Hsq Hpos); assumption.
    + pose proof (columns_in_blocks sv N k HN Hbs Hcc HR HC Hsq Hpos r c d Hr Hc Hdd)
        as (B1 & B2 & B3 & B4).
      repeat split; try lia. unfold block_of. rewrite Hbs. reflexivity.
  - intros j Hj.
    apply (column_count_N sv N k HN Hbs Hcc HR HC Hsq Hpos M j Hd HM Hj).
Qed.

Lemma exact_cover_matrix_shape_witness :
  1 <= 2 <= 35
  /\ exists M,
       buildExactCoverMatrix solver4 (new_matrix 64 64) = Ok M
       /\ length M = 64
       /\ (forall i, i < 64 -> row_count M i = 4)
       /\ (forall j, j < 64 -> column_count M j = 4).
Proof.
  assert (H : 1 <= 2 <= 35) by lia. split; [exact H |].
  destruct (exact_cover_matrix_shape 2 H) as (M & E & Hlen & _ & Hrow & _ & Hcol).
  exists M. repeat split; assumption.
Defined.

(** ** Reading a field after a write *)

Lemma store_lookup (p : nat) (f : DLXNode -> DLXNode) (h : heap) (q : nat) :
  store p f h !!! q = if decide (q = p) then f (h !!! p) else h !!! q.
Proof.
  unfold store. destruct (decide (q = p)) as [-> | Hne].
  - apply lookup_total_insert_eq.
  - apply lookup_total_insert_ne. congruence.
Qed.

Lemma left_of_set_left (p : nat) (v : nat) (h : heap) (q : nat) :
  left_of (set_left p v h) q = if decide (q = p) then v else left_of h q.
Proof.
  unfold left_of, set_left. rewrite store_lookup.
  destruct (decide (q = p)); reflexivity.
Qed.

Lemma right_of_set_left (p : nat) (v : nat) (h : heap) (q : nat) :
  right_of (set_left p v h) q = right_of h q.
Proof.
  unfold right_of, set_left. rewrite store_lookup.
  destruct (decide (q = p)) as [-> | _]; reflexivity.
Qed.

Lemma up_of_set_left (p : nat) (v : nat) (h : heap) (q : nat) :
  up_of (set_left p v h) q = up_of h q.
Proof.
  unfold up_of, set_left. rewrite store_lookup.
  destruct (decide (q = p)) as [-> | _]; reflexivity.
Qed.

Lemma down_of_set_left (p : nat) (v : nat) (h : heap) (q : nat) :
  down_of (set_left p v h) q = down_of h q.
Proof.
  unfold down_of, set_left. rewrite store_lookup.
  destruct (decide (q = p)) as [-> | _]; reflexivity.
Qed.

Lemma column_of_set_left (p : nat) (v : nat) (h : heap) (q : nat) :
  column_of (set_left p v h) q = column_of h q.
Proof.
  unfold column_of, set_left. rewrite store_lookup.
  destruct (decide (q = p)) as [-> | _]; reflexivity.
Qed.

Lemma size_of_set_left (p : nat) (v : nat) (h : heap) (q : nat) :
  size_of (set_left p v h) q = size_of h q.
Proof.
  unfold size_of, set_left. rewrite store_lookup.
  destruct (decide (q = p)) as [-> | _]; reflexivity.
Qed.

Lemma rowData_of_set_left (p : nat) (v : nat) (h : heap) (q : nat) :
  rowData_of (set_left p v h) q = rowData_of h q.
Proof.
  unfold rowData_of, set_left. rewrite store_lookup.
  destruct (decide (q = p)) as [-> | _]; reflexivity.
Qed.

Lemma left_of_set_right (p : nat) (v : nat) (h : heap) (q : nat) :
  left_of (set_right p v h) q = left_of h q.
Proof.
  unfold left_of, set_right. rewrite store_lookup.
  destruct (decide (q = p)) as [-> | _]; reflexivity.
Qed.

Lemma right_of_set_right (p : nat) (v : nat) (h : heap) (q : nat) :
  right_of (set_right p v h) q = if decide (q = p) then v else right_of h q.
Proof.
  unfold right_of, set_right. rewrite store_lookup.
  destruct (decide (q = p)); reflexivity.
Qed.

Lemma up_of_set_right (p : nat) (v : nat) (h : heap) (q : nat) :
  up_of (set_right p v h) q = up_of h q.
Proof.
  unfold up_of, set_right. rewrite store_lookup.
  destruct (decide (q = p)) as [-> | _]; reflexivity.
Qed.

Lemma down_of_set_right (p : nat) (v : nat) (h : heap) (q : nat) :
  down_of (set_right p v h) q = down_of h q.
Proof.
  unfold down_of, set_right. rewrite store_lookup.
  destruct (decide (q = p)) as [-> | _]; reflexivity.
Qed.

Lemma column_of_set_right (p : nat) (v : nat) (h : heap) (q : nat) :
  column_of (set_right p v h) q = column_of h q.
Proof.
  unfold column_of, set_right. rewrite store_lookup.
  destruct (decide (q = p)) as [-> | _]; reflexivity.
Qed.

Lemma size_of_set_right (p : nat) (v : nat) (h : heap) (q : nat) :
  size_of (set_right p v h) q = size_of h q.
Proof.
  unfold size_of, set_right. rewrite store_lookup.
  destruct (decide (q = p)) as [-> | _]; reflexivity.
Qed.

Lemma rowData_of_set_right (p : nat) (v : nat) (h : heap) (q : nat) :
  rowData_of (set_right p v h) q = rowData_of h q.
Proof.
  unfold rowData_of, set_right. rewrite store_lookup.
  destruct (decide (q = p)) as [-> | _]; reflexivity.
Qed.

Lemma left_of_set_up (p : nat) (v : nat) (h : heap) (q : nat) :
  left_of (set_up p v h) q = left_of h q.
Proof.
  unfold left_of, set_up. rewrite store_lookup.
  destruct (decide (q = p)) as [-> | _]; reflexivity.
Qed.

Lemma right_of_set_up (p : nat) (v : nat) (h : heap) (q : nat) :
  right_of (set_up p v h) q = right_of h q.
Proof.
  unfold right_of, set_up. rewrite store_lookup.
  destruct (decide (q = p)) as [-> | _]; reflexivity.
Qed.

Lemma up_of_set_up (p : nat) (v : nat) (h : heap) (q : nat) :
  up_of (set_up p v h) q = if decide (q = p) then v else up_of h q.
Proof.
  unfold up_of, set_up. rewrite store_lookup.
  destruct (decide (q = p)); reflexivity.
Qed.

Lemma down_of_set_up (p : nat) (v : nat) (h : heap) (q : nat) :
  down_of (set_up p v h) q = down_of h q.
Proof.
  unfold down_of, set_up. rewrite store_lookup.
  destruct (decide (q = p)) as [-> | _]; reflexivity.
Qed.

Lemma column_of_set_up (p : nat) (v : nat) (h : heap) (q : nat) :
  column_of (set_up p v h) q = column_of h q.
Proof.
  unfold column_of, set_up. rewrite store_lookup.
  destruct (decide (q = p)) as [-> | _]; reflexivity.
Qed.

Lemma size_of_set_up (p : nat) (v : nat) (h : heap) (q : nat) :
  size_of (set_up p v h) q = size_of h q.
Proof.
  unfold size_of, set_up. rewrite store_lookup.
  destruct (decide (q = p)) as [-> | _]; reflexivity.
Qed.

Lemma rowData_of_set_up (p : nat) (v : nat) (h : heap) (q : nat) :
  rowData_of (set_up p v h) q = rowData_of h q.
Proof.
  unfold rowData_of, set_up. rewrite store_lookup.
  destruct (decide (q = p)) as [-> | _]; reflexivity.
Qed.

Lemma left_of_set_down (p : nat) (v : nat) (h : heap) (q : nat) :
  left_of (set_down p v h) q = left_of h q.
Proof.
  unfold left_of, set_down. rewrite store_lookup.
  destruct (decide (q = p)) as [-> | _]; reflexivity.
Qed.

Lemma right_of_set_down (p : nat) (v : nat) (h : heap) (q : nat) :
  right_of (set_down p v h) q = right_of h q.
Proof.
  unfold right_of, set_down. rewrite store_lookup.
  destruct (decide (q = p)) as [-> | _]; reflexivity.
Qed.

Lemma up_of_set_down (p : nat) (v : nat) (h : heap) (q : nat) :
  up_of (set_down p v h) q = up_of h q.
Proof.
  unfold up_of, set_down. rewrite store_lookup.
  destruct (decide (q = p)) as [-> | _]; reflexivity.
Qed.

Lemma down_of_set_down (p : nat) (v : nat) (h : heap) (q : nat) :
  down_of (set_down p v h) q = if decide (q = p) then v else down_of h q.
Proof.
  unfold down_of, set_down. rewrite store_lookup.
  destruct (decide (q = p)); reflexivity.
Qed.

Lemma column_of_set_down (p : nat) (v : nat) (h : heap) (q : nat) :
  column_of (set_down p v h) q = column_of h q.
Proof.
  unfold column_of, set_down. rewrite store_lookup.
  destruct (decide (q = p)) as [-> | _]; reflexivity.
Qed.

Lemma size_of_set_down (p : nat) (v : nat) (h : heap) (q : nat) :
  size_of (set_down p v h) q = size_of h q.
Proof.
  unfold size_of, set_down. rewrite store_lookup.
  destruct (decide (q = p)) as [-> | _]; reflexivity.
Qed.

Lemma rowData_of_set_down (p : nat) (v : nat) (h : heap) (q : nat) :
  rowData_of (set_down p v h) q = rowData_of h q.
Proof.
  unfold rowData_of, set_down. rewrite store_lookup.
  destruct (decide (q = p)) as [-> | _]; reflexivity.
Qed.

Lemma left_of_set_column (p : nat) (v : nat) (h : heap) (q : nat) :
  left_of (set_column p v h) q = left_of h q.
Proof.
  unfold left_of, set_column. rewrite store_lookup.
  destruct (decide (q = p)) as [-> | _]; reflexivity.
Qed.

Lemma right_of_set_column (p : nat) (v : nat) (h : heap) (q : nat) :
  right_of (set_column p v h) q = right_of h q.
Proof.
  unfold right_of, set_column. rewrite store_lookup.
  destruct (decide (q = p)) as [-> | _]; reflexivity.
Qed.

Lemma up_of_set_column (p : nat) (v : nat) (h : heap) (q : nat) :
  up_of (set_column p v h) q = up_of h q.
Proof.
  unfold up_of, set_column. rewrite store_lookup.
  destruct (decide (q = p)) as [-> | _]; reflexivity.
Qed.

Lemma down_of_set_column (p : nat) (v : nat) (h : heap) (q : nat) :
  down_of (set_column p v h) q = down_of h q.
Proof.
  unfold down_of, set_column. rewrite store_lookup.
  destruct (decide (q = p)) as [-> | _]; reflexivity.
Qed.

Lemma column_of_set_column (p : nat) (v : nat) (h : heap) (q : nat) :
  column_of (set_column p v h) q = if decide (q = p) then v else column_of h q.
Proof.
  unfold column_of, set_column. rewrite store_lookup.
  destruct (decide (q = p)); reflexivity.
Qed.

Lemma size_of_set_column (p : nat) (v : nat) (h : heap) (q : nat) :
  size_of (set_column p v h) q = size_of h q.
Proof.
  unfold size_of, set_column. rewrite store_lookup.
  destruct (decide (q = p)) as [-> | _]; reflexivity.
Qed.

Lemma rowData_of_set_column (p : nat) (v : nat) (h : heap) (q : nat) :
  rowData_of (set_column p v h) q = rowData_of h q.
Proof.
  unfold rowData_of, set_column. rewrite store_lookup.
  destruct (decide (q = p)) as [-> | _]; reflexivity.
Qed.

Lemma left_of_set_size (p : nat) (v : Z) (h : heap) (q : nat) :
  left_of (set_size p v h) q = left_of h q.
Proof.
  unfold left_of, set_size. rewrite store_lookup.
  destruct (decide (q = p)) as [-> | _]; reflexivity.
Qed.

Lemma right_of_set_size (p : nat) (v : Z) (h : heap) (q : nat) :
  right_of (set_size p v h) q = right_of h q.
Proof.
  unfold right_of, set_size. rewrite store_lookup.
  destruct (decide (q = p)) as [-> | _]; reflexivity.
Qed.

Lemma up_of_set_size (p : nat) (v : Z) (h : heap) (q : nat) :
  up_of (set_size p v h) q = up_of h q.
Proof.
  unfold up_of, set_size. rewrite store_lookup.
  destruct (decide (q = p)) as [-> | _]; reflexivity.
Qed.

Lemma down_of_set_size (p : nat) (v : Z) (h : heap) (q : nat) :
  down_of (set_size p v h) q = down_of h q.
Proof.
  unfold down_of, set_size. rewrite store_lookup.
  destruct (decide (q = p)) as [-> | _]; reflexivity.
Qed.

Lemma column_of_set_size (p : nat) (v : Z) (h : heap) (q : nat) :
  column_of (set_size p v h) q = column_of h q.
Proof.
  unfold column_of, set_size. rewrite store_lookup.
  destruct (decide (q = p)) as [-> | _]; reflexivity.
Qed.

Lemma size_of_set_size (p : nat) (v : Z) (h : heap) (q : nat) :
  size_of (set_size p v h) q = if decide (q = p) then v else size_of h q.
Proof.
  unfold size_of, set_size. rewrite store_lookup.
  destruct (decide (q = p)); reflexivity.
Qed.

Lemma rowData_of_set_size (p : nat) (v : Z) (h : heap) (q : nat) :
  rowData_of (set_size p v h) q = rowData_of h q.
Proof.
  unfold rowData_of, set_size. rewrite store_lookup.
  destruct (decide (q = p)) as [-> | _]; reflexivity.
Qed.

Lemma left_of_set_rowData (p : nat) (v : list Z) (h : heap) (q : nat) :
  left_of (set_rowData p v h) q = left_of h q.
Proof.
  unfold left_of, set_rowData. rewrite store_lookup.
  destruct (decide (q = p)) as [-> | _]; reflexivity.
Qed.

Lemma right_of_set_rowData (p : nat) (v : list Z) (h : heap) (q : nat) :
  right_of (set_rowData p v h) q = right_of h q.
Proof.
  unfold right_of, set_rowData. rewrite store_lookup.
  destruct (decide (q = p)) as [-> | _]; reflexivity.
Qed.

Lemma up_of_set_rowData (p : nat) (v : list Z) (h : heap) (q : nat) :
  up_of (set_rowData p v h) q = up_of h q.
Proof.
  unfold up_of, set_rowData. rewrite store_lookup.
  destruct (decide (q = p)) as [-> | _]; reflexivity.
Qed.

Lemma down_of_set_rowData (p : nat) (v : list Z) (h : heap) (q : nat) :
  down_of (set_rowData p v h) q = down_of h q.
Proof.
  unfold down_of, set_rowData. rewrite store_lookup.
  destruct (decide (q = p)) as [-> | _]; reflexivity.
Qed.

Lemma column_of_set_rowData (p : nat) (v : list Z) (h : heap) (q : nat) :
  column_of (set_rowData p v h) q = column_of h q.
Proof.
  unfold column_of, set_rowData. rewrite store_lookup.
  destruct (decide (q = p)) as [-> | _]; reflexivity.
Qed.

Lemma size_of_set_rowData (p : nat) (v : list Z) (h : heap) (q : nat) :
  size_of (set_rowData p v h) q = size_of h q.
Proof.
  unfold size_of, set_rowData. rewrite store_lookup.
  destruct (decide (q = p)) as [-> | _]; reflexivity.
Qed.

Lemma rowData_of_set_rowData (p : nat) (v : list Z) (h : heap) (q : nat) :
  rowData_of (set_rowData p v h) q = if decide (q = p) then v else rowData_of h q.
Proof.
  unfold rowData_of, set_rowData. rewrite store_lookup.
  destruct (decide (q = p)); reflexivity.
Qed.

Create Rewrite HintDb heap.

#[global] Hint Rewrite
  left_of_set_left
  right_of_set_left
  up_of_set_left
  down_of_set_left
  column_of_set_left
  size_of_set_left
  rowData_of_set_left
  left_of_set_right
  right_of_set_right
  up_of_set_right
  down_of_set_right
  column_of_set_right
  size_of_set_right
  rowData_of_set_right
  left_of_set_up
  right_of_set_up
  up_of_set_up
  down_of_set_up
  column_of_set_up
  size_of_set_up
  rowData_of_set_up
  left_of_set_down
  right_of_set_down
  up_of_set_down
  down_of_set_down
  column_of_set_down
  size_of_set_down
  rowData_of_set_down
  left_of_set_column
  right_of_set_column
  up_of_set_column
  down_of_set_column
  column_of_set_column
  size_of_set_column
  rowData_of_set_column
  left_of_set_size
  right_of_set_size
  up_of_set_size
  down_of_set_size
  column_of_set_size
  size_of_set_size
  rowData_of_set_size
  left_of_set_rowData
  right_of_set_rowData
  up_of_set_rowData
  down_of_set_rowData
  column_of_set_rowData
  size_of_set_rowData
  rowData_of_set_rowData
  : heap.

(** ** Segments and rings *)

Lemma last_of_app (x : nat) (l1 l2 : list nat) :
  last_of x (l1 ++ l2) = last_of (last_of x l1) l2.
Proof. revert x. induction l1 as [| a l1 IH]; intros x; cbn; auto. Qed.

Lemma last_of_elem (x : nat) (l : list nat) : last_of x l ∈ x :: l.
Proof.
  revert x. induction l as [| a l IH]; intros x; cbn.
  - apply elem_of_cons. auto.
  - apply elem_of_cons. right. apply IH.
Qed.

Lemma first_of_elem (l : list nat) (z : nat) : first_of l z ∈ l ++ [z].
Proof. destruct l; cbn; apply elem_of_cons; auto. Qed.

Lemma seg_ext (nx pv nx' pv' : nat -> nat) (l : list nat) :
  forall x z,
  (forall y, y ∈ x :: l -> nx' y = nx y) ->
  (forall y, y ∈ l -> pv' y = pv y) ->
  seg nx pv x l z -> seg nx' pv' x l z.
Proof.
  induction l as [| a l IH]; intros x z Hnx Hpv; cbn.
  - intros <-. apply Hnx. apply elem_of_cons. auto.
  - intros (E1 & E2 & E3). split; [| split].
    + rewrite Hnx; [exact E1 | apply elem_of_cons; auto].
    + rewrite Hpv; [exact E2 | apply elem_of_cons; auto].
    + apply IH; [| | exact E3].
      * intros y Hy. apply Hnx. apply elem_of_cons. auto.
      * intros y Hy. apply Hpv. apply elem_of_cons. auto.
Qed.

Lemma seg_app (nx pv : nat -> nat) (l1 : list nat) :
  forall x y l2 z,
  seg nx pv x (l1 ++ y :: l2) z
  <-> seg nx pv x l1 y /\ pv y = last_of x l1 /\ seg nx pv y l2 z.
Proof.
  induction l1 as [| a l1 IH]; intros x y l2 z; cbn.
  - tauto.
  - rewrite IH. tauto.
Qed.

Lemma seg_snoc (nx pv : nat -> nat) (l : list nat) (x y z : nat) :
  seg nx pv x (l ++ [y]) z
  <-> seg nx pv x l y /\ pv y = last_of x l /\ nx y = z.
Proof. rewrite seg_app. cbn. tauto. Qed.

(** The way back: a segment read from its end with the two links
    exchanged. *)
Lemma seg_reverse (nx pv : nat -> nat) (l : list nat) :
  forall x z,
  seg nx pv x l z -> pv z = last_of x l -> seg pv nx z (reverse l) x.
Proof.
  induction l as [| a l IH] using rev_ind; intros x z Hs Hz.
  - cbn in *. exact Hz.
  - apply seg_snoc in Hs as (Hs & Ha & Haz).
    rewrite reverse_app. cbn.
    rewrite last_of_app in Hz. cbn in Hz.
    split; [exact Hz |]. split; [exact Haz |].
    apply IH; assumption.
Qed.

Lemma seg_nx_last (nx pv : nat -> nat) (l : list nat) :
  forall x z, seg nx pv x l z -> nx (last_of x l) = z.
Proof.
  induction l as [| a l IH]; intros x z; cbn; [tauto |].
  intros (_ & _ & H). apply IH. exact H.
Qed.

Lemma seg_nx_first (nx pv : nat -> nat) (l : list nat) (x z : nat) :
  seg nx pv x l z -> nx x = first_of l z.
Proof. destruct l; cbn; tauto. Qed.

(** Unlinking the node [t] of a segment. *)
Lemma seg_delete (nx pv nx' pv' : nat -> nat) (l1 : list nat) :
  forall x t l2 z,
  seg nx pv x (l1 ++ t :: l2) z ->
  NoDup (x :: l1 ++ t :: l2) -> z ∉ l1 ++ l2 ->
  (forall y, nx' y = if decide (y = pv t) then nx t else nx y) ->
  (forall y, pv' y = if decide (y = nx t) then pv t else pv y) ->
  seg nx' pv' x (l1 ++ l2) z.
Proof.
  induction l1 as [| a l1 IH]; intros x t l2 z Hs Hnd Hz Hnx Hpv.
  - cbn in Hs. destruct Hs as (Ext & Etx & Hs). cbn [app] in *.
    apply NoDup_cons in Hnd as [Hx Hnd]. apply NoDup_cons in Hnd as [Ht Hnd].
    apply not_elem_of_cons in Hx as [Hxt Hx].
    destruct l2 as [| u l2]; cbn in Hs |- *.
    + rewrite Hnx, Etx. destruct (decide (x = x)); [exact Hs | congruence].
    + destruct Hs as (Etu & Eut & Hs).
      rewrite Hnx, Hpv, Etx, Etu.
      destruct (decide (x = x)); [| congruence].
      destruct (decide (u = u)); [| congruence].
      split; [reflexivity |]. split; [reflexivity |].
      apply NoDup_cons in Hnd as [Hu Hnd].
      apply (seg_ext nx pv); [| | exact Hs].
      * intros y Hy. rewrite Hnx, Etx.
        destruct (decide (y = x)) as [-> | _]; [| reflexivity].
        exfalso. apply Hx. exact Hy.
      * intros y Hy. rewrite Hpv, Etu.
        destruct (decide (y = u)) as [-> | _]; [| reflexivity].
        exfalso. apply Hu. exact Hy.
  - cbn in Hs. destruct Hs as (Exa & Eax & Hs). cbn [app] in *.
    pose proof (proj1 (seg_app nx pv l1 a t l2 z) Hs) as (_ & Et & Hs2).
    apply NoDup_cons in Hnd as [Hx Hnd].
    apply not_elem_of_cons in Hz as [Hza Hz].
    split; [| split].
    + rewrite Hnx, Et.
      destruct (decide (x = last_of a l1)) as [E | _]; [| exact Exa].
      exfalso. apply Hx. rewrite E.
      pose proof (last_of_elem a l1) as Hin.
      apply elem_of_cons in Hin as [-> | Hin]; apply elem_of_cons; [auto |].
      right. apply elem_of_app. auto.
    + rewrite Hpv.
      destruct (decide (a = nx t)) as [E | _]; [| exact Eax].
      exfalso. rewrite (seg_nx_first _ _ _ _ _ Hs2) in E.
      destruct l2 as [| u l2]; cbn in E; [congruence |].
      apply NoDup_cons in Hnd as [Ha _]. apply Ha. rewrite E.
      apply elem_of_app. right. apply elem_of_cons. right. apply elem_of_cons. auto.
    + apply (IH a t l2 z Hs Hnd Hz Hnx Hpv).
Qed.

(** Unlinking a node of a ring leaves a ring. *)
Lemma ring_delete (nx pv nx' pv' : nat -> nat) (c : nat) (l1 : list nat)
    (t : nat) (l2 : list nat) :
  ring nx pv c (l1 ++ t :: l2) ->
  (forall y, nx' y = if decide (y = pv t) then nx t else nx y) ->
  (forall y, pv' y = if decide (y = nx t) then pv t else pv y) ->
  ring nx' pv' c (l1 ++ l2).
Proof.
  intros (Hnd & Hs & Hc) Hnx Hpv.
  assert (Hnd' : NoDup (c :: l1 ++ l2)).
  { apply NoDup_cons in Hnd as [Hcl Hnd]. apply NoDup_cons. split.
    - intros H. apply Hcl. apply elem_of_app in H as [H | H];
        apply elem_of_app; [auto |]. right. apply elem_of_cons. auto.
    - apply NoDup_app in Hnd as (N1 & N2 & N3). apply NoDup_cons in N3 as [_ N3].
      apply NoDup_app. split; [exact N1 |]. split; [| exact N3].
      intros y Hy Hy'. apply (N2 y Hy). apply elem_of_cons. auto. }
  assert (Hcl : c ∉ l1 ++ l2) by (apply NoDup_cons in Hnd' as [H _]; exact H).
  split; [exact Hnd' |]. split.
  - apply (seg_delete nx pv nx' pv' l1 c t l2 c Hs Hnd Hcl Hnx Hpv).
  - pose proof (proj1 (seg_app nx pv l1 c t l2 c) Hs) as (_ & Et & Hs2).
    rewrite Hpv. rewrite last_of_app in Hc |- *. cbn in Hc.
    rewrite (seg_nx_first _ _ _ _ _ Hs2).
    destruct l2 as [| u l2]; cbn.
    + destruct (decide (c = c)); [exact Et | congruence].
    + destruct (decide (c = u)) as [E | _]; [| exact Hc].
      exfalso. apply Hcl. rewrite E. apply elem_of_app. right. apply elem_of_cons. auto.
Qed.

Lemma ring_ext (nx pv nx' pv' : nat -> nat) (c : nat) (l : list nat) :
  (forall y, y ∈ c :: l -> nx' y = nx y /\ pv' y = pv y) ->
  ring nx pv c l -> ring nx' pv' c l.
Proof.
  intros Hext (Hnd & Hs & Hc). split; [exact Hnd |]. split.
  - apply (seg_ext nx pv); [| | exact Hs].
    + intros y Hy. apply Hext. exact Hy.
    + intros y Hy. apply Hext. apply elem_of_cons. auto.
  - rewrite (proj2 (Hext c ltac:(apply elem_of_cons; auto))). exact Hc.
Qed.

Lemma ring_NoDup (nx pv : nat -> nat) (c : nat) (l : list nat) :
  ring nx pv c l -> NoDup l /\ c ∉ l.
Proof. intros (Hnd & _). apply NoDup_cons in Hnd. tauto. Qed.

(** The link of a node of a segment to its successor. *)
Lemma seg_nx_at (nx pv : nat -> nat) (l1 : list nat) (x y : nat)
    (l2 : list nat) (z : nat) :
  seg nx pv x (l1 ++ y :: l2) z -> nx y = first_of l2 z /\ pv y = last_of x l1.
Proof.
  intros H. apply seg_app in H as (_ & Hp & H).
  split; [apply (seg_nx_first _ _ _ _ _ H) | exact Hp].
Qed.

(** A ring read from another of its nodes. *)
Lemma ring_rotate (nx pv : nat -> nat) (c : nat) (l1 : list nat) (n : nat)
    (l2 : list nat) :
  ring nx pv c (l1 ++ n :: l2) -> ring nx pv n (l2 ++ c :: l1).
Proof.
  intros (Hnd & Hs & Hc).
  apply seg_app in Hs as (Hs1 & Hn & Hs2).
  rewrite last_of_app in Hc. cbn in Hc.
  split; [| split].
  - assert (Hp : n :: l2 ++ c :: l1 ≡ₚ c :: l1 ++ n :: l2).
    { change ((n :: l2) ++ (c :: l1) ≡ₚ (c :: l1) ++ (n :: l2)).
      apply Permutation_app_comm. }
    rewrite Hp. exact Hnd.
  - apply seg_app. split; [exact Hs2 |]. split; [exact Hc | exact Hs1].
  - rewrite last_of_app. cbn. exact Hn.
Qed.

(** A node of a ring is linked both ways to its two neighbours. *)
Lemma ring_linked (nx pv : nat -> nat) (c : nat) (l1 : list nat) (t : nat)
    (l2 : list nat) :
  ring nx pv c (l1 ++ t :: l2) ->
  pv (nx t) = t /\ nx (pv t) = t /\ nx t <> t /\ pv t <> t
  /\ nx t ∈ c :: l2 /\ pv t ∈ c :: l1.
Proof.
  intros (Hnd & Hs & Hc).
  apply seg_app in Hs as (Hs1 & Hp & Hs2).
  pose proof (seg_nx_first _ _ _ _ _ Hs2) as Hn.
  apply NoDup_cons in Hnd as [Hcl Hnd].
  apply NoDup_app in Hnd as (N1 & N2 & N3). apply NoDup_cons in N3 as [Ht2 N3].
  assert (Hct : c <> t).
  { intros ->. apply Hcl. apply elem_of_app. right. apply elem_of_cons. auto. }
  assert (Ht1 : t ∉ l1).
  { intros H. apply (N2 t H). apply elem_of_cons. auto. }
  assert (Hnin : nx t ∈ c :: l2).
  { rewrite Hn. destruct l2; cbn; apply elem_of_cons; auto.
    right. apply elem_of_cons. auto. }
  assert (Hpin : pv t ∈ c :: l1) by (rewrite Hp; apply last_of_elem).
  split; [| split; [| split; [| split; [| split]]]]; try assumption.
  - rewrite Hn. destruct l2 as [| u l2]; cbn in *.
    + rewrite Hc, last_of_app. reflexivity.
    + tauto.
  - rewrite Hp. apply (seg_nx_last _ _ _ _ _ Hs1).
  - intros E. rewrite E in Hnin. apply elem_of_cons in Hnin as [-> | H]; tauto.
  - intros E. rewrite E in Hpin. apply elem_of_cons in Hpin as [-> | H]; tauto.
Qed.

(** ** Lists without some of their elements *)

Lemma filter_notin_nil (l : list nat) : filter (fun p => p ∉ []) l = l.
Proof.
  induction l as [| x l IH]; [reflexivity |].
  rewrite filter_cons. destruct (decide (x ∉ [])) as [_ | H].
  - f_equal. exact IH.
  - exfalso. apply H. intros H'. apply elem_of_nil in H'. exact H'.
Qed.

Lemma filter_notin_cons (t : nat) (ts l : list nat) :
  filter (fun p => p ∉ t :: ts) l
  = filter (fun p => p ∉ ts) (filter (fun p => p <> t) l).
Proof.
  rewrite list_filter_filter. apply list_filter_iff.
  intros x. rewrite not_elem_of_cons. tauto.
Qed.

Lemma filter_ne_id (t : nat) (l : list nat) :
  t ∉ l -> filter (fun p => p <> t) l = l.
Proof.
  induction l as [| x l IH]; intros Ht; [reflexivity |].
  apply not_elem_of_cons in Ht as [Hx Ht].
  rewrite filter_cons. destruct (decide (x <> t)) as [_ | Hn];
    [| exfalso; apply Hn; congruence].
  f_equal. apply IH. exact Ht.
Qed.

Lemma filter_ne_split (t : nat) (l1 l2 : list nat) :
  NoDup (l1 ++ t :: l2) -> filter (fun p => p <> t) (l1 ++ t :: l2) = l1 ++ l2.
Proof.
  intros Hnd. apply NoDup_app in Hnd as (_ & N2 & N3).
  apply NoDup_cons in N3 as [Ht2 _].
  rewrite filter_app, filter_cons.
  destruct (decide (t <> t)); [congruence |].
  rewrite !filter_ne_id; [reflexivity | exact Ht2 |].
  intros H. apply (N2 t H). apply elem_of_cons. auto.
Qed.

Lemma filter_notin_id (ts l : list nat) :
  (forall p, p ∈ l -> p ∉ ts) -> filter (fun p => p ∉ ts) l = l.
Proof.
  induction l as [| x l IH]; intros H; [reflexivity |].
  rewrite filter_cons. destruct (decide (x ∉ ts)) as [_ | Hx].
  - f_equal. apply IH. intros p Hp. apply H. apply elem_of_cons. auto.
  - exfalso. apply Hx. apply H. apply elem_of_cons. auto.
Qed.

(** Linking a new node at the end of a segment, and of a ring. *)
Lemma seg_retarget (nx pv nx' pv' : nat -> nat) (l : list nat) :
  forall x z z',
  seg nx pv x l z -> NoDup (x :: l) ->
  nx' (last_of x l) = z' ->
  (forall q, q ∈ x :: l -> q <> last_of x l -> nx' q = nx q) ->
  (forall q, q ∈ l -> pv' q = pv q) ->
  seg nx' pv' x l z'.
Proof.
  induction l as [| a l IH]; intros x z z' Hs Hnd Hl Hnx Hpv; cbn in *.
  - exact Hl.
  - destruct Hs as (Hx & Ha & Hs).
    apply NoDup_cons in Hnd as [Hxl Hnd].
    split; [| split].
    + rewrite Hnx; [exact Hx | apply elem_of_cons; auto |].
      intros E. apply Hxl. rewrite E. apply last_of_elem.
    + rewrite Hpv; [exact Ha | apply elem_of_cons; auto].
    + apply (IH a z z' Hs Hnd Hl).
      * intros q Hq. apply Hnx. apply elem_of_cons. auto.
      * intros q Hq. apply Hpv. apply elem_of_cons. auto.
Qed.

Lemma ring_snoc (nx pv nx' pv' : nat -> nat) (c : nat) (l : list nat) (y : nat) :
  ring nx pv c l -> y ∉ c :: l ->
  nx' y = c -> nx' (last_of c l) = y ->
  (forall q, q ∈ c :: l -> q <> last_of c l -> nx' q = nx q) ->
  pv' c = y -> pv' y = last_of c l ->
  (forall q, q ∈ l -> pv' q = pv q) ->
  ring nx' pv' c (l ++ [y]).
Proof.
  intros (Hnd & Hs & Hc) Hy Hny Hnl Hnx Hpc Hpy Hpv.
  split; [| split].
  - change (NoDup ((c :: l) ++ [y])). apply NoDup_app. split; [exact Hnd |].
    split.
    + intros q Hq Hq'. apply list_elem_of_singleton in Hq'. subst q. auto.
    + apply NoDup_singleton.
  - apply seg_snoc. split; [| split; [exact Hpy | exact Hny]].
    apply (seg_retarget nx pv nx' pv' l c c y Hs Hnd Hnl Hnx Hpv).
  - rewrite last_of_app. cbn. exact Hpc.
Qed.

Lemma ring_single (nx pv : nat -> nat) (c : nat) :
  nx c = c -> pv c = c -> ring nx pv c [].
Proof.
  intros Hn Hp. split; [apply NoDup_singleton |]. split; [exact Hn | exact Hp].
Qed.

(** A ring read from any of its nodes. *)
Lemma ring_rotations (nx pv : nat -> nat) (c : nat) (l : list nat)
    (a : list nat) (m : nat) (b : list nat) :
  ring nx pv c l -> a ++ m :: b = c :: l -> ring nx pv m (b ++ a).
Proof.
  intros Hr E. destruct a as [| c' a]; cbn in E.
  - injection E as -> ->. rewrite app_nil_r. exact Hr.
  - injection E as -> <-. apply ring_rotate. exact Hr.
Qed.

(** ** The rows of a torus *)

Lemma elem_of_concat (x : nat) (ls : list (list nat)) :
  x ∈ concat ls <-> exists l, l ∈ ls /\ x ∈ l.
Proof.
  induction ls as [| l0 ls IH]; cbn.
  - split; [intros H; apply elem_of_nil in H; tauto |].
    intros (l & H & _). apply elem_of_nil in H. tauto.
  - rewrite elem_of_app, IH. split.
    + intros [H | (l & Hl & Hx)].
      * exists l0. split; [apply elem_of_cons; auto | exact H].
      * exists l. split; [apply elem_of_cons; auto | exact Hx].
    + intros (l & Hl & Hx). apply elem_of_cons in Hl as [-> | Hl]; [auto |].
      right. exists l. auto.
Qed.

Lemma NoDup_concat_row (ls : list (list nat)) (l : list nat) :
  NoDup (concat ls) -> l ∈ ls -> NoDup l.
Proof.
  induction ls as [| l0 ls IH]; cbn; intros Hnd Hl.
  - apply elem_of_nil in Hl. tauto.
  - apply NoDup_app in Hnd as (N1 & _ & N3).
    apply elem_of_cons in Hl as [-> | Hl]; auto.
Qed.

Lemma NoDup_concat_disjoint (ls : list (list nat)) (l1 l2 : list nat) (x : nat) :
  NoDup (concat ls) -> l1 ∈ ls -> l2 ∈ ls -> x ∈ l1 -> x ∈ l2 -> l1 = l2.
Proof.
  induction ls as [| l0 ls IH]; cbn; intros Hnd H1 H2 Hx1 Hx2.
  - apply elem_of_nil in H1. tauto.
  - apply NoDup_app in Hnd as (N1 & N2 & N3).
    apply elem_of_cons in H1 as [-> | H1]; apply elem_of_cons in H2 as [-> | H2].
    + reflexivity.
    + exfalso. apply (N2 x Hx1). apply elem_of_concat. eauto.
    + exfalso. apply (N2 x Hx2). apply elem_of_concat. eauto.
    + apply IH; assumption.
Qed.

Lemma index_in_app (n : nat) (a b : list nat) :
  n ∉ a -> index_in n (a ++ n :: b) = Some (length a).
Proof.
  induction a as [| x a IH]; intros Hn; cbn.
  - destruct (decide (n = n)); [reflexivity | congruence].
  - apply not_elem_of_cons in Hn as [Hx Hn].
    destruct (decide (x = n)); [congruence |]. rewrite (IH Hn). reflexivity.
Qed.

Lemma others_in_app (n : nat) (a b : list nat) :
  n ∉ a -> others_in n (a ++ n :: b) = b ++ a.
Proof.
  intros Hn. unfold others_in. rewrite (index_in_app n a b Hn).
  f_equal.
  - change (S (length a)) with (1 + length a). rewrite Nat.add_comm.
    rewrite drop_app_add. reflexivity.
  - apply take_app_length.
Qed.

Lemma row_of_spec (T : torus) (row : list nat) (n : nat) :
  NoDup (concat (t_rows T)) -> row ∈ t_rows T -> n ∈ row -> row_of T n = row.
Proof.
  unfold row_of. generalize (t_rows T). intros rows.
  induction rows as [| r rows IH]; intros Hnd Hrow Hn.
  - apply elem_of_nil in Hrow. tauto.
  - rewrite filter_cons. destruct (decide (n ∈ r)) as [Hr | Hr].
    + cbn. symmetry.
      apply (NoDup_concat_disjoint (r :: rows) row r n Hnd Hrow); [| exact Hn | exact Hr].
      apply elem_of_cons. auto.
    + apply elem_of_cons in Hrow as [-> | Hrow]; [tauto |].
      apply IH; [| exact Hrow | exact Hn].
      cbn in Hnd. apply NoDup_app in Hnd. tauto.
Qed.

Lemma others_spec (T : torus) (a : list nat) (n : nat) (b : list nat) :
  NoDup (concat (t_rows T)) -> a ++ n :: b ∈ t_rows T ->
  others T n = b ++ a.
Proof.
  intros Hnd Hrow. unfold others.
  assert (Hn : n ∈ a ++ n :: b).
  { apply elem_of_app. right. apply elem_of_cons. auto. }
  rewrite (row_of_spec T _ n Hnd Hrow Hn).
  apply others_in_app.
  pose proof (NoDup_concat_row _ _ Hnd Hrow) as Hr.
  apply NoDup_app in Hr as (_ & Hr & _).
  intros Ha. apply (Hr n Ha). apply elem_of_cons. auto.
Qed.

(** The other nodes of the row of [n]. *)
Lemma elem_of_others (T : torus) (row : list nat) (n q : nat) :
  NoDup (concat (t_rows T)) -> row ∈ t_rows T -> n ∈ row ->
  q ∈ others T n <-> q ∈ row /\ q <> n.
Proof.
  intros Hnd Hrow Hn.
  destruct (list_elem_of_split _ _ Hn) as (a & b & ->).
  rewrite (others_spec T a n b Hnd Hrow).
  pose proof (NoDup_concat_row _ _ Hnd Hrow) as Hr.
  apply NoDup_app in Hr as (_ & Hr1 & Hr2). apply NoDup_cons in Hr2 as [Hr2 _].
  rewrite !elem_of_app, elem_of_cons. split.
  - intros [H | H]; (split; [tauto |]); intros ->; [tauto |].
    apply (Hr1 n H). apply elem_of_cons. auto.
  - intros [[H | [H | H]] Hne]; tauto.
Qed.

Lemma NoDup_fmap_eq (f : nat -> nat) (l : list nat) (x y : nat) :
  NoDup (f <$> l) -> x ∈ l -> y ∈ l -> f x = f y -> x = y.
Proof.
  induction l as [| a l IH]; intros Hnd Hx Hy E.
  - apply elem_of_nil in Hx. tauto.
  - rewrite fmap_cons in Hnd. apply NoDup_cons in Hnd as [Ha Hnd].
    apply elem_of_cons in Hx as [-> | Hx]; apply elem_of_cons in Hy as [-> | Hy].
    + reflexivity.
    + exfalso. apply Ha. rewrite E. apply list_elem_of_fmap. eauto.
    + exfalso. apply Ha. rewrite <- E. apply list_elem_of_fmap. eauto.
    + apply IH; assumption.
Qed.

(** ** Loops along a ring *)

(** A loop whose state keeps an invariant [I] on the nodes still to be
    visited runs to the end of the ring. *)
Lemma for_ring_inv {St : Type} (I : list nat -> St -> Prop)
    (next : St -> nat -> nat) (stop : nat) (body : nat -> St -> result St) :
  (forall x rest st, I (x :: rest) st ->
     x <> stop /\ exists st', body x st = Ok st'
       /\ next st' x = first_of rest stop /\ I rest st') ->
  forall l fuel st, I l st -> length l < fuel ->
  exists st', for_ring fuel next stop body (first_of l stop) st = Ok st' /\ I [] st'.
Proof.
  intros Hstep. induction l as [| x l IH]; intros fuel st HI Hfuel.
  - destruct fuel as [| f]; [cbn in Hfuel; lia |]. cbn.
    rewrite Nat.eqb_refl. eauto.
  - destruct fuel as [| f]; [cbn in Hfuel; lia |]. cbn [for_ring first_of].
    destruct (Hstep x l st HI) as (Hx & st' & E & Hn & HI').
    destruct (Nat.eqb_spec x stop) as [-> | _]; [congruence |].
    rewrite E. cbn [bind]. rewrite Hn.
    apply IH; [exact HI' | cbn in Hfuel; lia].
Qed.

Lemma find_ring_none (next : nat -> nat) (stop : nat) (f : nat -> result nat)
    (l : list nat) :
  forall x fuel,
  (forall y, y ∈ l -> y <> stop /\ f y = Ok 0) ->
  (forall l1 y l2, l = l1 ++ y :: l2 -> next y = first_of l2 stop) ->
  x = first_of l stop -> length l < fuel ->
  find_ring fuel next stop f x = Ok 0.
Proof.
  induction l as [| a l IH]; intros x fuel Hf Hnext -> Hfuel.
  - destruct fuel as [| k]; [cbn in Hfuel; lia |]. cbn. rewrite Nat.eqb_refl.
    reflexivity.
  - destruct fuel as [| k]; [cbn in Hfuel; lia |]. cbn [find_ring first_of].
    destruct (Hf a ltac:(apply elem_of_cons; auto)) as [Ha Efa].
    destruct (Nat.eqb_spec a stop) as [-> | _]; [congruence |].
    rewrite Efa. cbn [bind]. rewrite Nat.eqb_refl.
    apply IH.
    + intros y Hy. apply Hf. apply elem_of_cons. auto.
    + intros l1 y l2 E. apply (Hnext (a :: l1) y l2). rewrite E. reflexivity.
    + apply (Hnext [] a l). reflexivity.
    + cbn in Hfuel. lia.
Qed.

(** The search along a ring stops at the first node that [f] accepts. *)
Lemma find_ring_total (next : nat -> nat) (stop : nat) (f : nat -> result nat)
    (l : list nat) :
  forall x fuel,
  (forall y, y ∈ l -> y <> stop /\ exists r, f y = Ok r) ->
  (forall l1 y l2, l = l1 ++ y :: l2 -> next y = first_of l2 stop) ->
  x = first_of l stop -> length l < fuel ->
  exists r, find_ring fuel next stop f x = Ok r
    /\ (r = 0 \/ exists y, y ∈ l /\ f y = Ok r).
Proof.
  induction l as [| a l IH]; intros x fuel Hf Hnext -> Hfuel.
  - destruct fuel as [| k]; [cbn in Hfuel; lia |]. cbn. rewrite Nat.eqb_refl.
    eauto.
  - destruct fuel as [| k]; [cbn in Hfuel; lia |]. cbn [find_ring first_of].
    destruct (Hf a ltac:(apply elem_of_cons; auto)) as [Ha [r Efa]].
    destruct (Nat.eqb_spec a stop) as [-> | _]; [congruence |].
    rewrite Efa. cbn [bind].
    destruct (Nat.eqb_spec r 0) as [-> | Hr].
    + destruct (IH (next a) k) as (r' & E & Hr').
      * intros y Hy. apply Hf. apply elem_of_cons. auto.
      * intros l1 y l2 E. apply (Hnext (a :: l1) y l2). rewrite E. reflexivity.
      * apply (Hnext [] a l). reflexivity.
      * cbn in Hfuel. lia.
      * exists r'. split; [exact E |].
        destruct Hr' as [-> | (y & Hy & Ey)]; [auto |].
        right. exists y. split; [apply elem_of_cons; auto | exact Ey].
    + exists r. split; [reflexivity |]. right. exists a.
      split; [apply elem_of_cons; auto | exact Efa].
Qed.

(** What every run of the body keeps, the loop keeps. *)
Lemma for_ring_preserves {St : Type} (Inv : St -> Prop) (next : St -> nat -> nat)
    (stop : nat) (body : nat -> St -> result St) :
  (forall p st st', Inv st -> body p st = Ok st' -> Inv st') ->
  forall fuel p st st',
  Inv st -> for_ring fuel next stop body p st = Ok st' -> Inv st'.
Proof.
  intros Hbody fuel. induction fuel as [| f IH]; intros p st st' H0 E; cbn in E.
  - discriminate.
  - destruct (p =? stop); [injection E as <-; exact H0 |].
    destruct (body p st) as [st1 | e] eqn:E1; cbn in E; [| discriminate].
    apply (IH _ _ _ (Hbody _ _ _ H0 E1) E).
Qed.

Lemma for_range_preserves {St : Type} (Inv : St -> Prop)
    (body : nat -> St -> result St) :
  (forall i st st', Inv st -> body i st = Ok st' -> Inv st') ->
  forall count lo st st',
  Inv st -> for_range count lo body st = Ok st' -> Inv st'.
Proof.
  intros Hbody count. induction count as [| n IH]; intros lo st st' H0 E; cbn in E.
  - injection E as <-. exact H0.
  - destruct (body lo st) as [st1 | e] eqn:E1; cbn in E; [| discriminate].
    apply (IH _ _ _ (Hbody _ _ _ H0 E1) E).
Qed.

(** ** Reading a vector within its bounds *)

Lemma vget_nth {A : Type} (v : list A) (i : nat) (d : A) :
  i < length v -> vget v i = Ok (nth i v d).
Proof.
  intros Hi. unfold vget. rewrite nth_lookup.
  destruct (v !! i) eqn:E; [reflexivity |].
  apply lookup_ge_None in E. lia.
Qed.

Lemma for_range_preserves_in {St : Type} (Inv : St -> Prop)
    (body : nat -> St -> result St) :
  forall count lo st st',
  (forall i st st', lo <= i < lo + count -> Inv st -> body i st = Ok st' -> Inv st') ->
  Inv st -> for_range count lo body st = Ok st' -> Inv st'.
Proof.
  induction count as [| n IH]; intros lo st st' Hbody H0 E; cbn in E.
  - injection E as <-. exact H0.
  - destruct (body lo st) as [st1 | e] eqn:E1; cbn in E; [| discriminate].
    apply (IH (S lo) st1 st'); [| | exact E].
    + intros i s1 s2 Hi. apply Hbody. lia.
    + apply (Hbody lo st st1); [lia | exact H0 | exact E1].
Qed.

(** ** The four link updates of cover and uncover *)

Ltac heap_cases :=
  autorewrite with heap;
  repeat match goal with
  | |- context [decide (?a = ?b)] =>
      lazymatch a with
      | context [decide] => fail
      | _ => lazymatch b with
             | context [decide] => fail
             | _ => destruct (decide (a = b))
             end
      end
  end;
  subst; try reflexivity; try congruence.

Lemma unlink_ud_links (t : nat) (h : heap) (q : nat) :
  right_of (unlink_ud t h) q = right_of h q
  /\ left_of (unlink_ud t h) q = left_of h q
  /\ column_of (unlink_ud t h) q = column_of h q
  /\ rowData_of (unlink_ud t h) q = rowData_of h q.
Proof. unfold unlink_ud. repeat split; heap_cases. Qed.

Lemma unlink_ud_up (t : nat) (h : heap) (q : nat) :
  up_of (unlink_ud t h) q
  = if decide (q = down_of h t) then up_of h t else up_of h q.
Proof. unfold unlink_ud. heap_cases. Qed.

Lemma unlink_ud_down (t : nat) (h : heap) (q : nat) :
  down_of (unlink_ud t h) q
  = if decide (q = up_of h t) then down_of h t else down_of h q.
Proof. unfold unlink_ud. heap_cases. Qed.

Lemma unlink_ud_size (t : nat) (h : heap) (q : nat) :
  size_of (unlink_ud t h) q
  = if decide (q = column_of h t) then (size_of h (column_of h t) - 1)%Z
    else size_of h q.
Proof. unfold unlink_ud. heap_cases. Qed.

Lemma relink_ud_links (t : nat) (h : heap) (q : nat) :
  right_of (relink_ud t h) q = right_of h q
  /\ left_of (relink_ud t h) q = left_of h q
  /\ column_of (relink_ud t h) q = column_of h q
  /\ rowData_of (relink_ud t h) q = rowData_of h q.
Proof. unfold relink_ud. repeat split; heap_cases. Qed.

Lemma relink_ud_up (t : nat) (h : heap) (q : nat) :
  up_of (relink_ud t h) q = if decide (q = down_of h t) then t else up_of h q.
Proof. unfold relink_ud. heap_cases. Qed.

Lemma relink_ud_down (t : nat) (h : heap) (q : nat) :
  down_of h t <> t ->
  down_of (relink_ud t h) q = if decide (q = up_of h t) then t else down_of h q.
Proof. intros Ht. unfold relink_ud. heap_cases. Qed.

Lemma relink_ud_size (t : nat) (h : heap) (q : nat) :
  size_of (relink_ud t h) q
  = if decide (q = column_of h t) then (size_of h (column_of h t) + 1)%Z
    else size_of h q.
Proof. unfold relink_ud. heap_cases. Qed.

Lemma unlink_lr_links (c : nat) (h : heap) (q : nat) :
  up_of (unlink_lr c h) q = up_of h q
  /\ down_of (unlink_lr c h) q = down_of h q
  /\ column_of (unlink_lr c h) q = column_of h q
  /\ size_of (unlink_lr c h) q = size_of h q
  /\ rowData_of (unlink_lr c h) q = rowData_of h q.
Proof. unfold unlink_lr. repeat split; heap_cases. Qed.

Lemma unlink_lr_right (c : nat) (h : heap) (q : nat) :
  right_of (unlink_lr c h) q
  = if decide (q = left_of h c) then right_of h c else right_of h q.
Proof. unfold unlink_lr. heap_cases. Qed.

Lemma unlink_lr_left (c : nat) (h : heap) (q : nat) :
  left_of (unlink_lr c h) q
  = if decide (q = right_of h c) then left_of h c else left_of h q.
Proof. unfold unlink_lr. heap_cases. Qed.

Lemma relink_lr_links (c : nat) (h : heap) (q : nat) :
  up_of (relink_lr c h) q = up_of h q
  /\ down_of (relink_lr c h) q = down_of h q
  /\ column_of (relink_lr c h) q = column_of h q
  /\ size_of (relink_lr c h) q = size_of h q
  /\ rowData_of (relink_lr c h) q = rowData_of h q.
Proof. unfold relink_lr. repeat split; heap_cases. Qed.

Lemma relink_lr_right (c : nat) (h : heap) (q : nat) :
  right_of (relink_lr c h) q = if decide (q = left_of h c) then c else right_of h q.
Proof. unfold relink_lr. heap_cases. Qed.

Lemma relink_lr_left (c : nat) (h : heap) (q : nat) :
  left_of h c <> c ->
  left_of (relink_lr c h) q = if decide (q = right_of h c) then c else left_of h q.
Proof. intros Hc. unfold relink_lr. heap_cases. Qed.

(** ** States that differ in the left link of the root only *)

Lemma same_links_refl (r : nat) (h : heap) : same_links r h h.
Proof. intros p. repeat split. Qed.

Lemma same_links_sym (r : nat) (h h' : heap) :
  same_links r h h' -> same_links r h' h.
Proof.
  intros H p. destruct (H p) as (H1 & H2 & H3 & H4 & H5 & H6 & H7).
  repeat split; try congruence. intros Hp. symmetry. apply H7. exact Hp.
Qed.

Lemma same_links_trans (r : nat) (h1 h2 h3 : heap) :
  same_links r h1 h2 -> same_links r h2 h3 -> same_links r h1 h3.
Proof.
  intros H H' p. destruct (H p) as (H1 & H2 & H3 & H4 & H5 & H6 & H7).
  destruct (H' p) as (G1 & G2 & G3 & G4 & G5 & G6 & G7).
  repeat split; try congruence. intros Hp. rewrite H7, G7; auto.
Qed.

Ltac same_links_set H :=
  let p := fresh "p" in
  intros p; destruct (H p) as (? & ? & ? & ? & ? & ? & ?);
  autorewrite with heap;
  repeat split; try congruence; try assumption;
  try (match goal with
       | |- context [decide (?a = ?b)] => destruct (decide (a = b))
       end; congruence);
  try (intros ?;
       match goal with
       | |- context [decide (?a = ?b)] => destruct (decide (a = b))
       end; auto).

Lemma same_links_set_left (r p v : nat) (h h' : heap) :
  same_links r h h' -> same_links r (set_left p v h) (set_left p v h').
Proof. intros H. same_links_set H. Qed.

Lemma same_links_set_right (r p v : nat) (h h' : heap) :
  same_links r h h' -> same_links r (set_right p v h) (set_right p v h').
Proof. intros H. same_links_set H. Qed.

Lemma same_links_set_up (r p v : nat) (h h' : heap) :
  same_links r h h' -> same_links r (set_up p v h) (set_up p v h').
Proof. intros H. same_links_set H. Qed.

Lemma same_links_set_down (r p v : nat) (h h' : heap) :
  same_links r h h' -> same_links r (set_down p v h) (set_down p v h').
Proof. intros H. same_links_set H. Qed.

Lemma same_links_set_size (r p : nat) (v : Z) (h h' : heap) :
  same_links r h h' -> same_links r (set_size p v h) (set_size p v h').
Proof. intros H. same_links_set H. Qed.

Lemma same_links_unlink_ud (r t : nat) (h h' : heap) :
  same_links r h h' -> same_links r (unlink_ud t h) (unlink_ud t h').
Proof.
  intros H. unfold unlink_ud.
  pose proof (same_links_set_up r (down_of h t) (up_of h t) h h' H) as H1.
  destruct (H t) as (_ & Eu & Ed & _).
  rewrite Eu, Ed in H1 at 1. rewrite <- Eu, <- Ed in H1 |- *.
  set (h1 := set_up (down_of h t) (up_of h t) h) in *.
  set (h1' := set_up (down_of h t) (up_of h t) h') in *.
  pose proof (same_links_set_down r (up_of h1 t) (down_of h1 t) h1 h1' H1) as H2.
  destruct (H1 t) as (_ & Eu1 & Ed1 & _). rewrite <- Eu1, <- Ed1.
  set (h2 := set_down (up_of h1 t) (down_of h1 t) h1) in *.
  set (h2' := set_down (up_of h1 t) (down_of h1 t) h1') in *.
  destruct (H2 t) as (_ & _ & _ & Ec2 & _).
  destruct (H2 (column_of h2 t)) as (_ & _ & _ & _ & Es2 & _).
  rewrite <- Ec2, <- Es2. apply same_links_set_size. exact H2.
Qed.

Lemma same_links_relink_ud (r t : nat) (h h' : heap) :
  same_links r h h' -> same_links r (relink_ud t h) (relink_ud t h').
Proof.
  intros H. unfold relink_ud.
  destruct (H t) as (_ & _ & _ & Ec & _).
  destruct (H (column_of h t)) as (_ & _ & _ & _ & Es & _).
  rewrite <- Ec, <- Es.
  pose proof (same_links_set_size r (column_of h t)
                (size_of h (column_of h t) + 1)%Z h h' H) as H1.
  set (h1 := set_size _ _ h) in *. set (h1' := set_size _ _ h') in *.
  destruct (H1 t) as (_ & _ & Ed1 & _). rewrite <- Ed1.
  pose proof (same_links_set_up r (down_of h1 t) t h1 h1' H1) as H2.
  set (h2 := set_up _ _ h1) in *. set (h2' := set_up _ _ h1') in *.
  destruct (H2 t) as (_ & Eu2 & _). rewrite <- Eu2.
  apply same_links_set_down. exact H2.
Qed.

Lemma same_links_unlink_lr (r c : nat) (h h' : heap) :
  c <> r -> same_links r h h' -> same_links r (unlink_lr c h) (unlink_lr c h').
Proof.
  intros Hc H. unfold unlink_lr.
  destruct (H c) as (Er & _ & _ & _ & _ & _ & El). specialize (El Hc).
  rewrite <- Er, <- El.
  pose proof (same_links_set_right r (left_of h c) (right_of h c) h h' H) as H1.
  set (h1 := set_right _ _ h) in *. set (h1' := set_right _ _ h') in *.
  destruct (H1 c) as (Er1 & _ & _ & _ & _ & _ & El1). specialize (El1 Hc).
  rewrite <- Er1, <- El1. apply same_links_set_left. exact H1.
Qed.

Lemma same_links_relink_lr (r c : nat) (h h' : heap) :
  c <> r -> same_links r h h' -> same_links r (relink_lr c h) (relink_lr c h').
Proof.
  intros Hc H. unfold relink_lr.
  destruct (H c) as (_ & _ & _ & _ & _ & _ & El). specialize (El Hc).
  rewrite <- El.
  pose proof (same_links_set_right r (left_of h c) c h h' H) as H1.
  set (h1 := set_right _ _ h) in *. set (h1' := set_right _ _ h') in *.
  destruct (H1 c) as (Er1 & _). rewrite <- Er1.
  apply same_links_set_left. exact H1.
Qed.

(** Relinking a node that was linked when it was unlinked restores the
    state. *)
Lemma relink_unlink_ud (r t : nat) (h : heap) :
  up_of h (down_of h t) = t -> down_of h (up_of h t) = t -> down_of h t <> t ->
  same_links r (relink_ud t (unlink_ud t h)) h.
Proof.
  intros Hu Hd Hne p.
  assert (Ed : down_of (unlink_ud t h) t = down_of h t).
  { rewrite unlink_ud_down. destruct (decide (t = up_of h t)); reflexivity. }
  assert (Eu : up_of (unlink_ud t h) t = up_of h t).
  { rewrite unlink_ud_up. destruct (decide (t = down_of h t)); reflexivity. }
  assert (Ec : column_of (unlink_ud t h) t = column_of h t)
    by apply (unlink_ud_links t h t).
  destruct (relink_ud_links t (unlink_ud t h) p) as (R1 & R2 & R3 & R4).
  destruct (unlink_ud_links t h p) as (U1 & U2 & U3 & U4).
  repeat split; try congruence.
  - rewrite relink_ud_up, Ed, unlink_ud_up.
    destruct (decide (p = down_of h t)) as [-> | _]; congruence.
  - rewrite relink_ud_down by congruence. rewrite Eu, unlink_ud_down.
    destruct (decide (p = up_of h t)) as [-> | _]; congruence.
  - rewrite relink_ud_size, Ec, !unlink_ud_size.
    destruct (decide (p = column_of h t)) as [-> | _]; [| reflexivity].
    destruct (decide (column_of h t = column_of h t)); [lia | congruence].
Qed.

(** Relinking a column header that was linked when it was unlinked
    restores the state, up to the left link of the root. *)
Lemma relink_unlink_lr (r c : nat) (h : heap) :
  right_of h (left_of h c) = c ->
  left_of h (right_of h c) = c \/ right_of h c = r ->
  left_of h c <> c ->
  same_links r (relink_lr c (unlink_lr c h)) h.
Proof.
  intros Hr Hl Hne p.
  assert (El : left_of (unlink_lr c h) c = left_of h c).
  { rewrite unlink_lr_left. destruct (decide (c = right_of h c)); reflexivity. }
  assert (Er : right_of (unlink_lr c h) c = right_of h c).
  { rewrite unlink_lr_right. destruct (decide (c = left_of h c)); reflexivity. }
  destruct (relink_lr_links c (unlink_lr c h) p) as (R1 & R2 & R3 & R4 & R5).
  destruct (unlink_lr_links c h p) as (U1 & U2 & U3 & U4 & U5).
  repeat split; try congruence.
  - rewrite relink_lr_right, El, unlink_lr_right.
    destruct (decide (p = left_of h c)) as [-> | _]; congruence.
  - intros Hp. rewrite relink_lr_left by congruence. rewrite Er, unlink_lr_left.
    destruct (decide (p = right_of h c)) as [-> | _]; [| reflexivity].
    destruct Hl as [Hl | Hl]; congruence.
Qed.

(** ** Unlinking nodes from their columns *)

Lemma column_rings_ok_ext (T : torus) (vr vr' : nat -> list nat) (h : heap) :
  (forall c, c ∈ t_cols T -> vr' c = vr c) ->
  column_rings_ok T vr h -> column_rings_ok T vr' h.
Proof. intros E H c Hc. rewrite (E c Hc). apply H. exact Hc. Qed.

Lemma header_not_row_node (T : torus) (c : nat) :
  NoDup (t_root T :: t_cols T ++ concat (t_rows T)) ->
  c ∈ t_cols T -> c ∉ concat (t_rows T).
Proof.
  intros Hnd Hc Hr. apply NoDup_cons in Hnd as [_ Hnd].
  apply NoDup_app in Hnd as (_ & H & _). apply (H c Hc Hr).
Qed.

Lemma root_not_node (T : torus) :
  NoDup (t_root T :: t_cols T ++ concat (t_rows T)) ->
  (t_root T ∉ t_cols T) /\ (t_root T ∉ concat (t_rows T)).
Proof.
  intros Hnd. apply NoDup_cons in Hnd as [H _].
  apply not_elem_of_app in H. exact H.
Qed.

(** The rings of two columns share no node. *)
Lemma column_rings_disjoint (T : torus) (vr : nat -> list nat) (h : heap)
    (c c' y : nat) :
  NoDup (t_root T :: t_cols T ++ concat (t_rows T)) ->
  column_rings_ok T vr h ->
  c ∈ t_cols T -> c' ∈ t_cols T -> y ∈ c :: vr c -> y ∈ c' :: vr c' -> c = c'.
Proof.
  intros Hnd Hv Hc Hc' Hy Hy'.
  destruct (Hv c Hc) as [_ Hcol]. destruct (Hv c' Hc') as [_ Hcol'].
  apply elem_of_cons in Hy as [-> | Hy]; apply elem_of_cons in Hy' as [-> | Hy'].
  - reflexivity.
  - exfalso. apply (header_not_row_node T c Hnd Hc). apply (Hcol' c Hy').
  - exfalso. apply (header_not_row_node T c' Hnd Hc'). apply (Hcol c' Hy).
  - destruct (Hcol y Hy) as [<- _]. destruct (Hcol' y Hy') as [<- _]. reflexivity.
Qed.

Lemma unlink_one_ok (T : torus) (vr : nat -> list nat) (h : heap) (t : nat) :
  NoDup (t_root T :: t_cols T ++ concat (t_rows T)) ->
  column_rings_ok T vr h ->
  column_of h t ∈ t_cols T -> t ∈ vr (column_of h t) ->
  column_rings_ok T (fun c => filter (fun p => p <> t) (vr c)) (unlink_ud t h)
  /\ up_of h (down_of h t) = t /\ down_of h (up_of h t) = t /\ down_of h t <> t.
Proof.
  intros Hnd Hv Hct Ht.
  destruct (Hv _ Hct) as [Hring Hcol].
  destruct (list_elem_of_split _ _ Ht) as (l1 & l2 & El).
  rewrite El in Hring.
  destruct (ring_linked _ _ _ _ _ _ Hring) as (L1 & L2 & L3 & L4 & L5 & L6).
  split; [| tauto].
  intros c Hc. destruct (Hv c Hc) as [Hringc Hcolc].
  assert (Hfc : forall p, column_of (unlink_ud t h) p = column_of h p)
    by (intros p; apply (unlink_ud_links t h p)).
  destruct (decide (c = column_of h t)) as [-> | Hne].
  - split.
    + rewrite El. rewrite filter_ne_split by (apply (ring_NoDup _ _ _ _ Hring)).
      apply (ring_delete (down_of h) (up_of h) _ _ _ l1 t l2 Hring).
      * intros y. apply unlink_ud_down.
      * intros y. apply unlink_ud_up.
    + intros p Hp. apply list_elem_of_filter in Hp as [_ Hp].
      rewrite Hfc. apply Hcol. exact Hp.
  - assert (Htc : t ∉ vr c).
    { intros H. destruct (Hcolc t H) as [E _]. congruence. }
    rewrite (filter_ne_id t (vr c) Htc). split.
    + apply (ring_ext (down_of h) (up_of h)); [| exact Hringc].
      intros y Hy. rewrite unlink_ud_down, unlink_ud_up.
      assert (Hin : forall z, z ∈ column_of h t :: vr (column_of h t) -> y <> z).
      { intros z Hz ->. apply Hne.
        apply (column_rings_disjoint T vr h c (column_of h t) z Hnd Hv Hc Hct Hy Hz). }
      assert (Hsub1 : forall z, z ∈ column_of h t :: l1 ->
                        z ∈ column_of h t :: vr (column_of h t)).
      { intros z Hz. rewrite El. apply elem_of_cons in Hz as [-> | Hz];
          apply elem_of_cons; [auto |]. right. apply elem_of_app. auto. }
      assert (Hsub2 : forall z, z ∈ column_of h t :: l2 ->
                        z ∈ column_of h t :: vr (column_of h t)).
      { intros z Hz. rewrite El. apply elem_of_cons in Hz as [-> | Hz];
          apply elem_of_cons; [auto |]. right. apply elem_of_app. right.
        apply elem_of_cons. auto. }
      destruct (decide (y = up_of h t)) as [E | _];
        [exfalso; apply (Hin _ (Hsub1 _ L6) E) |].
      destruct (decide (y = down_of h t)) as [E | _];
        [exfalso; apply (Hin _ (Hsub2 _ L5) E) |].
      auto.
    + intros p Hp. rewrite Hfc. apply Hcolc. exact Hp.
Qed.

Lemma unlink_all_links (ts : list nat) :
  forall h q,
  right_of (unlink_all ts h) q = right_of h q
  /\ left_of (unlink_all ts h) q = left_of h q
  /\ column_of (unlink_all ts h) q = column_of h q
  /\ rowData_of (unlink_all ts h) q = rowData_of h q.
Proof.
  induction ts as [| t ts IH]; intros h q; [cbn; auto |].
  cbn. destruct (IH (unlink_ud t h) q) as (E1 & E2 & E3 & E4).
  destruct (unlink_ud_links t h q) as (F1 & F2 & F3 & F4).
  fold (unlink_all ts (unlink_ud t h)).
  repeat split; congruence.
Qed.

(** Unlinking in turn distinct nodes that are linked in their columns
    leaves every column a ring through its other nodes, and relinking
    them in the reverse order restores the state. *)
Lemma unlink_all_ok (T : torus) (ts : list nat) :
  forall (vr : nat -> list nat) (h : heap),
  NoDup (t_root T :: t_cols T ++ concat (t_rows T)) ->
  column_rings_ok T vr h ->
  NoDup ts ->
  (forall t, t ∈ ts -> column_of h t ∈ t_cols T /\ t ∈ vr (column_of h t)) ->
  column_rings_ok T (fun c => filter (fun p => p ∉ ts) (vr c)) (unlink_all ts h)
  /\ forall h', same_links (t_root T) h' (unlink_all ts h) ->
       same_links (t_root T) (relink_all (reverse ts) h') h.
Proof.
  induction ts as [| t ts IH]; intros vr h Hnd Hv Hts Hin.
  - split.
    + apply (column_rings_ok_ext T vr); [| exact Hv].
      intros c _. apply filter_notin_nil.
    + intros h' H. exact H.
  - apply NoDup_cons in Hts as [Ht Hts].
    destruct (Hin t ltac:(apply elem_of_cons; auto)) as [Hct Htv].
    destruct (unlink_one_ok T vr h t Hnd Hv Hct Htv) as (Hv1 & L1 & L2 & L3).
    destruct (IH _ (unlink_ud t h) Hnd Hv1 Hts) as [Hv2 Hback].
    { intros t' Ht'. destruct (unlink_ud_links t h t') as (_ & _ & -> & _).
      destruct (Hin t' ltac:(apply elem_of_cons; auto)) as [Hc' Hv'].
      split; [exact Hc' |]. apply list_elem_of_filter. split; [congruence | exact Hv']. }
    split.
    + apply (column_rings_ok_ext T _ _ _ (fun c _ => filter_notin_cons t ts (vr c))).
      exact Hv2.
    + intros h' H. rewrite reverse_cons. unfold relink_all.
      rewrite fold_left_app. cbn.
      apply (same_links_trans _ _ (relink_ud t (unlink_ud t h))).
      * apply same_links_relink_ud. apply Hback. exact H.
      * apply relink_unlink_ud; assumption.
Qed.

(** ** The nodes that a cover unlinks *)

Lemma NoDup_length_le (l k : list nat) :
  NoDup l -> (forall x, x ∈ l -> x ∈ k) -> length l <= length k.
Proof.
  intros Hnd Hsub. apply submseteq_length. apply NoDup_submseteq; assumption.
Qed.

Lemma Rep_row_of (T : torus) (hs : list nat) (vr : nat -> list nat) (h : heap)
    (c n : nat) :
  Rep T hs vr h -> c ∈ t_cols T -> n ∈ vr c ->
  exists a b, a ++ n :: b ∈ t_rows T /\ others T n = b ++ a
    /\ ring (right_of h) (left_of h) n (b ++ a).
Proof.
  intros (Hnd & Hrows & _ & _ & Hv & _) Hc Hn.
  destruct (Hv c Hc) as [_ Hcol]. destruct (Hcol n Hn) as [_ Hin].
  apply elem_of_concat in Hin as (row & Hrow & Hnr).
  destruct (list_elem_of_split _ _ Hnr) as (a & b & ->).
  exists a, b. split; [exact Hrow |]. split.
  - apply others_spec; [| exact Hrow].
    apply NoDup_cons in Hnd as [_ Hnd]. apply NoDup_app in Hnd. tauto.
  - apply Hrows. exact Hrow.
Qed.

Lemma Rep_rows_NoDup (T : torus) (hs : list nat) (vr : nat -> list nat) (h : heap) :
  Rep T hs vr h -> NoDup (concat (t_rows T)).
Proof.
  intros (Hnd & _). apply NoDup_cons in Hnd as [_ Hnd].
  apply NoDup_app in Hnd. tauto.
Qed.

Lemma elem_of_hidden_by (T : torus) (ns : list nat) (t : nat) :
  t ∈ hidden_by T ns <-> exists n, n ∈ ns /\ t ∈ others T n.
Proof.
  unfold hidden_by. rewrite elem_of_concat. split.
  - intros (l & Hl & Ht). apply list_elem_of_fmap in Hl as (n & -> & Hn). eauto.
  - intros (n & Hn & Ht). exists (others T n). split; [| exact Ht].
    apply list_elem_of_fmap. eauto.
Qed.

Lemma hidden_by_app (T : torus) (ns1 ns2 : list nat) :
  hidden_by T (ns1 ++ ns2) = hidden_by T ns1 ++ hidden_by T ns2.
Proof. unfold hidden_by. rewrite fmap_app. apply concat_app. Qed.

(** The nodes that the cover of a linked column unlinks are linked in
    their columns, which are linked columns other than the covered one. *)
Lemma hidden_linked (T : torus) (hs : list nat) (vr : nat -> list nat) (h : heap)
    (c t : nat) :
  Rep T hs vr h -> c ∈ hs -> t ∈ hidden_by T (vr c) ->
  column_of h t ∈ hs /\ column_of h t ∈ t_cols T /\ t ∈ vr (column_of h t)
  /\ column_of h t <> c /\ t ∉ vr c.
Proof.
  intros HR Hc Ht. pose proof HR as (Hnd & Hrows & Hrc & Hh & Hv & Hact).
  apply elem_of_hidden_by in Ht as (n & Hn & Ht).
  assert (Hcc : c ∈ t_cols T) by (apply Hh; exact Hc).
  destruct (Rep_row_of T hs vr h c n HR Hcc Hn) as (a & b & Hrow & Eo & _).
  assert (Hnr : n ∈ a ++ n :: b).
  { apply elem_of_app. right. apply elem_of_cons. auto. }
  apply (elem_of_others T _ n t (Rep_rows_NoDup _ _ _ _ HR) Hrow Hnr) in Ht as [Htr Htn].
  destruct (Hact c n _ t Hc Hn Hrow Hnr Htr) as [H1 H2].
  assert (Hne : column_of h t <> c).
  { destruct (Hrc _ Hrow) as [Hndc _].
    destruct (Hv c Hcc) as [_ Hcol]. destruct (Hcol n Hn) as [Ecn _].
    intros E. apply Htn.
    apply (NoDup_fmap_eq (column_of h) _ t n Hndc Htr Hnr). congruence. }
  split; [exact H2 |]. split; [apply Hh; exact H2 |]. split; [exact H1 |].
  split; [exact Hne |].
  intros H. destruct (Hv c Hcc) as [_ Hcol]. destruct (Hcol t H). congruence.
Qed.

Lemma hidden_NoDup (T : torus) (hs : list nat) (vr : nat -> list nat) (h : heap)
    (c : nat) :
  Rep T hs vr h -> c ∈ hs -> NoDup (hidden_by T (vr c)).
Proof.
  intros HR Hc. pose proof HR as (Hnd & Hrows & Hrc & Hh & Hv & Hact).
  assert (Hcc : c ∈ t_cols T) by (apply Hh; exact Hc).
  destruct (Hv c Hcc) as [Hring Hcol].
  destruct (ring_NoDup _ _ _ _ Hring) as [Hndv _].
  assert (Hsub : forall n, n ∈ vr c -> n ∈ vr c) by auto.
  revert Hndv Hsub. generalize (vr c) at 1 2 4. intros ns.
  induction ns as [| n ns IH]; intros Hndv Hsub; [apply NoDup_nil; exact I |].
  apply NoDup_cons in Hndv as [Hn Hndv].
  change (hidden_by T (n :: ns)) with (others T n ++ hidden_by T ns).
  assert (Hnv : n ∈ vr c) by (apply Hsub; apply elem_of_cons; auto).
  destruct (Rep_row_of T hs vr h c n HR Hcc Hnv) as (a & b & Hrow & Eo & Hr).
  assert (Hnr : n ∈ a ++ n :: b).
  { apply elem_of_app. right. apply elem_of_cons. auto. }
  apply NoDup_app. split; [| split].
  - rewrite Eo. apply (ring_NoDup _ _ _ _ Hr).
  - intros t Ht Ht'.
    apply (elem_of_others T _ n t (Rep_rows_NoDup _ _ _ _ HR) Hrow Hnr) in Ht as [Htr Htn].
    apply elem_of_hidden_by in Ht' as (n' & Hn' & Ht').
    assert (Hnv' : n' ∈ vr c) by (apply Hsub; apply elem_of_cons; auto).
    destruct (Rep_row_of T hs vr h c n' HR Hcc Hnv') as (a' & b' & Hrow' & _ & _).
    assert (Hnr' : n' ∈ a' ++ n' :: b').
    { apply elem_of_app. right. apply elem_of_cons. auto. }
    apply (elem_of_others T _ n' t (Rep_rows_NoDup _ _ _ _ HR) Hrow' Hnr') in Ht'
      as [Htr' _].
    pose proof (NoDup_concat_disjoint _ _ _ t (Rep_rows_NoDup _ _ _ _ HR)
                  Hrow Hrow' Htr Htr') as Erow.
    destruct (Hrc _ Hrow) as [Hndc _].
    destruct (Hcol n Hnv) as [Ecn _]. destruct (Hcol n' Hnv') as [Ecn' _].
    assert (n = n').
    { apply (NoDup_fmap_eq (column_of h) _ n n' Hndc Hnr); [| congruence].
      rewrite Erow. exact Hnr'. }
    subst n'. tauto.
  - apply IH; [exact Hndv |]. intros m Hm. apply Hsub. apply elem_of_cons. auto.
Qed.

(** ** The states that a cover goes through *)

Lemma header_neighbours (T : torus) (hs : list nat) (h : heap) (l1 : list nat)
    (c : nat) (l2 : list nat) :
  header_ring_ok T hs h -> hs = l1 ++ c :: l2 ->
  right_of h c = first_of l2 (t_root T) /\ left_of h c = last_of (t_root T) l1
  /\ right_of h c ∈ t_root T :: hs /\ left_of h c ∈ t_root T :: hs
  /\ right_of h (left_of h c) = c
  /\ (left_of h (right_of h c) = c \/ right_of h c = t_root T).
Proof.
  intros (Hnd & Hsub & Hs) ->.
  destruct (seg_nx_at _ _ _ _ _ _ _ Hs) as [Er El].
  apply seg_app in Hs as (Hs1 & _ & Hs2).
  split; [exact Er |]. split; [exact El |]. split; [| split; [| split]].
  - rewrite Er. destruct l2 as [| u l2]; cbn; apply elem_of_cons; [auto |].
    right. apply elem_of_app. right. apply elem_of_cons. right. apply elem_of_cons. auto.
  - rewrite El. pose proof (last_of_elem (t_root T) l1) as H.
    apply elem_of_cons in H as [-> | H]; apply elem_of_cons; [auto |].
    right. apply elem_of_app. auto.
  - rewrite El. apply (seg_nx_last _ _ _ _ _ Hs1).
  - rewrite Er. destruct l2 as [| u l2]; cbn in *; [auto | left; tauto].
Qed.

Lemma Rep_header_not_row_node (T : torus) (hs : list nat) (vr : nat -> list nat)
    (h : heap) (x : nat) :
  Rep T hs vr h -> x ∈ t_root T :: hs -> x ∉ concat (t_rows T).
Proof.
  intros (Hnd & _ & _ & (_ & Hsub & _) & _) Hx.
  apply elem_of_cons in Hx as [-> | Hx].
  - apply (root_not_node T Hnd).
  - apply (header_not_row_node T x Hnd). apply Hsub. exact Hx.
Qed.

(** After the header of a linked column is unlinked, the rows and the
    columns are as before. *)
Lemma unlink_lr_frame (T : torus) (hs : list nat) (vr : nat -> list nat)
    (h : heap) (c : nat) :
  Rep T hs vr h -> c ∈ hs ->
  column_rings_ok T vr (unlink_lr c h)
  /\ (forall q, q ∈ concat (t_rows T) ->
        right_of (unlink_lr c h) q = right_of h q
        /\ left_of (unlink_lr c h) q = left_of h q)
  /\ (forall q, column_of (unlink_lr c h) q = column_of h q).
Proof.
  intros HR Hc. pose proof HR as (Hnd & Hrows & Hrc & Hh & Hv & Hact).
  destruct (list_elem_of_split _ _ Hc) as (l1 & l2 & E).
  destruct (header_neighbours T hs h l1 c l2 Hh E) as (_ & _ & Hr & Hl & _).
  split; [| split].
  - intros c' Hc'. destruct (Hv c' Hc') as [Hring Hcol]. split.
    + apply (ring_ext (down_of h) (up_of h)); [| exact Hring].
      intros y _. destruct (unlink_lr_links c h y) as (-> & -> & _). auto.
    + intros p Hp. destruct (unlink_lr_links c h p) as (_ & _ & -> & _).
      apply Hcol. exact Hp.
  - intros q Hq. rewrite unlink_lr_right, unlink_lr_left.
    destruct (decide (q = left_of h c)) as [-> | _].
    { exfalso. apply (Rep_header_not_row_node T hs vr h _ HR Hl Hq). }
    destruct (decide (q = right_of h c)) as [-> | _].
    { exfalso. apply (Rep_header_not_row_node T hs vr h _ HR Hr Hq). }
    auto.
  - intros q. apply (unlink_lr_links c h q).
Qed.

(** The state after the first nodes [pre] of a cover have been
    unlinked. *)
Lemma cover_prefix (T : torus) (hs : list nat) (vr : nat -> list nat)
    (h : heap) (c : nat) (pre suf : list nat) :
  Rep T hs vr h -> c ∈ hs -> hidden_by T (vr c) = pre ++ suf ->
  let X := unlink_all pre (unlink_lr c h) in
  column_rings_ok T (fun c' => filter (fun p => p ∉ pre) (vr c')) X
  /\ ring (down_of X) (up_of X) c (vr c)
  /\ (forall q, q ∈ concat (t_rows T) ->
        right_of X q = right_of h q /\ left_of X q = left_of h q)
  /\ (forall q, column_of X q = column_of h q)
  /\ (forall y, first_of suf 0 = y -> suf <> [] ->
        up_of X (down_of X y) = y /\ down_of X (up_of X y) = y /\ down_of X y <> y).
Proof.
  intros HR Hc E X. pose proof HR as (Hnd & Hrows & Hrc & Hh & Hv & Hact).
  destruct (unlink_lr_frame T hs vr h c HR Hc) as (Hv0 & Hrl0 & Hc0).
  pose proof (hidden_NoDup T hs vr h c HR Hc) as Hndts. rewrite E in Hndts.
  assert (Hlinked : forall t, t ∈ pre ++ suf ->
            column_of h t ∈ hs /\ column_of h t ∈ t_cols T /\ t ∈ vr (column_of h t)
            /\ column_of h t <> c /\ t ∉ vr c).
  { intros t Ht. apply (hidden_linked T hs vr h c t HR Hc). rewrite E. exact Ht. }
  destruct (unlink_all_ok T pre vr (unlink_lr c h) Hnd Hv0) as [HvX _].
  { apply NoDup_app in Hndts. tauto. }
  { intros t Ht. rewrite Hc0.
    destruct (Hlinked t ltac:(apply elem_of_app; auto)) as (_ & H1 & H2 & _). auto. }
  fold X in HvX.
  assert (HcX : forall q, column_of X q = column_of h q).
  { intros q. unfold X. destruct (unlink_all_links pre (unlink_lr c h) q) as (_ & _ & -> & _).
    apply Hc0. }
  split; [exact HvX |]. split; [| split; [| split; [exact HcX |]]].
  - assert (Hcc : c ∈ t_cols T) by (apply Hh; exact Hc).
    destruct (HvX c Hcc) as [Hring _].
    rewrite filter_notin_id in Hring; [exact Hring |].
    intros p Hp Hp'.
    destruct (Hlinked p ltac:(apply elem_of_app; auto)) as (_ & _ & _ & _ & H). tauto.
  - intros q Hq. unfold X.
    destruct (unlink_all_links pre (unlink_lr c h) q) as (-> & -> & _).
    apply Hrl0. exact Hq.
  - intros y Ey Hsuf. destruct suf as [| y' suf]; [congruence |]. cbn in Ey. subst y'.
    destruct (Hlinked y ltac:(apply elem_of_app; right; apply elem_of_cons; auto))
      as (_ & H1 & H2 & _).
    destruct (unlink_one_ok T _ X y Hnd HvX) as (_ & L).
    + rewrite HcX. exact H1.
    + rewrite HcX. apply list_elem_of_filter. split; [| exact H2].
      apply NoDup_app in Hndts as (_ & Hd & _). intros Hy. apply (Hd y Hy).
      apply elem_of_cons. auto.
    + exact L.
Qed.

Lemma ring_fuel_enough (T : torus) (fuel : nat) (nx pv : nat -> nat) (c : nat)
    (l : list nat) :
  enough_fuel T fuel -> ring nx pv c l -> (forall p, p ∈ l -> p ∈ concat (t_rows T)) ->
  length l < fuel.
Proof.
  intros Hf Hr Hsub. destruct (ring_NoDup _ _ _ _ Hr) as [Hnd _].
  pose proof (NoDup_length_le l _ Hnd Hsub). unfold enough_fuel in Hf. lia.
Qed.

Lemma others_row_nodes (T : torus) (a : list nat) (n : nat) (b : list nat) (q : nat) :
  a ++ n :: b ∈ t_rows T -> q ∈ b ++ a -> q ∈ concat (t_rows T).
Proof.
  intros Hrow Hq. apply elem_of_concat. exists (a ++ n :: b). split; [exact Hrow |].
  apply elem_of_app in Hq as [Hq | Hq]; apply elem_of_app; [| auto].
  right. apply elem_of_cons. auto.
Qed.

(** [coverColumn] on a linked column unlinks its header and then, in
    turn, the other nodes of the rows of the column. *)
Lemma coverColumn_spec (T : torus) (hs : list nat) (vr : nat -> list nat)
    (h : heap) (c fuel : nat) :
  Rep T hs vr h -> c ∈ hs -> enough_fuel T fuel ->
  coverColumn fuel c h = Ok (unlink_all (hidden_by T (vr c)) (unlink_lr c h)).
Proof.
  intros HR Hc Hfuel. pose proof HR as (Hnd & Hrows & Hrc & Hh & Hv & Hact).
  assert (Hcc : c ∈ t_cols T) by (apply Hh; exact Hc).
  destruct (Hv c Hcc) as [Hringc Hcolc].
  unfold coverColumn. set (h0 := unlink_lr c h).
  destruct (for_ring_inv
    (fun rest st => exists done, vr c = done ++ rest
                      /\ st = unlink_all (hidden_by T done) h0)
    down_of c
    (fun node h => for_ring fuel right_of node
                     (fun temp h => Ok (unlink_ud temp h)) (right_of h node) h))
    with (l := vr c) (fuel := fuel) (st := h0) as (st' & E & (done & Ed & Est)).
  - intros x rest st (done & Ed & ->).
    assert (Hx : x ∈ vr c).
    { rewrite Ed. apply elem_of_app. right. apply elem_of_cons. auto. }
    split.
    { intros ->. apply (proj2 (ring_NoDup _ _ _ _ Hringc)). exact Hx. }
    destruct (Rep_row_of T hs vr h c x HR Hcc Hx) as (a & b & Hrow & Eo & Hringx).
    assert (Ehid : hidden_by T (vr c)
                   = hidden_by T done ++ others T x ++ hidden_by T rest).
    { rewrite Ed, hidden_by_app. reflexivity. }
    destruct (for_ring_inv
      (fun rest' st' => exists done', others T x = done' ++ rest'
                          /\ st' = unlink_all (hidden_by T done ++ done') h0)
      right_of x (fun temp h => Ok (unlink_ud temp h)))
      with (l := others T x) (fuel := fuel) (st := unlink_all (hidden_by T done) h0)
      as (st'' & E' & (done' & Ed' & Est')).
    + intros y rest' st' (done' & Ed' & ->).
      assert (Hy : y ∈ b ++ a).
      { rewrite <- Eo, Ed'. apply elem_of_app. right. apply elem_of_cons. auto. }
      split.
      { intros ->. apply (proj2 (ring_NoDup _ _ _ _ Hringx)). exact Hy. }
      eexists. split; [reflexivity |]. split.
      * destruct (unlink_ud_links y (unlink_all (hidden_by T done ++ done') h0) y)
          as (-> & _).
        destruct (cover_prefix T hs vr h c (hidden_by T done ++ done')
                    (y :: rest' ++ hidden_by T rest) HR Hc) as (_ & _ & Hrl & _).
        { rewrite Ehid, Ed', <- !app_assoc. reflexivity. }
        fold h0 in Hrl.
        rewrite (proj1 (Hrl y (others_row_nodes T a x b y Hrow Hy))).
        rewrite <- Eo, Ed' in Hringx.
        destruct Hringx as (_ & Hs & _).
        apply (seg_nx_at _ _ _ _ _ _ _ Hs).
      * exists (done' ++ [y]). split; [rewrite <- app_assoc; exact Ed' |].
        unfold unlink_all. rewrite (app_assoc (hidden_by T done) done' [y]).
        rewrite (fold_left_app _ (hidden_by T done ++ done') [y]). reflexivity.
    + exists []. split; [reflexivity |]. rewrite app_nil_r. reflexivity.
    + rewrite Eo. apply (ring_fuel_enough T fuel _ _ _ _ Hfuel Hringx).
      intros p Hp. apply (others_row_nodes T a x b p Hrow Hp).
    + rewrite app_nil_r in Ed'. subst done'.
      assert (Estate : st'' = unlink_all (hidden_by T (done ++ [x])) h0).
      { rewrite Est', hidden_by_app. unfold hidden_by at 3. cbn.
        rewrite app_nil_r. reflexivity. }
      exists st''. split.
      * destruct (cover_prefix T hs vr h c (hidden_by T done) (others T x ++ hidden_by T rest)
                    HR Hc Ehid) as (_ & _ & Hrl & _).
        fold h0 in Hrl. rewrite (proj1 (Hrl x (proj2 (Hcolc x Hx)))).
        destruct Hringx as (_ & Hs & _). rewrite (seg_nx_first _ _ _ _ _ Hs).
        rewrite <- Eo. exact E'.
      * split.
        -- rewrite Estate.
           destruct (cover_prefix T hs vr h c (hidden_by T (done ++ [x])) (hidden_by T rest)
                       HR Hc) as (_ & Hring' & _).
           { rewrite <- hidden_by_app, <- app_assoc. cbn. rewrite Ed. reflexivity. }
           fold h0 in Hring'. rewrite Ed in Hring'.
           destruct Hring' as (_ & Hs & _).
           apply (seg_nx_at _ _ _ _ _ _ _ Hs).
        -- exists (done ++ [x]). split; [rewrite <- app_assoc; exact Ed | exact Estate].
  - exists []. split; reflexivity.
  - apply (ring_fuel_enough T fuel _ _ _ _ Hfuel Hringc).
    intros p Hp. apply Hcolc. exact Hp.
  - rewrite app_nil_r in Ed. subst done. rewrite <- Est.
    destruct (cover_prefix T hs vr h c [] (hidden_by T (vr c)) HR Hc eq_refl)
      as (_ & Hring' & _).
    cbn in Hring'. fold h0 in Hring'. destruct Hring' as (_ & Hs & _).
    rewrite (seg_nx_first _ _ _ _ _ Hs). exact E.
Qed.

(** ** What a cover keeps *)

Lemma Rep_same_links (T : torus) (hs : list nat) (vr : nat -> list nat)
    (h h' : heap) :
  Rep T hs vr h -> same_links (t_root T) h h' -> Rep T hs vr h'.
Proof.
  intros HR Hsame. pose proof HR as (Hnd & Hrows & Hrc & Hh & Hv & Hact).
  assert (Hcol : forall q, column_of h' q = column_of h q).
  { intros q. destruct (Hsame q) as (_ & _ & _ & E & _). congruence. }
  split; [exact Hnd |]. split; [| split; [| split; [| split]]].
  - intros a n b Hrow. apply (ring_ext (right_of h) (left_of h)); [| apply Hrows; exact Hrow].
    intros y Hy. destruct (Hsame y) as (E1 & _ & _ & _ & _ & _ & E2).
    split; [congruence |]. symmetry. apply E2. intros ->.
    apply (proj2 (root_not_node T Hnd)). apply elem_of_concat.
    exists (a ++ n :: b). split; [exact Hrow |].
    apply elem_of_cons in Hy as [-> | Hy].
    + apply elem_of_app. right. apply elem_of_cons. auto.
    + apply elem_of_app in Hy as [Hy | Hy]; apply elem_of_app; [| auto].
      right. apply elem_of_cons. auto.
  - intros row Hrow. destruct (Hrc row Hrow) as [H1 H2]. split.
    + rewrite (list_fmap_ext (column_of h') (column_of h) row); [exact H1 |].
      intros i x _. apply Hcol.
    + intros p Hp. rewrite Hcol. apply H2. exact Hp.
  - destruct Hh as (H1 & H2 & H3). split; [exact H1 |]. split; [exact H2 |].
    apply (seg_ext (right_of h) (left_of h)); [| | exact H3].
    + intros y _. destruct (Hsame y) as (E1 & _). congruence.
    + intros y Hy. destruct (Hsame y) as (_ & _ & _ & _ & _ & _ & E2).
      symmetry. apply E2. intros ->.
      apply (proj1 (root_not_node T Hnd)). apply H2. exact Hy.
  - intros c Hc. destruct (Hv c Hc) as [H1 H2]. split.
    + apply (ring_ext (down_of h) (up_of h)); [| exact H1].
      intros y _. destruct (Hsame y) as (_ & E1 & E2 & _). split; congruence.
    + intros p Hp. rewrite Hcol. apply H2. exact Hp.
  - intros c p row q Hc Hp Hrow Hpr Hqr. rewrite Hcol.
    apply (Hact c p row q Hc Hp Hrow Hpr Hqr).
Qed.

(** After the cover of a linked column the nodes represent the torus
    without that column and without the rows met in it. *)
Lemma cover_Rep (T : torus) (hs : list nat) (vr : nat -> list nat) (h : heap)
    (c : nat) (l1 l2 : list nat) :
  Rep T hs vr h -> hs = l1 ++ c :: l2 ->
  Rep T (l1 ++ l2) (fun c' => filter (fun p => p ∉ hidden_by T (vr c)) (vr c'))
    (unlink_all (hidden_by T (vr c)) (unlink_lr c h)).
Proof.
  intros HR Ehs. pose proof HR as (Hnd & Hrows & Hrc & Hh & Hv & Hact).
  assert (Hc : c ∈ hs).
  { rewrite Ehs. apply elem_of_app. right. apply elem_of_cons. auto. }
  assert (Hcc : c ∈ t_cols T) by (apply Hh; exact Hc).
  destruct (cover_prefix T hs vr h c (hidden_by T (vr c)) [] HR Hc)
    as (HvX & _ & Hrl & HcX & _); [rewrite app_nil_r; reflexivity |].
  set (ts := hidden_by T (vr c)) in *. set (X := unlink_all ts (unlink_lr c h)) in *.
  assert (Hndhs : NoDup (l1 ++ l2) /\ c ∉ l1 ++ l2).
  { destruct Hh as (Hndh & _). rewrite Ehs in Hndh.
    apply NoDup_app in Hndh as (N1 & N2 & N3). apply NoDup_cons in N3 as [N3 N4].
    split.
    - apply NoDup_app. split; [exact N1 |]. split; [| exact N4].
      intros y Hy Hy'. apply (N2 y Hy). apply elem_of_cons. auto.
    - intros H. apply elem_of_app in H as [H | H]; [| tauto].
      apply (N2 c H). apply elem_of_cons. auto. }
  assert (Hsubhs : forall y, y ∈ l1 ++ l2 -> y ∈ hs).
  { intros y Hy. rewrite Ehs. apply elem_of_app in Hy as [Hy | Hy];
      apply elem_of_app; [auto |]. right. apply elem_of_cons. auto. }
  split; [exact Hnd |]. split; [| split; [| split; [| split]]].
  - intros a n b Hrow. apply (ring_ext (right_of h) (left_of h)); [| apply Hrows; exact Hrow].
    intros y Hy. apply Hrl. apply elem_of_concat.
    exists (a ++ n :: b). split; [exact Hrow |].
    apply elem_of_cons in Hy as [-> | Hy].
    + apply elem_of_app. right. apply elem_of_cons. auto.
    + apply elem_of_app in Hy as [Hy | Hy]; apply elem_of_app; [| auto].
      right. apply elem_of_cons. auto.
  - intros row Hrow. destruct (Hrc row Hrow) as [H1 H2]. split.
    + rewrite (list_fmap_ext (column_of X) (column_of h) row); [exact H1 |].
      intros i x _. apply HcX.
    + intros p Hp. rewrite HcX. apply H2. exact Hp.
  - split; [apply Hndhs |]. split.
    + intros y Hy. apply Hh. apply Hsubhs. exact Hy.
    + destruct Hh as (Hndh & Hsub & Hs). rewrite Ehs in Hs.
      apply (seg_delete (right_of h) (left_of h) _ _ l1 (t_root T) c l2 (t_root T) Hs).
      * apply NoDup_cons. split; [| rewrite <- Ehs; exact Hndh].
        intros H. apply (proj1 (root_not_node T Hnd)). apply Hsub. rewrite Ehs. exact H.
      * intros H. apply (proj1 (root_not_node T Hnd)). apply Hsub. apply Hsubhs. exact H.
      * intros y. unfold X.
        destruct (unlink_all_links ts (unlink_lr c h) y) as (-> & _).
        apply unlink_lr_right.
      * intros y. unfold X.
        destruct (unlink_all_links ts (unlink_lr c h) y) as (_ & -> & _).
        apply unlink_lr_left.
  - exact HvX.
  - intros c' p row q Hc' Hp Hrow Hpr Hqr. rewrite HcX.
    apply list_elem_of_filter in Hp as [Hpts Hp].
    assert (Hc'hs : c' ∈ hs) by (apply Hsubhs; exact Hc').
    assert (Hne : c' <> c) by (intros ->; apply (proj2 Hndhs); exact Hc').
    destruct (Hact c' p row q Hc'hs Hp Hrow Hpr Hqr) as [Hq1 Hq2].
    assert (Hcp : column_of h p = c').
    { destruct (Hv c' (proj1 (proj2 Hh) c' Hc'hs)) as [_ Hcol]. apply Hcol. exact Hp. }
    assert (Hndr : NoDup (concat (t_rows T))) by (apply (Rep_rows_NoDup _ _ _ _ HR)).
    assert (Hkey : forall n, n ∈ vr c -> n ∈ row -> False).
    { intros n Hn Hnr. apply Hpts. apply elem_of_hidden_by. exists n.
      split; [exact Hn |].
      apply (elem_of_others T row n p Hndr Hrow Hnr). split; [exact Hpr |].
      intros ->. destruct (Hv c Hcc) as [_ Hcol]. destruct (Hcol n Hn). congruence. }
    split.
    + apply list_elem_of_filter. split; [| exact Hq1].
      intros Hq. apply elem_of_hidden_by in Hq as (n & Hn & Hq).
      destruct (Rep_row_of T hs vr h c n HR Hcc Hn) as (a & b & Hrow' & _ & _).
      assert (Hnr' : n ∈ a ++ n :: b).
      { apply elem_of_app. right. apply elem_of_cons. auto. }
      pose proof (proj1 (elem_of_others T _ n q Hndr Hrow' Hnr') Hq) as [Hq' _].
      pose proof (NoDup_concat_disjoint _ _ _ q Hndr Hrow Hrow' Hqr Hq') as Erow.
      apply (Hkey n Hn). rewrite Erow. exact Hnr'.
    + assert (Hqc : column_of h q <> c).
      { intros E. apply (Hkey q); [rewrite <- E; exact Hq1 | exact Hqr]. }
      rewrite Ehs in Hq2. apply elem_of_app in Hq2 as [Hq2 | Hq2];
        apply elem_of_app; [auto |].
      apply elem_of_cons in Hq2 as [Hq2 | Hq2]; [congruence | auto].
Qed.

(** ** Uncover after cover *)

Lemma unlink_all_snoc (pre : list nat) (y : nat) (h : heap) :
  unlink_all (pre ++ [y]) h = unlink_ud y (unlink_all pre h).
Proof. unfold unlink_all. rewrite fold_left_app. reflexivity. Qed.

(** [uncoverColumn] on a state that agrees, but for the left link of
    the root, with the state that [coverColumn] left, restores the
    state before the cover, but for the left link of the root. *)
Lemma uncover_cover (T : torus) (hs : list nat) (vr : nat -> list nat)
    (h : heap) (c fuel : nat) (h1 : heap) :
  Rep T hs vr h -> c ∈ hs -> enough_fuel T fuel ->
  same_links (t_root T) h1 (unlink_all (hidden_by T (vr c)) (unlink_lr c h)) ->
  exists h2, uncoverColumn fuel c h1 = Ok h2 /\ same_links (t_root T) h2 h.
Proof.
  intros HR Hc Hfuel Hsame. pose proof HR as (Hnd & Hrows & Hrc & Hh & Hv & Hact).
  assert (Hcc : c ∈ t_cols T) by (apply Hh; exact Hc).
  assert (Hcr : c <> t_root T).
  { intros ->. apply (proj1 (root_not_node T Hnd)). exact Hcc. }
  destruct (Hv c Hcc) as [Hringc Hcolc].
  set (h0 := unlink_lr c h) in *.
  assert (Hnotroot : forall q, q ∈ concat (t_rows T) -> q <> t_root T).
  { intros q Hq ->. apply (proj2 (root_not_node T Hnd)). exact Hq. }
  unfold uncoverColumn.
  destruct (for_ring_inv
    (fun rest st => exists done, reverse (vr c) = done ++ rest
        /\ same_links (t_root T) st (unlink_all (hidden_by T (reverse rest)) h0))
    up_of c
    (fun node h => for_ring fuel left_of node
                     (fun temp h => Ok (relink_ud temp h)) (left_of h node) h))
    with (l := reverse (vr c)) (fuel := fuel) (st := h1) as (st' & E & (done & Ed & Est)).
  - intros x rest st (done & Ed & Hst).
    assert (Evr : vr c = reverse rest ++ x :: reverse done).
    { rewrite <- (reverse_involutive (vr c)), Ed, reverse_app, reverse_cons.
      rewrite <- app_assoc. reflexivity. }
    assert (Hx : x ∈ vr c).
    { rewrite Evr. apply elem_of_app. right. apply elem_of_cons. auto. }
    split.
    { intros ->. apply (proj2 (ring_NoDup _ _ _ _ Hringc)). exact Hx. }
    destruct (Rep_row_of T hs vr h c x HR Hcc Hx) as (a & b & Hrow & Eo & Hringx).
    assert (Ehid : hidden_by T (vr c)
              = hidden_by T (reverse rest) ++ others T x ++ hidden_by T (reverse done)).
    { rewrite Evr, hidden_by_app. reflexivity. }
    assert (Hback : seg (left_of h) (right_of h) x (reverse (others T x)) x).
    { rewrite Eo. destruct Hringx as (_ & Hs & Hl). apply seg_reverse; assumption. }
    assert (Hst0 : same_links (t_root T) st
              (unlink_all (hidden_by T (reverse rest) ++ others T x) h0)).
    { rewrite reverse_cons, hidden_by_app in Hst. unfold hidden_by at 2 in Hst.
      cbn in Hst. rewrite app_nil_r in Hst. exact Hst. }
    destruct (for_ring_inv
      (fun rest' st' => exists done', reverse (others T x) = done' ++ rest'
          /\ same_links (t_root T) st'
               (unlink_all (hidden_by T (reverse rest) ++ reverse rest') h0))
      left_of x (fun temp h => Ok (relink_ud temp h)))
      with (l := reverse (others T x)) (fuel := fuel) (st := st)
      as (st'' & E' & (done' & Ed' & Est')).
    + intros y rest' st' (done' & Ed' & Hst').
      assert (Eox : others T x = reverse rest' ++ y :: reverse done').
      { rewrite <- (reverse_involutive (others T x)), Ed', reverse_app, reverse_cons.
        rewrite <- app_assoc. reflexivity. }
      assert (Hy : y ∈ b ++ a).
      { rewrite <- Eo, Eox. apply elem_of_app. right. apply elem_of_cons. auto. }
      pose proof (others_row_nodes T a x b y Hrow Hy) as Hyrow.
      split.
      { intros ->. apply (proj2 (ring_NoDup _ _ _ _ Hringx)). exact Hy. }
      destruct (cover_prefix T hs vr h c (hidden_by T (reverse rest) ++ reverse rest')
                  (y :: reverse done' ++ hidden_by T (reverse done)) HR Hc)
        as (_ & _ & Hrl & _ & Hlinked).
      { rewrite Ehid, Eox, <- !app_assoc. reflexivity. }
      fold h0 in Hrl, Hlinked.
      destruct (Hlinked y eq_refl ltac:(discriminate)) as (L1 & L2 & L3).
      eexists. split; [reflexivity |]. split.
      * destruct (relink_ud_links y st' y) as (_ & -> & _).
        destruct (Hst' y) as (_ & _ & _ & _ & _ & _ & El').
        rewrite (El' (Hnotroot y Hyrow)).
        rewrite reverse_cons, app_assoc, unlink_all_snoc.
        destruct (unlink_ud_links y
                    (unlink_all (hidden_by T (reverse rest) ++ reverse rest') h0) y)
          as (_ & -> & _).
        rewrite (proj2 (Hrl y Hyrow)).
        rewrite Ed' in Hback. apply (seg_nx_at _ _ _ _ _ _ _ Hback).
      * exists (done' ++ [y]). split; [rewrite <- app_assoc; exact Ed' |].
        apply (same_links_trans _ _
                 (relink_ud y (unlink_ud y
                    (unlink_all (hidden_by T (reverse rest) ++ reverse rest') h0)))).
        -- apply same_links_relink_ud.
           rewrite reverse_cons, app_assoc, unlink_all_snoc in Hst'. exact Hst'.
        -- apply relink_unlink_ud; assumption.
    + exists []. split; [reflexivity |]. rewrite reverse_involutive. exact Hst0.
    + rewrite length_reverse, Eo.
      apply (ring_fuel_enough T fuel _ _ _ _ Hfuel Hringx).
      intros p Hp. apply (others_row_nodes T a x b p Hrow Hp).
    + rewrite app_nil_r in Ed'. cbn in Est'. rewrite app_nil_r in Est'.
      destruct (cover_prefix T hs vr h c (hidden_by T (reverse rest))
                  (others T x ++ hidden_by T (reverse done)) HR Hc Ehid)
        as (_ & Hring' & _).
      fold h0 in Hring'.
      exists st''. split.
      * destruct (Hst x) as (_ & _ & _ & _ & _ & _ & El').
        rewrite (El' (Hnotroot x (proj2 (Hcolc x Hx)))).
        destruct (cover_prefix T hs vr h c (hidden_by T (reverse rest) ++ others T x)
                    (hidden_by T (reverse done)) HR Hc) as (_ & _ & Hrl & _).
        { rewrite Ehid, <- app_assoc. reflexivity. }
        fold h0 in Hrl.
        assert (El : left_of (unlink_all (hidden_by T (reverse (x :: rest))) h0) x
                     = left_of h x).
        { rewrite reverse_cons, hidden_by_app. unfold hidden_by at 2. cbn.
          rewrite app_nil_r. apply Hrl. apply Hcolc. exact Hx. }
        rewrite El, (seg_nx_first _ _ _ _ _ Hback). exact E'.
      * split.
        -- destruct (Est' x) as (_ & -> & _).
           destruct Hring' as (_ & Hs & Hu).
           pose proof (seg_reverse _ _ _ _ _ Hs Hu) as Hsr. rewrite Ed in Hsr.
           apply (seg_nx_at _ _ _ _ _ _ _ Hsr).
        -- exists (done ++ [x]). split; [rewrite <- app_assoc; exact Ed | exact Est'].
  - exists []. split; [reflexivity |]. rewrite reverse_involutive. exact Hsame.
  - rewrite length_reverse. apply (ring_fuel_enough T fuel _ _ _ _ Hfuel Hringc).
    intros p Hp. apply Hcolc. exact Hp.
  - cbn in Est.
    destruct (cover_prefix T hs vr h c (hidden_by T (vr c)) [] HR Hc)
      as (_ & Hring' & _); [rewrite app_nil_r; reflexivity |].
    fold h0 in Hring'. destruct Hring' as (_ & Hs & Hu).
    pose proof (seg_reverse _ _ _ _ _ Hs Hu) as Hsr.
    destruct (Hsame c) as (_ & Eup & _).
    rewrite Eup, (seg_nx_first _ _ _ _ _ Hsr), E. cbn [bind].
    eexists. split; [reflexivity |].
    destruct (list_elem_of_split _ _ Hc) as (l1 & l2 & Ehs).
    destruct (header_neighbours T hs h l1 c l2 Hh Ehs) as (_ & _ & _ & Hl & Hrl & Hlr).
    apply (same_links_trans _ _ (relink_lr c h0)).
    + apply same_links_relink_lr; assumption.
    + apply relink_unlink_lr; [exact Hrl | exact Hlr |].
      intros El. rewrite El in Hrl.
      destruct (header_neighbours T hs h l1 c l2 Hh Ehs) as (Er & _).
      rewrite Er in Hrl.
      destruct Hh as (Hndh & _). rewrite Ehs in Hndh.
      apply NoDup_app in Hndh as (_ & _ & Hndh). apply NoDup_cons in Hndh as [Hc2 _].
      destruct l2 as [| u l2]; cbn in Hrl; [congruence |].
      apply Hc2. rewrite <- Hrl. apply elem_of_cons. auto.
Qed.

(** ** The statements that link a new node *)

Lemma push_node_lookup (n : nat) (h : heap) (q : nat) :
  (push_node (n, h)).2 !!! q = if decide (q = S n) then new_node else h !!! q.
Proof.
  unfold push_node. cbn [fst snd]. destruct (decide (q = S n)) as [-> | Hne].
  - apply lookup_total_insert_eq.
  - apply lookup_total_insert_ne. congruence.
Qed.

Lemma link_node_parts (id : Z * Z * Z) (top prev : nat) (st : nat * heap) :
  link_node id top prev st
  = let x := S st.1 in
    let h := set_id x id (push_node st).2 in
    let ph := if prev =? 0 then (x, set_right x x h) else (prev, h) in
    (x, (x, link_column x top (link_row x ph.1 ph.2))).
Proof.
  unfold link_node, link_column, link_row, set_id. cbv beta zeta.
  destruct (prev =? 0); cbv beta iota; reflexivity.
Qed.

Lemma set_id_links (x : nat) (id : Z * Z * Z) (h : heap) (q : nat) :
  right_of (set_id x id h) q = right_of h q
  /\ left_of (set_id x id h) q = left_of h q
  /\ up_of (set_id x id h) q = up_of h q
  /\ down_of (set_id x id h) q = down_of h q
  /\ column_of (set_id x id h) q = column_of h q
  /\ size_of (set_id x id h) q = size_of h q.
Proof. unfold set_id. repeat split; heap_cases. Qed.

Lemma set_id_rowData (x : nat) (id : Z * Z * Z) (h : heap) (q : nat) :
  rowData_of h x = [0; 0; 0]%Z ->
  rowData_of (set_id x id h) q
  = if decide (q = x) then id_vector id else rowData_of h q.
Proof.
  intros E. unfold set_id. cbv zeta. autorewrite with heap.
  destruct (decide (q = x)) as [-> | Hne]; [| reflexivity].
  autorewrite with heap. rewrite !decide_True by reflexivity.
  rewrite E. reflexivity.
Qed.

Lemma link_row_links (x p : nat) (h : heap) (q : nat) :
  up_of (link_row x p h) q = up_of h q
  /\ down_of (link_row x p h) q = down_of h q
  /\ column_of (link_row x p h) q = column_of h q
  /\ size_of (link_row x p h) q = size_of h q
  /\ rowData_of (link_row x p h) q = rowData_of h q.
Proof. unfold link_row. repeat split; heap_cases. Qed.

Lemma link_row_right (x p : nat) (h : heap) (q : nat) :
  right_of (link_row x p h) q
  = if decide (q = p) then x
    else if decide (q = x) then right_of h p else right_of h q.
Proof. unfold link_row. heap_cases. Qed.

Lemma link_row_left (x p : nat) (h : heap) (q : nat) :
  left_of (link_row x p h) q
  = if decide (q = right_of h p) then x
    else if decide (q = x) then p else left_of h q.
Proof. unfold link_row. heap_cases. Qed.

Lemma link_column_links (x top : nat) (h : heap) (q : nat) :
  right_of (link_column x top h) q = right_of h q
  /\ left_of (link_column x top h) q = left_of h q
  /\ rowData_of (link_column x top h) q = rowData_of h q.
Proof.
  unfold link_column. cbv zeta.
  match goal with |- context [if ?b then _ else _] => destruct b end;
    repeat split; heap_cases.
Qed.

Lemma link_column_column (x top : nat) (h : heap) (q : nat) :
  column_of (link_column x top h) q
  = if decide (q = x) then top else column_of h q.
Proof.
  unfold link_column. cbv zeta.
  match goal with |- context [if ?b then _ else _] => destruct b end; heap_cases.
Qed.

Lemma link_column_size (x top : nat) (h : heap) (q : nat) :
  size_of (link_column x top h) q
  = if decide (q = top) then (size_of h top + 1)%Z else size_of h q.
Proof.
  unfold link_column. cbv zeta.
  match goal with |- context [if ?b then _ else _] => destruct b end; heap_cases.
Qed.

Lemma link_column_up (x top : nat) (h : heap) (q : nat) :
  top <> x ->
  up_of (link_column x top h) q
  = if decide (q = top) then x
    else if decide (q = x) then up_of h top else up_of h q.
Proof.
  intros Hx. unfold link_column. cbv zeta.
  match goal with |- context [if ?b then _ else _] => destruct b end; heap_cases.
Qed.

Lemma link_column_down (x top : nat) (h : heap) (q : nat) :
  top <> x -> up_of h top <> x ->
  (down_of h top = top -> up_of h top = top) ->
  down_of (link_column x top h) q
  = if decide (q = x) then top
    else if decide (q = up_of h top) then x else down_of h q.
Proof.
  intros Hx Hu Hd. unfold link_column. cbv zeta.
  match goal with |- context [if ?b then _ else _] => destruct b eqn:E end.
  - apply Nat.eqb_eq in E. revert E. autorewrite with heap.
    rewrite !(decide_False (P := top = x)) by assumption.
    destruct (decide (top = up_of h top)) as [Et | Et].
    + intros E. congruence.
    + intros E. exfalso. apply Et. symmetry. auto.
  - heap_cases.
Qed.

Lemma link_node_spec (id : Z * Z * Z) (top prev n : nat) (h : heap) :
  let x := S n in
  let r := link_node id top prev (n, h) in
  let h' := r.2.2 in
  top <> x -> up_of h top <> x -> prev <> x ->
  (down_of h top = top -> up_of h top = top) ->
  r.1 = x /\ r.2.1 = x
  /\ forall q,
      right_of h' q
      = (if decide (prev = 0) then (if decide (q = x) then x else right_of h q)
         else if decide (q = prev) then x
         else if decide (q = x) then right_of h prev else right_of h q)
      /\ left_of h' q
         = (if decide (prev = 0) then (if decide (q = x) then x else left_of h q)
            else if decide (q = right_of h prev) then x
            else if decide (q = x) then prev else left_of h q)
      /\ column_of h' q = (if decide (q = x) then top else column_of h q)
      /\ rowData_of h' q = (if decide (q = x) then id_vector id else rowData_of h q)
      /\ up_of h' q
         = (if decide (q = top) then x
            else if decide (q = x) then up_of h top else up_of h q)
      /\ down_of h' q
         = (if decide (q = x) then top
            else if decide (q = up_of h top) then x else down_of h q).
Proof.
  intros x r h' Htop Hu Hprev Hd. subst r h'.
  rewrite link_node_parts. cbv zeta. cbn [fst snd].
  split; [reflexivity |]. split; [reflexivity |].
  fold x. set (h0 := (push_node (n, h)).2).
  assert (E0 : forall q, h0 !!! q = if decide (q = x) then new_node else h !!! q)
    by (intros; apply push_node_lookup).
  assert (G : forall {A} (g : DLXNode -> A) q, q <> x -> g (h0 !!! q) = g (h !!! q)).
  { intros A g q Hq. rewrite E0. rewrite decide_False by exact Hq. reflexivity. }
  assert (Gx : h0 !!! x = new_node).
  { rewrite E0. rewrite decide_True by reflexivity. reflexivity. }
  set (hA := set_id x id h0).
  assert (A1 : forall q, right_of hA q = right_of h0 q /\ left_of hA q = left_of h0 q
            /\ up_of hA q = up_of h0 q /\ down_of hA q = down_of h0 q
            /\ column_of hA q = column_of h0 q /\ size_of hA q = size_of h0 q)
    by (intros; apply set_id_links).
  assert (A2 : forall q, rowData_of hA q
            = if decide (q = x) then id_vector id else rowData_of h0 q).
  { intros q. apply set_id_rowData. unfold rowData_of. rewrite Gx. reflexivity. }
  set (ph := if prev =? 0 then (x, set_right x x hA) else (prev, hA)).
  set (hR := link_row x ph.1 ph.2).
  assert (Rup : forall q, up_of hR q = if decide (q = x) then 0 else up_of h q).
  { intros q. unfold hR. rewrite (proj1 (link_row_links _ _ _ _)).
    transitivity (up_of hA q).
    - unfold ph. destruct (prev =? 0); cbn [snd]; autorewrite with heap; reflexivity.
    - rewrite (proj1 (proj2 (proj2 (A1 q)))). unfold up_of.
      destruct (decide (q = x)) as [-> | Hq]; [rewrite Gx; reflexivity |].
      apply (G _ up). exact Hq. }
  assert (Rdown : forall q, down_of hR q = if decide (q = x) then 0 else down_of h q).
  { intros q. unfold hR. rewrite (proj1 (proj2 (link_row_links _ _ _ _))).
    transitivity (down_of hA q).
    - unfold ph. destruct (prev =? 0); cbn [snd]; autorewrite with heap; reflexivity.
    - rewrite (proj1 (proj2 (proj2 (proj2 (A1 q))))). unfold down_of.
      destruct (decide (q = x)) as [-> | Hq]; [rewrite Gx; reflexivity |].
      apply (G _ down). exact Hq. }
  assert (Rtop : up_of hR top = up_of h top).
  { rewrite Rup. rewrite decide_False by exact Htop. reflexivity. }
  intros q. split; [| split; [| split; [| split; [| split]]]].
  - rewrite (proj1 (link_column_links _ _ _ _)). unfold hR.
    rewrite link_row_right. unfold ph.
    destruct (Nat.eqb_spec prev 0) as [E | E]; cbn [fst snd].
    + rewrite (decide_True (P := prev = 0)) by exact E.
      destruct (decide (q = x)) as [-> | Hq]; [reflexivity |].
      autorewrite with heap. rewrite (decide_False (P := q = x)) by exact Hq.
      rewrite (proj1 (A1 q)). apply (G _ right). exact Hq.
    + rewrite (decide_False (P := prev = 0)) by exact E.
      destruct (decide (q = prev)) as [-> | Hq]; [reflexivity |].
      rewrite !(proj1 (A1 _)). unfold right_of. rewrite (G _ right prev Hprev).
      destruct (decide (q = x)) as [-> | Hqx]; [reflexivity |].
      apply (G _ right). exact Hqx.
  - rewrite (proj1 (proj2 (link_column_links _ _ _ _))). unfold hR.
    rewrite link_row_left. unfold ph.
    destruct (Nat.eqb_spec prev 0) as [E | E]; cbn [fst snd].
    + rewrite (decide_True (P := prev = 0)) by exact E. autorewrite with heap.
      rewrite (decide_True (P := x = x)) by reflexivity.
      destruct (decide (q = x)) as [-> | Hq]; [reflexivity |].
      rewrite (proj1 (proj2 (A1 q))). apply (G _ left). exact Hq.
    + rewrite (decide_False (P := prev = 0)) by exact E.
      rewrite !(proj1 (A1 _)).
      replace (right_of h0 prev) with (right_of h prev)
        by (symmetry; apply (G _ right); exact Hprev).
      destruct (decide (q = right_of h prev)) as [-> | Hq]; [reflexivity |].
      destruct (decide (q = x)) as [-> | Hqx]; [reflexivity |].
      rewrite (proj1 (proj2 (A1 q))). apply (G _ left). exact Hqx.
  - rewrite link_column_column.
    destruct (decide (q = x)) as [-> | Hq]; [reflexivity |].
    unfold hR. rewrite (proj1 (proj2 (proj2 (link_row_links _ _ _ _)))).
    transitivity (column_of hA q).
    + unfold ph. destruct (prev =? 0); cbn [snd]; autorewrite with heap; reflexivity.
    + rewrite (proj1 (proj2 (proj2 (proj2 (proj2 (A1 q)))))).
      apply (G _ column). exact Hq.
  - rewrite (proj2 (proj2 (link_column_links _ _ _ _))). unfold hR.
    rewrite (proj2 (proj2 (proj2 (proj2 (link_row_links _ _ _ _))))).
    transitivity (rowData_of hA q).
    + unfold ph. destruct (prev =? 0); cbn [snd]; autorewrite with heap; reflexivity.
    + rewrite A2. destruct (decide (q = x)) as [-> | Hq]; [reflexivity |].
      apply (G _ rowData). exact Hq.
  - rewrite link_column_up by exact Htop. rewrite Rtop.
    destruct (decide (q = top)) as [-> | Hq]; [reflexivity |].
    rewrite Rup. destruct (decide (q = x)); reflexivity.
  - rewrite link_column_down; rewrite ?Rtop; try assumption.
    + destruct (decide (q = x)) as [-> | Hq]; [reflexivity |].
      rewrite Rdown. rewrite (decide_False (P := q = x)) by exact Hq. reflexivity.
    + rewrite Rdown. rewrite (decide_False (P := top = x)) by exact Htop. exact Hd.
Qed.

(** ** The invariant of the loop that creates the row nodes *)

Lemma concat_snoc_snoc (rows : list (list nat)) (cur : list nat) (x : nat) :
  concat (rows ++ [cur ++ [x]]) = concat (rows ++ [cur]) ++ [x].
Proof. rewrite !concat_app. cbn. rewrite !app_nil_r. apply app_assoc. Qed.

Lemma concat_snoc (rows : list (list nat)) (cur : list nat) :
  concat (rows ++ [cur]) = concat rows ++ cur.
Proof. rewrite concat_app. cbn. rewrite app_nil_r. reflexivity. Qed.

Lemma last_of_default (d : nat) (l : list nat) : last_of d l ∈ l \/ (l = [] /\ last_of d l = d).
Proof.
  destruct l as [| a l]; [right; split; reflexivity |].
  left. cbn. apply last_of_elem.
Qed.

Lemma filter_ext_in (P Q : nat -> Prop) `{!forall x, Decision (P x)}
    `{!forall x, Decision (Q x)} (l : list nat) :
  (forall x, x ∈ l -> P x <-> Q x) -> filter P l = filter Q l.
Proof.
  induction l as [| a l IH]; intros Hl; [reflexivity |].
  rewrite !filter_cons.
  assert (Ha : P a <-> Q a) by (apply Hl; apply elem_of_cons; auto).
  rewrite IH by (intros y Hy; apply Hl; apply elem_of_cons; auto).
  destruct (decide (P a)), (decide (Q a)); tauto || reflexivity.
Qed.

Lemma link_node_built (C : nat) (rows : list (list nat)) (cur : list nat)
    (id : Z * Z * Z) (top n : nat) (h : heap) :
  built C (rows ++ [cur]) (n, h) ->
  top ∈ seq 2 C -> top ∉ column_of h <$> cur ->
  let r := link_node id top (last_of 0 cur) (n, h) in
  r.1 = S n /\ built C (rows ++ [cur ++ [S n]]) r.2
  /\ (forall q, column_of r.2.2 q = if decide (q = S n) then top else column_of h q)
  /\ (forall q, rowData_of r.2.2 q
                = if decide (q = S n) then id_vector id else rowData_of h q)
  /\ (forall c, c ∈ 1 :: seq 2 C -> right_of r.2.2 c = right_of h c).
Proof.
  intros (Hn & Hseq & Hrows & Hcols & Hhdr & Hcr) Htop Hfresh r.
  cbn [fst snd] in Hn, Hrows, Hcols, Hhdr, Hcr.
  set (x := S n) in *. set (prev := last_of 0 cur) in *.
  set (m := length (concat (rows ++ [cur]))) in *.
  assert (Hnode : forall p, p ∈ concat (rows ++ [cur]) -> C + 2 <= p <= n).
  { intros p Hp. rewrite Hseq in Hp. apply elem_of_seq in Hp. lia. }
  assert (Hnd : NoDup (concat (rows ++ [cur]))) by (rewrite Hseq; apply NoDup_seq).
  assert (Hincur : forall p, p ∈ cur -> p ∈ concat (rows ++ [cur])).
  { intros p Hp. rewrite concat_snoc. apply elem_of_app. auto. }
  assert (Hhd : forall c, c ∈ seq 2 C -> 2 <= c <= C + 1).
  { intros c Hc. apply elem_of_seq in Hc. lia. }
  destruct (Hcr top Htop) as (Hring & Hmem).
  set (vt := column_nodes (building C (rows ++ [cur])) h top) in *.
  assert (Hu : up_of h top ∈ top :: vt).
  { destruct Hring as (_ & _ & ->). apply last_of_elem. }
  assert (Hvt : forall p, p ∈ vt -> C + 2 <= p <= n).
  { intros p Hp. apply Hnode. apply (Hmem p Hp). }
  assert (Hux : up_of h top <> x).
  { apply elem_of_cons in Hu as [-> | Hu].
    - specialize (Hhd top Htop). unfold x. lia.
    - specialize (Hvt _ Hu). unfold x. lia. }
  assert (Htx : top <> x) by (specialize (Hhd top Htop); unfold x; lia).
  assert (Hprev : prev = 0 /\ cur = [] \/ prev ∈ cur).
  { destruct (last_of_default 0 cur) as [H | [H1 H2]]; [right; exact H | left].
    split; [exact H2 | exact H1]. }
  assert (Hpx : prev <> x).
  { destruct Hprev as [[-> _] | H]; [unfold x; lia |].
    specialize (Hnode _ (Hincur _ H)). unfold x. lia. }
  assert (Hd : down_of h top = top -> up_of h top = top).
  { destruct Hring as (N & Hs & Hl). destruct vt as [| a l].
    - intros _. exact Hl.
    - cbn in Hs. destruct Hs as (Ha & _). intros E. exfalso.
      apply NoDup_cons in N as [N _]. apply N. rewrite <- Ha, E.
      apply elem_of_cons. auto. }
  destruct (link_node_spec id top prev n h Htx Hux Hpx Hd) as (E1 & E2 & Sp).
  fold r x in E1, E2, Sp. clearbody r. destruct r as [r1 [r2 h']].
  cbn [fst snd] in *. subst r1 r2.
  assert (Hcolumn : forall q, column_of h' q = if decide (q = x) then top else column_of h q)
    by (intros q; apply (Sp q)).
  assert (HrowData : forall q, rowData_of h' q
            = if decide (q = x) then id_vector id else rowData_of h q)
    by (intros q; apply (Sp q)).
  (* the ring of the current row *)
  assert (Hcurring : forall p rest, cur = p :: rest ->
            ring (right_of h) (left_of h) p rest /\ prev = last_of p rest
            /\ right_of h prev = p /\ prev <> 0).
  { intros p rest Ec.
    assert (Hr : ring (right_of h) (left_of h) p (rest ++ [])).
    { apply (Hrows [] p rest). cbn. apply elem_of_app. right.
      rewrite Ec. apply list_elem_of_singleton. reflexivity. }
    rewrite app_nil_r in Hr. split; [exact Hr |].
    assert (Ep : prev = last_of p rest) by (unfold prev; rewrite Ec; reflexivity).
    split; [exact Ep |]. split.
    - rewrite Ep. destruct Hr as (_ & Hs & _). apply (seg_nx_last _ _ _ _ _ Hs).
    - destruct Hprev as [[_ H] | H]; [congruence |].
      specialize (Hnode _ (Hincur _ H)). lia. }
  (* links of the nodes away from the current row *)
  assert (Hframe : forall y, y <> x -> y ∉ cur ->
            right_of h' y = right_of h y /\ left_of h' y = left_of h y).
  { intros y Hyx Hyc. destruct (Sp y) as (Sr & Sl & _). rewrite Sr, Sl.
    destruct (decide (prev = 0)) as [E0 | E0].
    - rewrite !decide_False by exact Hyx. auto.
    - destruct cur as [| p rest]; [destruct Hprev as [[? _] | H]; [congruence |];
        apply elem_of_nil in H; contradiction |].
      destruct (Hcurring p rest eq_refl) as (_ & Ep & Erp & _).
      rewrite (decide_False (P := y = prev)).
      2:{ intros ->. apply Hyc. rewrite Ep. apply last_of_elem. }
      rewrite (decide_False (P := y = x)) by exact Hyx.
      rewrite Erp. rewrite (decide_False (P := y = p)).
      2:{ intros ->. apply Hyc. apply elem_of_cons. auto. }
      rewrite (decide_False (P := y = x)) by exact Hyx. auto. }
  assert (Hold : forall row y, row ∈ rows -> y ∈ row -> y <> x /\ y ∉ cur).
  { intros row y Hrow Hy.
    assert (Hyc : y ∈ concat rows) by (apply elem_of_concat; eauto).
    split.
    - assert (y ∈ concat (rows ++ [cur])) by (rewrite concat_snoc; apply elem_of_app; auto).
      specialize (Hnode _ H). unfold x. lia.
    - rewrite concat_snoc in Hnd. apply NoDup_app in Hnd as (_ & Hdis & _).
      apply Hdis. exact Hyc. }
  split; [reflexivity |]. split; [| split; [exact Hcolumn | split; [exact HrowData |]]].
  2:{ intros c Hc. apply Hframe.
      - apply elem_of_cons in Hc as [-> | Hc]; [unfold x; lia |].
        specialize (Hhd _ Hc). unfold x. lia.
      - intros Hcc. specialize (Hnode _ (Hincur _ Hcc)).
        apply elem_of_cons in Hc as [-> | Hc]; [lia |].
        specialize (Hhd _ Hc). lia. }
  unfold built. cbn [fst snd].
  rewrite concat_snoc_snoc, length_app. cbn [length]. fold m.
  split; [unfold x; lia |]. split.
  { rewrite Hseq. fold m. rewrite Nat.add_1_r, seq_S.
    f_equal. f_equal. unfold x. lia. }
  split; [| split; [| split]].
  - (* the rows *)
    intros a m0 b Hin. cbn [building t_rows] in Hin.
    apply elem_of_app in Hin as [Hin | Hin].
    + apply (ring_ext (right_of h) (left_of h)).
      * intros y Hy. apply (Hframe y); apply (Hold (a ++ m0 :: b) y Hin).
        all: apply elem_of_cons in Hy as [-> | Hy];
          [apply elem_of_app; right; apply elem_of_cons; auto |].
        all: apply elem_of_app in Hy as [Hy | Hy];
          [apply elem_of_app; right; apply elem_of_cons; auto
          | apply elem_of_app; auto].
      * apply Hrows. cbn. apply elem_of_app. auto.
    + apply list_elem_of_singleton in Hin.
      destruct cur as [| p rest].
      * cbn in Hin. destruct a as [| a0 a]; cbn in Hin.
        2:{ destruct a; discriminate. }
        injection Hin as -> ->. cbn.
        destruct Hprev as [[E0 _] | H]; [| apply elem_of_nil in H; contradiction].
        destruct (Sp x) as (Sr & Sl & _).
        rewrite (decide_True (P := prev = 0)) in Sr, Sl by exact E0.
        rewrite decide_True in Sr, Sl by reflexivity.
        apply ring_single; assumption.
      * destruct (Hcurring p rest eq_refl) as (Hr & Ep & Erp & Hp0).
        apply (ring_rotations _ _ p (rest ++ [x])); [| exact Hin].
        assert (Hxr : x ∉ p :: rest).
        { intros Hx. specialize (Hnode _ (Hincur _ Hx)). unfold x in Hnode. lia. }
        assert (Hpr : NoDup (p :: rest)) by apply Hr.
        apply (ring_snoc (right_of h) (left_of h)); try assumption.
        -- destruct (Sp x) as (Sr & _). rewrite Sr.
           rewrite (decide_False (P := prev = 0)) by exact Hp0.
           rewrite (decide_False (P := x = prev)) by congruence.
           rewrite decide_True by reflexivity. exact Erp.
        -- rewrite <- Ep. destruct (Sp prev) as (Sr & _). rewrite Sr.
           rewrite (decide_False (P := prev = 0)) by exact Hp0.
           rewrite decide_True by reflexivity. reflexivity.
        -- intros q Hq Hql. destruct (Sp q) as (Sr & _). rewrite Sr.
           rewrite (decide_False (P := prev = 0)) by exact Hp0.
           rewrite (decide_False (P := q = prev)) by congruence.
           rewrite (decide_False (P := q = x)); [reflexivity |].
           intros ->. apply Hxr. exact Hq.
        -- destruct (Sp p) as (_ & Sl & _). rewrite Sl.
           rewrite (decide_False (P := prev = 0)) by exact Hp0.
           rewrite Erp. rewrite decide_True by reflexivity. reflexivity.
        -- destruct (Sp x) as (_ & Sl & _). rewrite Sl.
           rewrite (decide_False (P := prev = 0)) by exact Hp0.
           rewrite Erp. rewrite (decide_False (P := x = p)).
           2:{ intros E. apply Hxr. rewrite E. apply elem_of_cons. auto. }
           rewrite decide_True by reflexivity. exact Ep.
        -- intros q Hq. destruct (Sp q) as (_ & Sl & _). rewrite Sl.
           rewrite (decide_False (P := prev = 0)) by exact Hp0.
           rewrite Erp. rewrite (decide_False (P := q = p)).
           2:{ intros ->. apply NoDup_cons in Hpr as [Hpr _]. auto. }
           rewrite (decide_False (P := q = x)); [reflexivity |].
           intros ->. apply Hxr. apply elem_of_cons. auto.
  - (* the columns of the nodes of a row *)
    intros row Hrow. cbn [building t_rows t_cols] in *.
    apply elem_of_app in Hrow as [Hrow | Hrow].
    + destruct (Hcols row) as (N & Hc); [apply elem_of_app; auto |].
      assert (Ef : column_of h' <$> row = column_of h <$> row).
      { apply list_fmap_ext. intros i y Hy. rewrite Hcolumn.
        apply list_elem_of_lookup_2 in Hy.
        rewrite decide_False by apply (Hold row y Hrow Hy). reflexivity. }
      rewrite Ef. split; [exact N |]. intros p Hp. rewrite Hcolumn.
      rewrite decide_False by apply (Hold row p Hrow Hp). apply Hc. exact Hp.
    + apply list_elem_of_singleton in Hrow. subst row.
      destruct (Hcols cur) as (N & Hc);
        [apply elem_of_app; right; apply list_elem_of_singleton; reflexivity |].
      assert (Ef : column_of h' <$> cur = column_of h <$> cur).
      { apply list_fmap_ext. intros i y Hy. rewrite Hcolumn.
        apply list_elem_of_lookup_2 in Hy.
        rewrite decide_False; [reflexivity |].
        specialize (Hnode _ (Hincur _ Hy)). unfold x. lia. }
      split.
      * rewrite fmap_app, Ef. cbn. rewrite Hcolumn, decide_True by reflexivity.
        apply NoDup_app. split; [exact N |]. split; [| apply NoDup_singleton].
        intros c Hc1 Hc2. apply list_elem_of_singleton in Hc2. subst c. auto.
      * intros p Hp. apply elem_of_app in Hp as [Hp | Hp].
        -- rewrite Hcolumn. rewrite decide_False; [apply Hc; exact Hp |].
           specialize (Hnode _ (Hincur _ Hp)). unfold x. lia.
        -- apply list_elem_of_singleton in Hp. subst p.
           rewrite Hcolumn, decide_True by reflexivity. exact Htop.
  - (* the ring of the headers *)
    destruct Hhdr as (N & Hsub & Hs). split; [exact N |]. split; [exact Hsub |].
    cbn [building t_root] in *.
    assert (Hh : forall y, y ∈ 1 :: seq 2 C -> y <> x /\ y ∉ cur).
    { intros y Hy. split.
      - apply elem_of_cons in Hy as [-> | Hy]; [unfold x; lia |].
        specialize (Hhd _ Hy). unfold x. lia.
      - intros Hcc. specialize (Hnode _ (Hincur _ Hcc)).
        apply elem_of_cons in Hy as [-> | Hy]; [lia |].
        specialize (Hhd _ Hy). lia. }
    apply (seg_ext (right_of h) (left_of h)); [| | exact Hs].
    + intros y Hy. apply Hframe; apply (Hh y Hy).
    + intros y Hy. apply Hframe; apply (Hh y); apply elem_of_cons; auto.
  - (* the rings of the columns *)
    intros c Hc. cbn [building t_cols] in Hc.
    assert (Evr : column_nodes (building C (rows ++ [cur ++ [x]])) h' c
              = column_nodes (building C (rows ++ [cur])) h c
                ++ (if decide (top = c) then [x] else [])).
    { unfold column_nodes. cbn [building t_rows].
      rewrite concat_snoc_snoc, filter_app. f_equal.
      - apply filter_ext_in. intros p Hp. rewrite Hcolumn, decide_False; [tauto |].
        specialize (Hnode _ Hp). unfold x. lia.
      - rewrite filter_cons, filter_nil.
        rewrite Hcolumn, (decide_True (P := x = x)) by reflexivity.
        destruct (decide (top = c)); reflexivity. }
    split.
    2:{ intros p Hp. unfold column_nodes in Hp. apply list_elem_of_filter in Hp.
        exact Hp. }
    rewrite Evr. destruct (decide (top = c)) as [<- | Hne].
    + fold vt. destruct Hring as (N & Hs & Hl).
      assert (Hxv : x ∉ top :: vt).
      { intros Hx. apply elem_of_cons in Hx as [Hx | Hx]; [congruence |].
        specialize (Hvt _ Hx). unfold x in Hvt. lia. }
      apply (ring_snoc (down_of h) (up_of h)); try assumption.
      * split; [exact N |]. split; assumption.
      * destruct (Sp x) as (_ & _ & _ & _ & _ & Sd). rewrite Sd.
        rewrite decide_True by reflexivity. reflexivity.
      * rewrite <- Hl. destruct (Sp (up_of h top)) as (_ & _ & _ & _ & _ & Sd).
        rewrite Sd. rewrite (decide_False (P := up_of h top = x)) by exact Hux.
        rewrite decide_True by reflexivity. reflexivity.
      * intros q Hq Hql. destruct (Sp q) as (_ & _ & _ & _ & _ & Sd). rewrite Sd.
        rewrite (decide_False (P := q = x)) by (intros ->; auto).
        rewrite (decide_False (P := q = up_of h top)) by congruence. reflexivity.
      * destruct (Sp top) as (_ & _ & _ & _ & Su & _). rewrite Su.
        rewrite decide_True by reflexivity. reflexivity.
      * destruct (Sp x) as (_ & _ & _ & _ & Su & _). rewrite Su.
        rewrite (decide_False (P := x = top)) by congruence.
        rewrite decide_True by reflexivity. exact Hl.
      * intros q Hq. destruct (Sp q) as (_ & _ & _ & _ & Su & _). rewrite Su.
        rewrite (decide_False (P := q = top)).
        2:{ intros ->. apply NoDup_cons in N as [N _]. auto. }
        rewrite (decide_False (P := q = x)); [reflexivity |].
        intros ->. apply Hxv. apply elem_of_cons. auto.
    + rewrite app_nil_r. destruct (Hcr c Hc) as (Hrc & Hmc).
      apply (ring_ext (down_of h) (up_of h)); [| exact Hrc].
      intros y Hy.
      assert (Hy' : y <> x /\ y <> top /\ y <> up_of h top).
      { apply elem_of_cons in Hy as [-> | Hy].
        - specialize (Hhd _ Hc). split; [unfold x; lia |]. split; [congruence |].
          intros E. rewrite <- E in Hu. apply elem_of_cons in Hu as [Hu | Hu];
            [congruence |]. specialize (Hvt _ Hu). lia.
        - destruct (Hmc y Hy) as (Hyc & Hyn). specialize (Hnode _ Hyn).
          specialize (Hhd _ Htop).
          split; [unfold x; lia |]. split; [lia |].
          intros E. rewrite <- E in Hu. apply elem_of_cons in Hu as [Hu | Hu];
            [lia |]. destruct (Hmem y Hu) as (Hyt & _). congruence. }
      destruct Hy' as (Y1 & Y2 & Y3).
      destruct (Sp y) as (_ & _ & _ & _ & Su & Sd). rewrite Su, Sd.
      rewrite !(decide_False (P := y = x)) by exact Y1.
      rewrite (decide_False (P := y = top)) by exact Y2.
      rewrite (decide_False (P := y = up_of h top)) by exact Y3.
      rewrite ?(decide_False (P := y = x)) by exact Y1. auto.
Qed.

(** ** The loop that creates the column headers *)

Lemma push_node_getters (n : nat) (h : heap) (q : nat) :
  let h0 := (push_node (n, h)).2 in
  right_of h0 q = (if decide (q = S n) then 0 else right_of h q)
  /\ left_of h0 q = (if decide (q = S n) then 0 else left_of h q)
  /\ up_of h0 q = (if decide (q = S n) then 0 else up_of h q)
  /\ down_of h0 q = (if decide (q = S n) then 0 else down_of h q)
  /\ column_of h0 q = (if decide (q = S n) then 0 else column_of h q)
  /\ size_of h0 q = (if decide (q = S n) then 0%Z else size_of h q)
  /\ rowData_of h0 q = (if decide (q = S n) then [0; 0; 0]%Z else rowData_of h q).
Proof.
  intros h0. unfold right_of, left_of, up_of, down_of, column_of, size_of, rowData_of.
  subst h0. rewrite push_node_lookup.
  destruct (decide (q = S n)); cbn; auto 10.
Qed.

Lemma column_step_spec (header i temp n : nat) (h : heap) :
  temp <> S n ->
  exists h', column_step header i (temp, (n, h)) = Ok (S n, (S n, h'))
    /\ forall q,
      right_of h' q = (if decide (q = temp) then S n
                       else if decide (q = S n) then header else right_of h q)
      /\ left_of h' q = (if decide (q = S n) then temp else left_of h q)
      /\ up_of h' q = (if decide (q = S n) then S n else up_of h q)
      /\ down_of h' q = (if decide (q = S n) then S n else down_of h q)
      /\ column_of h' q = (if decide (q = S n) then S n else column_of h q)
      /\ size_of h' q = (if decide (q = S n) then 0%Z else size_of h q)
      /\ rowData_of h' q = (if decide (q = S n) then [0; 0; 0]%Z else rowData_of h q).
Proof.
  intros Ht. unfold column_step. cbn [fst snd].
  change (push_node (n, h)).1 with (S n).
  set (h0 := (push_node (n, h)).2).
  pose proof (push_node_getters n h) as G. cbv zeta in G. fold h0 in G.
  clearbody h0. eexists. split; [reflexivity |].
  intros q. destruct (G q) as (G1 & G2 & G3 & G4 & G5 & G6 & G7).
  repeat split; autorewrite with heap; rewrite ?G1, ?G2, ?G3, ?G4, ?G5, ?G6, ?G7;
    repeat (destruct (decide _)); subst; try reflexivity; try congruence.
Qed.

Lemma last_of_seq (i a : nat) : last_of a (seq (S a) i) = a + i.
Proof.
  revert a. induction i as [| i IH]; intros a; cbn; [lia |].
  rewrite IH. lia.
Qed.

Lemma columns_built (C : nat) (h1 : heap) :
  right_of h1 1 = 1 -> left_of h1 1 = 1 ->
  exists h, for_range C 0 (column_step 1) (1, (1, h1)) = Ok (C + 1, (C + 1, h))
    /\ built C [] (C + 1, h) /\ left_of h 1 = 1.
Proof.
  intros Hr Hl.
  destruct (for_range_inv
    (fun i st => st.1 = i + 1 /\ st.2.1 = i + 1
       /\ seg (right_of st.2.2) (left_of st.2.2) 1 (seq 2 i) 1
       /\ (forall c, c ∈ seq 2 i -> up_of st.2.2 c = c /\ down_of st.2.2 c = c)
       /\ left_of st.2.2 1 = 1)
    (column_step 1) C 0 (1, (1, h1))) as (st & E & P).
  - cbn [fst snd seq seg]. split; [reflexivity |]. split; [reflexivity |].
    split; [exact Hr |]. split; [| exact Hl].
    intros c Hc. apply elem_of_nil in Hc. contradiction.
  - intros i [temp [n h]] Hi (E1 & E2 & Hs & Hud & Hl1). cbn [fst snd] in *.
    subst temp n.
    destruct (column_step_spec 1 i (i + 1) (i + 1) h ltac:(lia)) as (h' & E & S').
    exists (S (i + 1), (S (i + 1), h')). split; [exact E |]. cbn [fst snd].
    split; [lia |]. split; [lia |].
    assert (Hx : forall c, c ∈ 1 :: seq 2 i -> c <> S (i + 1)).
    { intros c Hc. apply elem_of_cons in Hc as [-> | Hc]; [lia |].
      apply elem_of_seq in Hc. lia. }
    split; [| split].
    + rewrite seq_S. apply seg_snoc.
      assert (El : last_of 1 (seq 2 i) = i + 1) by (rewrite last_of_seq; lia).
      split; [| split].
      * apply (seg_retarget (right_of h) (left_of h) _ _ _ 1 1 _ Hs).
        -- apply (NoDup_seq 1 (S i)).
        -- rewrite El. destruct (S' (i + 1)) as (-> & _).
           rewrite decide_True by reflexivity. lia.
        -- intros q Hq Hql. destruct (S' q) as (-> & _).
           rewrite El in Hql. rewrite (decide_False (P := q = i + 1)) by exact Hql.
           rewrite decide_False by (apply Hx; exact Hq). reflexivity.
        -- intros q Hq. destruct (S' q) as (_ & -> & _).
           rewrite decide_False; [reflexivity |].
           apply Hx. apply elem_of_cons. auto.
      * destruct (S' (2 + i)) as (_ & -> & _).
        rewrite decide_True by lia. rewrite El. reflexivity.
      * destruct (S' (2 + i)) as (-> & _).
        rewrite decide_False by lia. rewrite decide_True by lia. reflexivity.
    + intros c Hc. rewrite seq_S in Hc. destruct (S' c) as (_ & _ & -> & -> & _).
      apply elem_of_app in Hc as [Hc | Hc].
      * rewrite !decide_False by (apply Hx; apply elem_of_cons; auto).
        apply Hud. exact Hc.
      * apply list_elem_of_singleton in Hc. subst c.
        rewrite !decide_True by lia. split; lia.
    + destruct (S' 1) as (_ & -> & _). rewrite decide_False by lia. exact Hl1.
  - destruct st as [temp [n h]]. cbn [fst snd] in P.
    destruct P as (-> & -> & Hs & Hud & Hl1).
    exists h. split; [exact E |]. split; [| exact Hl1].
    unfold built. cbn [fst snd concat length]. split; [lia |].
    split; [reflexivity |]. split; [| split; [| split]].
    + intros a n b Hin. apply elem_of_nil in Hin. contradiction.
    + intros row Hin. apply elem_of_nil in Hin. contradiction.
    + split; [apply NoDup_seq |]. split; [auto | exact Hs].
    + intros c Hc. cbn [building t_cols] in Hc. unfold column_nodes. cbn.
      split.
      * apply ring_single; apply (Hud c Hc).
      * intros p Hp. apply elem_of_nil in Hp. contradiction.
Qed.

(** ** The loops that create the row nodes *)

Lemma mget_mat (R C : nat) (M : matrix) (i j : nat) :
  dims R C M -> i < R -> j < C -> mget M i j = Ok (mat M i j).
Proof.
  intros [HR HC] Hi Hj. unfold mget, mat, vget.
  specialize (HC i Hi). rewrite nth_lookup in HC. rewrite !nth_lookup.
  destruct (M !! i) as [row |] eqn:Ei; cbn in *.
  - destruct (row !! j) as [b |] eqn:Ej; cbn; [reflexivity |].
    apply lookup_ge_None in Ej. lia.
  - apply lookup_ge_None in Ei. lia.
Qed.

Lemma top_first (C : nat) (rows : list (list nat)) (h : heap) :
  header_ring_ok (building C rows) (seq 2 C) h -> right_of h 1 = top_at C 0.
Proof.
  intros (_ & _ & Hs). cbn [building t_root] in Hs.
  rewrite (seg_nx_first _ _ _ _ _ Hs). unfold top_at.
  destruct C; reflexivity.
Qed.

Lemma top_next (C : nat) (rows : list (list nat)) (h : heap) (j : nat) :
  header_ring_ok (building C rows) (seq 2 C) h -> j < C ->
  right_of h (top_at C j) = top_at C (S j).
Proof.
  intros (_ & _ & Hs) Hj. cbn [building t_root] in Hs.
  replace C with (j + S (C - S j)) in Hs by lia.
  rewrite seq_app in Hs. cbn [seq] in Hs.
  apply seg_nx_at in Hs as [Hs _]. unfold top_at.
  destruct (Nat.ltb_spec j C); [| lia].
  replace (j + 2) with (2 + j) by lia. rewrite Hs.
  destruct (Nat.ltb_spec (S j) C).
  - destruct (C - S j) eqn:E; [lia |]. cbn. lia.
  - replace (C - S j) with 0 by lia. reflexivity.
Qed.

Lemma row_entries_S (M : matrix) (j i : nat) :
  row_entries M (S j) i = row_entries M j i ++ (if mat M i j then [j] else []).
Proof.
  unfold row_entries. rewrite seq_S, filter_app. cbn [Nat.add]. f_equal.
  rewrite filter_cons, filter_nil.
  destruct (mat M i j); destruct (decide _); congruence.
Qed.

Lemma row_entries_lt (M : matrix) (j i j' : nat) :
  j' ∈ row_entries M j i -> j' < j /\ mat M i j' = true.
Proof.
  unfold row_entries. intros H. apply list_elem_of_filter in H as [H1 H2].
  apply elem_of_seq in H2. split; [lia | exact H1].
Qed.

Lemma built_nodes (C : nat) (rows : list (list nat)) (n : nat) (h : heap) :
  built C rows (n, h) -> forall p, p ∈ concat rows -> C + 2 <= p <= n.
Proof.
  intros (Hn & Hseq & _) p Hp. cbn [fst] in Hn. rewrite Hseq in Hp.
  apply elem_of_seq in Hp. lia.
Qed.

Lemma built_snoc_nil (C : nat) (rows : list (list nat)) (a : nat * heap) :
  built C rows a -> built C (rows ++ [[]]) a.
Proof.
  intros (Hn & Hseq & Hrows & Hcols & Hhdr & Hcr).
  assert (Ec : concat (rows ++ [[]]) = concat rows)
    by (rewrite concat_snoc; apply app_nil_r).
  unfold built. rewrite Ec. split; [exact Hn |]. split; [exact Hseq |].
  split; [| split; [| split]].
  - intros x n b Hin. cbn [building t_rows] in Hin.
    apply elem_of_app in Hin as [Hin | Hin]; [apply Hrows; exact Hin |].
    apply list_elem_of_singleton in Hin. destruct x; discriminate.
  - intros row Hin. cbn [building t_rows t_cols] in *.
    apply elem_of_app in Hin as [Hin | Hin]; [apply Hcols; exact Hin |].
    apply list_elem_of_singleton in Hin. subst row. cbn.
    split; [apply NoDup_nil_2 |]. intros p Hp. apply elem_of_nil in Hp. contradiction.
  - exact Hhdr.
  - intros c Hc. unfold column_nodes. cbn [building t_rows]. rewrite Ec.
    apply (Hcr c Hc).
Qed.

Lemma row_nodes_loop (M : matrix) (R C : nat) (rows : list (list nat)) (id : Z * Z * Z)
    (i : nat) (a0 : nat * heap) :
  dims R C M -> i < R -> built C (rows ++ [[]]) a0 ->
  exists top prev a cur,
    for_range C 0 (entry_step M id i) (top_at C 0, 0, a0) = Ok (top, prev, a)
    /\ built C (rows ++ [cur]) a
    /\ column_of a.2 <$> cur = (fun j => j + 2) <$> row_entries M C i
    /\ (forall p, p ∈ cur -> rowData_of a.2 p = id_vector id)
    /\ (forall q, q ∈ concat rows ->
          column_of a.2 q = column_of a0.2 q /\ rowData_of a.2 q = rowData_of a0.2 q).
Proof.
  intros Hdims Hi H0.
  destruct (for_range_inv
    (fun j st => st.1.1 = top_at C j /\ exists cur,
       st.1.2 = last_of 0 cur /\ built C (rows ++ [cur]) st.2
       /\ column_of st.2.2 <$> cur = (fun j => j + 2) <$> row_entries M j i
       /\ (forall p, p ∈ cur -> rowData_of st.2.2 p = id_vector id)
       /\ (forall q, q ∈ concat rows ->
             column_of st.2.2 q = column_of a0.2 q
             /\ rowData_of st.2.2 q = rowData_of a0.2 q))
    (entry_step M id i) C 0 (top_at C 0, 0, a0)) as (st & E & P).
  - cbn [fst snd]. split; [reflexivity |]. exists []. cbn.
    split; [reflexivity |]. split; [exact H0 |]. split; [reflexivity |].
    split; [| auto]. intros p Hp. apply elem_of_nil in Hp. contradiction.
  - intros j [[top prev] [n h]] Hj (Et & cur & Ep & Hb & Hc & Hd & Hf).
    cbn [fst snd] in *. subst top prev.
    unfold entry_step. rewrite (mget_mat R C M i j Hdims Hi ltac:(lia)).
    cbn [bind]. rewrite row_entries_S.
    pose proof (built_nodes _ _ _ _ Hb) as Hnode.
    destruct (mat M i j) eqn:Em.
    + assert (Htop : top_at C j ∈ seq 2 C).
      { unfold top_at. destruct (Nat.ltb_spec j C); [| lia].
        apply elem_of_seq. lia. }
      assert (Hfresh : top_at C j ∉ column_of h <$> cur).
      { rewrite Hc. intros Hin. apply list_elem_of_fmap in Hin as (j' & Ej & Hj').
        apply row_entries_lt in Hj' as [Hj' _]. unfold top_at in Ej.
        destruct (Nat.ltb_spec j C); lia. }
      destruct (link_node_built C rows cur id (top_at C j) n h Hb Htop Hfresh)
        as (E1 & Hb' & Hcol & Hdat & _).
      set (r := link_node id (top_at C j) (last_of 0 cur) (n, h)) in *.
      clearbody r. destruct r as [r1 [r2 h']]. cbn [fst snd] in *. subst r1.
      eexists. split; [reflexivity |]. cbn [fst snd].
      split.
      { apply (top_next C (rows ++ [cur ++ [S n]])); [apply Hb' | lia]. }
      exists (cur ++ [S n]). split.
      { rewrite last_of_app. reflexivity. }
      split; [exact Hb' |].
      assert (Hq : forall q, q ∈ concat (rows ++ [cur]) -> q <> S n).
      { intros q Hq. specialize (Hnode q Hq). lia. }
      split; [| split].
      * rewrite !fmap_app. cbn. rewrite Hcol, decide_True by reflexivity.
        f_equal.
        -- rewrite <- Hc. apply list_fmap_ext. intros k y Hy. rewrite Hcol.
           rewrite decide_False; [reflexivity |]. apply Hq.
           rewrite concat_snoc. apply elem_of_app. right.
           apply (list_elem_of_lookup_2 _ _ _ Hy).
        -- unfold top_at. destruct (Nat.ltb_spec j C); [reflexivity | lia].
      * intros p Hp. rewrite Hdat. apply elem_of_app in Hp as [Hp | Hp].
        -- rewrite decide_False; [apply Hd; exact Hp |]. apply Hq.
           rewrite concat_snoc. apply elem_of_app. auto.
        -- apply list_elem_of_singleton in Hp. subst p.
           rewrite decide_True by reflexivity. reflexivity.
      * intros q Hqr. rewrite Hcol, Hdat.
        rewrite !decide_False; [apply Hf; exact Hqr | |];
          apply Hq; rewrite concat_snoc; apply elem_of_app; auto.
    + eexists. split; [reflexivity |]. cbn [fst snd].
      split.
      { apply (top_next C (rows ++ [cur])); [apply Hb | lia]. }
      exists cur. rewrite app_nil_r. auto 10.
  - destruct st as [[top prev] a]. cbn [fst snd] in P.
    destruct P as (_ & cur & _ & Hb & Hc & Hd & Hf).
    exists top, prev, a, cur. auto 10.
Qed.

Lemma row_id_S (sv : SudokuDLXSolver) (i : nat) :
  row_id sv i
  = next_id sv i (fold_left (fun id i' => next_id sv i' id) (seq 0 i) (0, 1, 1)%Z).
Proof. unfold row_id. rewrite seq_S, fold_left_app. reflexivity. Qed.

Lemma all_rows_loop (sv : SudokuDLXSolver) (M : matrix) (a0 : nat * heap) :
  dims (exactCoverRows sv) (exactCoverCols sv) M ->
  built (exactCoverCols sv) [] a0 ->
  exists id a rows,
    for_range (exactCoverRows sv) 0 (row_nodes_step sv M 1) ((0, 1, 1)%Z, a0)
    = Ok (id, a)
    /\ length rows = exactCoverRows sv
    /\ built (exactCoverCols sv) rows a
    /\ labelled sv M (exactCoverCols sv) rows a.2.
Proof.
  intros Hdims H0. set (C := exactCoverCols sv) in *.
  destruct (for_range_inv
    (fun i (st : Z * Z * Z * (nat * heap)) =>
       st.1 = fold_left (fun id i' => next_id sv i' id) (seq 0 i) (0, 1, 1)%Z
       /\ exists rows, length rows = i /\ built C rows st.2
            /\ labelled sv M C rows st.2.2)
    (row_nodes_step sv M 1) (exactCoverRows sv) 0 ((0, 1, 1)%Z, a0))
    as (st & E & P).
  - cbn [fst snd seq fold_left]. split; [reflexivity |]. exists [].
    split; [reflexivity |]. split; [exact H0 |].
    intros i row Hl. discriminate.
  - intros i [id a] Hi (Eid & rows & Hlen & Hb & Hlab). cbn [fst snd] in *.
    unfold row_nodes_step. fold C.
    assert (Etop : right_of a.2 1 = top_at C 0).
    { apply (top_first C rows). apply Hb. }
    rewrite Etop. rewrite Eid, <- row_id_S.
    destruct (row_nodes_loop M (exactCoverRows sv) C rows (row_id sv i) i a Hdims
                ltac:(lia) (built_snoc_nil _ _ _ Hb))
      as (top & prev & a' & cur & E & Hb' & Hc & Hd & Hf).
    rewrite E. cbn [bind fst snd]. eexists. split; [reflexivity |].
    cbn [fst snd]. split; [reflexivity |].
    exists (rows ++ [cur]). split; [rewrite length_app; cbn; lia |].
    split; [exact Hb' |].
    intros i' row Hl.
    destruct (decide (i' < length rows)) as [Hlt | Hge].
    + rewrite lookup_app_l in Hl by exact Hlt.
      destruct (Hlab i' row Hl) as (L1 & L2).
      assert (Hin : forall p, p ∈ row -> p ∈ concat rows).
      { intros p Hp. apply elem_of_concat. exists row. split; [| exact Hp].
        apply (list_elem_of_lookup_2 _ _ _ Hl). }
      split.
      * intros p Hp. rewrite (proj2 (Hf p (Hin p Hp))). apply L1. exact Hp.
      * rewrite <- L2. apply list_fmap_ext. intros k y Hy.
        apply (Hf y). apply Hin. apply (list_elem_of_lookup_2 _ _ _ Hy).
    + rewrite lookup_app_r in Hl by lia.
      destruct (i' - length rows) as [| k] eqn:Ek; cbn in Hl; [| discriminate].
      injection Hl as <-. assert (i' = i) by lia. subst i'.
      split; [exact Hd | exact Hc].
  - destruct st as [id a]. cbn [fst snd] in P.
    destruct P as (_ & rows & Hlen & Hb & Hlab).
    exists id, a, rows. auto 10.
Qed.

(** ** The torus that [buildDLXLinkedList] returns *)

Lemma built_Rep (C : nat) (rows : list (list nat)) (a : nat * heap) :
  built C rows a ->
  Rep (building C rows) (seq 2 C) (column_nodes (building C rows) a.2) a.2.
Proof.
  intros (Hn & Hseq & Hrows & Hcols & Hhdr & Hcr).
  split; [| split; [exact Hrows | split; [exact Hcols | split; [exact Hhdr |
    split; [exact Hcr |]]]]].
  - cbn [building t_root t_cols t_rows]. rewrite Hseq.
    replace (C + 2) with (2 + C) by lia. rewrite <- seq_app.
    apply (NoDup_seq 1 (S (C + length (concat rows)))).
  - intros c p row q _ _ Hrow _ Hq. cbn [building t_rows] in Hrow.
    split.
    + unfold column_nodes. apply list_elem_of_filter. split; [reflexivity |].
      cbn [building t_rows]. apply elem_of_concat. eauto.
    + apply (Hcols row Hrow). exact Hq.
Qed.

Lemma rows_from_eq (rows : list (list nat)) :
  forall s, concat rows = seq s (length (concat rows)) ->
  rows = rows_from s (length <$> rows).
Proof.
  induction rows as [| r rows IH]; intros s H; [reflexivity |].
  cbn in H. rewrite length_app, seq_app in H.
  apply app_inj_1 in H as [H1 H2]; [| rewrite length_seq; reflexivity].
  cbn. f_equal; [exact H1 |]. apply IH. exact H2.
Qed.

Lemma labelled_lengths (sv : SudokuDLXSolver) (M : matrix) (C : nat)
    (rows : list (list nat)) (h : heap) :
  labelled sv M C rows h ->
  length <$> rows = (fun i => length (row_entries M C i)) <$> seq 0 (length rows).
Proof.
  intros Hlab. apply list_eq. intros i. rewrite !list_lookup_fmap.
  destruct (rows !! i) as [row |] eqn:E; cbn.
  - rewrite lookup_seq_lt by (apply lookup_lt_Some in E; exact E). cbn.
    destruct (Hlab i row E) as (_ & L).
    f_equal. rewrite <- (length_fmap (column_of h)), L, length_fmap. reflexivity.
  - rewrite lookup_seq_ge by (apply lookup_ge_None in E; exact E). reflexivity.
Qed.

Lemma buildDLXLinkedList_built (sv : SudokuDLXSolver) (M : matrix) :
  dims (exactCoverRows sv) (exactCoverCols sv) M ->
  exists h,
    buildDLXLinkedList sv M = Ok (1, h)
    /\ Rep (matrix_torus M (exactCoverRows sv) (exactCoverCols sv))
         (seq 2 (exactCoverCols sv))
         (column_nodes (matrix_torus M (exactCoverRows sv) (exactCoverCols sv)) h) h
    /\ labelled sv M (exactCoverCols sv)
         (t_rows (matrix_torus M (exactCoverRows sv) (exactCoverCols sv))) h.
Proof.
  intros Hdims. unfold buildDLXLinkedList.
  change (push_node (0, ∅)).1 with 1.
  set (h1 := set_column 1 1 _).
  assert (Hr : right_of h1 1 = 1).
  { unfold h1. autorewrite with heap. rewrite decide_True by reflexivity.
    reflexivity. }
  assert (Hl : left_of h1 1 = 1).
  { unfold h1. autorewrite with heap. rewrite decide_True by reflexivity.
    reflexivity. }
  clearbody h1.
  destruct (columns_built (exactCoverCols sv) h1 Hr Hl) as (h2 & E2 & Hb2 & _).
  rewrite E2. cbn [bind fst snd].
  destruct (all_rows_loop sv M _ Hdims Hb2) as (id & a & rows & E3 & Hlen & Hb & Hlab).
  rewrite E3. cbn [bind fst snd]. exists a.2. split; [reflexivity |].
  assert (Erows : t_rows (matrix_torus M (exactCoverRows sv) (exactCoverCols sv))
                  = rows).
  { cbn [matrix_torus t_rows]. rewrite <- Hlen.
    rewrite <- (labelled_lengths sv M _ rows a.2 Hlab).
    symmetry. apply rows_from_eq. apply Hb. }
  assert (ET : matrix_torus M (exactCoverRows sv) (exactCoverCols sv)
               = building (exactCoverCols sv) rows).
  { unfold building. rewrite <- Erows. reflexivity. }
  rewrite ET. split; [apply built_Rep; exact Hb | exact Hlab].
Qed.

(** ** The torus of a Sudoku *)

Lemma filter_seq_none (P : nat -> Prop) `{!forall x, Decision (P x)} (a n : nat) :
  (forall j, a <= j < a + n -> ~ P j) -> filter P (seq a n) = [].
Proof.
  revert a. induction n as [| n IH]; intros a Hn; [reflexivity |].
  cbn [seq]. rewrite filter_cons. destruct (decide (P a)) as [Hp | _].
  - exfalso. apply (Hn a); [lia | exact Hp].
  - apply IH. intros j Hj. apply Hn. lia.
Qed.

Lemma filter_seq_first (P : nat -> Prop) `{!forall x, Decision (P x)} (a n c : nat) :
  a <= c < a + n -> P c -> (forall j, a <= j < c -> ~ P j) ->
  filter P (seq a n) = c :: filter P (seq (S c) (a + n - S c)).
Proof.
  intros Hc Hp Hn.
  replace n with ((c - a) + S (a + n - S c)) by lia.
  rewrite seq_app, filter_app. cbn [seq].
  rewrite filter_seq_none by (intros j Hj; apply Hn; lia).
  replace (a + (c - a)) with c by lia.
  rewrite filter_cons. destruct (decide (P c)); [| contradiction].
  cbn. f_equal. f_equal. f_equal. lia.
Qed.

Lemma filter_seq_four (P : nat -> Prop) `{!forall x, Decision (P x)}
    (C c1 c2 c3 c4 : nat) :
  c1 < c2 -> c2 < c3 -> c3 < c4 -> c4 < C ->
  (forall j, j < C -> P j <-> j = c1 \/ j = c2 \/ j = c3 \/ j = c4) ->
  filter P (seq 0 C) = [c1; c2; c3; c4].
Proof.
  intros H1 H2 H3 H4 HP.
  rewrite (filter_seq_first P 0 C c1); [| lia | apply HP; [lia | auto] |].
  2:{ intros j Hj Hp. apply HP in Hp; lia. }
  f_equal.
  rewrite (filter_seq_first P _ _ c2); [| lia | apply HP; [lia | auto] |].
  2:{ intros j Hj Hp. apply HP in Hp; lia. }
  f_equal.
  rewrite (filter_seq_first P _ _ c3); [| lia | apply HP; [lia | auto] |].
  2:{ intros j Hj Hp. apply HP in Hp; lia. }
  f_equal.
  rewrite (filter_seq_first P _ _ c4); [| lia | apply HP; [lia | auto 10] |].
  2:{ intros j Hj Hp. apply HP in Hp; lia. }
  f_equal.
  apply filter_seq_none. intros j Hj Hp. apply HP in Hp; lia.
Qed.

Lemma rows_from_const (n R : nat) :
  forall s, rows_from s (replicate R n) = (fun i => seq (s + n * i) n) <$> seq 0 R.
Proof.
  induction R as [| R IH]; intros s; [reflexivity |].
  cbn [replicate rows_from seq fmap list_fmap]. f_equal.
  - f_equal. lia.
  - rewrite IH. rewrite <- fmap_S_seq, <- list_fmap_compose.
    apply list_fmap_ext. intros k i _. cbn. f_equal. lia.
Qed.

Lemma sudoku_row_entries (k : nat) (M : matrix) (i : nat) :
  1 <= k -> (forall i j, i < exactCoverRows (solver k) -> mat M i j = entry (solver k) i j) ->
  i < exactCoverRows (solver k) ->
  row_entries M (exactCoverCols (solver k)) i = row_columns (solver k) i.
Proof.
  intros Hk HM Hi. set (sv := solver k) in *. set (N := k * k).
  assert (HN : gridSize sv = N) by reflexivity.
  assert (Hbs : blockSize sv = k) by reflexivity.
  assert (Hcc : cellCount sv = N * N) by reflexivity.
  assert (HR : exactCoverRows sv = N * (N * N)) by reflexivity.
  assert (HC : exactCoverCols sv = 4 * (N * N)) by reflexivity.
  assert (Hsq : N = k * k) by reflexivity.
  assert (Hpos : 0 < k) by lia.
  assert (HNpos : 0 < N) by (unfold N; nia).
  clearbody sv N.
  destruct (row_parts_index sv N HN Hcc HNpos i) as (Ei & Hc & Hd).
  rewrite HR in Hi.
  pose proof (row_r_bound sv N HN Hcc HNpos i Hi) as Hr.
  destruct (columns_in_blocks sv N k HN Hbs Hcc HR HC Hsq Hpos _ _ _ Hr Hc Hd)
    as (B1 & B2 & B3 & B4).
  unfold row_entries, row_columns. rewrite HC.
  apply filter_seq_four; try lia.
  intros j Hj. rewrite HM by (rewrite HR; exact Hi). rewrite Ei at 1.
  apply (entry_row_index sv N k HN Hbs Hcc HR HC Hsq Hpos); assumption.
Qed.

Lemma row_columns_bound (k i : nat) :
  1 <= k -> i < exactCoverRows (solver k) ->
  forall j, j ∈ row_columns (solver k) i -> j < exactCoverCols (solver k).
Proof.
  intros Hk Hi. set (sv := solver k) in *. set (N := k * k).
  assert (HN : gridSize sv = N) by reflexivity.
  assert (Hbs : blockSize sv = k) by reflexivity.
  assert (Hcc : cellCount sv = N * N) by reflexivity.
  assert (HR : exactCoverRows sv = N * (N * N)) by reflexivity.
  assert (HC : exactCoverCols sv = 4 * (N * N)) by reflexivity.
  assert (Hsq : N = k * k) by reflexivity.
  assert (Hpos : 0 < k) by lia.
  assert (HNpos : 0 < N) by (unfold N; nia).
  clearbody sv N.
  destruct (row_parts_index sv N HN Hcc HNpos i) as (Ei & Hc & Hd).
  rewrite HR in Hi.
  pose proof (row_r_bound sv N HN Hcc HNpos i Hi) as Hr.
  destruct (columns_in_blocks sv N k HN Hbs Hcc HR HC Hsq Hpos _ _ _ Hr Hc Hd)
    as (B1 & B2 & B3 & B4).
  intros j Hj. unfold row_columns in Hj. rewrite HC.
  repeat (apply elem_of_cons in Hj as [-> | Hj]; [lia |]).
  apply elem_of_nil in Hj. contradiction.
Qed.

Lemma sudoku_matrix_torus (k : nat) (M : matrix) :
  1 <= k -> (forall i j, i < exactCoverRows (solver k) -> mat M i j = entry (solver k) i j) ->
  matrix_torus M (exactCoverRows (solver k)) (exactCoverCols (solver k))
  = sudoku_torus (solver k).
Proof.
  intros Hk HM. unfold matrix_torus, sudoku_torus. f_equal.
  assert (E : (fun i => length (row_entries M (exactCoverCols (solver k)) i))
              <$> seq 0 (exactCoverRows (solver k))
              = replicate (exactCoverRows (solver k)) 4).
  { apply list_eq. intros i. rewrite list_lookup_fmap.
    destruct (decide (i < exactCoverRows (solver k))) as [Hi | Hi].
    - rewrite lookup_seq_lt by exact Hi. rewrite lookup_replicate_2 by exact Hi.
      cbv [fmap option_fmap option_map]. rewrite Nat.add_0_l.
      rewrite (sudoku_row_entries k M i Hk HM Hi). reflexivity.
    - rewrite lookup_seq_ge by lia. symmetry. apply lookup_replicate_None. lia. }
  rewrite E, rows_from_const. reflexivity.
Qed.

Lemma initial_torus_built (k : nat) :
  1 <= k ->
  exists h,
    initial_torus (solver k) = Ok (1, h)
    /\ Rep (sudoku_torus (solver k)) (seq 2 (exactCoverCols (solver k)))
         (column_nodes (sudoku_torus (solver k)) h) h
    /\ forall i, i < exactCoverRows (solver k) ->
         (forall p, p ∈ row_nodes (solver k) i ->
            rowData_of h p = id_vector (row_id (solver k) i))
         /\ column_of h <$> row_nodes (solver k) i
            = (fun j => j + 2) <$> row_columns (solver k) i.
Proof.
  intros Hk.
  destruct (encoder_ok (solver k) (k * k) k eq_refl eq_refl eq_refl eq_refl eq_refl
              eq_refl ltac:(lia)) as (M & E & Hd & HM).
  unfold initial_torus. rewrite E. cbn [bind].
  destruct (buildDLXLinkedList_built (solver k) M Hd) as (h & Eh & HRep & Hlab).
  exists h. split; [exact Eh |].
  rewrite (sudoku_matrix_torus k M Hk HM) in HRep, Hlab.
  split; [exact HRep |]. intros i Hi.
  assert (El : t_rows (sudoku_torus (solver k)) !! i = Some (row_nodes (solver k) i)).
  { cbn [sudoku_torus t_rows]. rewrite list_lookup_fmap.
    rewrite lookup_seq_lt by exact Hi. reflexivity. }
  destruct (Hlab i _ El) as (L1 & L2). split; [exact L1 |].
  rewrite L2. rewrite (sudoku_row_entries k M i Hk HM Hi). reflexivity.
Qed.

(** ** The metadata of the row nodes *)

Lemma row_id_succ (sv : SudokuDLXSolver) (i : nat) :
  row_id sv (S i) = next_id sv (S i) (row_id sv i).
Proof. rewrite (row_id_S sv (S i)). reflexivity. Qed.

Lemma row_id_closed (sv : SudokuDLXSolver) (N : nat) :
  gridSize sv = N -> cellCount sv = N * N -> 0 < N ->
  forall i, row_id sv i = code_row_metadata sv i.
Proof.
  intros HN Hcc HNpos i. induction i as [| i IH].
  - unfold row_id, code_row_metadata. cbn [seq fold_left next_id Nat.eqb negb andb].
    rewrite HN, Hcc. rewrite !Nat.Div0.mod_0_l, !Nat.Div0.div_0_l, Nat.Div0.mod_0_l.
    reflexivity.
  - rewrite row_id_succ, IH. unfold next_id, code_row_metadata.
    rewrite HN, Hcc. cbn [Nat.eqb negb andb].
    replace (S i) with (i + 1) by lia.
    rewrite <- !Nat.Div0.div_div.
    rewrite !(Nat.Div0.mod_mul_r _ N N).
    destruct (divmod_succ N i HNpos) as [(A1 & A2 & A3) | (A1 & A2 & A3)].
    + rewrite A2, A3.
      destruct (Nat.eqb_spec (i mod N + 1 + N * (i / N mod N)) 0) as [E | _]; [lia |].
      destruct (Nat.eqb_spec (i mod N + 1) 0) as [E | _]; [lia |].
      repeat match goal with |- (_, _) = (_, _) => f_equal end; lia.
    + rewrite A2, A3.
      destruct (divmod_succ N (i / N) HNpos) as [(B1 & B2 & B3) | (B1 & B2 & B3)].
      * rewrite B2, B3.
        destruct (Nat.eqb_spec (0 + N * (i / N mod N + 1)) 0) as [E | _]; [nia |].
        cbn [Nat.eqb]. repeat match goal with |- (_, _) = (_, _) => f_equal end; lia.
      * rewrite B2, B3. rewrite Nat.mul_0_r. cbn [Nat.add Nat.eqb].
        repeat match goal with |- (_, _) = (_, _) => f_equal end; lia.
Qed.

(** ** What [coverColumn] leaves alone *)

Lemma coverColumn_frame (fuel c : nat) (h h' : heap) :
  coverColumn fuel c h = Ok h' ->
  forall q,
    column_of h' q = column_of h q /\ rowData_of h' q = rowData_of h q
    /\ (q <> left_of h c -> right_of h' q = right_of h q)
    /\ (q <> right_of h c -> left_of h' q = left_of h q).
Proof.
  intros E. unfold coverColumn in E. cbv zeta in E.
  set (h0 := unlink_lr c h) in E.
  set (Inv := fun st : heap => forall q,
         right_of st q = right_of h0 q /\ left_of st q = left_of h0 q
         /\ column_of st q = column_of h0 q /\ rowData_of st q = rowData_of h0 q).
  assert (Hinner : forall p st st', Inv st ->
            for_ring fuel right_of p (fun temp h => Ok (unlink_ud temp h))
              (right_of st p) st = Ok st' -> Inv st').
  { intros p st st' Hst Est.
    apply (for_ring_preserves Inv right_of p (fun temp h => Ok (unlink_ud temp h)))
      with (2 := Hst) (3 := Est).
    intros t s s' Hs Es. injection Es as <-. intros q.
    destruct (unlink_ud_links t s q) as (U1 & U2 & U3 & U4).
    destruct (Hs q) as (S1 & S2 & S3 & S4). repeat split; congruence. }
  assert (Hinv : Inv h').
  { apply (for_ring_preserves Inv down_of c _ Hinner fuel (down_of h0 c) h0 h');
      [| exact E].
    intros q. auto. }
  intros q. destruct (Hinv q) as (I1 & I2 & I3 & I4).
  destruct (unlink_lr_links c h q) as (_ & _ & L3 & _ & L5).
  fold h0 in L3, L5. split; [congruence |]. split; [congruence |]. split.
  - intros Hq. rewrite I1. unfold h0. rewrite unlink_lr_right.
    rewrite decide_False by exact Hq. reflexivity.
  - intros Hq. rewrite I2. unfold h0. rewrite unlink_lr_left.
    rewrite decide_False by exact Hq. reflexivity.
Qed.


(** ** Covering the columns of a row *)

Lemma same_rows_refl (T : torus) (h : heap) : same_rows T h h.
Proof. split; auto. Qed.

Lemma same_rows_trans (T : torus) (h1 h2 h3 : heap) :
  same_rows T h1 h2 -> same_rows T h2 h3 -> same_rows T h1 h3.
Proof.
  intros [A1 A2] [B1 B2]. split.
  - intros q. destruct (A1 q), (B1 q). split; congruence.
  - intros q Hq. destruct (A2 q Hq), (B2 q Hq). split; congruence.
Qed.

Lemma cover_step (T : torus) (hs : list nat) (h : heap) (c fuel : nat) :
  well_formed T hs h -> c ∈ hs -> enough_fuel T fuel ->
  exists h', coverColumn fuel c h = Ok h'
    /\ well_formed T (filter (fun x => x <> c) hs) h'
    /\ same_rows T h h'.
Proof.
  intros [vr HR] Hc Hfuel.
  pose proof (coverColumn_spec T hs vr h c fuel HR Hc Hfuel) as E.
  eexists. split; [exact E |].
  destruct (list_elem_of_split _ _ Hc) as (l1 & l2 & Ehs).
  pose proof HR as (Hnd & _ & _ & Hh & _).
  split.
  - eexists. rewrite Ehs, filter_ne_split by (rewrite <- Ehs; apply Hh).
    apply (cover_Rep T hs vr h c l1 l2 HR Ehs).
  - destruct (header_neighbours T hs h l1 c l2 Hh Ehs) as (_ & _ & Hr & Hl & _).
    split.
    + intros q. destruct (coverColumn_frame fuel c h _ E q) as (F1 & F2 & _).
      auto.
    + intros q Hq. destruct (coverColumn_frame fuel c h _ E q) as (_ & _ & F3 & F4).
      split; [apply F3 | apply F4]; intros ->;
        apply (Rep_header_not_row_node T hs vr h _ HR) in Hq; auto.
Qed.

(** The loop [for (node = first; node != stop; node = node->right)
    coverColumn(node->column)] over the nodes [qs] of a row. *)
Lemma cover_nodes_loop (T : torus) (fuel stop : nat) (qs : list nat) :
  forall hs h,
  well_formed T hs h -> enough_fuel T fuel ->
  NoDup (column_of h <$> qs) ->
  (forall q, q ∈ qs -> q ∈ concat (t_rows T) /\ column_of h q ∈ hs /\ q <> stop) ->
  (forall l1 q l2, qs = l1 ++ q :: l2 -> right_of h q = first_of l2 stop) ->
  exists h',
    for_ring fuel right_of stop
      (fun node h => coverColumn fuel (column_of h node) h) (first_of qs stop) h
    = Ok h'
    /\ well_formed T (filter (fun x => x ∉ column_of h <$> qs) hs) h'
    /\ same_rows T h h'.
Proof.
  intros hs h Hwf Hfuel Hnd Hqs Hnext.
  assert (Hlen : length qs < fuel).
  { destruct Hwf as [vr HR]. pose proof (Rep_rows_NoDup _ _ _ _ HR) as Hr.
    assert (Hndq : NoDup qs) by (apply (NoDup_fmap_1 (column_of h)); exact Hnd).
    pose proof (NoDup_length_le qs (concat (t_rows T)) Hndq
                  (fun q Hq => proj1 (Hqs q Hq))).
    unfold enough_fuel in Hfuel. lia. }
  destruct (for_ring_inv
    (fun rest st => exists done, qs = done ++ rest
       /\ well_formed T (filter (fun x => x ∉ column_of h <$> done) hs) st
       /\ same_rows T h st)
    right_of stop (fun node h => coverColumn fuel (column_of h node) h))
    with (l := qs) (fuel := fuel) (st := h) as (h' & E & done & Ed & Hwf' & Hsame).
  - intros x rest st (done & Ed & Hwf' & Hsame).
    assert (Hx : x ∈ qs).
    { rewrite Ed. apply elem_of_app. right. apply elem_of_cons. auto. }
    destruct (Hqs x Hx) as (Hxr & Hxc & Hxs). split; [exact Hxs |].
    destruct Hsame as [S1 S2].
    assert (Ecol : column_of st x = column_of h x) by apply (S1 x).
    rewrite Ecol.
    assert (Hin : column_of h x ∈ filter (fun y => y ∉ column_of h <$> done) hs).
    { apply list_elem_of_filter. split; [| exact Hxc].
      rewrite Ed, fmap_app in Hnd. cbn in Hnd.
      apply NoDup_app in Hnd as (_ & Hdis & _). intros Hd.
      apply (Hdis _ Hd). apply elem_of_cons. auto. }
    destruct (cover_step T _ st (column_of h x) fuel Hwf' Hin Hfuel)
      as (st' & E' & Hwf'' & Hsame').
    exists st'. split; [exact E' |]. split.
    + destruct Hsame' as [_ S2']. rewrite (proj1 (S2' x Hxr)).
      rewrite (proj1 (S2 x Hxr)). apply (Hnext done x rest Ed).
    + exists (done ++ [x]). split; [rewrite <- app_assoc; exact Ed |].
      split; [| apply (same_rows_trans T h st st'); [split; assumption | exact Hsame']].
      rewrite list_filter_filter in Hwf''.
      erewrite list_filter_iff; [exact Hwf'' |].
      intros y. cbn. rewrite fmap_app, not_elem_of_app. cbn.
      rewrite not_elem_of_cons. pose proof (not_elem_of_nil y). tauto.
  - exists []. split; [reflexivity |]. split; [| apply same_rows_refl].
    cbn. rewrite filter_notin_nil. exact Hwf.
  - exact Hlen.
  - rewrite app_nil_r in Ed. subst done.
    exists h'. split; [exact E |]. split; [exact Hwf' | exact Hsame].
Qed.

(** ** [findNodeForClue] and [applyInitialConstraints] return *)

Lemma data_ok_same_rows (T : torus) (h h' : heap) :
  data_ok T h -> same_rows T h h' -> data_ok T h'.
Proof.
  intros Hd [S1 _] p Hp. rewrite (proj2 (S1 p)). apply Hd. exact Hp.
Qed.

Lemma header_ring_length (T : torus) (hs : list nat) (h : heap) (fuel : nat) :
  header_ring_ok T hs h -> enough_fuel T fuel -> length hs < fuel.
Proof.
  intros (Hnd & Hsub & _) Hf.
  pose proof (NoDup_length_le hs (t_cols T) Hnd Hsub).
  unfold enough_fuel in Hf. lia.
Qed.

Lemma findNodeForClue_total (T : torus) (hs : list nat) (s : state) (fuel : nat)
    (value : Z) (row col : nat) :
  rootHeader s = t_root T -> well_formed T hs (allNodes s) ->
  data_ok T (allNodes s) -> enough_fuel T fuel ->
  exists p, findNodeForClue fuel s value row col = Ok p
    /\ (p = 0 \/ exists a b, a ++ p :: b ∈ t_rows T
                  /\ forall q, q ∈ a ++ p :: b -> column_of (allNodes s) q ∈ hs).
Proof.
  intros Hroot [vr HR] Hdata Hfuel. set (h := allNodes s) in *.
  pose proof HR as (Hnd & Hrows & Hrc & Hh & Hv & Hact).
  unfold findNodeForClue. cbv zeta. fold h. rewrite Hroot.
  set (g := fun node : nat =>
         let* d0 := rowData_at h node 0 in
         let* d1 := rowData_at h node 1 in
         let* d2 := rowData_at h node 2 in
         if (d0 =? value)%Z && (d1 - 1 =? Z.of_nat row)%Z
            && (d2 - 1 =? Z.of_nat col)%Z
         then Ok node else Ok 0).
  assert (Hg : forall node, node ∈ concat (t_rows T) ->
            g node = Ok node \/ g node = Ok 0).
  { intros node Hn. unfold g, rowData_at. specialize (Hdata node Hn).
    rewrite (vget_nth _ 0 0%Z), (vget_nth _ 1 0%Z), (vget_nth _ 2 0%Z) by lia.
    cbn [bind]. destruct (_ && _); auto. }
  assert (Hinner : forall c, c ∈ hs ->
            exists r, find_ring fuel (down_of h) c g (down_of h c) = Ok r
              /\ (r = 0 \/ r ∈ vr c)).
  { intros c Hc. assert (Hcc : c ∈ t_cols T) by (apply Hh; exact Hc).
    destruct (Hv c Hcc) as [Hring Hcol]. pose proof Hring as (Hndc & Hs & _).
    destruct (find_ring_total (down_of h) c g (vr c) (down_of h c) fuel)
      as (r & E & Hr).
    - intros y Hy. split.
      + intros ->. apply NoDup_cons in Hndc as [N _]. auto.
      + destruct (Hg y (proj2 (Hcol y Hy))) as [-> | ->]; eauto.
    - intros l1 y l2 El. rewrite El in Hs. apply (seg_nx_at _ _ _ _ _ _ _ Hs).
    - apply (seg_nx_first _ _ _ _ _ Hs).
    - apply (ring_fuel_enough T fuel _ _ c (vr c) Hfuel Hring).
      intros p Hp. apply (Hcol p Hp).
    - exists r. split; [exact E |]. destruct Hr as [-> | (y & Hy & Ey)]; [auto |].
      destruct (Hg y (proj2 (Hcol y Hy))) as [E' | E']; rewrite E' in Ey;
        injection Ey as <-; auto. }
  destruct Hh as (Hndh & Hsub & Hs).
  destruct (find_ring_total (right_of h) (t_root T)
              (fun colHeader => find_ring fuel (down_of h) colHeader g
                                  (down_of h colHeader))
              hs (right_of h (t_root T)) fuel) as (p & E & Hp).
  - intros y Hy. split.
    + intros ->. apply (proj1 (root_not_node T Hnd)). apply Hsub. exact Hy.
    + destruct (Hinner y Hy) as (r & Er & _). eauto.
  - intros l1 y l2 El. rewrite El in Hs. apply (seg_nx_at _ _ _ _ _ _ _ Hs).
  - apply (seg_nx_first _ _ _ _ _ Hs).
  - apply (header_ring_length T hs h fuel); [repeat split; assumption | exact Hfuel].
  - exists p. split; [exact E |].
    destruct Hp as [-> | (c & Hc & Ec)]; [auto |].
    destruct (Hinner c Hc) as (r & Er & Hr). rewrite Er in Ec. injection Ec as <-.
    destruct Hr as [-> | Hr]; [auto |]. right.
    destruct (Rep_row_of T hs vr h c r HR (Hsub c Hc) Hr) as (a & b & Hrow & _).
    exists a, b. split; [exact Hrow |]. intros q Hq.
    apply (Hact c r (a ++ r :: b) q Hc Hr Hrow); [| exact Hq].
    apply elem_of_app. right. apply elem_of_cons. auto.
Qed.

Lemma NoDup_fmap_rotate (f : nat -> nat) (a : list nat) (p : nat) (b : list nat) :
  NoDup (f <$> a ++ p :: b) ->
  NoDup (f <$> b ++ a) /\ forall q, q ∈ b ++ a -> f q <> f p.
Proof.
  rewrite !fmap_app, fmap_cons. intros H.
  apply NoDup_app in H as (Na & Hdis & Nb). apply NoDup_cons in Nb as [Hp Nb].
  split.
  - apply NoDup_app. split; [exact Nb |]. split; [| exact Na].
    intros x Hb Ha. apply (Hdis x Ha). apply elem_of_cons. auto.
  - intros q Hq E. apply elem_of_app in Hq as [Hq | Hq].
    + apply Hp. rewrite <- E. apply list_elem_of_fmap. eauto.
    + apply (Hdis (f p)); [| apply elem_of_cons; auto].
      rewrite <- E. apply list_elem_of_fmap. eauto.
Qed.

(** Covering the columns of a whole row, as [applyInitialConstraints]
    and [searchDLX] do: the column of the node [p], then those of the
    other nodes of its row, following the right links. *)
Lemma cover_row (T : torus) (hs : list nat) (h : heap) (fuel : nat)
    (a : list nat) (p : nat) (b : list nat) :
  well_formed T hs h -> enough_fuel T fuel ->
  a ++ p :: b ∈ t_rows T ->
  (forall q, q ∈ a ++ p :: b -> column_of h q ∈ hs) ->
  exists h1 h2,
    coverColumn fuel (column_of h p) h = Ok h1
    /\ for_ring fuel right_of p
         (fun node h => coverColumn fuel (column_of h node) h) (right_of h1 p) h1
       = Ok h2
    /\ well_formed T (filter (fun x => x ∉ column_of h <$> a ++ p :: b) hs) h2
    /\ same_rows T h h2.
Proof.
  intros Hwf Hfuel Hrow Hcols.
  assert (Hp : p ∈ a ++ p :: b) by (apply elem_of_app; right; apply elem_of_cons; auto).
  destruct (cover_step T hs h (column_of h p) fuel Hwf (Hcols p Hp) Hfuel)
    as (h1 & E1 & Hwf1 & Hsame1).
  destruct Hwf as [vr HR]. pose proof HR as (Hnd & _ & Hrc & _).
  destruct (Hrc _ Hrow) as [Hndc _].
  destruct (NoDup_fmap_rotate (column_of h) a p b Hndc) as [Hndq Hne].
  assert (Hndrow : NoDup (a ++ p :: b)).
  { apply (NoDup_concat_row (t_rows T)); [| exact Hrow].
    apply (Rep_rows_NoDup _ _ _ _ HR). }
  pose proof Hwf1 as [vr1 HR1]. pose proof HR1 as (_ & Hrows1 & _).
  pose proof (Hrows1 a p b Hrow) as (Hndr & Hseg & _).
  pose proof Hsame1 as [S1 S2].
  assert (Ecol : forall q, column_of h1 q = column_of h q) by (intros q; apply S1).
  assert (Ef : column_of h1 <$> b ++ a = column_of h <$> b ++ a).
  { apply list_fmap_ext. intros k q _. apply Ecol. }
  destruct (cover_nodes_loop T fuel p (b ++ a) _ h1 Hwf1 Hfuel) as (h2 & E2 & Hwf2 & Hsame2).
  - rewrite Ef. exact Hndq.
  - intros q Hq.
    assert (Hqrow : q ∈ a ++ p :: b).
    { apply elem_of_app in Hq as [Hq | Hq]; apply elem_of_app; [right | left].
      - apply elem_of_cons. auto.
      - exact Hq. }
    split; [apply elem_of_concat; eauto |]. split.
    + apply list_elem_of_filter. rewrite Ecol. split; [apply Hne; exact Hq |].
      apply Hcols. exact Hqrow.
    + intros ->. apply NoDup_cons in Hndr as [N _]. auto.
  - intros l1 q l2 El. rewrite El in Hseg. apply (seg_nx_at _ _ _ _ _ _ _ Hseg).
  - rewrite <- (seg_nx_first _ _ _ _ _ Hseg) in E2.
    exists h1, h2. split; [exact E1 |]. split; [exact E2 |]. split.
    + rewrite Ef, list_filter_filter in Hwf2.
      erewrite list_filter_iff; [exact Hwf2 |].
      intros y. cbn. rewrite !fmap_app, fmap_cons, !not_elem_of_app, not_elem_of_cons.
      tauto.
    + apply (same_rows_trans T h h1 h2); assumption.
Qed.

Lemma clue_step_ok (T : torus) (cc fuel : nat) (puzzle : grid) (i j index : nat)
    (s0 s : state) :
  clues_state T cc s0 s -> enough_fuel T fuel -> index < cc ->
  i < length puzzle -> j < length (nth i puzzle []) ->
  exists index' s',
    clue_step fuel puzzle i j (index, s) = Ok (index', s')
    /\ clues_state T cc s0 s' /\ index' <= index + 1.
Proof.
  intros Hst Hfuel Hidx Hi Hj. unfold clue_step.
  rewrite (vget_nth puzzle i []) by exact Hi. cbn [bind].
  rewrite (vget_nth _ j 0%Z) by exact Hj. cbn [bind].
  destruct (0 <? nth j (nth i puzzle []) 0)%Z; [| exists index, s; auto with lia].
  destruct Hst as (Hroot & (hs & Hwf) & Hdata & Hlen & Hsol & Hcnt & Hsols).
  destruct (findNodeForClue_total T hs s fuel (nth j (nth i puzzle []) 0%Z) i j
              Hroot Hwf Hdata Hfuel) as (temp & E & Htemp).
  rewrite E. cbn [bind].
  destruct (Nat.eqb_spec temp 0) as [| Hne].
  { exists index, s. split; [reflexivity |]. split; [| lia].
    repeat split; eauto. }
  destruct Htemp as [| (a & b & Hrow & Hcols)]; [contradiction |].
  destruct (cover_row T hs (allNodes s) fuel a temp b Hwf Hfuel Hrow Hcols)
    as (h1 & h2 & E1 & E2 & Hwf2 & Hsame).
  rewrite E1. cbn [bind]. unfold vset. rewrite decide_True by lia. cbn [bind].
  rewrite E2. cbn [bind]. eexists _, _. split; [reflexivity |]. split; [| lia].
  split; [exact Hroot |]. split; [eexists; exact Hwf2 |].
  split; [apply (data_ok_same_rows T _ _ Hdata Hsame) |].
  split; [cbn; rewrite length_insert; exact Hlen |].
  cbn. auto.
Qed.

Lemma applyInitialConstraints_total (T : torus) (sv : SudokuDLXSolver) (fuel : nat)
    (puzzle : grid) (s0 : state) :
  clues_state T (cellCount sv) s0 s0 -> enough_fuel T fuel ->
  cellCount sv = gridSize sv * gridSize sv ->
  is_square sv puzzle = true ->
  exists s, applyInitialConstraints sv fuel puzzle s0 = Ok s
    /\ clues_state T (cellCount sv) s0 s.
Proof.
  intros H0 Hfuel Hcc Hsq. unfold is_square in Hsq.
  apply andb_true_iff in Hsq as [Hlen Hrows].
  apply Nat.eqb_eq in Hlen. rewrite forallb_forall in Hrows.
  set (N := gridSize sv) in *.
  assert (Hrow : forall i, i < N -> length (nth i puzzle []) = N).
  { intros i Hi. apply Nat.eqb_eq. apply Hrows. apply nth_In. lia. }
  unfold applyInitialConstraints. fold N.
  destruct (for_range_inv
    (fun i (st : nat * state) => st.1 <= i * N /\ clues_state T (cellCount sv) s0 st.2)
    (fun i st => for_range N 0 (clue_step fuel puzzle i) st) N 0 (0, s0))
    as (st & E & _ & Hst).
  - cbn. split; [lia | exact H0].
  - intros i st Hi [Hidx Hst].
    destruct (for_range_inv
      (fun j (st : nat * state) =>
         st.1 <= i * N + j /\ clues_state T (cellCount sv) s0 st.2)
      (clue_step fuel puzzle i) N 0 st) as (st' & E' & Hidx' & Hst').
    + split; [lia | exact Hst].
    + intros j [index s] Hj [Hidx1 Hst1]. cbn [fst snd] in *.
      destruct (clue_step_ok T (cellCount sv) fuel puzzle i j index s0 s Hst1 Hfuel)
        as (index' & s' & E' & Hst' & Hle).
      * rewrite Hcc. fold N. nia.
      * lia.
      * rewrite Hrow by lia. lia.
      * exists (index', s'). split; [exact E' |]. cbn [fst snd]. split; [lia | exact Hst'].
    + exists st'. split; [exact E' |]. split; [| exact Hst'].
      cbn [Nat.add] in Hidx'. lia.
  - rewrite E. cbn [bind]. exists st.2. split; [reflexivity | exact Hst].
Qed.

(** ** The start of [solve] *)

Lemma sudoku_torus_nodes (sv : SudokuDLXSolver) :
  forall p, p ∈ concat (t_rows (sudoku_torus sv))
    <-> exists i, i < exactCoverRows sv /\ p ∈ row_nodes sv i.
Proof.
  intros p. cbn [sudoku_torus t_rows]. rewrite elem_of_concat. split.
  - intros (l & Hl & Hp). apply list_elem_of_fmap in Hl as (i & -> & Hi).
    apply elem_of_seq in Hi. exists i. split; [lia | exact Hp].
  - intros (i & Hi & Hp). exists (row_nodes sv i). split; [| exact Hp].
    apply list_elem_of_fmap. exists i. split; [reflexivity |].
    apply elem_of_seq. lia.
Qed.

Lemma sudoku_torus_size (sv : SudokuDLXSolver) :
  length (concat (t_rows (sudoku_torus sv))) = 4 * exactCoverRows sv.
Proof.
  cbn [sudoku_torus t_rows].
  assert (H : forall R a, length (concat (row_nodes sv <$> seq a R)) = 4 * R).
  { induction R as [| R IH]; intros a; [reflexivity |].
    cbn [seq]. rewrite fmap_cons. cbn [concat]. rewrite length_app, IH.
    unfold row_nodes. rewrite length_seq. lia. }
  apply H.
Qed.

Lemma sudoku_enough_fuel (sv : SudokuDLXSolver) :
  enough_fuel (sudoku_torus sv) (ring_fuel sv).
Proof.
  unfold enough_fuel, ring_fuel. rewrite sudoku_torus_size.
  cbn [sudoku_torus t_cols]. rewrite length_seq. lia.
Qed.

Lemma solve_unfold (sv : SudokuDLXSolver) (puzzle : grid) (searchLimit : Z) :
  solve sv puzzle searchLimit
  = if negb (dimensions_ok sv puzzle) then Fail invalid_argument
    else if (solutions_max_size <? searchLimit mod 2 ^ 64)%Z then Fail length_error
    else
      let* b := initial_torus sv in
      let s := mkState b.1 (replicate (cellCount sv) 0) (replicate (cellCount sv) 0)
                 b.2 0%Z [] in
      let* s := applyInitialConstraints sv (ring_fuel sv) puzzle s in
      let* s := searchDLX (S (exactCoverCols sv)) sv (ring_fuel sv) 0 searchLimit s in
      Ok (solutions s).
Proof.
  unfold solve, initial_torus.
  destruct (negb (dimensions_ok sv puzzle)); [reflexivity |].
  destruct (solutions_max_size <? searchLimit mod 2 ^ 64)%Z; [reflexivity |].
  destruct (buildExactCoverMatrix sv _); reflexivity.
Qed.

Lemma is_square_dimensions_ok (sv : SudokuDLXSolver) (puzzle : grid) :
  is_square sv puzzle = true -> dimensions_ok sv puzzle = true.
Proof.
  unfold is_square, dimensions_ok. intros H.
  apply andb_true_iff in H as [H1 H2]. rewrite H1. cbn [negb orb].
  destruct puzzle as [| row0 rest]; [reflexivity |].
  cbn in H2. apply andb_true_iff in H2 as [H2 _]. rewrite H2. reflexivity.
Qed.

(** The solver after the clues of a square puzzle are applied. *)
Lemma solve_after_clues (k : nat) (puzzle : grid) :
  1 <= k -> is_square (solver k) puzzle = true ->
  exists h s,
    initial_torus (solver k) = Ok (1, h)
    /\ applyInitialConstraints (solver k) (ring_fuel (solver k)) puzzle
         (mkState 1 (replicate (cellCount (solver k)) 0)
            (replicate (cellCount (solver k)) 0) h 0%Z [])
       = Ok s
    /\ clues_state (sudoku_torus (solver k)) (cellCount (solver k))
         (mkState 1 (replicate (cellCount (solver k)) 0)
            (replicate (cellCount (solver k)) 0) h 0%Z []) s.
Proof.
  intros Hk Hsq.
  destruct (initial_torus_built k Hk) as (h & E & HR & Hlab).
  exists h.
  destruct (applyInitialConstraints_total (sudoku_torus (solver k)) (solver k)
              (ring_fuel (solver k)) puzzle
              (mkState 1 (replicate (cellCount (solver k)) 0)
                 (replicate (cellCount (solver k)) 0) h 0%Z []))
    as (s & Es & Hs).
  - split; [reflexivity |]. split; [eexists; eexists; exact HR |].
    split; [| split; [apply length_replicate | auto]].
    intros p Hp. apply sudoku_torus_nodes in Hp as (i & Hi & Hp).
    cbn [allNodes]. rewrite (proj1 (Hlab i Hi) p Hp). reflexivity.
  - apply sudoku_enough_fuel.
  - reflexivity.
  - exact Hsq.
  - exists s. auto.
Qed.

(** ** What [findNodeForClue] returns *)

Lemma find_ring_sound (next : nat -> nat) (stop : nat) (f : nat -> result nat) :
  forall fuel p r,
  find_ring fuel next stop f p = Ok r -> r <> 0 ->
  exists y, y <> stop /\ f y = Ok r.
Proof.
  induction fuel as [| k IH]; intros p r E Hr; cbn in E; [discriminate |].
  destruct (Nat.eqb_spec p stop) as [_ | Hp].
  - injection E as <-. congruence.
  - destruct (f p) as [r1 | e] eqn:E1; cbn in E; [| discriminate].
    destruct (Nat.eqb_spec r1 0) as [_ | Hr1].
    + apply (IH _ _ E Hr).
    + injection E as <-. exists p. auto.
Qed.

Lemma findNodeForClue_matches (fuel : nat) (s : state) (value : Z) (row col p : nat) :
  findNodeForClue fuel s value row col = Ok p -> p <> 0 ->
  rowData_at (allNodes s) p 0 = Ok value
  /\ rowData_at (allNodes s) p 1 = Ok (Z.of_nat row + 1)%Z
  /\ rowData_at (allNodes s) p 2 = Ok (Z.of_nat col + 1)%Z.
Proof.
  intros E Hp. unfold findNodeForClue in E. cbv zeta in E.
  apply find_ring_sound in E as (colHeader & Hc & E); [| exact Hp].
  apply find_ring_sound in E as (node & Hn & E); [| exact Hp].
  destruct (rowData_at (allNodes s) node 0) as [d0 | e] eqn:E0; cbn in E; [| discriminate].
  destruct (rowData_at (allNodes s) node 1) as [d1 | e] eqn:E1; cbn in E; [| discriminate].
  destruct (rowData_at (allNodes s) node 2) as [d2 | e] eqn:E2; cbn in E; [| discriminate].
  destruct (Z.eqb_spec d0 value) as [H0 | _]; cbn in E; [| congruence].
  destruct (Z.eqb_spec (d1 - 1) (Z.of_nat row)) as [H1 | _]; cbn in E; [| congruence].
  destruct (Z.eqb_spec (d2 - 1) (Z.of_nat col)) as [H2 | _]; cbn in E; [| congruence].
  injection E as <-. rewrite E0, E1, E2.
  split; [congruence |]. split; f_equal; lia.
Qed.


(** ** The links of the nodes that the loops meet *)

Lemma on_ring_seg (nx pv : nat -> nat) (z p : nat) (l : list nat) :
  forall x, seg nx pv x l z -> on_ring nx z (nx x) p -> p ∈ l.
Proof.
  induction l as [| y l IH]; intros x Hs Hon; cbn in Hs.
  - rewrite Hs in Hon. inversion Hon; congruence.
  - destruct Hs as (Hx & _ & Hs). rewrite Hx in Hon.
    inversion Hon as [q Hq | q x' Hq Hnext]; subst.
    + apply elem_of_cons. auto.
    + apply elem_of_cons. right. eapply IH; eassumption.
Qed.

Lemma ring_links (nx pv : nat -> nat) (c : nat) (l : list nat) (t : nat) :
  ring nx pv c l -> t ∈ c :: l -> pv (nx t) = t /\ nx (pv t) = t.
Proof.
  intros Hr Ht. apply elem_of_cons in Ht as [-> | Ht].
  - destruct l as [| y l].
    + destruct Hr as (_ & Hs & Hp). cbn in Hs, Hp. rewrite Hs, Hp. auto.
    + pose proof (ring_rotate nx pv c [] y l Hr) as Hr'.
      destruct (ring_linked nx pv y l c [] Hr') as (H1 & H2 & _). auto.
  - destruct (list_elem_of_split _ _ Ht) as (l1 & l2 & ->).
    destruct (ring_linked nx pv c l1 t l2 Hr) as (H1 & H2 & _). auto.
Qed.

Lemma well_formed_links (T : torus) (hs : list nat) (h : heap) :
  well_formed T hs h ->
  (forall p, p ∈ concat (t_rows T) ->
     left_of h (right_of h p) = p /\ right_of h (left_of h p) = p)
  /\ (forall c p, c ∈ t_cols T ->
        p = c \/ on_ring (down_of h) c (down_of h c) p ->
        up_of h (down_of h p) = p /\ down_of h (up_of h p) = p)
  /\ (forall c, linked (t_root T) h c ->
        right_of h (left_of h c) = c
        /\ (right_of h c <> t_root T -> left_of h (right_of h c) = c)).
Proof.
  intros [vr HR]. pose proof HR as (Hnd & Hrows & Hrc & Hh & Hv & Hact).
  split; [| split].
  - intros p Hp. apply elem_of_concat in Hp as (row & Hrow & Hp).
    destruct (list_elem_of_split _ _ Hp) as (a & b & ->).
    apply (ring_links _ _ p (b ++ a)); [apply Hrows; exact Hrow |].
    apply elem_of_cons. auto.
  - intros c p Hc Hp. destruct (Hv c Hc) as [Hring _].
    apply (ring_links _ _ c (vr c) p Hring).
    destruct Hp as [-> | Hon]; apply elem_of_cons; [auto | right].
    destruct Hring as (_ & Hs & _). apply (on_ring_seg _ _ _ _ _ _ Hs Hon).
  - intros c Hc. destruct Hh as (Hndh & Hsub & Hs).
    assert (Hin : c ∈ hs) by apply (on_ring_seg _ _ _ _ _ _ Hs Hc).
    destruct (list_elem_of_split _ _ Hin) as (l1 & l2 & Ehs).
    destruct (header_neighbours T hs h l1 c l2 (conj Hndh (conj Hsub Hs)) Ehs)
      as (_ & _ & _ & _ & H5 & H6).
    split; [exact H5 |]. intros Hr. destruct H6; [assumption | contradiction].
Qed.

Lemma covers_ok (T : torus) (fuel : nat) (cols : list nat) :
  forall hs h,
  well_formed T hs h -> enough_fuel T fuel ->
  NoDup cols -> (forall c, c ∈ cols -> c ∈ hs) ->
  exists h',
    fold_left (fun r c => let* h := r in coverColumn fuel c h) cols (Ok h) = Ok h'
    /\ well_formed T (filter (fun x => x ∉ cols) hs) h'.
Proof.
  induction cols as [| c cols IH]; intros hs h Hwf Hfuel Hnd Hsub.
  - exists h. split; [reflexivity |]. rewrite filter_notin_nil. exact Hwf.
  - apply NoDup_cons in Hnd as [Hc Hnd].
    destruct (cover_step T hs h c fuel Hwf (Hsub c ltac:(apply elem_of_cons; auto)) Hfuel)
      as (h1 & E1 & Hwf1 & _).
    destruct (IH _ h1 Hwf1 Hfuel Hnd) as (h' & E' & Hwf').
    { intros c' Hc'. apply list_elem_of_filter. split; [congruence |].
      apply Hsub. apply elem_of_cons. auto. }
    exists h'. split.
    + cbn [fold_left bind]. rewrite E1. exact E'.
    + rewrite list_filter_filter in Hwf'.
      erewrite list_filter_iff; [exact Hwf' |].
      intros y. cbn. rewrite not_elem_of_cons. tauto.
Qed.

(** ** Covering the columns of a row, and undoing it *)

Lemma cover_undo_step (T : torus) (hs : list nat) (h : heap) (c fuel : nat) :
  well_formed T hs h -> c ∈ hs -> enough_fuel T fuel ->
  exists h1, coverColumn fuel c h = Ok h1
    /\ well_formed T (filter (fun x => x <> c) hs) h1
    /\ same_rows T h h1
    /\ forall h1', same_links (t_root T) h1' h1 ->
         exists h', uncoverColumn fuel c h1' = Ok h' /\ same_links (t_root T) h' h.
Proof.
  intros Hwf Hc Hfuel.
  destruct (cover_step T hs h c fuel Hwf Hc Hfuel) as (h1 & E1 & Hwf1 & Hsame).
  exists h1. split; [exact E1 |]. split; [exact Hwf1 |]. split; [exact Hsame |].
  intros h1' H1. destruct Hwf as [vr HR].
  rewrite (coverColumn_spec T hs vr h c fuel HR Hc Hfuel) in E1. injection E1 as <-.
  apply (uncover_cover T hs vr h c fuel h1' HR Hc Hfuel H1).
Qed.

Lemma cover_nodes_app (fuel : nat) (l1 l2 : list nat) :
  forall h, cover_nodes fuel (l1 ++ l2) h
            = let* h1 := cover_nodes fuel l1 h in cover_nodes fuel l2 h1.
Proof.
  induction l1 as [| q l1 IH]; intros h; [reflexivity |].
  cbn. destruct (coverColumn fuel (column_of h q) h) as [h1 | e]; cbn; [apply IH | reflexivity].
Qed.

Lemma cover_nodes_ok (T : torus) (fuel : nat) (qs : list nat) :
  forall hs h,
  well_formed T hs h -> enough_fuel T fuel ->
  NoDup (column_of h <$> qs) -> (forall q, q ∈ qs -> column_of h q ∈ hs) ->
  exists h2, cover_nodes fuel qs h = Ok h2
    /\ well_formed T (filter (fun x => x ∉ column_of h <$> qs) hs) h2
    /\ same_rows T h h2.
Proof.
  induction qs as [| q qs IH]; intros hs h Hwf Hfuel Hnd Hin.
  - exists h. split; [reflexivity |]. split; [| apply same_rows_refl].
    cbn. rewrite filter_notin_nil. exact Hwf.
  - rewrite fmap_cons in Hnd. apply NoDup_cons in Hnd as [Hq Hnd].
    destruct (cover_step T hs h (column_of h q) fuel Hwf
                (Hin q ltac:(apply elem_of_cons; auto)) Hfuel)
      as (h1 & E1 & Hwf1 & Hsame1).
    assert (Ef : column_of h1 <$> qs = column_of h <$> qs).
    { apply list_fmap_ext. intros k y _. apply (proj1 Hsame1 y). }
    destruct (IH _ h1 Hwf1 Hfuel) as (h2 & E2 & Hwf2 & Hsame2).
    + rewrite Ef. exact Hnd.
    + intros y Hy. apply list_elem_of_filter. rewrite (proj1 (proj1 Hsame1 y)). split.
      * intros E. apply Hq. rewrite <- E. apply list_elem_of_fmap. eauto.
      * apply Hin. apply elem_of_cons. auto.
    + exists h2. split; [cbn; rewrite E1; exact E2 |]. split.
      * rewrite Ef, list_filter_filter in Hwf2.
        erewrite list_filter_iff; [exact Hwf2 |].
        intros y. cbn. rewrite not_elem_of_cons. tauto.
      * apply (same_rows_trans T h h1 h2); assumption.
Qed.

Lemma first_of_reverse (l : list nat) (z : nat) : first_of (reverse l) z = last_of z l.
Proof.
  induction l as [| a l IH] using rev_ind; [reflexivity |].
  rewrite reverse_app, last_of_app. reflexivity.
Qed.

(** The loop of [searchDLX] that covers the columns of the other nodes
    of a row is [cover_nodes]. *)
Lemma cover_loop_nodes (T : torus) (fuel stop : nat) (qs : list nat) (hs : list nat)
    (h : heap) :
  well_formed T hs h -> enough_fuel T fuel ->
  NoDup (column_of h <$> qs) ->
  (forall q, q ∈ qs -> q ∈ concat (t_rows T) /\ column_of h q ∈ hs /\ q <> stop) ->
  (forall l1 q l2, qs = l1 ++ q :: l2 -> right_of h q = first_of l2 stop) ->
  for_ring fuel right_of stop
    (fun node h => coverColumn fuel (column_of h node) h) (first_of qs stop) h
  = cover_nodes fuel qs h.
Proof.
  intros Hwf Hfuel Hnd Hqs Hnext.
  assert (Hlen : length qs < fuel).
  { destruct Hwf as [vr HR].
    assert (Hndq : NoDup qs) by (apply (NoDup_fmap_1 (column_of h)); exact Hnd).
    pose proof (NoDup_length_le qs (concat (t_rows T)) Hndq
                  (fun q Hq => proj1 (Hqs q Hq))).
    unfold enough_fuel in Hfuel. lia. }
  assert (Hpre : forall done rest, qs = done ++ rest ->
            exists st, cover_nodes fuel done h = Ok st
              /\ well_formed T (filter (fun x => x ∉ column_of h <$> done) hs) st
              /\ same_rows T h st).
  { intros done rest Ed. apply (cover_nodes_ok T fuel done hs h Hwf Hfuel).
    - rewrite Ed, fmap_app in Hnd. apply NoDup_app in Hnd. tauto.
    - intros q Hq. apply Hqs. rewrite Ed. apply elem_of_app. auto. }
  destruct (for_ring_inv
    (fun rest st => exists done, qs = done ++ rest /\ cover_nodes fuel done h = Ok st)
    right_of stop (fun node h => coverColumn fuel (column_of h node) h))
    with (l := qs) (fuel := fuel) (st := h) as (h' & E & done & Ed & Ec).
  - intros x rest st (done & Ed & Ec).
    assert (Hx : x ∈ qs).
    { rewrite Ed. apply elem_of_app. right. apply elem_of_cons. auto. }
    destruct (Hqs x Hx) as (Hxr & Hxc & Hxs). split; [exact Hxs |].
    destruct (Hpre (done ++ [x]) rest) as (st' & Ec' & _ & [_ S2']).
    { rewrite <- app_assoc. exact Ed. }
    rewrite cover_nodes_app, Ec in Ec'. cbn [bind cover_nodes] in Ec'.
    destruct (coverColumn fuel (column_of st x) st) as [st1 | e] eqn:E1;
      cbn [bind] in Ec'; [| discriminate].
    injection Ec' as <-. exists st1. split; [reflexivity |]. split.
    + rewrite (proj1 (S2' x Hxr)). apply (Hnext done x rest Ed).
    + exists (done ++ [x]). split; [rewrite <- app_assoc; exact Ed |].
      rewrite cover_nodes_app, Ec. cbn [bind cover_nodes]. rewrite E1. reflexivity.
  - exists []. split; reflexivity.
  - exact Hlen.
  - rewrite app_nil_r in Ed. subst done. rewrite E, Ec. reflexivity.
Qed.

(** The loop of [searchDLX] that uncovers the same columns in the
    opposite order undoes [cover_nodes], but for the left link of the
    root. *)
Lemma uncover_loop_nodes (T : torus) (fuel stop : nat) (qs : list nat) (hs : list nat)
    (h h2 h2' : heap) :
  well_formed T hs h -> enough_fuel T fuel ->
  NoDup (column_of h <$> qs) ->
  (forall q, q ∈ qs -> q ∈ concat (t_rows T) /\ column_of h q ∈ hs /\ q <> stop) ->
  (forall l1 q l2, qs = l1 ++ q :: l2 -> left_of h q = last_of stop l1) ->
  cover_nodes fuel qs h = Ok h2 -> same_links (t_root T) h2' h2 ->
  exists h',
    for_ring fuel left_of stop
      (fun node h => uncoverColumn fuel (column_of h node) h) (last_of stop qs) h2'
    = Ok h'
    /\ same_links (t_root T) h' h.
Proof.
  intros Hwf Hfuel Hnd Hqs Hprev Ec2 Hsame2.
  assert (Hroot : forall q, q ∈ qs -> q <> t_root T).
  { intros q Hq ->. destruct Hwf as [vr HR].
    apply (Rep_header_not_row_node T hs vr h (t_root T) HR);
      [apply elem_of_cons; auto | apply (Hqs _ Hq)]. }
  assert (Hlen : length (reverse qs) < fuel).
  { rewrite length_reverse. destruct Hwf as [vr HR].
    assert (Hndq : NoDup qs) by (apply (NoDup_fmap_1 (column_of h)); exact Hnd).
    pose proof (NoDup_length_le qs (concat (t_rows T)) Hndq
                  (fun q Hq => proj1 (Hqs q Hq))).
    unfold enough_fuel in Hfuel. lia. }
  destruct (for_ring_inv
    (fun rest st => exists suf hj, qs = reverse rest ++ suf
       /\ cover_nodes fuel (reverse rest) h = Ok hj
       /\ same_links (t_root T) st hj)
    left_of stop (fun node h => uncoverColumn fuel (column_of h node) h))
    with (l := reverse qs) (fuel := fuel) (st := h2')
    as (h' & E & suf & hj & _ & Ej & Hj).
  - intros x rest st (suf & hj & Eq & Ej & Hj).
    rewrite reverse_cons in Eq, Ej. rewrite <- app_assoc in Eq. cbn in Eq.
    assert (Hx : x ∈ qs).
    { rewrite Eq. apply elem_of_app. right. apply elem_of_cons. auto. }
    destruct (Hqs x Hx) as (Hxr & Hxc & Hxs). split; [exact Hxs |].
    destruct (cover_nodes_ok T fuel (reverse rest) hs h Hwf Hfuel)
      as (hp & Ep & Hwfp & Hsamep).
    { rewrite Eq, fmap_app in Hnd. apply NoDup_app in Hnd. tauto. }
    { intros q Hq. apply Hqs. rewrite Eq. apply elem_of_app. auto. }
    rewrite cover_nodes_app, Ep in Ej. cbn [bind cover_nodes] in Ej.
    assert (Ecx : column_of hp x = column_of h x) by apply (proj1 Hsamep x).
    assert (Hin : column_of hp x ∈ filter (fun y => y ∉ column_of h <$> reverse rest) hs).
    { rewrite Ecx. apply list_elem_of_filter. split; [| exact Hxc].
      rewrite Eq, fmap_app in Hnd. cbn in Hnd.
      apply NoDup_app in Hnd as (_ & Hdis & _). intros Hd.
      apply (Hdis _ Hd). apply elem_of_cons. auto. }
    destruct (cover_undo_step T _ hp (column_of hp x) fuel Hwfp Hin Hfuel)
      as (h1 & E1 & _ & Hsame1 & Hundo).
    rewrite E1 in Ej. cbn [bind] in Ej. injection Ej as <-.
    destruct (Hundo st Hj) as (st' & E' & Hst').
    assert (Ecs : column_of st x = column_of hp x).
    { destruct (Hj x) as (_ & _ & _ & Ec & _). rewrite Ec. apply (proj1 Hsame1 x). }
    rewrite Ecs. exists st'. split; [exact E' |]. split.
    + destruct (Hst' x) as (_ & _ & _ & _ & _ & _ & El).
      rewrite (El (Hroot x Hx)). rewrite (proj2 (proj2 Hsamep x Hxr)).
      rewrite (Hprev (reverse rest) x suf Eq).
      rewrite <- (first_of_reverse (reverse rest)), reverse_involutive. reflexivity.
    + exists (x :: suf), hp. split; [exact Eq |]. split; [exact Ep | exact Hst'].
  - exists [], h2. rewrite reverse_involutive, app_nil_r.
    split; [reflexivity |]. split; [exact Ec2 | exact Hsame2].
  - exact Hlen.
  - cbn in Ej. injection Ej as <-. rewrite first_of_reverse in E.
    exists h'. split; [exact E | exact Hj].
Qed.

(** ** The vectors of the search *)

Lemma length_pad (cc : nat) (l : list nat) : length l <= cc -> length (pad cc l) = cc.
Proof. intros H. unfold pad. rewrite length_app, length_replicate. lia. Qed.

Lemma pad_push (cc : nat) (l : list nat) (x : nat) :
  length l < cc -> <[length l := x]> (pad cc l) = pad cc (l ++ [x]).
Proof.
  intros H. unfold pad. rewrite length_app. cbn [length].
  replace (cc - length l) with (S (cc - (length l + 1))) by lia.
  cbn [replicate]. rewrite insert_app_r_alt by lia.
  rewrite Nat.sub_diag. cbn. rewrite <- app_assoc. reflexivity.
Qed.

Lemma pad_top (cc : nat) (l : list nat) (x : nat) :
  pad cc (l ++ [x]) !! length l = Some x.
Proof.
  unfold pad. rewrite <- app_assoc. rewrite lookup_app_r by lia.
  rewrite Nat.sub_diag. reflexivity.
Qed.

Lemma pad_pop (cc : nat) (l : list nat) (x : nat) :
  length l < cc -> <[length l := 0]> (pad cc (l ++ [x])) = pad cc l.
Proof.
  intros H. unfold pad. rewrite length_app. cbn [length].
  replace (cc - length l) with (S (cc - (length l + 1))) by lia.
  cbn [replicate]. rewrite <- app_assoc. rewrite insert_app_r_alt by lia.
  rewrite Nat.sub_diag. reflexivity.
Qed.

Lemma pad_no_null (cc : nat) (l : list nat) :
  length l < cc -> exists rest, pad cc l = l ++ 0 :: rest.
Proof.
  intros H. unfold pad. destruct (cc - length l) as [| n] eqn:E; [lia |].
  exists (replicate n 0). reflexivity.
Qed.

(** ** The columns that the chosen rows share out *)

Lemma perm_filter_split (L hs : list nat) :
  NoDup L -> NoDup hs -> (forall x, x ∈ L -> x ∈ hs) ->
  hs ≡ₚ filter (fun x => x ∉ L) hs ++ L.
Proof.
  intros HL Hhs Hsub. apply NoDup_Permutation; [exact Hhs | |].
  - apply NoDup_app. split; [apply NoDup_filter; exact Hhs |]. split; [| exact HL].
    intros x Hx. apply list_elem_of_filter in Hx. tauto.
  - intros x. rewrite elem_of_app, list_elem_of_filter. split.
    + intros Hx. destruct (decide (x ∈ L)); [right; assumption | left; split; assumption].
    + intros [[_ Hx] | Hx]; [exact Hx | apply Hsub; exact Hx].
Qed.

Lemma partition_of_row (T : torus) (h0 : heap) (hs nodes : list nat)
    (a : list nat) (p : nat) (b : list nat) :
  partition_of T h0 hs nodes -> NoDup (concat (t_rows T)) -> NoDup hs ->
  a ++ p :: b ∈ t_rows T -> NoDup (column_of h0 <$> a ++ p :: b) ->
  (forall q, q ∈ a ++ p :: b -> column_of h0 q ∈ hs) ->
  partition_of T h0 (filter (fun x => x ∉ column_of h0 <$> a ++ p :: b) hs) (p :: nodes).
Proof.
  intros [Hn Hp] Hnd Hhs Hrow Hndc Hin.
  assert (Hpr : p ∈ a ++ p :: b) by (apply elem_of_app; right; apply elem_of_cons; auto).
  split.
  - intros q Hq. apply elem_of_cons in Hq as [-> | Hq]; [| apply Hn; exact Hq].
    apply elem_of_concat. eauto.
  - rewrite fmap_cons. cbn [concat]. unfold row_cols at 1.
    rewrite (row_of_spec T _ p Hnd Hrow Hpr). rewrite app_assoc.
    rewrite <- perm_filter_split; [exact Hp | exact Hndc | exact Hhs |].
    intros x Hx. apply list_elem_of_fmap in Hx as (q & -> & Hq). apply Hin. exact Hq.
Qed.

(** [coverColumn] on a linked column, with what the search needs of
    it: the rows of the column, which the loop down from the header
    meets, have all their columns linked before the cover, and
    [uncoverColumn] undoes the cover. *)
Lemma cover_column_rows (T : torus) (hs : list nat) (h : heap) (c fuel : nat) :
  well_formed T hs h -> c ∈ hs -> enough_fuel T fuel ->
  exists h1 ts,
    coverColumn fuel c h = Ok h1
    /\ well_formed T (filter (fun x => x <> c) hs) h1
    /\ same_rows T h h1
    /\ (forall h1', same_links (t_root T) h1' h1 ->
          exists h', uncoverColumn fuel c h1' = Ok h' /\ same_links (t_root T) h' h)
    /\ ring (down_of h1) (up_of h1) c ts
    /\ (forall t, on_ring (down_of h) c (down_of h c) t -> t ∈ ts)
    /\ forall t, t ∈ ts ->
         column_of h t = c
         /\ exists a b, a ++ t :: b ∈ t_rows T
              /\ forall q, q ∈ a ++ t :: b -> column_of h q ∈ hs.
Proof.
  intros Hwf Hc Hfuel.
  destruct (cover_undo_step T hs h c fuel Hwf Hc Hfuel) as (h1 & E1 & Hwf1 & Hsame & Hundo).
  destruct Hwf as [vr HR]. pose proof HR as (Hnd & Hrows & Hrc & Hh & Hv & Hact).
  assert (Hcc : c ∈ t_cols T) by (apply Hh; exact Hc).
  exists h1, (vr c). split; [exact E1 |]. split; [exact Hwf1 |].
  split; [exact Hsame |]. split; [exact Hundo |]. split; [| split].
  - rewrite (coverColumn_spec T hs vr h c fuel HR Hc Hfuel) in E1. injection E1 as <-.
    destruct (cover_prefix T hs vr h c (hidden_by T (vr c)) [] HR Hc)
      as (_ & Hring & _); [rewrite app_nil_r; reflexivity |].
    exact Hring.
  - intros t Ht. destruct (Hv c Hcc) as [(_ & Hs & _) _].
    apply (on_ring_seg _ _ _ _ _ _ Hs Ht).
  - intros t Ht. destruct (Hv c Hcc) as [_ Hcol]. split; [apply (Hcol t Ht) |].
    destruct (Rep_row_of T hs vr h c t HR Hcc Ht) as (a & b & Hrow & _).
    exists a, b. split; [exact Hrow |]. intros q Hq.
    apply (Hact c t (a ++ t :: b) q Hc Ht Hrow); [| exact Hq].
    apply elem_of_app. right. apply elem_of_cons. auto.
Qed.

(** ** The choice of the column *)

Lemma select_column_spec (h : heap) (root : nat) (hs : list nat) (fuel : nat) :
  NoDup (root :: hs) -> seg (right_of h) (left_of h) root hs root ->
  hs <> [] -> length hs <= fuel ->
  exists c l1 l2,
    select_column fuel h root = Ok c /\ hs = l1 ++ c :: l2
    /\ (forall c', c' ∈ l1 -> (size_of h c < size_of h c')%Z)
    /\ (forall c', c' ∈ l2 -> (size_of h c <= size_of h c')%Z).
Proof.
  intros Hnd Hs Hne Hfuel. destruct hs as [| c0 hs']; [congruence |].
  unfold select_column. rewrite (seg_nx_first _ _ _ _ _ Hs). cbn [first_of].
  destruct (for_ring_inv
    (fun rest col => exists l1 l2, c0 :: hs' = (l1 ++ col :: l2) ++ rest
       /\ (forall c', c' ∈ l1 -> (size_of h col < size_of h c')%Z)
       /\ (forall c', c' ∈ l2 -> (size_of h col <= size_of h c')%Z))
    (fun _ p => right_of h p) root
    (fun temp col => Ok (if (size_of h temp <? size_of h col)%Z then temp else col)))
    with (l := hs') (fuel := fuel) (st := c0) as (c & E & l1 & l2 & Ehs & H1 & H2).
  - intros x rest col (l1 & l2 & Ehs & H1 & H2). split.
    { intros ->. apply NoDup_cons in Hnd as [N _]. apply N. rewrite Ehs.
      apply elem_of_app. right. apply elem_of_cons. auto. }
    eexists. split; [reflexivity |]. split.
    { rewrite Ehs in Hs. apply (seg_nx_at _ _ _ _ _ _ _ Hs). }
    destruct (Z.ltb_spec (size_of h x) (size_of h col)) as [Hlt | Hge].
    + exists (l1 ++ col :: l2), []. split; [rewrite <- app_assoc; exact Ehs |].
      split; [| intros c' Hc'; apply elem_of_nil in Hc'; contradiction].
      intros c' Hc'. apply elem_of_app in Hc' as [Hc' | Hc'].
      * specialize (H1 c' Hc'). lia.
      * apply elem_of_cons in Hc' as [-> | Hc']; [exact Hlt |].
        specialize (H2 c' Hc'). lia.
    + exists l1, (l2 ++ [x]). split.
      { rewrite Ehs. rewrite <- !app_assoc. cbn. rewrite <- app_assoc. reflexivity. }
      split; [exact H1 |]. intros c' Hc'. apply elem_of_app in Hc' as [Hc' | Hc'].
      * apply H2. exact Hc'.
      * apply list_elem_of_singleton in Hc'. subst c'. exact Hge.
  - exists [], []. split; [reflexivity |].
    split; intros c' Hc'; apply elem_of_nil in Hc'; contradiction.
  - cbn in Hfuel. lia.
  - cbn [seg] in Hs. destruct Hs as (_ & _ & Hs').
    rewrite <- (seg_nx_first _ _ _ _ _ Hs') in E.
    exists c, l1, l2. rewrite app_nil_r in Ehs. auto.
Qed.

(** ** The loops of [mapSolutionToGrid] *)

Lemma grid_set_ok (N : nat) (g : grid) (r c : nat) (d : Z) :
  square_grid N g -> r < N -> c < N ->
  exists g', grid_set g r c d = Ok g' /\ square_grid N g'
    /\ forall r' c', cell g' r' c'
         = if decide (r' = r /\ c' = c) then d else cell g r' c'.
Proof.
  intros [Hlen Hrows] Hr Hc. unfold grid_set.
  rewrite (vget_nth g r []) by lia. cbn [bind].
  specialize (Hrows r Hr) as Hrow. set (row := nth r g []) in *.
  unfold vset. rewrite decide_True by lia. cbn [bind].
  rewrite decide_True by lia.
  eexists. split; [reflexivity |]. split; [split |].
  - rewrite length_insert. exact Hlen.
  - intros r' Hr'. rewrite nth_lookup.
    destruct (decide (r' = r)) as [-> | Hne].
    + rewrite list_lookup_insert_eq by lia. cbn. rewrite length_insert. exact Hrow.
    + rewrite list_lookup_insert_ne by congruence. rewrite <- nth_lookup.
      apply Hrows. exact Hr'.
  - intros r' c'. unfold cell. rewrite (nth_lookup _ r').
    destruct (decide (r' = r)) as [-> | Hne].
    + rewrite list_lookup_insert_eq by lia. cbn. rewrite (nth_lookup _ c').
      destruct (decide (c' = c)) as [-> | Hnc].
      * rewrite list_lookup_insert_eq by lia. cbn.
        rewrite decide_True by auto. reflexivity.
      * rewrite list_lookup_insert_ne by congruence.
        rewrite decide_False by tauto. rewrite <- nth_lookup. reflexivity.
    + rewrite list_lookup_insert_ne by congruence.
      rewrite decide_False by tauto. rewrite <- nth_lookup. reflexivity.
Qed.

(** One loop of [mapSolutionToGrid] over the nodes [l] and then a
    [nullptr]: every cell holds the digit of the last node of [l] that
    addresses it. *)
Lemma place_nodes_spec (N : nat) (h : heap) (l rest : list nat) :
  forall g,
  square_grid N g -> (forall p, p ∈ l -> addresses_cell N h p) ->
  exists g',
    place_nodes h (l ++ 0 :: rest) g = Ok g' /\ square_grid N g'
    /\ forall r c, cell g' r c
         = default (cell g r c) (node_digit h <$> last_at h l r c).
Proof.
  induction l as [| p l IH]; intros g Hg Hl.
  - exists g. split; [reflexivity |]. split; [exact Hg |]. reflexivity.
  - destruct (Hl p ltac:(apply elem_of_cons; auto)) as (Hp & Hlen & Hr & Hc).
    cbn [app place_nodes]. destruct (Nat.eqb_spec p 0) as [| _]; [contradiction |].
    unfold rowData_at. rewrite (vget_nth _ 1 0%Z) by lia. cbn [bind].
    fold (node_row h p). unfold index_of.
    destruct (Z.ltb_spec (node_row h p) 0) as [| _]; [lia |]. cbn [bind].
    rewrite (vget_nth _ 2 0%Z) by lia. cbn [bind]. fold (node_col h p).
    destruct (Z.ltb_spec (node_col h p) 0) as [| _]; [lia |]. cbn [bind].
    rewrite (vget_nth _ 0 0%Z) by lia. cbn [bind]. fold (node_digit h p).
    destruct (grid_set_ok N g (Z.to_nat (node_row h p)) (Z.to_nat (node_col h p))
                (node_digit h p) Hg ltac:(lia) ltac:(lia)) as (g1 & E1 & Hg1 & Hcell).
    rewrite E1. cbn [bind].
    destruct (IH g1 Hg1) as (g' & E' & Hg' & Hcell').
    { intros q Hq. apply Hl. apply elem_of_cons. auto. }
    exists g'. split; [exact E' |]. split; [exact Hg' |].
    intros r c. rewrite Hcell', Hcell. unfold last_at. rewrite filter_cons.
    destruct (decide (node_row h p = Z.of_nat r /\ node_col h p = Z.of_nat c))
      as [[Er Ec] | Hne].
    + rewrite decide_True by (split; lia). rewrite last_cons.
      destruct (last _); reflexivity.
    + rewrite decide_False; [reflexivity |].
      intros [-> ->]. apply Hne. split; lia.
Qed.

(** ** When a vector holds no [nullptr] *)

Lemma vget_fail {A : Type} (v : list A) (i : nat) (e : failure) :
  vget v i = Fail e -> e = out_of_range.
Proof. unfold vget. destruct (v !! i); congruence. Qed.

Lemma vset_fail {A : Type} (v : list A) (i : nat) (a : A) (e : failure) :
  vset v i a = Fail e -> e = out_of_range.
Proof. unfold vset. destruct (decide (i < length v)); congruence. Qed.

Lemma index_of_fail (z : Z) (e : failure) : index_of z = Fail e -> e = out_of_range.
Proof. unfold index_of. destruct (z <? 0)%Z; congruence. Qed.

Lemma grid_set_fail (g : grid) (r c : nat) (d : Z) (e : failure) :
  grid_set g r c d = Fail e -> e = out_of_range.
Proof.
  unfold grid_set. intros E.
  destruct (vget g r) as [row | e1] eqn:E1; cbn in E;
    [| apply vget_fail in E1; congruence].
  destruct (vset row c d) as [row' | e2] eqn:E2; cbn in E;
    [| apply vset_fail in E2; congruence].
  apply vset_fail in E. exact E.
Qed.

Lemma place_nodes_fail (h : heap) (nodes : list nat) :
  forall g e, place_nodes h nodes g = Fail e -> e = out_of_range.
Proof.
  induction nodes as [| p rest IH]; intros g e E; cbn in E; [congruence |].
  destruct (p =? 0); [discriminate |].
  unfold rowData_at in E.
  repeat match type of E with
  | (let* _ := ?x in _) = _ =>
      let E' := fresh "E" in
      destruct x eqn:E'; cbn [bind] in E;
      [| first [apply vget_fail in E' | apply index_of_fail in E'
               | apply grid_set_fail in E']; congruence]
  end.
  apply (IH _ _ E).
Qed.

Lemma place_nodes_no_null (h : heap) (nodes : list nat) :
  forall g, (forall p, p ∈ nodes -> p <> 0) -> place_nodes h nodes g = Fail out_of_range.
Proof.
  induction nodes as [| p rest IH]; intros g Hn; [reflexivity |].
  destruct (place_nodes h (p :: rest) g) as [g' | e] eqn:E.
  - exfalso. cbn in E.
    destruct (Nat.eqb_spec p 0) as [Hp | _].
    { apply (Hn p); [apply elem_of_cons; auto | exact Hp]. }
    unfold rowData_at in E.
    repeat match type of E with
    | (let* _ := ?x in _) = _ => destruct x; cbn [bind] in E; [| discriminate]
    end.
    rewrite IH in E; [discriminate |].
    intros q Hq. apply Hn. apply elem_of_cons. auto.
  - f_equal. apply (place_nodes_fail _ _ _ _ E).
Qed.

Lemma mapSolutionToGrid_no_null (s : state) (sudoku : grid) :
  (forall p, p ∈ solution s -> p <> 0) \/ (forall p, p ∈ fixedClues s -> p <> 0) ->
  mapSolutionToGrid s sudoku = Fail out_of_range.
Proof.
  intros [H | H]; unfold mapSolutionToGrid.
  - rewrite place_nodes_no_null by exact H. reflexivity.
  - destruct (place_nodes (allNodes s) (solution s) sudoku) as [g | e] eqn:E; cbn [bind].
    + apply place_nodes_no_null. exact H.
    + f_equal. apply (place_nodes_fail _ _ _ _ E).
Qed.
(** ** Rows that stay in their columns *)

Lemma on_ring_elem (nx pv : nat -> nat) (z p : nat) (l : list nat) :
  forall x, seg nx pv x l z -> z ∉ l -> p ∈ l -> on_ring nx z (nx x) p.
Proof.
  induction l as [| y l IH]; intros x Hs Hz Hp; cbn in Hs.
  - apply elem_of_nil in Hp. contradiction.
  - destruct Hs as (Hx & _ & Hs). rewrite Hx.
    apply not_elem_of_cons in Hz as [Hzy Hz].
    apply elem_of_cons in Hp as [-> | Hp].
    + apply on_ring_here. congruence.
    + apply on_ring_next; [congruence |]. apply (IH y Hs Hz Hp).
Qed.

Lemma on_ring_ext (nx nx' : nat -> nat) (z a b : nat) :
  (forall p, nx p = nx' p) -> on_ring nx z a b -> on_ring nx' z a b.
Proof.
  intros E H. induction H as [p Hp | p x Hp H IH].
  - apply on_ring_here. exact Hp.
  - apply on_ring_next; [exact Hp |]. rewrite <- E. exact IH.
Qed.

(** In a well-formed state, the nodes met down from a header are the
    nodes of the ring of the column. *)
Lemma on_ring_column (T : torus) (hs : list nat) (vr : nat -> list nat) (h : heap)
    (c p : nat) :
  Rep T hs vr h -> c ∈ t_cols T ->
  on_ring (down_of h) c (down_of h c) p <-> p ∈ vr c.
Proof.
  intros HR Hc. pose proof HR as (_ & _ & _ & _ & Hv & _).
  destruct (Hv c Hc) as [(Hnd & Hs & _) _]. split.
  - apply (on_ring_seg _ _ _ _ _ _ Hs).
  - apply (on_ring_elem _ _ _ _ _ _ Hs). apply NoDup_cons in Hnd. tauto.
Qed.

Lemma complete_vr (T : torus) (hs : list nat) (vr : nat -> list nat) (h : heap) :
  Rep T hs vr h ->
  complete T hs h
  <-> forall row q, row ∈ t_rows T ->
        (forall q', q' ∈ row -> column_of h q' ∈ hs) -> q ∈ row ->
        q ∈ vr (column_of h q).
Proof.
  intros HR. pose proof HR as (_ & _ & Hrc & _).
  split; intros H row q Hrow Hall Hq.
  - apply (on_ring_column T hs vr h _ q HR); [apply (Hrc row Hrow); exact Hq |].
    apply (H row q Hrow Hall Hq).
  - apply (on_ring_column T hs vr h _ q HR); [apply (Hrc row Hrow); exact Hq |].
    apply (H row q Hrow Hall Hq).
Qed.

Lemma complete_same_links (T : torus) (hs : list nat) (h h' : heap) :
  same_links (t_root T) h h' -> complete T hs h -> complete T hs h'.
Proof.
  intros Hs Hc row q Hrow Hall Hq.
  assert (Ec : forall p, column_of h' p = column_of h p).
  { intros p. destruct (Hs p) as (_ & _ & _ & E & _). auto. }
  assert (Ed : forall p, down_of h p = down_of h' p).
  { intros p. destruct (Hs p) as (_ & _ & E & _). exact E. }
  rewrite Ec, <- Ed. apply (on_ring_ext (down_of h) (down_of h') _ _ _ Ed).
  apply (Hc row q Hrow); [| exact Hq].
  intros q' Hq'. rewrite <- Ec. apply Hall. exact Hq'.
Qed.

(** [coverColumn] hides the rows of the covered column only. *)
Lemma cover_step_complete (T : torus) (hs : list nat) (h h' : heap) (c fuel : nat) :
  well_formed T hs h -> complete T hs h -> c ∈ hs -> enough_fuel T fuel ->
  coverColumn fuel c h = Ok h' ->
  complete T (filter (fun x => x <> c) hs) h'.
Proof.
  intros [vr HR] Hcomp Hc Hfuel E.
  rewrite (coverColumn_spec T hs vr h c fuel HR Hc Hfuel) in E. injection E as <-.
  destruct (list_elem_of_split _ _ Hc) as (l1 & l2 & Ehs).
  pose proof HR as (Hnd & _ & Hrc & Hh & Hv & _).
  pose proof (cover_Rep T hs vr h c l1 l2 HR Ehs) as HR'.
  rewrite Ehs, filter_ne_split by (rewrite <- Ehs; apply Hh).
  apply (complete_vr _ _ _ _ HR'). intros row q Hrow Hall Hq.
  set (h' := unlink_all (hidden_by T (vr c)) (unlink_lr c h)) in *.
  assert (Ec : forall p, column_of h' p = column_of h p).
  { intros p. unfold h'. destruct (unlink_all_links (hidden_by T (vr c)) (unlink_lr c h) p)
      as (_ & _ & E & _). rewrite E. apply unlink_lr_links. }
  assert (Hsub : forall x, x ∈ l1 ++ l2 -> x ∈ hs /\ x <> c).
  { intros x Hx. destruct Hh as (Hndh & _). rewrite Ehs in Hndh |- *.
    apply NoDup_app in Hndh as (N1 & N2 & N3). apply NoDup_cons in N3 as [N3 N4].
    apply elem_of_app in Hx as [Hx | Hx].
    - split; [apply elem_of_app; auto |]. intros ->. apply (N2 c Hx).
      apply elem_of_cons. auto.
    - split; [apply elem_of_app; right; apply elem_of_cons; auto |].
      intros ->. contradiction. }
  rewrite Ec. apply list_elem_of_filter. split.
  - intros Hhid. apply elem_of_hidden_by in Hhid as (n & Hn & Hqn).
    destruct (Hv c ltac:(apply Hh; exact Hc)) as [_ Hcol].
    destruct (Hcol n Hn) as [Enc Hnrows].
    apply elem_of_concat in Hnrows as (rown & Hrown & Hnin).
    apply (elem_of_others T rown n q (Rep_rows_NoDup _ _ _ _ HR) Hrown Hnin) in Hqn
      as [Hqrown _].
    assert (rown = row).
    { apply (NoDup_concat_disjoint (t_rows T) rown row q
               (Rep_rows_NoDup _ _ _ _ HR) Hrown Hrow Hqrown Hq). }
    subst rown. specialize (Hall n Hnin). rewrite Ec, Enc in Hall.
    apply (proj2 (Hsub c Hall)). reflexivity.
  - apply (proj1 (complete_vr _ _ _ _ HR) Hcomp row q Hrow); [| exact Hq].
    intros q' Hq'. specialize (Hall q' Hq'). rewrite Ec in Hall.
    apply (Hsub _ Hall).
Qed.

Lemma cover_nodes_complete (T : torus) (fuel : nat) (qs : list nat) :
  forall hs h h2,
  well_formed T hs h -> complete T hs h -> enough_fuel T fuel ->
  NoDup (column_of h <$> qs) -> (forall q, q ∈ qs -> column_of h q ∈ hs) ->
  cover_nodes fuel qs h = Ok h2 ->
  complete T (filter (fun x => x ∉ column_of h <$> qs) hs) h2.
Proof.
  induction qs as [| q qs IH]; intros hs h h2 Hwf Hcomp Hfuel Hnd Hin E.
  - cbn in E. injection E as <-. cbn. rewrite filter_notin_nil. exact Hcomp.
  - rewrite fmap_cons in Hnd. apply NoDup_cons in Hnd as [Hq Hnd].
    assert (Hqin : column_of h q ∈ hs) by (apply Hin; apply elem_of_cons; auto).
    destruct (cover_step T hs h (column_of h q) fuel Hwf Hqin Hfuel)
      as (h1 & E1 & Hwf1 & Hsame1).
    pose proof (cover_step_complete T hs h h1 _ fuel Hwf Hcomp Hqin Hfuel E1) as Hcomp1.
    cbn [cover_nodes] in E. rewrite E1 in E. cbn [bind] in E.
    assert (Ef : column_of h1 <$> qs = column_of h <$> qs).
    { apply list_fmap_ext. intros k y _. apply (proj1 Hsame1 y). }
    pose proof (IH _ h1 h2 Hwf1 Hcomp1 Hfuel) as H2.
    rewrite Ef in H2. rewrite list_filter_filter in H2.
    erewrite list_filter_iff; [apply H2 |].
    + exact Hnd.
    + intros y Hy. apply list_elem_of_filter. rewrite (proj1 (proj1 Hsame1 y)). split.
      * intros E'. apply Hq. rewrite <- E'. apply list_elem_of_fmap. eauto.
      * apply Hin. apply elem_of_cons. auto.
    + exact E.
    + intros y. cbn. rewrite not_elem_of_cons. tauto.
Qed.

(** Covering the columns of a whole row keeps the other rows in their
    columns. *)
Lemma cover_row_complete (T : torus) (hs : list nat) (h h1 h2 : heap) (fuel : nat)
    (a : list nat) (p : nat) (b : list nat) :
  well_formed T hs h -> complete T hs h -> enough_fuel T fuel ->
  a ++ p :: b ∈ t_rows T ->
  (forall q, q ∈ a ++ p :: b -> column_of h q ∈ hs) ->
  coverColumn fuel (column_of h p) h = Ok h1 ->
  for_ring fuel right_of p
    (fun node h => coverColumn fuel (column_of h node) h) (right_of h1 p) h1 = Ok h2 ->
  complete T (filter (fun x => x ∉ column_of h <$> a ++ p :: b) hs) h2.
Proof.
  intros Hwf Hcomp Hfuel Hrow Hcols E1 E2.
  assert (Hp : p ∈ a ++ p :: b) by (apply elem_of_app; right; apply elem_of_cons; auto).
  destruct (cover_step T hs h (column_of h p) fuel Hwf (Hcols p Hp) Hfuel)
    as (h1' & E1' & Hwf1 & Hsame1).
  rewrite E1 in E1'. injection E1' as <-.
  pose proof (cover_step_complete T hs h h1 _ fuel Hwf Hcomp (Hcols p Hp) Hfuel E1)
    as Hcomp1.
  destruct Hwf as [vr HR]. pose proof HR as (Hnd & _ & Hrc & _).
  destruct (Hrc _ Hrow) as [Hndc _].
  destruct (NoDup_fmap_rotate (column_of h) a p b Hndc) as [Hndq Hne].
  pose proof Hwf1 as [vr1 HR1]. pose proof HR1 as (_ & Hrows1 & _).
  pose proof (Hrows1 a p b Hrow) as (Hndr & Hseg & _).
  assert (Ecol : forall q, column_of h1 q = column_of h q).
  { intros q. apply (proj1 Hsame1 q). }
  assert (Ef : column_of h1 <$> b ++ a = column_of h <$> b ++ a).
  { apply list_fmap_ext. intros k q _. apply Ecol. }
  assert (Hqs : forall q, q ∈ b ++ a ->
            q ∈ concat (t_rows T)
            /\ column_of h1 q ∈ filter (fun x => x <> column_of h p) hs /\ q <> p).
  { intros q Hq.
    assert (Hqrow : q ∈ a ++ p :: b).
    { apply elem_of_app in Hq as [Hq | Hq]; apply elem_of_app; [right | left].
      - apply elem_of_cons. auto.
      - exact Hq. }
    split; [apply elem_of_concat; eauto |]. split.
    - apply list_elem_of_filter. rewrite Ecol. split; [apply Hne; exact Hq |].
      apply Hcols. exact Hqrow.
    - intros ->. apply NoDup_cons in Hndr as [N _]. auto. }
  rewrite (seg_nx_first _ _ _ _ _ Hseg) in E2.
  rewrite (cover_loop_nodes T fuel p (b ++ a) _ h1 Hwf1 Hfuel) in E2.
  - pose proof (cover_nodes_complete T fuel (b ++ a) _ h1 h2 Hwf1 Hcomp1 Hfuel) as H2.
    rewrite Ef, list_filter_filter in H2.
    erewrite list_filter_iff; [apply H2 |].
    + exact Hndq.
    + intros q Hq. apply (proj1 (proj2 (Hqs q Hq))).
    + exact E2.
    + intros y. cbn. rewrite !fmap_app, fmap_cons, !not_elem_of_app, not_elem_of_cons.
      tauto.
  - rewrite Ef. exact Hndq.
  - exact Hqs.
  - intros l1 q l2 El. rewrite El in Hseg. apply (seg_nx_at _ _ _ _ _ _ _ Hseg).
Qed.

(** ** What [findNodeForClue] does not miss *)

Lemma find_ring_null_all (next : nat -> nat) (stop : nat) (f : nat -> result nat)
    (l : list nat) :
  forall x fuel,
  (forall y, y ∈ l -> y <> stop) ->
  (forall l1 y l2, l = l1 ++ y :: l2 -> next y = first_of l2 stop) ->
  x = first_of l stop ->
  find_ring fuel next stop f x = Ok 0 ->
  forall y, y ∈ l -> f y = Ok 0.
Proof.
  induction l as [| a l IH]; intros x fuel Hf Hnext -> E y Hy.
  - apply elem_of_nil in Hy. contradiction.
  - destruct fuel as [| k]; [discriminate |]. cbn [find_ring first_of] in E.
    destruct (Nat.eqb_spec a stop) as [Ea | _].
    { exfalso. apply (Hf a); [apply elem_of_cons; auto | exact Ea]. }
    destruct (f a) as [r |] eqn:Efa; cbn [bind] in E; [| discriminate].
    destruct (Nat.eqb_spec r 0) as [-> | Hr].
    + apply elem_of_cons in Hy as [-> | Hy]; [exact Efa |].
      apply (IH (next a) k); [| | | exact E | exact Hy].
      * intros z Hz. apply Hf. apply elem_of_cons. auto.
      * intros l1 z l2 El. apply (Hnext (a :: l1) z l2). rewrite El. reflexivity.
      * apply (Hnext [] a l). reflexivity.
    + injection E as ->. contradiction.
Qed.

(** When the row of a clue has all its columns linked,
    [findNodeForClue] does not return [nullptr]. *)
Lemma findNodeForClue_complete (T : torus) (hs : list nat) (s : state) (fuel : nat)
    (value : Z) (row col : nat) (nodes : list nat) (q : nat) :
  rootHeader s = t_root T -> well_formed T hs (allNodes s) ->
  complete T hs (allNodes s) ->
  nodes ∈ t_rows T -> q ∈ nodes -> q <> 0 ->
  (forall q', q' ∈ nodes -> column_of (allNodes s) q' ∈ hs) ->
  rowData_of (allNodes s) q = [value; Z.of_nat row + 1; Z.of_nat col + 1]%Z ->
  findNodeForClue fuel s value row col <> Ok 0.
Proof.
  intros Hroot [vr HR] Hcomp Hnodes Hq Hq0 Hall Hdata E.
  set (h := allNodes s) in *.
  pose proof HR as (Hnd & Hrows & Hrc & Hh & Hv & Hact).
  unfold findNodeForClue in E. cbv zeta in E. fold h in E. rewrite Hroot in E.
  destruct Hh as (Hndh & Hsub & Hs).
  assert (Hc : column_of h q ∈ hs) by (apply Hall; exact Hq).
  set (g := fun node : nat =>
         let* d0 := rowData_at h node 0 in
         let* d1 := rowData_at h node 1 in
         let* d2 := rowData_at h node 2 in
         if (d0 =? value)%Z && (d1 - 1 =? Z.of_nat row)%Z
            && (d2 - 1 =? Z.of_nat col)%Z
         then Ok node else Ok 0) in E.
  set (F := fun colHeader : nat =>
         find_ring fuel (down_of h) colHeader g (down_of h colHeader)) in E.
  assert (Houter : F (column_of h q) = Ok 0).
  { apply (find_ring_null_all (right_of h) (t_root T) F hs (right_of h (t_root T)) fuel).
    - intros y Hy ->. apply (proj1 (root_not_node T Hnd)). apply Hsub. exact Hy.
    - intros l1 y l2 El. rewrite El in Hs. apply (seg_nx_at _ _ _ _ _ _ _ Hs).
    - apply (seg_nx_first _ _ _ _ _ Hs).
    - exact E.
    - exact Hc. }
  unfold F in Houter.
  destruct (Hv (column_of h q) (Hsub _ Hc)) as [Hring Hcol].
  pose proof Hring as (Hndc & Hsc & _).
  assert (Hqv : q ∈ vr (column_of h q)).
  { apply (proj1 (complete_vr T hs vr h HR) Hcomp nodes q Hnodes Hall Hq). }
  assert (Hinner : g q = Ok 0).
  { apply (find_ring_null_all (down_of h) (column_of h q) g (vr (column_of h q))
             (down_of h (column_of h q)) fuel).
    - intros y Hy ->. apply NoDup_cons in Hndc as [N _]. auto.
    - intros l1 y l2 El. rewrite El in Hsc. apply (seg_nx_at _ _ _ _ _ _ _ Hsc).
    - apply (seg_nx_first _ _ _ _ _ Hsc).
    - exact Houter.
    - exact Hqv. }
  unfold g, rowData_at, vget in Hinner. rewrite Hdata in Hinner.
  cbn in Hinner. rewrite !Z.eqb_refl in Hinner.
  replace (Z.of_nat row + 1 - 1 =? Z.of_nat row)%Z with true in Hinner
    by (symmetry; apply Z.eqb_eq; lia).
  replace (Z.of_nat col + 1 - 1 =? Z.of_nat col)%Z with true in Hinner
    by (symmetry; apply Z.eqb_eq; lia).
  cbn in Hinner. injection Hinner as Hinner. contradiction.
Qed.

(** ** The search *)

Lemma search_result_refl (T : torus) (limit : Z) (leaf : list nat -> grid -> Prop)
    (Found : list grid -> Z -> Prop) (s : state) :
  Found [] (solutionCount s) -> search_result T limit leaf Found s s.
Proof.
  intros HF.
  split; [apply same_links_refl |]. split; [reflexivity |]. split; [reflexivity |].
  split; [reflexivity |]. exists []. rewrite app_nil_r. cbn.
  split; [reflexivity |]. split; [lia |]. split; [constructor |].
  split; [auto |]. exact HF.
Qed.

(** What is found stays found when more grids are added. *)
Lemma found_mono (T : torus) (h0 : heap) (limit : Z) (leaf : list nat -> grid -> Prop)
    (hs chosen : list nat) (new new' : list grid) (c c' : Z) :
  found T h0 limit leaf hs chosen new c ->
  (c <= c')%Z -> (forall g, g ∈ new -> g ∈ new') ->
  found T h0 limit leaf hs chosen new' c'.
Proof.
  intros H Hc Hsub Hlt sol Hsol.
  destruct (H ltac:(lia) sol Hsol) as (ext & g & He & Hg & Hl).
  exists ext, g. auto.
Qed.

Lemma row_of_node (T : torus) (p : nat) :
  NoDup (concat (t_rows T)) -> p ∈ concat (t_rows T) ->
  row_of T p ∈ t_rows T /\ p ∈ row_of T p.
Proof.
  intros Hnd Hp. apply elem_of_concat in Hp as (row & Hrow & Hp).
  rewrite (row_of_spec T row p Hnd Hrow Hp). auto.
Qed.

Lemma header_ring_empty (T : torus) (hs : list nat) (h : heap) :
  well_formed T hs h -> (right_of h (t_root T) = t_root T <-> hs = []).
Proof.
  intros [vr HR]. pose proof HR as (Hnd & _ & _ & (Hndh & Hsub & Hs) & _).
  rewrite (seg_nx_first _ _ _ _ _ Hs). split.
  - destruct hs as [| c hs]; [reflexivity |]. cbn. intros E. exfalso.
    apply (proj1 (root_not_node T Hnd)). apply Hsub. rewrite <- E.
    apply elem_of_cons. auto.
  - intros ->. reflexivity.
Qed.

Lemma well_formed_same_links (T : torus) (hs : list nat) (h h' : heap) :
  well_formed T hs h -> same_links (t_root T) h' h -> well_formed T hs h'.
Proof.
  intros [vr HR] Hs. exists vr.
  apply (Rep_same_links T hs vr h h' HR). apply same_links_sym. exact Hs.
Qed.

Lemma well_formed_NoDup (T : torus) (hs : list nat) (h : heap) :
  well_formed T hs h -> NoDup hs /\ NoDup (concat (t_rows T))
  /\ forall c, c ∈ hs -> c ∈ t_cols T.
Proof.
  intros [vr HR]. pose proof HR as (Hnd & _ & _ & (Hndh & Hsub & _) & _).
  split; [exact Hndh |]. split; [| exact Hsub].
  apply (Rep_rows_NoDup _ _ _ _ HR).
Qed.

Section Search.
Variable T : torus.
Variable sv : SudokuDLXSolver.
Variable fuel : nat.
Variable limit : Z.
Variable clues : list nat.
Variable h0 : heap.
Variable leaf : list nat -> grid -> Prop.
Variable allow_fail : Prop.
Hypothesis Hfuel : enough_fuel T fuel.
Hypothesis Hleaf : forall s chosen,
  search_state T (cellCount sv) clues h0 [] chosen s ->
  outcome allow_fail (leaf chosen)
    (mapSolutionToGrid s (replicate (gridSize sv) (replicate (gridSize sv) 0%Z))).
Hypothesis Hdistinct : forall g nodes nodes' t t',
  leaf nodes g -> leaf nodes' g -> t ∈ nodes -> t' ∈ nodes' ->
  column_of h0 t = column_of h0 t' -> t = t'.
Hypothesis Hroom : forall hs chosen a p b,
  partition_of T h0 hs (chosen ++ clues) -> a ++ p :: b ∈ t_rows T ->
  (forall q, q ∈ a ++ p :: b -> column_of h0 q ∈ hs) ->
  length chosen < cellCount sv.

(** One row of the selected column: the columns of its other nodes
    are covered, the search goes on one level down, and the columns are
    uncovered. *)
Lemma search_row_ok (d k : nat)
    (hs chosen : list nat) (col : nat) (s1 : state)
    (a : list nat) (t : nat) (b : list nat) :
  length chosen = k -> col ∈ hs -> length hs <= d ->
  partition_of T h0 hs (chosen ++ clues) ->
  rootHeader s1 = t_root T ->
  well_formed T (filter (fun x => x <> col) hs) (allNodes s1) ->
  (forall q, column_of (allNodes s1) q = column_of h0 q
             /\ rowData_of (allNodes s1) q = rowData_of h0 q) ->
  solution s1 = pad (cellCount sv) chosen ->
  fixedClues s1 = pad (cellCount sv) clues ->
  a ++ t :: b ∈ t_rows T -> column_of h0 t = col ->
  (forall q, q ∈ a ++ t :: b -> column_of h0 q ∈ hs) ->
  exists sol h2,
    vset (solution s1) k t = Ok sol
    /\ for_ring fuel right_of t
         (fun node h => coverColumn fuel (column_of h node) h)
         (right_of (allNodes s1) t) (allNodes s1) = Ok h2
    /\ search_state T (cellCount sv) clues h0 (columns_without T h0 hs t) (chosen ++ [t])
         (with_nodes h2 (with_solution sol s1))
    /\ length (columns_without T h0 hs t) < d
    /\ (complete T (filter (fun x => x <> col) hs) (allNodes s1) ->
        complete T (columns_without T h0 hs t) h2)
    /\ forall Found s2,
         search_result T limit leaf Found (with_nodes h2 (with_solution sol s1)) s2 ->
         exists h3,
           vget (solution s2) k = Ok t
           /\ vset (solution s2) k 0 = Ok (pad (cellCount sv) chosen)
           /\ column_of (allNodes s2) t = col
           /\ for_ring fuel left_of t
                (fun node h => uncoverColumn fuel (column_of h node) h)
                (left_of (allNodes s2) t) (allNodes s2) = Ok h3
           /\ same_links (t_root T) h3 (allNodes s1).
Proof.
  intros Hk Hcol Hd Hpart Hroot Hwf1 Hdata Hsol Hclues Hrow Htc Hin.
  set (cc := cellCount sv) in *. set (h1 := allNodes s1) in *.
  set (hs1 := filter (fun x => x <> col) hs) in *.
  pose proof (Hroom hs chosen a t b Hpart Hrow Hin) as Hkc. fold cc in Hkc.
  destruct (well_formed_NoDup T hs1 h1 Hwf1) as (Hndhs1 & Hndrows & Hsub1).
  pose proof Hwf1 as [vr1 HR1]. pose proof HR1 as (Hnd & Hrows1 & Hrc1 & _).
  destruct (Hrc1 _ Hrow) as [Hndc _].
  assert (Ef0 : forall l : list nat, column_of h1 <$> l = column_of h0 <$> l).
  { intros l. apply list_fmap_ext. intros i q _. apply (proj1 (Hdata q)). }
  rewrite Ef0 in Hndc.
  destruct (NoDup_fmap_rotate (column_of h0) a t b Hndc) as [Hndq Hne].
  pose proof (Hrows1 a t b Hrow) as (Hndr & Hseg & Hlast).
  assert (Hqs : forall q, q ∈ b ++ a ->
            q ∈ concat (t_rows T) /\ column_of h1 q ∈ hs1 /\ q <> t).
  { intros q Hq.
    assert (Hqrow : q ∈ a ++ t :: b).
    { apply elem_of_app in Hq as [Hq | Hq]; apply elem_of_app; [right | left].
      - apply elem_of_cons. auto.
      - exact Hq. }
    split; [apply elem_of_concat; eauto |]. split.
    - rewrite (proj1 (Hdata q)). apply list_elem_of_filter.
      split; [rewrite <- Htc; apply Hne; exact Hq | apply Hin; exact Hqrow].
    - intros ->. apply NoDup_cons in Hndr as [N _]. auto. }
  (* solution[k] = temp *)
  exists (pad cc (chosen ++ [t])).
  assert (Evset : vset (solution s1) k t = Ok (pad cc (chosen ++ [t]))).
  { unfold vset. rewrite Hsol, length_pad by lia.
    rewrite decide_True by lia. rewrite <- Hk, pad_push by lia. reflexivity. }
  (* the columns of the other nodes of the row are covered *)
  destruct (cover_nodes_ok T fuel (b ++ a) hs1 h1 Hwf1 Hfuel)
    as (h2 & Ec2 & Hwf2 & Hsame2).
  { rewrite Ef0. exact Hndq. }
  { intros q Hq. apply (Hqs q Hq). }
  assert (Ecover : for_ring fuel right_of t
            (fun node h => coverColumn fuel (column_of h node) h)
            (right_of h1 t) h1 = Ok h2).
  { rewrite (seg_nx_first _ _ _ _ _ Hseg).
    rewrite (cover_loop_nodes T fuel t (b ++ a) hs1 h1 Hwf1 Hfuel); [exact Ec2 | | |].
    - rewrite Ef0. exact Hndq.
    - exact Hqs.
    - intros l1 q l2 El. rewrite El in Hseg. apply (seg_nx_at _ _ _ _ _ _ _ Hseg). }
  exists h2.
  (* the state one level down *)
  set (s1' := with_nodes h2 (with_solution (pad cc (chosen ++ [t])) s1)).
  assert (Hfilter : filter (fun x => x ∉ column_of h1 <$> b ++ a) hs1
                    = filter (fun x => x ∉ column_of h0 <$> a ++ t :: b) hs).
  { unfold hs1. rewrite list_filter_filter. apply list_filter_iff.
    intros y. cbn. rewrite Ef0, !fmap_app, fmap_cons, !not_elem_of_app,
      not_elem_of_cons, Htc. tauto. }
  assert (Hndhs : NoDup hs).
  { destruct Hpart as [_ Hp].
    assert (N : NoDup (t_cols T)).
    { apply NoDup_cons in Hnd as [_ Hnd]. apply NoDup_app in Hnd. tauto. }
    rewrite <- Hp in N. apply NoDup_app in N. tauto. }
  assert (Hstate : search_state T cc clues h0
                     (filter (fun x => x ∉ column_of h0 <$> a ++ t :: b) hs)
                     (chosen ++ [t]) s1').
  { split; [exact Hroot |]. split; [cbn; rewrite <- Hfilter; exact Hwf2 |].
    split.
    { intros q. cbn. destruct (proj1 Hsame2 q) as [E1 E2].
      rewrite E1, E2. apply Hdata. }
    split; [reflexivity |]. split; [exact Hclues |].
    pose proof (partition_of_row T h0 hs (chosen ++ clues) a t b Hpart Hndrows
                  Hndhs Hrow Hndc Hin) as [P1 P2].
    split.
    - intros p Hp. apply P1. rewrite <- app_assoc in Hp.
      apply elem_of_app in Hp as [Hp | Hp].
      + apply elem_of_cons. right. apply elem_of_app. auto.
      + cbn in Hp. apply elem_of_cons in Hp as [-> | Hp]; apply elem_of_cons; [auto |].
        right. apply elem_of_app. auto.
    - rewrite <- P2. apply Permutation_app_head.
      rewrite <- app_assoc. cbn. rewrite !fmap_app, !fmap_cons, !concat_app. cbn.
      rewrite !app_assoc. apply Permutation_app_tail. apply Permutation_app_comm. }
  assert (Erow : row_of T t = a ++ t :: b).
  { apply (row_of_spec T _ t Hndrows Hrow). apply elem_of_app. right.
    apply elem_of_cons. auto. }
  unfold columns_without. rewrite Erow.
  split; [exact Evset |]. split; [exact Ecover |]. split; [exact Hstate |].
  split.
  { assert (length (filter (fun x => x ∉ column_of h0 <$> a ++ t :: b) hs) < length hs);
      [| lia].
    apply (length_filter_lt _ hs col Hcol). intros Hn. apply Hn.
    rewrite <- Htc. apply list_elem_of_fmap. exists t. split; [reflexivity |].
    apply elem_of_app. right. apply elem_of_cons. auto. }
  split.
  { intros Hcomp. rewrite <- Hfilter.
    apply (cover_nodes_complete T fuel (b ++ a) hs1 h1 h2 Hwf1 Hcomp Hfuel).
    - rewrite Ef0. exact Hndq.
    - intros q Hq. apply (Hqs q Hq).
    - exact Ec2. }
  intros Found s2 Hres.
  destruct Hres as (Hl2 & Hr2 & Hs2 & Hf2 & Hnew).
  cbn [s1' allNodes with_nodes with_solution solution] in Hl2, Hs2.
  assert (Htroot : t <> t_root T).
  { intros ->. apply (proj2 (root_not_node T Hnd)). apply elem_of_concat.
    exists (a ++ t_root T :: b). split; [exact Hrow |].
    apply elem_of_app. right. apply elem_of_cons. auto. }
  (* the columns are uncovered *)
  destruct (uncover_loop_nodes T fuel t (b ++ a) hs1 h1 h2 (allNodes s2) Hwf1 Hfuel)
    as (h3 & E3 & Hl3).
  { rewrite Ef0. exact Hndq. }
  { exact Hqs. }
  { intros l1 q l2 El. rewrite El in Hseg. apply (seg_nx_at _ _ _ _ _ _ _ Hseg). }
  { exact Ec2. }
  { exact Hl2. }
  exists h3.
  split.
  { unfold vget. rewrite Hs2, <- Hk, pad_top. reflexivity. }
  split.
  { unfold vset. rewrite Hs2, length_pad by (rewrite length_app; cbn; lia).
    rewrite decide_True by lia. rewrite <- Hk, pad_pop by lia. reflexivity. }
  split.
  { destruct (Hl2 t) as (_ & _ & _ & Ec & _). rewrite Ec.
    rewrite (proj1 (proj1 Hsame2 t)). rewrite (proj1 (Hdata t)). exact Htc. }
  split; [| exact Hl3].
  destruct (Hl2 t) as (_ & _ & _ & _ & _ & _ & El). rewrite (El Htroot).
  assert (Htr : t ∈ concat (t_rows T)).
  { apply elem_of_concat. exists (a ++ t :: b). split; [exact Hrow |].
    apply elem_of_app. right. apply elem_of_cons. auto. }
  rewrite (proj2 (proj2 Hsame2 t Htr)). rewrite Hlast. exact E3.
Qed.

(** The loop of [searchDLX] over the rows [rest] of the selected
    column that are still to try. *)
Lemma search_rows_ok (d k : nat) (rec : state -> result state)
    (hs chosen : list nat) (col : nat) (h1 : heap) (ts : list nat) :
  (forall s hs' chosen',
     search_state T (cellCount sv) clues h0 hs' chosen' s ->
     length chosen' = S k -> length hs' < d ->
     outcome allow_fail
       (search_result T limit leaf
          (found_from T h0 limit leaf hs' chosen' (allNodes s)) s) (rec s)) ->
  length chosen = k -> col ∈ hs -> length hs <= d ->
  partition_of T h0 hs (chosen ++ clues) ->
  well_formed T (filter (fun x => x <> col) hs) h1 ->
  (forall q, column_of h1 q = column_of h0 q /\ rowData_of h1 q = rowData_of h0 q) ->
  ring (down_of h1) (up_of h1) col ts ->
  (forall t, t ∈ ts ->
     column_of h0 t = col
     /\ exists a b, a ++ t :: b ∈ t_rows T
          /\ forall q, q ∈ a ++ t :: b -> column_of h0 q ∈ hs) ->
  forall rest n s1,
  (exists done, ts = done ++ rest) -> length rest < n ->
  rootHeader s1 = t_root T -> same_links (t_root T) (allNodes s1) h1 ->
  solution s1 = pad (cellCount sv) chosen ->
  fixedClues s1 = pad (cellCount sv) clues ->
  outcome allow_fail
    (fun r => r.1 = col
              /\ search_result T limit leaf
                   (found_rows T h0 limit leaf hs (filter (fun x => x <> col) hs)
                      chosen h1 rest) s1 r.2)
    (search_rows rec fuel n k (first_of rest col) col s1).
Proof.
  intros Hrec Hk Hcol Hd Hpart Hwf1 Hdata1 Hring Hts.
  induction rest as [| t rest IH]; intros n s1 (done & Ets) Hn Hroot Hl1 Hsol Hclues.
  - destruct n as [| n]; [cbn in Hn; lia |]. cbn [first_of search_rows].
    rewrite Nat.eqb_refl. cbn. split; [reflexivity |]. apply search_result_refl.
    split; [constructor |]. split; [constructor |].
    intros _ t Ht. apply elem_of_nil in Ht. contradiction.
  - destruct n as [| n]; [cbn in Hn; lia |]. cbn [first_of search_rows].
    assert (Ht : t ∈ ts).
    { rewrite Ets. apply elem_of_app. right. apply elem_of_cons. auto. }
    pose proof Hring as (Hndt & Hsegt & _).
    destruct (Nat.eqb_spec t col) as [-> | _].
    { exfalso. apply NoDup_cons in Hndt as [N _]. auto. }
    destruct (Hts t Ht) as (Htc & a & b & Hrow & Hin).
    assert (Hdata : forall q, column_of (allNodes s1) q = column_of h0 q
                    /\ rowData_of (allNodes s1) q = rowData_of h0 q).
    { intros q. destruct (Hl1 q) as (_ & _ & _ & Ec & _ & Er & _).
      rewrite Ec, Er. apply Hdata1. }
    destruct (search_row_ok d k hs chosen col s1 a t b Hk Hcol Hd Hpart Hroot
                (well_formed_same_links T _ h1 _ Hwf1 Hl1) Hdata Hsol Hclues Hrow Htc Hin)
      as (sol & h2 & E1 & E2 & Hst' & Hlen' & Hcomp' & Hup).
    rewrite E1. cbn [bind]. rewrite E2. cbn [bind].
    pose proof (Hrec _ _ (chosen ++ [t]) Hst'
                  ltac:(rewrite length_app; cbn; lia) Hlen') as Hout.
    destruct (rec (with_nodes h2 (with_solution sol s1))) as [s2 | e];
      cbn [outcome bind] in Hout |- *; [| exact Hout].
    pose proof Hout as Hres.
    destruct (Hup _ s2 Hres) as (h3 & E4 & E5 & E6 & E7 & Hl3).
    rewrite E4. cbn [bind]. rewrite E5. cbn [bind]. rewrite E7. cbn [bind].
    rewrite E6.
    destruct Hres as (Hl2 & Hr2 & Hs2 & Hf2 & new1 & Hn1 & Hc1 & Hg1 & Hlim1 & Hfound1).
    cbn [allNodes with_nodes with_solution rootHeader solution fixedClues
         solutions solutionCount] in Hl2, Hr2, Hs2, Hf2, Hn1, Hc1, Hlim1, Hfound1.
    assert (Enext : down_of h3 t = first_of rest col).
    { destruct (Hl3 t) as (_ & _ & Ed & _). rewrite Ed.
      destruct (Hl1 t) as (_ & _ & Ed1 & _). rewrite Ed1.
      rewrite Ets in Hsegt. apply (seg_nx_at _ _ _ _ _ _ _ Hsegt). }
    rewrite Enext.
    assert (Hnext : outcome allow_fail
              (fun r => r.1 = col
                        /\ search_result T limit leaf
                             (found_rows T h0 limit leaf hs (filter (fun x => x <> col) hs)
                                chosen h1 rest)
                             (with_nodes h3 (with_solution (pad (cellCount sv) chosen) s2))
                             r.2)
              (search_rows rec fuel n k (first_of rest col) col
                 (with_nodes h3 (with_solution (pad (cellCount sv) chosen) s2)))).
    { apply IH.
      - exists (done ++ [t]). rewrite <- app_assoc. exact Ets.
      - cbn in Hn. lia.
      - cbn. congruence.
      - cbn. apply (same_links_trans _ _ (allNodes s1)); assumption.
      - reflexivity.
      - cbn. congruence. }
    destruct (search_rows rec fuel n k (first_of rest col) col _) as [[c' s'] | e];
      cbn [outcome fst snd] in Hnext |- *; [| exact Hnext].
    destruct Hnext as [Ec' Hres'].
    + split; [exact Ec' |].
      destruct Hres' as (Hl' & Hr' & Hs' & Hf' & new2 & Hn2 & Hc2 & Hg2 & Hlim2 & Hfound2).
      cbn [allNodes with_nodes with_solution rootHeader solution fixedClues
           solutions solutionCount] in Hl', Hr', Hs', Hf', Hn2, Hc2, Hlim2, Hfound2.
      split; [apply (same_links_trans _ _ h3); assumption |].
      split; [congruence |]. split; [congruence |]. split; [congruence |].
      exists (new1 ++ new2). split; [rewrite Hn2, Hn1, app_assoc; reflexivity |].
      split; [rewrite Hc2, Hc1, length_app; lia |].
      split; [apply Forall_app; split; assumption |].
      split; [auto |].
      destruct Hfound1 as (Hall1 & Hnd1 & Hfound1).
      destruct Hfound2 as (Hall2 & Hnd2 & Hfound2).
      assert (Hall1' : Forall (fun g => exists t0 ext, t0 ∈ t :: rest
                                         /\ leaf (chosen ++ t0 :: ext) g) new1).
      { apply (Forall_impl _ _ _ Hall1). intros g (ext & Hlf).
        exists t, ext. split; [apply elem_of_cons; auto |].
        rewrite <- app_assoc in Hlf. exact Hlf. }
      split; [| split].
      * apply Forall_app. split; [exact Hall1' |].
        apply (Forall_impl _ _ _ Hall2). intros g (t0 & ext & Ht0 & Hlf).
        exists t0, ext. split; [apply elem_of_cons; auto | exact Hlf].
      * apply NoDup_app. split; [exact Hnd1 |]. split; [| exact Hnd2].
        intros g Hg1' Hg2'. rewrite Forall_forall in Hall1.
        destruct (Hall1 g Hg1') as (ext & Hlf).
        rewrite Forall_forall in Hall2.
        destruct (Hall2 g Hg2') as (t0 & ext0 & Ht0 & Hlf0).
        assert (t = t0).
        { apply (Hdistinct g _ _ t t0 Hlf Hlf0).
          - apply elem_of_app. left. apply elem_of_app. right. apply elem_of_cons. auto.
          - apply elem_of_app. right. apply elem_of_cons. auto.
          - rewrite Htc. symmetry. apply (Hts t0).
            rewrite Ets. apply elem_of_app. right. apply elem_of_cons. auto. }
        subst t0. rewrite Ets in Hndt. apply NoDup_cons in Hndt as [_ Hndt].
        apply NoDup_app in Hndt as (_ & _ & Hndt). apply NoDup_cons in Hndt as [N _].
        contradiction.
      * intros Hcomp1 t' Ht'. apply elem_of_cons in Ht' as [-> | Ht'].
        -- apply (found_mono T h0 limit leaf _ _ new1 (new1 ++ new2) (solutionCount s2)).
           ++ apply Hfound1. apply Hcomp'.
              apply (complete_same_links T _ h1 (allNodes s1)); [| exact Hcomp1].
              apply same_links_sym. exact Hl1.
           ++ rewrite Hc2. lia.
           ++ intros g Hg. apply elem_of_app. auto.
        -- apply (found_mono T h0 limit leaf _ _ new2 (new1 ++ new2) (solutionCount s')).
           ++ apply (Hfound2 Hcomp1 t' Ht').
           ++ lia.
           ++ intros g Hg. apply elem_of_app. auto.
Qed.

(** [searchDLX] returns when the bound on the depth exceeds the number
    of linked columns; it restores the nodes, but for the left link of
    the root, and the vectors, and each grid that it adds is [Good]. *)
Lemma searchDLX_ok (d : nat) :
  forall k s hs chosen,
  search_state T (cellCount sv) clues h0 hs chosen s ->
  length chosen = k -> length hs < d ->
  outcome allow_fail
    (search_result T limit leaf (found_from T h0 limit leaf hs chosen (allNodes s)) s)
    (searchDLX d sv fuel k limit s).
Proof.
  induction d as [| d IH]; intros k s hs chosen Hst Hk Hd; [lia |].
  pose proof Hst as (Hroot & Hwf & Hdata & Hsol & Hclues & Hpart).
  cbn [searchDLX].
  destruct (Z.leb_spec limit (solutionCount s)) as [Hle | Hlt].
  { cbn. apply search_result_refl. split; [constructor |]. split; [constructor |].
    intros _ Hlt. lia. }
  rewrite Hroot.
  destruct (Nat.eqb_spec (right_of (allNodes s) (t_root T)) (t_root T)) as [Eroot | Nroot].
  - (* all columns are covered *)
    apply (header_ring_empty T hs _ Hwf) in Eroot. subst hs.
    pose proof (Hleaf s chosen Hst) as Hg.
    destruct (mapSolutionToGrid s _) as [g | e]; cbn [outcome bind] in Hg |- *;
      [| exact Hg].
    split; [apply same_links_refl |]. cbn.
    split; [symmetry; exact Hroot |]. split; [reflexivity |]. split; [reflexivity |].
    exists [g]. split; [reflexivity |]. split; [cbn; lia |].
    split; [constructor; [exists chosen; exact Hg | constructor] |].
    split; [lia |].
    split; [constructor; [exists []; rewrite app_nil_r; exact Hg | constructor] |].
    split; [apply NoDup_singleton |].
    intros _ _ sol [Hsol1 Hsol2]. exists [], g.
    assert (sol = []) as ->.
    { destruct sol as [| p sol]; [reflexivity | exfalso].
      rewrite fmap_cons in Hsol2. cbn [concat] in Hsol2.
      destruct (well_formed_NoDup T [] _ Hwf) as (_ & Hndrows & _).
      destruct (row_of_node T p Hndrows (Hsol1 p ltac:(apply elem_of_cons; auto)))
        as [_ Hp].
      unfold row_cols in Hsol2. destruct (row_of T p) as [| x l];
        [apply elem_of_nil in Hp; contradiction |].
      cbn in Hsol2. apply Permutation_nil_r in Hsol2. discriminate. }
    split; [reflexivity |]. split; [apply elem_of_cons; auto |].
    rewrite app_nil_r. exact Hg.
  - assert (Hne : hs <> []).
    { intros E. apply Nroot. apply (header_ring_empty T hs _ Hwf). exact E. }
    pose proof Hwf as [vr HR]. pose proof HR as (Hnd & _ & _ & (Hndh & Hsub & Hs) & _).
    assert (Hlenhs : length hs <= fuel).
    { pose proof (header_ring_length T hs _ fuel (conj Hndh (conj Hsub Hs)) Hfuel). lia. }
    destruct (select_column_spec (allNodes s) (t_root T) hs fuel) as
      (col & l1 & l2 & Esel & Ehs & _); [| exact Hs | exact Hne | exact Hlenhs |].
    { apply NoDup_cons. split; [| exact Hndh].
      intros Hr. apply (proj1 (root_not_node T Hnd)). apply Hsub. exact Hr. }
    rewrite Esel. cbn [bind].
    assert (Hcol : col ∈ hs).
    { rewrite Ehs. apply elem_of_app. right. apply elem_of_cons. auto. }
    destruct (cover_column_rows T hs (allNodes s) col fuel Hwf Hcol Hfuel)
      as (h1 & ts & E1 & Hwf1 & Hsame1 & Hundo & Hring & Hmet & Hts).
    rewrite E1. cbn [bind].
    assert (Hdata1 : forall q, column_of h1 q = column_of h0 q
                     /\ rowData_of h1 q = rowData_of h0 q).
    { intros q. destruct (proj1 Hsame1 q) as [Ec Er]. rewrite Ec, Er. apply Hdata. }
    assert (Hts0 : forall t, t ∈ ts ->
              column_of h0 t = col
              /\ exists a b, a ++ t :: b ∈ t_rows T
                   /\ forall q, q ∈ a ++ t :: b -> column_of h0 q ∈ hs).
    { intros t Ht. destruct (Hts t Ht) as (Htc & a & b & Hrow & Hin).
      split; [rewrite <- (proj1 (Hdata t)); exact Htc |].
      exists a, b. split; [exact Hrow |]. intros q Hq.
      rewrite <- (proj1 (Hdata q)). apply Hin. exact Hq. }
    assert (Hlents : length ts < fuel).
    { apply (ring_fuel_enough T fuel _ _ col ts Hfuel Hring).
      intros p Hp. destruct (Hts p Hp) as (_ & a & b & Hrow & _).
      apply elem_of_concat. exists (a ++ p :: b). split; [exact Hrow |].
      apply elem_of_app. right. apply elem_of_cons. auto. }
    assert (Hrows : outcome allow_fail
              (fun r => r.1 = col
                        /\ search_result T limit leaf
                             (found_rows T h0 limit leaf hs (filter (fun x => x <> col) hs)
                                chosen h1 ts) (with_nodes h1 s) r.2)
              (search_rows (searchDLX d sv fuel (k + 1) limit) fuel fuel k
                 (first_of ts col) col (with_nodes h1 s))).
    { apply (search_rows_ok d k (searchDLX d sv fuel (k + 1) limit) hs chosen col h1 ts).
      - intros s' hs' chosen' Hst' Hk' Hd'. apply (IH (k + 1) s' hs' chosen' Hst'); lia.
      - exact Hk.
      - exact Hcol.
      - lia.
      - exact Hpart.
      - exact Hwf1.
      - exact Hdata1.
      - exact Hring.
      - exact Hts0.
      - exists []. reflexivity.
      - exact Hlents.
      - exact Hroot.
      - apply same_links_refl.
      - exact Hsol.
      - exact Hclues. }
    destruct Hring as (_ & Hsegt & _). rewrite (seg_nx_first _ _ _ _ _ Hsegt).
    destruct (search_rows _ fuel fuel k (first_of ts col) col (with_nodes h1 s))
      as [[c' s2] | e]; cbn [outcome bind fst snd] in Hrows |- *; [| exact Hrows].
    destruct Hrows as [-> Hres].
    destruct Hres as (Hl2 & Hr2 & Hs2 & Hf2 & new & Hn & Hc & Hg & Hlim & Hfound).
    cbn [allNodes with_nodes rootHeader solution fixedClues solutions solutionCount]
      in Hl2, Hr2, Hs2, Hf2, Hn, Hc, Hlim, Hfound.
    destruct (Hundo (allNodes s2) Hl2) as (h' & E' & Hl').
    rewrite E'. cbn [bind outcome].
    split; [exact Hl' |]. cbn. split; [exact Hr2 |]. split; [exact Hs2 |].
    split; [exact Hf2 |]. exists new.
    split; [exact Hn |]. split; [exact Hc |]. split; [exact Hg |].
    split; [exact Hlim |].
    destruct Hfound as (Hall & Hndnew & Hfound).
    split.
    { apply (Forall_impl _ _ _ Hall). intros g (t0 & ext & _ & Hlf). eauto. }
    split; [exact Hndnew |].
    (* every exact cover has a row in the selected column *)
    intros Hcomp Hlt' sol [Hsol1 Hsol2].
    pose proof (cover_step_complete T hs (allNodes s) h1 col fuel Hwf Hcomp Hcol Hfuel E1)
      as Hcomp1.
    destruct (well_formed_NoDup T hs _ Hwf) as (_ & Hndrows & _).
    assert (Hcin : col ∈ concat (row_cols T h0 <$> sol)) by (rewrite Hsol2; exact Hcol).
    apply elem_of_concat in Hcin as (l & Hl & Hcl).
    apply list_elem_of_fmap in Hl as (p & -> & Hp).
    destruct (list_elem_of_split _ _ Hp) as (sol1 & sol2 & ->).
    destruct (row_of_node T p Hndrows (Hsol1 p Hp)) as [Hrow Hprow].
    unfold row_cols in Hcl. apply list_elem_of_fmap in Hcl as (t & Etc & Htrow).
    assert (Hrowhs : forall q, q ∈ row_of T p -> column_of h0 q ∈ hs).
    { intros q Hq. rewrite <- Hsol2. apply elem_of_concat.
      exists (row_cols T h0 p). split; [apply list_elem_of_fmap; eauto |].
      unfold row_cols. apply list_elem_of_fmap. eauto. }
    assert (Ert : row_of T t = row_of T p).
    { apply (row_of_spec T _ t Hndrows Hrow Htrow). }
    assert (Htts : t ∈ ts).
    { apply Hmet. rewrite Etc, <- (proj1 (Hdata t)).
      apply (Hcomp (row_of T p) t Hrow); [| exact Htrow].
      intros q Hq. rewrite (proj1 (Hdata q)). apply Hrowhs. exact Hq. }
    assert (Hndhs : NoDup hs) by apply (well_formed_NoDup T hs _ Hwf).
    assert (Hndp : NoDup (column_of h0 <$> row_of T p)).
    { pose proof HR as (_ & _ & Hrc & _). destruct (Hrc _ Hrow) as [N _].
      erewrite list_fmap_ext; [exact N |]. intros i q _. symmetry.
      apply (proj1 (Hdata q)). }
    assert (Hrowhs' : forall x, x ∈ column_of h0 <$> row_of T p -> x ∈ hs).
    { intros x Hx. apply list_elem_of_fmap in Hx as (q & -> & Hq). apply Hrowhs. exact Hq. }
    destruct (Hfound Hcomp1 t Htts ltac:(lia) (sol1 ++ sol2)) as (ext & g & He & Hgin & Hlf).
    { split.
      - intros q Hq. apply Hsol1. apply elem_of_app in Hq as [Hq | Hq];
          apply elem_of_app; [auto | right; apply elem_of_cons; auto].
      - unfold columns_without. rewrite Ert.
        apply (Permutation_app_inv_r (column_of h0 <$> row_of T p)).
        rewrite <- (perm_filter_split _ hs Hndp Hndhs Hrowhs').
        rewrite <- Hsol2. rewrite !fmap_app, fmap_cons, !concat_app. cbn [concat].
        unfold row_cols at 3. rewrite <- !app_assoc. apply Permutation_app_head.
        apply Permutation_app_comm. }
    exists (t :: ext), g. split; [| split; [exact Hgin |]].
    + rewrite fmap_cons, Ert, He, !fmap_app, fmap_cons.
      apply Permutation_middle.
    + rewrite <- app_assoc in Hlf. exact Hlf.
Qed.
End Search.
(** ** The state that [applyInitialConstraints] leaves to the search *)

Lemma pad_nil (cc : nat) : pad cc [] = replicate cc 0.
Proof. unfold pad. cbn. rewrite Nat.sub_0_r. reflexivity. Qed.

(** One clue: the node that [findNodeForClue] returns, if any, is
    recorded and the columns of its row are covered. *)
Lemma clue_step_state (T : torus) (cc fuel : nat) (puzzle : grid) (i j : nat)
    (clues : list nat) (h0 : heap) (hs : list nat) (s : state) :
  search_state T cc clues h0 hs [] s -> data_ok T h0 -> enough_fuel T fuel ->
  length clues < cc -> i < length puzzle -> j < length (nth i puzzle []) ->
  exists p hs' s',
    (if (0 <? cell puzzle i j)%Z
     then findNodeForClue fuel s (cell puzzle i j) i j = Ok p else p = 0)
    /\ clue_step fuel puzzle i j (length clues, s)
       = Ok (length (if p =? 0 then clues else clues ++ [p]), s')
    /\ search_state T cc (if p =? 0 then clues else clues ++ [p]) h0 hs' [] s'
    /\ solutionCount s' = solutionCount s /\ solutions s' = solutions s
    /\ (p <> 0 ->
        p ∈ concat (t_rows T)
        /\ node_row h0 p = Z.of_nat i /\ node_col h0 p = Z.of_nat j
        /\ node_digit h0 p = cell puzzle i j /\ (0 < cell puzzle i j)%Z)
    /\ (complete T hs (allNodes s) -> complete T hs' (allNodes s')).
Proof.
  intros Hst Hdata0 Hfuel Hidx Hi Hj. unfold clue_step, cell.
  rewrite (vget_nth puzzle i []) by exact Hi. cbn [bind].
  rewrite (vget_nth _ j 0%Z) by exact Hj. cbn [bind].
  set (v := nth j (nth i puzzle []) 0%Z).
  destruct (Z.ltb_spec 0 v) as [Hv | Hv].
  2:{ exists 0, hs, s. split; [reflexivity |]. split; [reflexivity |].
      split; [exact Hst |]. split; [reflexivity |]. split; [reflexivity |].
      split; [intros N; contradiction | auto]. }
  pose proof Hst as (Hroot & Hwf & Hdata & Hsol & Hclues & Hpart).
  assert (Hd : data_ok T (allNodes s)).
  { intros q Hq. rewrite (proj2 (Hdata q)). apply Hdata0. exact Hq. }
  destruct (findNodeForClue_total T hs s fuel v i j Hroot Hwf Hd Hfuel)
    as (temp & E & Htemp).
  rewrite E. cbn [bind]. exists temp.
  destruct (Nat.eqb_spec temp 0) as [-> | Hne].
  { exists hs, s. split; [reflexivity |]. split; [reflexivity |].
    split; [exact Hst |]. split; [reflexivity |]. split; [reflexivity |].
    split; [intros N; contradiction | auto]. }
  destruct Htemp as [| (a & b & Hrow & Hcols)]; [contradiction |].
  destruct (cover_row T hs (allNodes s) fuel a temp b Hwf Hfuel Hrow Hcols)
    as (h1 & h2 & E1 & E2 & Hwf2 & Hsame).
  rewrite E1. cbn [bind]. unfold vset. rewrite Hclues.
  rewrite length_pad by lia. rewrite decide_True by lia. cbn [bind].
  rewrite E2. cbn [bind]. rewrite pad_push by exact Hidx.
  assert (Ef0 : forall l : list nat, column_of (allNodes s) <$> l = column_of h0 <$> l).
  { intros l. apply list_fmap_ext. intros n q _. apply (proj1 (Hdata q)). }
  rewrite Ef0 in Hwf2.
  destruct (well_formed_NoDup T hs (allNodes s) Hwf) as (Hndhs & Hndrows & Hsub).
  pose proof Hwf as [vr HR]. pose proof HR as (Hnd & _ & Hrc & _).
  destruct (Hrc _ Hrow) as [Hndc _]. rewrite Ef0 in Hndc.
  exists (filter (fun x => x ∉ column_of h0 <$> a ++ temp :: b) hs).
  eexists. split; [reflexivity |].
  split; [rewrite length_app; cbn [length]; rewrite ?Nat.add_1_r; reflexivity |].
  split.
  { split; [exact Hroot |]. split; [exact Hwf2 |]. split.
    { intros q. cbn. destruct (proj1 Hsame q) as [Ea Eb]. rewrite Ea, Eb. apply Hdata. }
    split; [exact Hsol |]. split; [reflexivity |].
    assert (Hin : forall q, q ∈ a ++ temp :: b -> column_of h0 q ∈ hs).
    { intros q Hq. rewrite <- (proj1 (Hdata q)). apply Hcols. exact Hq. }
    pose proof (partition_of_row T h0 hs ([] ++ clues) a temp b Hpart Hndrows
                  Hndhs Hrow Hndc Hin) as [P1 P2].
    cbn [app] in P1, P2 |- *. split.
    - intros p Hp. apply P1. apply elem_of_app in Hp as [Hp | Hp].
      + apply elem_of_cons. auto.
      + apply elem_of_cons. left. apply elem_of_cons in Hp as [-> | Hp]; [reflexivity |].
        apply not_elem_of_nil in Hp. contradiction.
    - rewrite <- P2. apply Permutation_app_head.
      rewrite fmap_app, concat_app. cbn. rewrite app_nil_r.
      rewrite Permutation_app_comm. reflexivity. }
  split; [reflexivity |]. split; [reflexivity |]. split.
  2:{ intros Hcomp. cbn [allNodes with_nodes]. rewrite <- Ef0.
      apply (cover_row_complete T hs (allNodes s) h1 h2 fuel a temp b Hwf Hcomp Hfuel
               Hrow Hcols E1 E2). }
  intros _.
  destruct (findNodeForClue_matches fuel s v i j temp E Hne) as (M0 & M1 & M2).
  unfold rowData_at in M0, M1, M2.
  assert (Htr : temp ∈ concat (t_rows T)).
  { apply elem_of_concat. exists (a ++ temp :: b). split; [exact Hrow |].
    apply elem_of_app. right. apply elem_of_cons. auto. }
  pose proof (Hd temp Htr) as Hlen.
  rewrite (vget_nth _ 0 0%Z) in M0 by lia. rewrite (vget_nth _ 1 0%Z) in M1 by lia.
  rewrite (vget_nth _ 2 0%Z) in M2 by lia.
  injection M0 as M0. injection M1 as M1. injection M2 as M2.
  rewrite (proj2 (Hdata temp)) in M0, M1, M2.
  split; [exact Htr |]. unfold node_row, node_col, node_digit, cell. fold v.
  rewrite M0, M1, M2. repeat split; lia.
Qed.

(** All the clues of a square puzzle: the search starts from a state
    that holds the nodes of the clues found, with the columns of their
    rows covered. *)
Lemma applyInitialConstraints_state (T : torus) (sv : SudokuDLXSolver) (fuel : nat)
    (puzzle : grid) (h0 : heap) (s0 : state) :
  search_state T (cellCount sv) [] h0 (t_cols T) [] s0 -> data_ok T h0 ->
  enough_fuel T fuel -> cellCount sv = gridSize sv * gridSize sv ->
  is_square sv puzzle = true ->
  exists s clues hs,
    applyInitialConstraints sv fuel puzzle s0 = Ok s
    /\ search_state T (cellCount sv) clues h0 hs [] s
    /\ length clues <= cellCount sv
    /\ solutionCount s = solutionCount s0 /\ solutions s = solutions s0
    /\ Forall (clue_of puzzle h0) clues.
Proof.
  intros H0 Hdata Hfuel Hcc Hsq. unfold is_square in Hsq.
  apply andb_true_iff in Hsq as [Hlen Hrows].
  apply Nat.eqb_eq in Hlen. rewrite forallb_forall in Hrows.
  set (N := gridSize sv) in *.
  assert (Hrow : forall i, i < N -> length (nth i puzzle []) = N).
  { intros i Hi. apply Nat.eqb_eq. apply Hrows. apply nth_In. lia. }
  unfold applyInitialConstraints. fold N.
  set (Inv := fun (n : nat) (st : nat * state) =>
         exists clues hs,
           st.1 = length clues /\ length clues <= n
           /\ search_state T (cellCount sv) clues h0 hs [] st.2
           /\ solutionCount st.2 = solutionCount s0 /\ solutions st.2 = solutions s0
           /\ Forall (clue_of puzzle h0) clues).
  destruct (for_range_inv (fun i st => Inv (i * N) st)
    (fun i st => for_range N 0 (clue_step fuel puzzle i) st) N 0 (0, s0))
    as (st & E & Hst).
  - exists [], (t_cols T). cbn. split; [reflexivity |]. split; [lia |]. auto.
  - intros i st Hi Hst.
    destruct (for_range_inv (fun j st => Inv (i * N + j) st)
      (clue_step fuel puzzle i) N 0 st) as (st' & E' & Hst').
    + rewrite Nat.add_0_r. exact Hst.
    + intros j [index s] Hj (clues & hs & Ei & Hle & Hs & Hc & Hsols & Hall).
      cbn [fst snd] in *. subst index.
      destruct (clue_step_state T (cellCount sv) fuel puzzle i j clues h0 hs s
                  Hs Hdata Hfuel) as (p & hs' & s' & _ & E' & Hs' & Hc' & Hsols' & Hp & _).
      * rewrite Hcc. fold N. nia.
      * lia.
      * rewrite Hrow by lia. lia.
      * eexists. split; [exact E' |].
        exists (if p =? 0 then clues else clues ++ [p]), hs'. cbn [fst snd].
        split; [reflexivity |].
        split; [destruct (p =? 0); [| rewrite length_app; cbn]; lia |].
        split; [exact Hs' |]. split; [congruence |]. split; [congruence |].
        destruct (Nat.eqb_spec p 0) as [| Hne]; [exact Hall |].
        apply Forall_app. split; [exact Hall |].
        constructor; [| constructor]. exists i, j. apply (Hp Hne).
    + exists st'. split; [exact E' |].
      replace (S i * N) with (i * N + (0 + N)) by lia. exact Hst'.
  - rewrite E. cbn [bind]. destruct Hst as (clues & hs & _ & Hle & Hs & Hc & Hsols & Hall).
    cbn [Nat.add] in Hle. exists st.2, clues, hs. split; [reflexivity |].
    split; [exact Hs |]. split; [rewrite Hcc; fold N; lia |]. auto.
Qed.
(** ** Lists that share out a range *)

Lemma NoDup_concat_shared {A : Type} (f : A -> list nat) (l : list A) (x y : A)
    (z : nat) :
  NoDup (concat (f <$> l)) -> x ∈ l -> y ∈ l -> z ∈ f x -> z ∈ f y -> x = y.
Proof.
  induction l as [| a l IH]; intros Hnd Hx Hy Hzx Hzy.
  - apply elem_of_nil in Hx. contradiction.
  - rewrite fmap_cons in Hnd. cbn [concat] in Hnd.
    apply NoDup_app in Hnd as (Na & Hdis & Nl).
    assert (Hin : forall w, w ∈ l -> z ∈ f w -> z ∈ concat (f <$> l)).
    { intros w Hw Hz. apply elem_of_concat. exists (f w). split; [| exact Hz].
      apply list_elem_of_fmap. eauto. }
    apply elem_of_cons in Hx as [-> | Hx]; apply elem_of_cons in Hy as [-> | Hy].
    + reflexivity.
    + exfalso. apply (Hdis z Hzx). apply (Hin y Hy Hzy).
    + exfalso. apply (Hdis z Hzy). apply (Hin x Hx Hzx).
    + apply IH; assumption.
Qed.

Lemma last_filter_unique (P : nat -> Prop) `{!forall x, Decision (P x)}
    (l : list nat) (p : nat) :
  (forall q, q ∈ l -> P q -> q = p) -> p ∈ l -> P p -> last (filter P l) = Some p.
Proof.
  intros Hu Hp HP. destruct (last (filter P l)) as [x |] eqn:E.
  - apply last_Some_elem_of in E. apply list_elem_of_filter in E as [Hx Hin].
    f_equal. apply Hu; assumption.
  - apply last_None in E. exfalso.
    apply (filter_nil_not_elem_of P l p E HP Hp).
Qed.

Lemma last_filter_none (P : nat -> Prop) `{!forall x, Decision (P x)} (l : list nat) :
  (forall q, q ∈ l -> ~ P q) -> last (filter P l) = None.
Proof.
  intros Hn. destruct (last (filter P l)) as [x |] eqn:E; [| reflexivity].
  apply last_Some_elem_of in E. apply list_elem_of_filter in E as [Hx Hin].
  exfalso. apply (Hn x Hin Hx).
Qed.

(** A list of [N] distinct digits of 1..N holds each of them. *)
Lemma perm_digits (l : list Z) (N : nat) :
  NoDup l -> length l = N ->
  (forall x, x ∈ l -> exists d, d < N /\ x = Z.of_nat (d + 1)) ->
  l ≡ₚ Z.of_nat <$> seq 1 N.
Proof.
  intros Hnd Hlen Hin. apply submseteq_length_Permutation.
  - apply NoDup_submseteq; [exact Hnd |]. intros x Hx.
    destruct (Hin x Hx) as (d & Hd & ->). apply list_elem_of_fmap.
    exists (d + 1). split; [reflexivity |]. apply elem_of_seq. lia.
  - rewrite length_fmap, length_seq. lia.
Qed.

Lemma each_digit_once_perm (sv : SudokuDLXSolver) (cells : list Z) :
  cells ≡ₚ Z.of_nat <$> seq 1 (gridSize sv) -> each_digit_once sv cells = true.
Proof.
  intros Hp. unfold each_digit_once. apply forallb_forall. intros d Hd.
  apply Nat.eqb_eq.
  rewrite (proj1 (Permutation_count_occ Z.eq_dec _ _) Hp).
  apply NoDup_count_occ'.
  - apply (proj1 (NoDup_ListNoDup _)). apply NoDup_fmap_2; [| apply NoDup_seq].
    intros x y. apply Nat2Z.inj.
  - apply in_map. exact Hd.
Qed.

Lemma flat_map_grid {A : Type} (F : nat -> nat -> A) (n m : nat) :
  0 < m ->
  flat_map (fun l => map (fun k => F l k) (seq 0 m)) (seq 0 n)
  = map (fun t => F (t / m) (t mod m)) (seq 0 (n * m)).
Proof.
  intros Hm. induction n as [| n IH]; [reflexivity |].
  rewrite seq_S, flat_map_app, IH. cbn [flat_map Nat.add]. rewrite app_nil_r.
  replace (S n * m) with (n * m + m) by lia. rewrite seq_app, map_app.
  f_equal. cbn [Nat.add].
  rewrite <- (Nat.add_0_r (n * m)) at 1. rewrite <- fmap_add_seq.
  change (map (fun t => F (t / m) (t mod m)) (Nat.add (n * m) <$> seq 0 m))
    with ((fun t => F (t / m) (t mod m)) <$> (Nat.add (n * m) <$> seq 0 m)).
  rewrite <- list_fmap_compose. apply list_fmap_ext. intros i t Ht.
  apply lookup_seq in Ht as [-> Hi]. cbn.
  destruct (divmod_intro m n i Hi) as [-> ->]. reflexivity.
Qed.
Lemma filter_seq_below (a n m : nat) :
  filter (fun j => j < a + n) (seq a (n + m)) = seq a n.
Proof.
  revert a. induction n as [| n IH]; intros a.
  - cbn [Nat.add seq]. rewrite Nat.add_0_r.
    destruct (filter (fun j => j < a) (seq a m)) as [| x l] eqn:E; [reflexivity |].
    assert (Hx : x ∈ filter (fun j => j < a) (seq a m)) by (rewrite E; apply elem_of_cons; auto).
    apply list_elem_of_filter in Hx as [H1 H2]. apply elem_of_seq in H2. lia.
  - cbn [Nat.add seq]. rewrite filter_cons. rewrite decide_True by lia.
    f_equal. rewrite <- (IH (S a)). apply list_filter_iff. intros y. lia.
Qed.

(** ** The torus of a Sudoku and the grid *)

Section Sudoku.
Variable sv : SudokuDLXSolver.
Variables N bs : nat.
Hypothesis HN : gridSize sv = N.
Hypothesis Hbs : blockSize sv = bs.
Hypothesis Hcc : cellCount sv = N * N.
Hypothesis HR : exactCoverRows sv = N * (N * N).
Hypothesis HC : exactCoverCols sv = 4 * (N * N).
Hypothesis Hsq : N = bs * bs.
Hypothesis Hbspos : 0 < bs.
Variable h0 : heap.
Hypothesis Hnd0 : NoDup (concat (t_rows (sudoku_torus sv))).
Hypothesis Hlab : forall i, i < exactCoverRows sv ->
  (forall p, p ∈ row_nodes sv i -> rowData_of h0 p = id_vector (row_id sv i))
  /\ column_of h0 <$> row_nodes sv i = (fun j => j + 2) <$> row_columns sv i.

Lemma sudoku_N_pos : 0 < N.
Proof. rewrite Hsq. nia. Qed.

(** What the nodes of matrix row [i] stand for. *)
Lemma sudoku_row_node (i p : nat) :
  i < N * (N * N) -> p ∈ row_nodes sv i ->
  row_r sv i < N /\ row_c sv i < N /\ row_d sv i < N
  /\ p <> 0 /\ p ∈ concat (t_rows (sudoku_torus sv))
  /\ row_of (sudoku_torus sv) p = row_nodes sv i
  /\ rowData_of h0 p
     = [Z.of_nat (row_d sv i + 1); Z.of_nat (row_r sv i + 1); Z.of_nat (row_c sv i + 1)]
  /\ node_row h0 p = Z.of_nat (row_r sv i) /\ node_col h0 p = Z.of_nat (row_c sv i)
  /\ node_digit h0 p = Z.of_nat (row_d sv i + 1)
  /\ row_cols (sudoku_torus sv) h0 p
     = (fun j => j + 2) <$> row_columns sv i.
Proof.
  intros Hi Hp. pose proof sudoku_N_pos as HNpos.
  assert (Hi' : i < exactCoverRows sv) by (rewrite HR; exact Hi).
  destruct (Hlab i Hi') as [Hid Hcols].
  rewrite (row_id_closed sv N HN Hcc HNpos) in Hid.
  destruct (row_parts_index sv N HN Hcc HNpos i) as (Ei & Hc & Hd).
  pose proof (row_r_bound sv N HN Hcc HNpos i Hi) as Hr.
  split; [exact Hr |]. split; [exact Hc |]. split; [exact Hd |].
  split.
  { unfold row_nodes in Hp. apply elem_of_seq in Hp. lia. }
  split.
  { apply sudoku_torus_nodes. eauto. }
  assert (Erow : row_of (sudoku_torus sv) p = row_nodes sv i).
  { apply (row_of_spec (sudoku_torus sv) (row_nodes sv i) p Hnd0); [| exact Hp].
    cbn [sudoku_torus t_rows]. apply list_elem_of_fmap. exists i.
    split; [reflexivity |]. apply elem_of_seq. lia. }
  split; [exact Erow |].
  assert (Ec : i / N mod N = row_c sv i).
  { unfold row_c. rewrite HN, Hcc.
    rewrite (Nat.Div0.mod_mul_r i N N).
    rewrite (Nat.mul_comm N (i / N mod N)), Nat.div_add by lia.
    rewrite (Nat.div_small (i mod N) N) by (apply Nat.mod_upper_bound; lia). lia. }
  assert (Edata : rowData_of h0 p
     = [Z.of_nat (row_d sv i + 1); Z.of_nat (row_r sv i + 1); Z.of_nat (row_c sv i + 1)]).
  { rewrite (Hid p Hp). unfold id_vector, code_row_metadata, row_r, row_d. cbn [fst snd].
    rewrite HN, Hcc, Ec. reflexivity. }
  split; [exact Edata |].
  unfold node_row, node_col, node_digit. rewrite Edata. cbn [nth].
  split; [lia |]. split; [lia |]. split; [reflexivity |].
  unfold row_cols. rewrite Erow. exact Hcols.
Qed.

(** What a row node of the torus stands for. *)
Lemma sudoku_node (p : nat) :
  p ∈ concat (t_rows (sudoku_torus sv)) ->
  exists r c d,
    r < N /\ c < N /\ d < N
    /\ p <> 0 /\ length (rowData_of h0 p) = 3
    /\ node_row h0 p = Z.of_nat r /\ node_col h0 p = Z.of_nat c
    /\ node_digit h0 p = Z.of_nat (d + 1)
    /\ row_cols (sudoku_torus sv) h0 p
       = (fun j => j + 2) <$> [cell_column sv r c; row_column sv r d;
                               col_column sv c d; block_column sv r c d].
Proof.
  intros Hp. apply sudoku_torus_nodes in Hp as (i & Hi & Hp). rewrite HR in Hi.
  destruct (sudoku_row_node i p Hi Hp)
    as (Hr & Hc & Hd & Hp0 & _ & _ & Edata & Er & Ec & Ed & Ecols).
  exists (row_r sv i), (row_c sv i), (row_d sv i).
  rewrite Edata. auto 12.
Qed.

Lemma cell_column_inj (r c r' c' : nat) :
  c < N -> c' < N -> cell_column sv r c = cell_column sv r' c' -> r = r' /\ c = c'.
Proof.
  unfold cell_column. rewrite HN. intros Hc Hc' E.
  destruct (divmod_intro N r c Hc) as [E1 E2].
  destruct (divmod_intro N r' c' Hc') as [E3 E4].
  rewrite E in E1, E2. split; congruence.
Qed.

(** Of the four columns of a row, the cell column alone is among the
    first [N * N] columns. *)
Lemma filter_cell_column (r c d : nat) :
  r < N -> c < N -> d < N ->
  filter (fun j => j < 2 + N * N)
    ((fun j => j + 2) <$> [cell_column sv r c; row_column sv r d;
                           col_column sv c d; block_column sv r c d])
  = [cell_column sv r c + 2].
Proof.
  intros Hr Hc Hd.
  destruct (columns_in_blocks sv N bs HN Hbs Hcc HR HC Hsq Hbspos r c d Hr Hc Hd)
    as (B1 & B2 & B3 & B4).
  cbn [fmap list_fmap]. rewrite !filter_cons, filter_nil.
  rewrite (decide_True (P := cell_column sv r c + 2 < 2 + N * N)) by lia.
  rewrite (decide_False (P := row_column sv r d + 2 < 2 + N * N)) by lia.
  rewrite (decide_False (P := col_column sv c d + 2 < 2 + N * N)) by lia.
  rewrite (decide_False (P := block_column sv r c d + 2 < 2 + N * N)) by lia.
  reflexivity.
Qed.

Lemma length_filter_cells (nodes : list nat) :
  (forall p, p ∈ nodes -> p ∈ concat (t_rows (sudoku_torus sv))) ->
  length (filter (fun j => j < 2 + N * N)
            (concat (row_cols (sudoku_torus sv) h0 <$> nodes)))
  = length nodes.
Proof.
  induction nodes as [| p nodes IH]; intros Hn; [reflexivity |].
  rewrite fmap_cons. cbn [concat length]. rewrite filter_app, length_app, IH.
  - destruct (sudoku_node p) as (r & c & d & Hr & Hc & Hd & _ & _ & _ & _ & _ & E).
    { apply Hn. apply elem_of_cons. auto. }
    rewrite E, (filter_cell_column r c d Hr Hc Hd). reflexivity.
  - intros q Hq. apply Hn. apply elem_of_cons. auto.
Qed.

(** The linked cell columns and the chosen rows are [N * N] in all. *)
Lemma count_cells (hs nodes : list nat) :
  partition_of (sudoku_torus sv) h0 hs nodes ->
  length (filter (fun j => j < 2 + N * N) hs) + length nodes = N * N.
Proof.
  intros [Hn Hp].
  apply (filter_Permutation (fun j => j < 2 + N * N)) in Hp.
  apply Permutation_length in Hp.
  rewrite filter_app, length_app, (length_filter_cells nodes Hn) in Hp.
  rewrite Hp. cbn [sudoku_torus t_cols]. rewrite HC.
  replace (4 * (N * N)) with (N * N + 3 * (N * N)) by lia.
  rewrite filter_seq_below, length_seq. reflexivity.
Qed.

(** While a row has all its columns linked, fewer than [N * N] rows are
    chosen: [solution] has room for one more. *)
Lemma sudoku_room (hs nodes : list nat) (a : list nat) (p : nat) (b : list nat) :
  partition_of (sudoku_torus sv) h0 hs nodes ->
  a ++ p :: b ∈ t_rows (sudoku_torus sv) ->
  (forall q, q ∈ a ++ p :: b -> column_of h0 q ∈ hs) ->
  length nodes < N * N.
Proof.
  intros Hpart Hrow Hin. pose proof (count_cells hs nodes Hpart) as Hcount.
  assert (Hpr : p ∈ a ++ p :: b) by (apply elem_of_app; right; apply elem_of_cons; auto).
  assert (Hpn : p ∈ concat (t_rows (sudoku_torus sv))).
  { apply elem_of_concat. eauto. }
  destruct (sudoku_node p Hpn) as (r & c & d & Hr & Hc & Hd & _ & _ & _ & _ & _ & E).
  unfold row_cols in E.
  rewrite (row_of_spec (sudoku_torus sv) _ p Hnd0 Hrow Hpr) in E.
  assert (Hcell : cell_column sv r c + 2 ∈ hs).
  { assert (H : cell_column sv r c + 2 ∈ column_of h0 <$> a ++ p :: b).
    { rewrite E. cbn. apply elem_of_cons. auto. }
    apply list_elem_of_fmap in H as (q & -> & Hq). apply Hin. exact Hq. }
  destruct (columns_in_blocks sv N bs HN Hbs Hcc HR HC Hsq Hbspos r c d Hr Hc Hd)
    as (B1 & _).
  assert (Hf : cell_column sv r c + 2 ∈ filter (fun j => j < 2 + N * N) hs).
  { apply list_elem_of_filter. split; [lia | exact Hcell]. }
  destruct (filter (fun j => j < 2 + N * N) hs) as [| x l];
    [apply elem_of_nil in Hf; contradiction |].
  cbn [length] in Hcount. lia.
Qed.

Section Leaf.
Variable nodes : list nat.
Hypothesis Hpart : partition_of (sudoku_torus sv) h0 [] nodes.

Lemma leaf_count : length nodes = N * N.
Proof. pose proof (count_cells [] nodes Hpart) as H. cbn in H. exact H. Qed.

Lemma leaf_NoDup : NoDup (concat (row_cols (sudoku_torus sv) h0 <$> nodes)).
Proof.
  destruct Hpart as [_ Hp]. cbn [app] in Hp. rewrite Hp.
  cbn [sudoku_torus t_cols]. apply NoDup_seq.
Qed.

(** Two of the chosen nodes whose rows share a column are one node. *)
Lemma leaf_shared (p q : nat) (z : nat) :
  p ∈ nodes -> q ∈ nodes ->
  z ∈ row_cols (sudoku_torus sv) h0 p -> z ∈ row_cols (sudoku_torus sv) h0 q ->
  p = q.
Proof.
  intros Hp Hq Hzp Hzq.
  apply (NoDup_concat_shared (row_cols (sudoku_torus sv) h0) nodes p q z leaf_NoDup);
    assumption.
Qed.

(** Every cell is the cell of one of the chosen nodes. *)
Lemma leaf_cell (r c : nat) :
  r < N -> c < N ->
  exists p d,
    p ∈ nodes /\ d < N
    /\ node_row h0 p = Z.of_nat r /\ node_col h0 p = Z.of_nat c
    /\ node_digit h0 p = Z.of_nat (d + 1)
    /\ row_cols (sudoku_torus sv) h0 p
       = (fun j => j + 2) <$> [cell_column sv r c; row_column sv r d;
                               col_column sv c d; block_column sv r c d].
Proof.
  intros Hr Hc. destruct Hpart as [Hn Hp]. cbn [app] in Hp.
  destruct (columns_in_blocks sv N bs HN Hbs Hcc HR HC Hsq Hbspos r c 0 Hr Hc
              sudoku_N_pos) as (B1 & _).
  assert (Hin : cell_column sv r c + 2 ∈ concat (row_cols (sudoku_torus sv) h0 <$> nodes)).
  { rewrite Hp. cbn [sudoku_torus t_cols]. apply elem_of_seq. rewrite HC. lia. }
  apply elem_of_concat in Hin as (l & Hl & Hz).
  apply list_elem_of_fmap in Hl as (p & -> & Hpn).
  destruct (sudoku_node p (Hn p Hpn))
    as (r' & c' & d & Hr' & Hc' & Hd & _ & _ & Er & Ec & Ed & E).
  destruct (columns_in_blocks sv N bs HN Hbs Hcc HR HC Hsq Hbspos r' c' d Hr' Hc' Hd)
    as (_ & B2 & B3 & B4).
  rewrite E in Hz. cbn [fmap list_fmap] in Hz.
  apply elem_of_cons in Hz as [Hz | Hz].
  2:{ repeat (apply elem_of_cons in Hz as [Hz | Hz]; [lia |]).
      apply elem_of_nil in Hz. contradiction. }
  destruct (cell_column_inj r c r' c' Hc Hc' ltac:(lia)) as [<- <-].
  exists p, d. auto 10.
Qed.

Variable g : grid.
Hypothesis Hg : square_grid N g.
Hypothesis Hkeeps : forall p, p ∈ nodes -> keeps_node h0 g p.

Lemma leaf_digit (r c : nat) :
  r < N -> c < N ->
  exists p d,
    p ∈ nodes /\ d < N
    /\ node_row h0 p = Z.of_nat r /\ node_col h0 p = Z.of_nat c
    /\ cell g r c = Z.of_nat (d + 1)
    /\ row_cols (sudoku_torus sv) h0 p
       = (fun j => j + 2) <$> [cell_column sv r c; row_column sv r d;
                               col_column sv c d; block_column sv r c d].
Proof.
  intros Hr Hc. destruct (leaf_cell r c Hr Hc) as (p & d & Hp & Hd & Er & Ec & Ed & E).
  exists p, d. split; [exact Hp |]. split; [exact Hd |]. split; [exact Er |].
  split; [exact Ec |]. split; [| exact E].
  pose proof (Hkeeps p Hp) as K. unfold keeps_node in K.
  rewrite Er, Ec, Ed, !Nat2Z.id in K. exact K.
Qed.

(** Two cells of one row, one column or one block with the same digit
    are one cell. *)
Lemma leaf_unit_inj (r c r' c' : nat) :
  r < N -> c < N -> r' < N -> c' < N ->
  cell g r c = cell g r' c' ->
  r = r' \/ c = c' \/ block_of sv r c = block_of sv r' c' ->
  r = r' /\ c = c'.
Proof.
  intros Hr Hc Hr' Hc' Ecell Hunit.
  destruct (leaf_digit r c Hr Hc) as (p & d & Hp & Hd & Er & Ec & Ed & E).
  destruct (leaf_digit r' c' Hr' Hc') as (q & d' & Hq & Hd' & Er' & Ec' & Ed' & E').
  assert (d' = d) as -> by lia.
  assert (Hpq : p = q).
  { destruct Hunit as [<- | [<- | Hb]].
    - apply (leaf_shared p q (row_column sv r d + 2) Hp Hq).
      + rewrite E. cbn. apply elem_of_cons. right. apply elem_of_cons. auto.
      + rewrite E'. cbn. apply elem_of_cons. right. apply elem_of_cons. auto.
    - apply (leaf_shared p q (col_column sv c d + 2) Hp Hq).
      + rewrite E. cbn. do 2 (apply elem_of_cons; right). apply elem_of_cons. auto.
      + rewrite E'. cbn. do 2 (apply elem_of_cons; right). apply elem_of_cons. auto.
    - apply (leaf_shared p q (block_column sv r c d + 2) Hp Hq).
      + rewrite E. cbn. do 3 (apply elem_of_cons; right). apply elem_of_cons. auto.
      + rewrite E'. cbn. do 3 (apply elem_of_cons; right). apply elem_of_cons.
        left. unfold block_column. rewrite Hb. reflexivity. }
  subst q. split; lia.
Qed.

Lemma leaf_cells_once (cells : list (nat * nat)) :
  NoDup cells -> length cells = N ->
  (forall x, x ∈ cells -> x.1 < N /\ x.2 < N) ->
  (forall x y, x ∈ cells -> y ∈ cells ->
     x.1 = y.1 \/ x.2 = y.2 \/ block_of sv x.1 x.2 = block_of sv y.1 y.2) ->
  each_digit_once sv ((fun x => cell g x.1 x.2) <$> cells) = true.
Proof.
  intros Hnd Hlen Hin Hunit. apply each_digit_once_perm. rewrite HN.
  apply perm_digits.
  - apply NoDup_fmap_2_strong; [| exact Hnd].
    intros [r c] [r' c'] Hx Hy E. cbn [fst snd] in E.
    destruct (Hin _ Hx) as [Hr Hc]. destruct (Hin _ Hy) as [Hr' Hc'].
    cbn [fst snd] in *.
    destruct (leaf_unit_inj r c r' c' Hr Hc Hr' Hc' E (Hunit _ _ Hx Hy)) as [-> ->].
    reflexivity.
  - rewrite length_fmap. exact Hlen.
  - intros x Hx. apply list_elem_of_fmap in Hx as ([r c] & -> & Hx).
    destruct (Hin _ Hx) as [Hr Hc]. cbn [fst snd] in *.
    destruct (leaf_digit r c Hr Hc) as (p & d & _ & Hd & _ & _ & Ed & _).
    exists d. auto.
Qed.

(** The grid of an exact cover is a solved grid. *)
Lemma leaf_solved : is_solved sv g = true.
Proof.
  pose proof sudoku_N_pos as HNpos. destruct Hg as [Hlen Hrows].
  unfold is_solved. apply andb_true_iff. split.
  { unfold is_square. rewrite HN. apply andb_true_iff.
    split; [apply Nat.eqb_eq; exact Hlen |].
    apply forallb_forall. intros row Hrow. apply Nat.eqb_eq.
    destruct (In_nth _ _ [] Hrow) as (r & Hr & <-). apply Hrows. lia. }
  apply forallb_forall. intros u Hu. apply in_seq in Hu. rewrite HN in Hu.
  rewrite !andb_true_iff. split; [split |].
  - unfold row_cells. rewrite HN.
    replace (map (fun c => cell g u c) (seq 0 N))
      with ((fun x : nat * nat => cell g x.1 x.2) <$> (pair u <$> seq 0 N)).
    2:{ rewrite <- list_fmap_compose. reflexivity. }
    apply leaf_cells_once.
    + apply NoDup_fmap_2; [| apply NoDup_seq]. intros x y E. congruence.
    + rewrite length_fmap, length_seq. reflexivity.
    + intros x Hx. apply list_elem_of_fmap in Hx as (c & -> & Hc).
      apply elem_of_seq in Hc. cbn. lia.
    + intros x y Hx Hy. apply list_elem_of_fmap in Hx as (c & -> & Hc).
      apply list_elem_of_fmap in Hy as (c' & -> & Hc'). left. reflexivity.
  - unfold column_cells. rewrite HN.
    replace (map (fun r => cell g r u) (seq 0 N))
      with ((fun x : nat * nat => cell g x.1 x.2) <$> ((fun r => (r, u)) <$> seq 0 N)).
    2:{ rewrite <- list_fmap_compose. reflexivity. }
    apply leaf_cells_once.
    + apply NoDup_fmap_2; [| apply NoDup_seq]. intros x y E. congruence.
    + rewrite length_fmap, length_seq. reflexivity.
    + intros x Hx. apply list_elem_of_fmap in Hx as (c & -> & Hc).
      apply elem_of_seq in Hc. cbn. lia.
    + intros x y Hx Hy. apply list_elem_of_fmap in Hx as (c & -> & Hc).
      apply list_elem_of_fmap in Hy as (c' & -> & Hc'). right. left. reflexivity.
  - unfold block_cells. rewrite Hbs.
    rewrite (flat_map_grid (fun l k => cell g (u / bs * bs + l) (u mod bs * bs + k))
               bs bs Hbspos).
    rewrite <- Hsq.
    replace (map (fun t => cell g (u / bs * bs + t / bs) (u mod bs * bs + t mod bs))
               (seq 0 N))
      with ((fun x : nat * nat => cell g x.1 x.2)
              <$> ((fun t => (u / bs * bs + t / bs, u mod bs * bs + t mod bs))
                     <$> seq 0 N)).
    2:{ rewrite <- list_fmap_compose. reflexivity. }
    assert (Hub : u / bs < bs).
    { apply Nat.Div0.div_lt_upper_bound. lia. }
    assert (Hum : u mod bs < bs) by (apply Nat.mod_upper_bound; lia).
    assert (Ht : forall t, t < N -> t / bs < bs /\ t mod bs < bs).
    { intros t Ht. split; [apply Nat.Div0.div_lt_upper_bound; lia |].
      apply Nat.mod_upper_bound. lia. }
    apply leaf_cells_once.
    + apply NoDup_fmap_2_strong; [| apply NoDup_seq].
      intros t t' _ _ E. injection E as E1 E2.
      rewrite (Nat.div_mod_eq t bs), (Nat.div_mod_eq t' bs).
      assert (t / bs = t' / bs) as -> by lia.
      assert (t mod bs = t' mod bs) as -> by lia. reflexivity.
    + rewrite length_fmap, length_seq. reflexivity.
    + intros x Hx. apply list_elem_of_fmap in Hx as (t & -> & Hti).
      apply elem_of_seq in Hti. destruct (Ht t ltac:(lia)). cbn [fst snd]. nia.
    + intros x y Hx Hy. apply list_elem_of_fmap in Hx as (t & -> & Hti).
      apply list_elem_of_fmap in Hy as (t' & -> & Hti').
      apply elem_of_seq in Hti, Hti'.
      destruct (Ht t ltac:(lia)). destruct (Ht t' ltac:(lia)).
      right. right. cbn [fst snd]. unfold block_of. rewrite Hbs.
      rewrite !(Nat.div_add_l _ bs) by lia.
      rewrite !(Nat.div_small (_ mod bs) bs), !(Nat.div_small (_ / bs) bs) by lia.
      reflexivity.
Qed.
End Leaf.

(** ** The grid at a leaf of the search *)

Lemma square_grid_zero : square_grid N (replicate N (replicate N 0%Z)).
Proof.
  split; [apply length_replicate |]. intros r Hr.
  rewrite nth_lookup, lookup_replicate_2 by exact Hr. apply length_replicate.
Qed.

(** With every column covered, and at least one clue and one chosen
    row, [mapSolutionToGrid] returns a solved grid that keeps the
    digit of each node. *)
Lemma leaf_grid (clues chosen : list nat) (s : state) :
  search_state (sudoku_torus sv) (cellCount sv) clues h0 [] chosen s ->
  1 <= length clues < cellCount sv ->
  exists g,
    mapSolutionToGrid s (replicate N (replicate N 0%Z)) = Ok g
    /\ is_solved sv g = true
    /\ forall p, p ∈ chosen ++ clues -> keeps_node h0 g p.
Proof.
  intros (Hroot & Hwf & Hdata & Hsol & Hclues & Hpart) Hlen.
  pose proof (leaf_count (chosen ++ clues) Hpart) as Hcount.
  rewrite length_app in Hcount. rewrite Hcc in Hlen.
  destruct (pad_no_null (cellCount sv) chosen) as (rest1 & E1); [rewrite Hcc; lia |].
  destruct (pad_no_null (cellCount sv) clues) as (rest2 & E2); [rewrite Hcc; lia |].
  set (h := allNodes s) in *.
  assert (Erow : forall q, node_row h q = node_row h0 q).
  { intros q. unfold node_row. rewrite (proj2 (Hdata q)). reflexivity. }
  assert (Ecol : forall q, node_col h q = node_col h0 q).
  { intros q. unfold node_col. rewrite (proj2 (Hdata q)). reflexivity. }
  assert (Edig : forall q, node_digit h q = node_digit h0 q).
  { intros q. unfold node_digit. rewrite (proj2 (Hdata q)). reflexivity. }
  assert (Haddr : forall p, p ∈ chosen ++ clues -> addresses_cell N h p).
  { intros p Hp. destruct Hpart as [Hn _].
    destruct (sudoku_node p (Hn p Hp))
      as (r & c & d & Hr & Hc & Hd & Hp0 & Hl & Er & Ec & _).
    split; [exact Hp0 |]. split; [rewrite (proj2 (Hdata p)); lia |].
    rewrite Erow, Ecol, Er, Ec. lia. }
  unfold mapSolutionToGrid. fold h. rewrite Hsol, Hclues, E1, E2.
  destruct (place_nodes_spec N h chosen rest1 _ square_grid_zero)
    as (g1 & Eg1 & Hg1 & Hcell1).
  { intros p Hp. apply Haddr. apply elem_of_app. auto. }
  rewrite Eg1. cbn [bind].
  destruct (place_nodes_spec N h clues rest2 g1 Hg1) as (g & Eg & Hg & Hcell).
  { intros p Hp. apply Haddr. apply elem_of_app. auto. }
  exists g. split; [exact Eg |].
  assert (Hkeeps : forall p, p ∈ chosen ++ clues -> keeps_node h0 g p).
  { intros p Hp. pose proof Hpart as [Hn _].
    destruct (sudoku_node p (Hn p Hp))
      as (r & c & d & Hr & Hc & Hd & Hp0 & Hl & Er & Ec & Ed & E).
    unfold keeps_node. rewrite Er, Ec, !Nat2Z.id.
    assert (Hu : forall q, q ∈ chosen ++ clues ->
              node_row h q = Z.of_nat r /\ node_col h q = Z.of_nat c -> q = p).
    { intros q Hq [Hqr Hqc]. rewrite Erow in Hqr. rewrite Ecol in Hqc.
      destruct (sudoku_node q (Hn q Hq))
        as (r' & c' & d' & _ & _ & _ & _ & _ & Er' & Ec' & _ & E').
      assert (r' = r) as -> by lia. assert (c' = c) as -> by lia.
      apply (leaf_shared (chosen ++ clues) Hpart q p (cell_column sv r c + 2) Hq Hp).
      - rewrite E'. cbn. apply elem_of_cons. auto.
      - rewrite E. cbn. apply elem_of_cons. auto. }
    assert (HP : node_row h p = Z.of_nat r /\ node_col h p = Z.of_nat c).
    { rewrite Erow, Ecol. auto. }
    rewrite Hcell. unfold last_at.
    destruct (decide (p ∈ clues)) as [Hpc | Hpc].
    - rewrite (last_filter_unique _ clues p); [cbn; rewrite Edig; reflexivity | | exact Hpc | exact HP].
      intros q Hq. apply Hu. apply elem_of_app. auto.
    - rewrite last_filter_none.
      2:{ intros q Hq HQ. apply Hpc. rewrite <- (Hu q); [exact Hq | | exact HQ].
          apply elem_of_app. auto. }
      cbn. rewrite Hcell1. unfold last_at.
      apply elem_of_app in Hp as [Hp | Hp]; [| contradiction].
      rewrite (last_filter_unique _ chosen p); [cbn; rewrite Edig; reflexivity | | exact Hp | exact HP].
      intros q Hq. apply Hu. apply elem_of_app. auto. }
  split; [| exact Hkeeps].
  apply (leaf_solved (chosen ++ clues) Hpart g Hg Hkeeps).
Qed.

(** The rows chosen at a leaf and the clues make a solved grid that
    keeps the digit of each node, whether or not [mapSolutionToGrid]
    can write it. *)
Lemma leaf_completion (clues chosen : list nat) (s : state) :
  search_state (sudoku_torus sv) (cellCount sv) clues h0 [] chosen s ->
  exists g,
    is_solved sv g = true
    /\ forall p, p ∈ chosen ++ clues -> keeps_node h0 g p.
Proof.
  intros (Hroot & Hwf & Hdata & Hsol & Hclues & Hpart).
  set (h := allNodes s) in *.
  assert (Erow : forall q, node_row h q = node_row h0 q).
  { intros q. unfold node_row. rewrite (proj2 (Hdata q)). reflexivity. }
  assert (Ecol : forall q, node_col h q = node_col h0 q).
  { intros q. unfold node_col. rewrite (proj2 (Hdata q)). reflexivity. }
  assert (Edig : forall q, node_digit h q = node_digit h0 q).
  { intros q. unfold node_digit. rewrite (proj2 (Hdata q)). reflexivity. }
  assert (Haddr : forall p, p ∈ chosen ++ clues -> addresses_cell N h p).
  { intros p Hp. destruct Hpart as [Hn _].
    destruct (sudoku_node p (Hn p Hp))
      as (r & c & d & Hr & Hc & Hd & Hp0 & Hl & Er & Ec & _).
    split; [exact Hp0 |]. split; [rewrite (proj2 (Hdata p)); lia |].
    rewrite Erow, Ecol, Er, Ec. lia. }
  destruct (place_nodes_spec N h chosen [] _ square_grid_zero)
    as (g1 & _ & Hg1 & Hcell1).
  { intros p Hp. apply Haddr. apply elem_of_app. auto. }
  destruct (place_nodes_spec N h clues [] g1 Hg1) as (g & _ & Hg & Hcell).
  { intros p Hp. apply Haddr. apply elem_of_app. auto. }
  exists g.
  assert (Hkeeps : forall p, p ∈ chosen ++ clues -> keeps_node h0 g p).
  { intros p Hp. pose proof Hpart as [Hn _].
    destruct (sudoku_node p (Hn p Hp))
      as (r & c & d & Hr & Hc & Hd & Hp0 & Hl & Er & Ec & Ed & E).
    unfold keeps_node. rewrite Er, Ec, !Nat2Z.id.
    assert (Hu : forall q, q ∈ chosen ++ clues ->
              node_row h q = Z.of_nat r /\ node_col h q = Z.of_nat c -> q = p).
    { intros q Hq [Hqr Hqc]. rewrite Erow in Hqr. rewrite Ecol in Hqc.
      destruct (sudoku_node q (Hn q Hq))
        as (r' & c' & d' & _ & _ & _ & _ & _ & Er' & Ec' & _ & E').
      assert (r' = r) as -> by lia. assert (c' = c) as -> by lia.
      apply (leaf_shared (chosen ++ clues) Hpart q p (cell_column sv r c + 2) Hq Hp).
      - rewrite E'. cbn. apply elem_of_cons. auto.
      - rewrite E. cbn. apply elem_of_cons. auto. }
    assert (HP : node_row h p = Z.of_nat r /\ node_col h p = Z.of_nat c).
    { rewrite Erow, Ecol. auto. }
    rewrite Hcell. unfold last_at.
    destruct (decide (p ∈ clues)) as [Hpc | Hpc].
    - rewrite (last_filter_unique _ clues p); [cbn; rewrite Edig; reflexivity | | exact Hpc | exact HP].
      intros q Hq. apply Hu. apply elem_of_app. auto.
    - rewrite last_filter_none.
      2:{ intros q Hq HQ. apply Hpc. rewrite <- (Hu q); [exact Hq | | exact HQ].
          apply elem_of_app. auto. }
      cbn. rewrite Hcell1. unfold last_at.
      apply elem_of_app in Hp as [Hp | Hp]; [| contradiction].
      rewrite (last_filter_unique _ chosen p); [cbn; rewrite Edig; reflexivity | | exact Hp | exact HP].
      intros q Hq. apply Hu. apply elem_of_app. auto. }
  split; [| exact Hkeeps].
  apply (leaf_solved (chosen ++ clues) Hpart g Hg Hkeeps).
Qed.

(** Without a clue, or with a clue in every cell, there is no grid at
    a leaf: a vector holds no [nullptr]. *)
Lemma leaf_overrun (clues chosen : list nat) (s : state) (g0 : grid) :
  search_state (sudoku_torus sv) (cellCount sv) clues h0 [] chosen s ->
  ~ (1 <= length clues < cellCount sv) ->
  mapSolutionToGrid s g0 = Fail out_of_range.
Proof.
  intros (Hroot & Hwf & Hdata & Hsol & Hclues & Hpart) Hlen.
  pose proof (leaf_count (chosen ++ clues) Hpart) as Hcount.
  rewrite length_app in Hcount. rewrite Hcc in Hlen.
  assert (Hnz : forall p, p ∈ chosen ++ clues -> p <> 0).
  { intros p Hp. destruct Hpart as [Hn _].
    destruct (sudoku_node p (Hn p Hp)) as (r & c & d & _ & _ & _ & Hp0 & _).
    exact Hp0. }
  apply mapSolutionToGrid_no_null.
  destruct (decide (length clues = 0)) as [E0 | E0].
  - left. rewrite Hsol. unfold pad. rewrite Hcc.
    replace (N * N - length chosen) with 0 by lia. cbn [replicate].
    rewrite app_nil_r. intros p Hp. apply Hnz. apply elem_of_app. auto.
  - right. rewrite Hclues. unfold pad. rewrite Hcc.
    replace (N * N - length clues) with 0 by lia. cbn [replicate].
    rewrite app_nil_r. intros p Hp. apply Hnz. apply elem_of_app. auto.
Qed.
End Sudoku.
(** ** Solved grids *)

Lemma NoDup_fmap_inj_on {A B : Type} (f : A -> B) (l : list A) (x y : A) :
  NoDup (f <$> l) -> x ∈ l -> y ∈ l -> f x = f y -> x = y.
Proof.
  induction l as [| a l IH]; intros Hnd Hx Hy E.
  - apply elem_of_nil in Hx. contradiction.
  - rewrite fmap_cons in Hnd. apply NoDup_cons in Hnd as [Ha Hnd].
    apply elem_of_cons in Hx as [-> | Hx]; apply elem_of_cons in Hy as [-> | Hy].
    + reflexivity.
    + exfalso. apply Ha. rewrite E. apply list_elem_of_fmap. eauto.
    + exfalso. apply Ha. rewrite <- E. apply list_elem_of_fmap. eauto.
    + apply IH; assumption.
Qed.

Lemma each_digit_once_inv (sv : SudokuDLXSolver) (cells : list Z) :
  each_digit_once sv cells = true -> length cells = gridSize sv ->
  cells ≡ₚ Z.of_nat <$> seq 1 (gridSize sv).
Proof.
  intros H Hlen. unfold each_digit_once in H. rewrite forallb_forall in H.
  symmetry. apply submseteq_length_Permutation.
  - apply NoDup_submseteq.
    + apply NoDup_fmap_2; [| apply NoDup_seq]. intros x y. apply Nat2Z.inj.
    + intros x Hx. apply list_elem_of_fmap in Hx as (d & -> & Hd).
      apply elem_of_seq in Hd. apply list_elem_of_In.
      apply (count_occ_In Z.eq_dec).
      specialize (H d ltac:(apply in_seq; lia)). apply Nat.eqb_eq in H. lia.
  - rewrite length_fmap, length_seq. lia.
Qed.

Section Solved.
Variable sv : SudokuDLXSolver.
Variables N bs : nat.
Hypothesis HN : gridSize sv = N.
Hypothesis Hbs : blockSize sv = bs.
Hypothesis Hsq : N = bs * bs.
Hypothesis Hbspos : 0 < bs.
Variable G : grid.
Hypothesis HG : is_solved sv G = true.

Lemma solved_square : square_grid N G.
Proof.
  unfold is_solved, is_square in HG. rewrite HN in HG.
  apply andb_true_iff in HG as [H _]. apply andb_true_iff in H as [H1 H2].
  apply Nat.eqb_eq in H1. rewrite forallb_forall in H2.
  split; [exact H1 |]. intros r Hr. apply Nat.eqb_eq. apply H2.
  apply nth_In. lia.
Qed.

Lemma solved_units (u : nat) :
  u < N ->
  row_cells sv G u ≡ₚ Z.of_nat <$> seq 1 N
  /\ column_cells sv G u ≡ₚ Z.of_nat <$> seq 1 N
  /\ block_cells sv G u ≡ₚ Z.of_nat <$> seq 1 N.
Proof.
  intros Hu. unfold is_solved in HG. apply andb_true_iff in HG as [_ H].
  rewrite forallb_forall in H. specialize (H u ltac:(apply in_seq; lia)).
  rewrite !andb_true_iff in H. destruct H as [[H1 H2] H3].
  rewrite <- HN. split; [| split]; apply each_digit_once_inv; try assumption.
  - unfold row_cells. rewrite length_map, length_seq. reflexivity.
  - unfold column_cells. rewrite length_map, length_seq. reflexivity.
  - unfold block_cells. rewrite Hbs.
    rewrite (flat_map_grid (fun l k => cell G (u / bs * bs + l) (u mod bs * bs + k))
               bs bs Hbspos).
    rewrite length_map, length_seq. lia.
Qed.

Lemma solved_N_pos : 0 < N.
Proof. rewrite Hsq. nia. Qed.

(** The digits of a solved grid are in 1..N. *)
Lemma solved_digit (r c : nat) :
  r < N -> c < N -> exists d, d < N /\ cell G r c = Z.of_nat (d + 1).
Proof.
  intros Hr Hc. destruct (solved_units r Hr) as (H1 & _).
  assert (Hin : cell G r c ∈ Z.of_nat <$> seq 1 N).
  { rewrite <- H1. unfold row_cells. rewrite HN.
    apply (list_elem_of_fmap_2 (fun c => cell G r c)). apply elem_of_seq. lia. }
  apply list_elem_of_fmap in Hin as (d & E & Hd). apply elem_of_seq in Hd.
  exists (d - 1). split; [lia |]. rewrite E. f_equal. lia.
Qed.

Lemma block_position (r c : nat) :
  r < N -> c < N ->
  let b := r / bs * bs + c / bs in
  let t := r mod bs * bs + c mod bs in
  b < N /\ t < N /\ r = b / bs * bs + t / bs /\ c = b mod bs * bs + t mod bs.
Proof.
  intros Hr Hc b t.
  assert (r / bs < bs) by (apply Nat.Div0.div_lt_upper_bound; lia).
  assert (c / bs < bs) by (apply Nat.Div0.div_lt_upper_bound; lia).
  assert (r mod bs < bs) by (apply Nat.mod_upper_bound; lia).
  assert (c mod bs < bs) by (apply Nat.mod_upper_bound; lia).
  destruct (divmod_intro bs (r / bs) (c / bs) ltac:(lia)) as [E1 E2].
  destruct (divmod_intro bs (r mod bs) (c mod bs) ltac:(lia)) as [E3 E4].
  unfold b, t. rewrite E1, E2, E3, E4.
  pose proof (Nat.div_mod_eq r bs). pose proof (Nat.div_mod_eq c bs).
  repeat split; nia.
Qed.

(** Two cells of one row, one column or one block of a solved grid
    that hold the same digit are one cell. *)
Lemma solved_unit_inj (r c r' c' : nat) :
  r < N -> c < N -> r' < N -> c' < N ->
  cell G r c = cell G r' c' ->
  r = r' \/ c = c' \/ block_of sv r c = block_of sv r' c' ->
  r = r' /\ c = c'.
Proof.
  intros Hr Hc Hr' Hc' E [<- | [<- | Hb]].
  - split; [reflexivity |]. destruct (solved_units r Hr) as (H1 & _).
    assert (Hnd : NoDup ((fun c => cell G r c) <$> seq 0 N)).
    { unfold row_cells in H1. rewrite HN in H1.
      change (map (fun c => cell G r c) (seq 0 N))
        with ((fun c => cell G r c) <$> seq 0 N) in H1.
      rewrite H1. apply NoDup_fmap_2; [| apply NoDup_seq]. intros x y. apply Nat2Z.inj. }
    apply (NoDup_fmap_inj_on _ _ c c' Hnd); [apply elem_of_seq; lia | apply elem_of_seq; lia |].
    exact E.
  - split; [| reflexivity]. destruct (solved_units c Hc) as (_ & H2 & _).
    assert (Hnd : NoDup ((fun r => cell G r c) <$> seq 0 N)).
    { unfold column_cells in H2. rewrite HN in H2.
      change (map (fun r => cell G r c) (seq 0 N))
        with ((fun r => cell G r c) <$> seq 0 N) in H2.
      rewrite H2. apply NoDup_fmap_2; [| apply NoDup_seq]. intros x y. apply Nat2Z.inj. }
    apply (NoDup_fmap_inj_on _ _ r r' Hnd); [apply elem_of_seq; lia | apply elem_of_seq; lia |].
    exact E.
  - unfold block_of in Hb. rewrite Hbs in Hb.
    destruct (block_position r c Hr Hc) as (Hbn & Ht & Er & Ec).
    destruct (block_position r' c' Hr' Hc') as (_ & Ht' & Er' & Ec').
    cbv zeta in *. rewrite <- Hb in Er', Ec'.
    set (b := r / bs * bs + c / bs) in *.
    set (t := r mod bs * bs + c mod bs) in *.
    set (t' := r' mod bs * bs + c' mod bs) in *.
    destruct (solved_units b Hbn) as (_ & _ & H3).
    unfold block_cells in H3. rewrite Hbs in H3.
    rewrite (flat_map_grid (fun l k => cell G (b / bs * bs + l) (b mod bs * bs + k))
               bs bs Hbspos) in H3.
    rewrite <- Hsq in H3.
    assert (Hnd : NoDup ((fun t => cell G (b / bs * bs + t / bs) (b mod bs * bs + t mod bs))
                           <$> seq 0 N)).
    { change (NoDup (map (fun t => cell G (b / bs * bs + t / bs) (b mod bs * bs + t mod bs))
                       (seq 0 N))).
      rewrite H3. apply NoDup_fmap_2; [| apply NoDup_seq]. intros x y. apply Nat2Z.inj. }
    assert (t = t').
    { apply (NoDup_fmap_inj_on _ _ t t' Hnd);
        [apply elem_of_seq; lia | apply elem_of_seq; lia |].
      cbv beta. rewrite <- Er, <- Ec, <- Er', <- Ec'. exact E. }
    split; congruence.
Qed.
End Solved.
(** ** A solved grid as an exact cover *)

Lemma perm_concat_fmap {A : Type} (f : A -> list nat) (l l' : list A) :
  l ≡ₚ l' -> concat (f <$> l) ≡ₚ concat (f <$> l').
Proof.
  intros H. induction H as [| x l l' _ IH | x y l | l1 l2 l3 _ IH1 _ IH2].
  - reflexivity.
  - rewrite !fmap_cons. cbn [concat]. rewrite IH. reflexivity.
  - rewrite !fmap_cons. cbn [concat]. rewrite !app_assoc.
    apply Permutation_app_tail. apply Permutation_app_comm.
  - rewrite IH1. exact IH2.
Qed.

Section PartialRows.
Variable sv : SudokuDLXSolver.
Variables N bs : nat.
Hypothesis HN : gridSize sv = N.
Hypothesis Hbs : blockSize sv = bs.
Hypothesis Hcc : cellCount sv = N * N.
Hypothesis HR : exactCoverRows sv = N * (N * N).
Hypothesis HC : exactCoverCols sv = 4 * (N * N).
Hypothesis Hsq : N = bs * bs.
Hypothesis Hbspos : 0 < bs.
Variable h0 : heap.
Hypothesis Hnd0 : NoDup (concat (t_rows (sudoku_torus sv))).
Hypothesis Hlab : forall i, i < exactCoverRows sv ->
  (forall p, p ∈ row_nodes sv i -> rowData_of h0 p = id_vector (row_id sv i))
  /\ column_of h0 <$> row_nodes sv i = (fun j => j + 2) <$> row_columns sv i.
Variable G : grid.
Variable D : nat -> Prop.
Hypothesis Hdig : forall r c, r < N -> c < N -> D (r * N + c) ->
  exists d, d < N /\ cell G r c = Z.of_nat (d + 1).
Hypothesis Hinj : forall r c r' c',
  r < N -> c < N -> r' < N -> c' < N -> D (r * N + c) -> D (r' * N + c') ->
  cell G r c = cell G r' c' ->
  r = r' \/ c = c' \/ block_of sv r c = block_of sv r' c' ->
  r = r' /\ c = c'.

Lemma cell_of_index (n : nat) :
  n < N * N -> n / N < N /\ n mod N < N /\ n = n / N * N + n mod N.
Proof.
  intros Hn. assert (0 < N) by (rewrite Hsq; nia).
  split; [apply Nat.Div0.div_lt_upper_bound; lia |].
  split; [apply Nat.mod_upper_bound; lia |].
  rewrite (Nat.div_mod_eq n N) at 1. lia.
Qed.

(** The node of the grid for the cell [n]. *)
Lemma partial_node_spec (n : nat) :
  n < N * N -> D n ->
  exists d,
    d < N /\ cell G (n / N) (n mod N) = Z.of_nat (d + 1)
    /\ grid_node sv G n ∈ concat (t_rows (sudoku_torus sv))
    /\ grid_node sv G n <> 0
    /\ rowData_of h0 (grid_node sv G n)
       = [Z.of_nat (d + 1); Z.of_nat (n / N + 1); Z.of_nat (n mod N + 1)]
    /\ row_cols (sudoku_torus sv) h0 (grid_node sv G n)
       = (fun j => j + 2) <$> [cell_column sv (n / N) (n mod N);
                               row_column sv (n / N) d;
                               col_column sv (n mod N) d;
                               block_column sv (n / N) (n mod N) d].
Proof.
  intros Hn HD. destruct (cell_of_index n Hn) as (Hr & Hc & En).
  assert (HNpos : 0 < N) by (rewrite Hsq; nia).
  rewrite En in HD.
  destruct (Hdig _ _ Hr Hc HD) as (d & Hd & Ed).
  exists d. split; [exact Hd |]. split; [exact Ed |].
  set (i := row_index sv (n / N) (n mod N) d).
  assert (Ep : grid_node sv G n = exactCoverCols sv + 2 + 4 * i).
  { unfold grid_node. rewrite HN, Ed, Nat2Z.id.
    replace (d + 1 - 1) with d by lia. reflexivity. }
  assert (Hi : i < N * (N * N)).
  { apply (row_index_bound sv N HN Hcc HNpos); assumption. }
  assert (Hp : grid_node sv G n ∈ row_nodes sv i).
  { unfold row_nodes. rewrite Ep. apply elem_of_seq. lia. }
  destruct (sudoku_row_node sv N bs HN Hbs Hcc HR HC Hsq Hbspos h0 Hnd0 Hlab i _ Hi Hp)
    as (_ & _ & _ & Hp0 & Hin & _ & Edata & _ & _ & _ & Ecols).
  destruct (row_index_parts sv N HN Hcc HNpos (n / N) (n mod N) d Hc Hd)
    as (E1 & E2 & E3).
  fold i in E1, E2, E3. unfold row_columns in Ecols.
  rewrite E1, E2, E3 in Edata, Ecols. auto 10.
Qed.

(** The rows of two cells of a solved grid share no column. *)
Lemma partial_rows_disjoint (n n' x : nat) :
  n < N * N -> n' < N * N -> D n -> D n' ->
  x ∈ row_cols (sudoku_torus sv) h0 (grid_node sv G n) ->
  x ∈ row_cols (sudoku_torus sv) h0 (grid_node sv G n') ->
  n = n'.
Proof.
  intros Hn Hn' HD HD' Hx Hx'.
  destruct (cell_of_index n Hn) as (Hr & Hc & En).
  destruct (cell_of_index n' Hn') as (Hr' & Hc' & En').
  destruct (partial_node_spec n Hn HD) as (d & Hd & Ed & _ & _ & _ & E).
  destruct (partial_node_spec n' Hn' HD') as (d' & Hd' & Ed' & _ & _ & _ & E').
  rewrite En in HD. rewrite En' in HD'.
  rewrite E in Hx. rewrite E' in Hx'.
  set (r := n / N) in *. set (c := n mod N) in *.
  set (r' := n' / N) in *. set (c' := n' mod N) in *.
  destruct (columns_in_blocks sv N bs HN Hbs Hcc HR HC Hsq Hbspos r c d Hr Hc Hd)
    as (B1 & B2 & B3 & B4).
  destruct (columns_in_blocks sv N bs HN Hbs Hcc HR HC Hsq Hbspos r' c' d' Hr' Hc' Hd')
    as (B1' & B2' & B3' & B4').
  assert (Hsame : r = r' /\ c = c'); [| destruct Hsame; lia].
  cbn [fmap list_fmap] in Hx, Hx'.
  assert (Hcase :
    cell_column sv r c = cell_column sv r' c'
    \/ row_column sv r d = row_column sv r' d'
    \/ col_column sv c d = col_column sv c' d'
    \/ block_column sv r c d = block_column sv r' c' d').
  { repeat (apply elem_of_cons in Hx as [Hx | Hx]);
      try (apply elem_of_nil in Hx; contradiction);
      repeat (apply elem_of_cons in Hx' as [Hx' | Hx']);
      try (apply elem_of_nil in Hx'; contradiction);
      subst x; first [lia | left; lia | right; left; lia
                     | right; right; left; lia | right; right; right; lia]. }
  destruct Hcase as [H | [H | [H | H]]].
  - apply (cell_column_inj sv N HN r c r' c' Hc Hc' H).
  - unfold row_column in H. rewrite HN, Hcc in H.
    assert (Hrd : r = r' /\ d = d').
    { destruct (divmod_intro N r d Hd) as [E1 E2].
      destruct (divmod_intro N r' d' Hd') as [E3 E4].
      replace (r * N + d) with (r' * N + d') in E1, E2 by lia. split; congruence. }
    destruct Hrd as [<- <-].
    apply (Hinj r c r c'); auto.
    rewrite Ed, Ed'. reflexivity.
  - unfold col_column in H. rewrite HN, Hcc in H.
    assert (Hcd : c = c' /\ d = d').
    { destruct (divmod_intro N c d Hd) as [E1 E2].
      destruct (divmod_intro N c' d' Hd') as [E3 E4].
      replace (c * N + d) with (c' * N + d') in E1, E2 by lia. split; congruence. }
    destruct Hcd as [<- <-].
    apply (Hinj r c r' c); auto.
    rewrite Ed, Ed'. reflexivity.
  - unfold block_column in H. rewrite HN, Hcc in H.
    assert (Hbd : block_of sv r c = block_of sv r' c' /\ d = d').
    { destruct (divmod_intro N (block_of sv r c) d Hd) as [E1 E2].
      destruct (divmod_intro N (block_of sv r' c') d' Hd') as [E3 E4].
      replace (block_of sv r c * N + d) with (block_of sv r' c' * N + d') in E1, E2 by lia.
      split; congruence. }
    destruct Hbd as [Hb <-].
    apply (Hinj r c r' c'); auto.
    rewrite Ed, Ed'. reflexivity.
Qed.

Lemma partial_rows_NoDup (l : list nat) :
  NoDup l -> (forall n, n ∈ l -> n < N * N /\ D n) ->
  NoDup (concat (row_cols (sudoku_torus sv) h0 <$> (grid_node sv G <$> l))).
Proof.
  induction l as [| n l IH]; intros Hnd Hl; [constructor |].
  apply NoDup_cons in Hnd as [Hn Hnd]. rewrite !fmap_cons. cbn [concat].
  destruct (Hl n ltac:(apply elem_of_cons; auto)) as [Hnlt HDn].
  apply NoDup_app. split; [| split].
  - destruct (cell_of_index n Hnlt) as (Hr & Hc & _).
    destruct (partial_node_spec n Hnlt HDn) as (d & Hd & _ & _ & _ & _ & E). rewrite E.
    destruct (columns_in_blocks sv N bs HN Hbs Hcc HR HC Hsq Hbspos _ _ d Hr Hc Hd)
      as (B1 & B2 & B3 & B4).
    apply NoDup_fmap_2; [intros x y; lia |].
    repeat (apply NoDup_cons; split;
            [rewrite ?not_elem_of_cons; repeat split; try lia; apply not_elem_of_nil |]).
    constructor.
  - intros x Hx Hin. apply elem_of_concat in Hin as (cols & Hcols & Hxc).
    apply list_elem_of_fmap in Hcols as (p & -> & Hp).
    apply list_elem_of_fmap in Hp as (n' & -> & Hn').
    assert (n = n').
    { destruct (Hl n' ltac:(apply elem_of_cons; auto)) as [Hn'lt HDn'].
      apply (partial_rows_disjoint n n' x Hnlt Hn'lt HDn HDn' Hx Hxc). }
    subst n'. contradiction.
  - apply IH; [exact Hnd |]. intros m Hm. apply Hl. apply elem_of_cons. auto.
Qed.

Lemma length_partial_rows (l : list nat) :
  (forall n, n ∈ l -> n < N * N /\ D n) ->
  length (concat (row_cols (sudoku_torus sv) h0 <$> (grid_node sv G <$> l)))
  = 4 * length l.
Proof.
  induction l as [| n l IH]; intros Hl; [reflexivity |].
  rewrite !fmap_cons. cbn [concat length]. rewrite length_app, IH.
  - destruct (Hl n ltac:(apply elem_of_cons; auto)) as [Hnlt HDn].
    destruct (partial_node_spec n Hnlt HDn) as (d & _ & _ & _ & _ & _ & E).
    rewrite E. cbn. lia.
  - intros m Hm. apply Hl. apply elem_of_cons. auto.
Qed.

(** Nodes with the same metadata lie in the same row, and conversely. *)
Lemma same_data_row (p q : nat) :
  p ∈ concat (t_rows (sudoku_torus sv)) -> q ∈ concat (t_rows (sudoku_torus sv)) ->
  rowData_of h0 p = rowData_of h0 q <->
  row_of (sudoku_torus sv) p = row_of (sudoku_torus sv) q.
Proof.
  intros Hp Hq. assert (HNpos : 0 < N) by (rewrite Hsq; nia).
  apply sudoku_torus_nodes in Hp as (i & Hi & Hp).
  apply sudoku_torus_nodes in Hq as (i' & Hi' & Hq).
  rewrite HR in Hi, Hi'.
  destruct (sudoku_row_node sv N bs HN Hbs Hcc HR HC Hsq Hbspos h0 Hnd0 Hlab i p Hi Hp)
    as (_ & Hc & Hd & _ & _ & Erow & Edata & _).
  destruct (sudoku_row_node sv N bs HN Hbs Hcc HR HC Hsq Hbspos h0 Hnd0 Hlab i' q Hi' Hq)
    as (_ & Hc' & Hd' & _ & _ & Erow' & Edata' & _).
  rewrite Erow, Erow', Edata, Edata'. split.
  - intros E. injection E as E1 E2 E3.
    destruct (row_parts_index sv N HN Hcc HNpos i) as (Ei & _).
    destruct (row_parts_index sv N HN Hcc HNpos i') as (Ei' & _).
    assert (i = i'); [| subst; reflexivity].
    rewrite Ei, Ei'. f_equal; lia.
  - intros E. unfold row_nodes in E.
    assert (i = i'); [| subst; reflexivity].
    assert (H : seq (exactCoverCols sv + 2 + 4 * i) 4 !! 0
                = seq (exactCoverCols sv + 2 + 4 * i') 4 !! 0) by (rewrite E; reflexivity).
    cbn in H. injection H as H. lia.
Qed.

End PartialRows.

Section GridRows.
Variable sv : SudokuDLXSolver.
Variables N bs : nat.
Hypothesis HN : gridSize sv = N.
Hypothesis Hbs : blockSize sv = bs.
Hypothesis Hcc : cellCount sv = N * N.
Hypothesis HR : exactCoverRows sv = N * (N * N).
Hypothesis HC : exactCoverCols sv = 4 * (N * N).
Hypothesis Hsq : N = bs * bs.
Hypothesis Hbspos : 0 < bs.
Variable h0 : heap.
Hypothesis Hnd0 : NoDup (concat (t_rows (sudoku_torus sv))).
Hypothesis Hlab : forall i, i < exactCoverRows sv ->
  (forall p, p ∈ row_nodes sv i -> rowData_of h0 p = id_vector (row_id sv i))
  /\ column_of h0 <$> row_nodes sv i = (fun j => j + 2) <$> row_columns sv i.
Variable G : grid.
Hypothesis HG : is_solved sv G = true.

Lemma solved_partial_digit (r c : nat) :
  r < N -> c < N -> True ->
  exists d, d < N /\ cell G r c = Z.of_nat (d + 1).
Proof.
  intros Hr Hc _. apply (solved_digit sv N bs HN Hbs Hsq Hbspos G HG r c Hr Hc).
Qed.

Lemma solved_partial_inj (r c r' c' : nat) :
  r < N -> c < N -> r' < N -> c' < N -> True -> True ->
  cell G r c = cell G r' c' ->
  r = r' \/ c = c' \/ block_of sv r c = block_of sv r' c' ->
  r = r' /\ c = c'.
Proof.
  intros Hr Hc Hr' Hc' _ _.
  apply (solved_unit_inj sv N bs HN Hbs Hsq Hbspos G HG r c r' c' Hr Hc Hr' Hc').
Qed.

Lemma grid_node_spec (n : nat) :
  n < N * N ->
  exists d,
    d < N /\ cell G (n / N) (n mod N) = Z.of_nat (d + 1)
    /\ grid_node sv G n ∈ concat (t_rows (sudoku_torus sv))
    /\ grid_node sv G n <> 0
    /\ rowData_of h0 (grid_node sv G n)
       = [Z.of_nat (d + 1); Z.of_nat (n / N + 1); Z.of_nat (n mod N + 1)]
    /\ row_cols (sudoku_torus sv) h0 (grid_node sv G n)
       = (fun j => j + 2) <$> [cell_column sv (n / N) (n mod N);
                               row_column sv (n / N) d;
                               col_column sv (n mod N) d;
                               block_column sv (n / N) (n mod N) d].
Proof.
  intros Hn.
  apply (partial_node_spec sv N bs HN Hbs Hcc HR HC Hsq Hbspos h0 Hnd0 Hlab G
           (fun _ => True) solved_partial_digit n Hn I).
Qed.

Lemma grid_rows_disjoint (n n' x : nat) :
  n < N * N -> n' < N * N ->
  x ∈ row_cols (sudoku_torus sv) h0 (grid_node sv G n) ->
  x ∈ row_cols (sudoku_torus sv) h0 (grid_node sv G n') ->
  n = n'.
Proof.
  intros Hn Hn'.
  apply (partial_rows_disjoint sv N bs HN Hbs Hcc HR HC Hsq Hbspos h0 Hnd0 Hlab G
           (fun _ => True) solved_partial_digit solved_partial_inj n n' x Hn Hn' I I).
Qed.

Lemma grid_rows_NoDup (l : list nat) :
  NoDup l -> (forall n, n ∈ l -> n < N * N) ->
  NoDup (concat (row_cols (sudoku_torus sv) h0 <$> (grid_node sv G <$> l))).
Proof.
  intros Hnd Hl.
  apply (partial_rows_NoDup sv N bs HN Hbs Hcc HR HC Hsq Hbspos h0 Hnd0 Hlab G
           (fun _ => True) solved_partial_digit solved_partial_inj l Hnd).
  intros n Hn. split; [apply Hl; exact Hn | exact I].
Qed.

Lemma length_grid_rows (l : list nat) :
  (forall n, n ∈ l -> n < N * N) ->
  length (concat (row_cols (sudoku_torus sv) h0 <$> (grid_node sv G <$> l)))
  = 4 * length l.
Proof.
  intros Hl.
  apply (length_partial_rows sv N bs HN Hbs Hcc HR HC Hsq Hbspos h0 Hnd0 Hlab G
           (fun _ => True) solved_partial_digit l).
  intros n Hn. split; [apply Hl; exact Hn | exact I].
Qed.

Lemma same_data_same_row (p q : nat) :
  p ∈ concat (t_rows (sudoku_torus sv)) ->
  q ∈ concat (t_rows (sudoku_torus sv)) ->
  rowData_of h0 p = rowData_of h0 q
  <-> row_of (sudoku_torus sv) p = row_of (sudoku_torus sv) q.
Proof.
  apply (same_data_row sv N bs HN Hbs Hcc HR HC Hsq Hbspos h0 Hnd0 Hlab G
           (fun _ => True) solved_partial_digit solved_partial_inj p q).
Qed.

(** The rows of a solved grid cover every column once. *)
Lemma grid_rows_cover :
  concat (row_cols (sudoku_torus sv) h0 <$> (grid_node sv G <$> seq 0 (N * N)))
  ≡ₚ seq 2 (exactCoverCols sv).
Proof.
  assert (Hl : forall n, n ∈ seq 0 (N * N) -> n < N * N).
  { intros n Hn. apply elem_of_seq in Hn. lia. }
  apply submseteq_length_Permutation.
  - apply NoDup_submseteq; [apply grid_rows_NoDup; [apply NoDup_seq | exact Hl] |].
    intros x Hx. apply elem_of_concat in Hx as (cols & Hcols & Hxc).
    apply list_elem_of_fmap in Hcols as (p & -> & Hp).
    apply list_elem_of_fmap in Hp as (n & -> & Hn).
    destruct (cell_of_index sv N bs HN Hbs Hcc HR HC Hsq Hbspos n (Hl n Hn)) as (Hr & Hc & _).
    destruct (grid_node_spec n (Hl n Hn)) as (d & Hd & _ & _ & _ & _ & E).
    rewrite E in Hxc.
    destruct (columns_in_blocks sv N bs HN Hbs Hcc HR HC Hsq Hbspos _ _ d Hr Hc Hd)
      as (B1 & B2 & B3 & B4).
    apply elem_of_seq. rewrite HC. cbn [fmap list_fmap] in Hxc.
    repeat (apply elem_of_cons in Hxc as [-> | Hxc]; [lia |]).
    apply elem_of_nil in Hxc. contradiction.
  - rewrite (length_grid_rows _ Hl), !length_seq, HC. lia.
Qed.

(** A row node whose digit the grid keeps lies in the row of the grid
    for its cell. *)
Lemma kept_row (p : nat) :
  p ∈ concat (t_rows (sudoku_torus sv)) -> keeps_node h0 G p ->
  exists n, n < N * N
    /\ row_of (sudoku_torus sv) p = row_of (sudoku_torus sv) (grid_node sv G n).
Proof.
  intros Hp Hkeeps. pose proof Hp as Hp'.
  apply sudoku_torus_nodes in Hp' as (i & Hi & Hpi). rewrite HR in Hi.
  destruct (sudoku_row_node sv N bs HN Hbs Hcc HR HC Hsq Hbspos h0 Hnd0 Hlab i p Hi Hpi)
    as (Hr & Hc & Hd & _ & _ & _ & Edata & Er & Ec & Ed & _).
  unfold keeps_node in Hkeeps. rewrite Er, Ec, Ed, !Nat2Z.id in Hkeeps.
  exists (row_r sv i * N + row_c sv i). split; [nia |].
  destruct (grid_node_spec (row_r sv i * N + row_c sv i) ltac:(nia))
    as (d & _ & Edg & Hgin & _ & Egdata & _).
  destruct (divmod_intro N (row_r sv i) (row_c sv i) Hc) as [E1 E2].
  rewrite E1, E2 in Edg, Egdata.
  apply (same_data_same_row p _ Hp Hgin).
  rewrite Edata, Egdata, <- Edg, Hkeeps. reflexivity.
Qed.

(** Two row nodes in one column whose digits the grid keeps are one
    node. *)
Lemma kept_nodes_distinct (p q : nat) :
  p ∈ concat (t_rows (sudoku_torus sv)) -> q ∈ concat (t_rows (sudoku_torus sv)) ->
  keeps_node h0 G p -> keeps_node h0 G q ->
  column_of h0 p = column_of h0 q -> p = q.
Proof.
  intros Hp Hq Kp Kq Ecol.
  destruct (kept_row p Hp Kp) as (n & Hn & En).
  destruct (kept_row q Hq Kq) as (n' & Hn' & En').
  destruct (row_of_node (sudoku_torus sv) p Hnd0 Hp) as [Hrow Hpr].
  destruct (row_of_node (sudoku_torus sv) q Hnd0 Hq) as [_ Hqr].
  assert (n = n').
  { apply (grid_rows_disjoint n n' (column_of h0 p) Hn Hn').
    - unfold row_cols. rewrite <- En. apply list_elem_of_fmap. eauto.
    - unfold row_cols. rewrite <- En', Ecol. apply list_elem_of_fmap. eauto. }
  subst n'. rewrite <- En' in En. rewrite <- En in Hqr.
  apply (NoDup_fmap_inj_on (column_of h0) (row_of (sudoku_torus sv) p) p q);
    [| exact Hpr | exact Hqr | exact Ecol].
  pose proof Hp as Hp'.
  apply sudoku_torus_nodes in Hp' as (i & Hi & Hpi). rewrite HR in Hi.
  destruct (sudoku_row_node sv N bs HN Hbs Hcc HR HC Hsq Hbspos h0 Hnd0 Hlab i p Hi Hpi)
    as (Hr & Hc & Hd & _ & _ & Erow & _ & _ & _ & _ & Ecols).
  unfold row_cols in Ecols. rewrite Ecols. unfold row_columns.
  destruct (columns_in_blocks sv N bs HN Hbs Hcc HR HC Hsq Hbspos _ _ _ Hr Hc Hd)
    as (B1 & B2 & B3 & B4).
  apply NoDup_fmap_2; [intros x y; lia |].
  repeat (apply NoDup_cons; split;
          [rewrite ?not_elem_of_cons; repeat split; try lia; apply not_elem_of_nil |]).
  constructor.
Qed.
End GridRows.
(** ** The clues of any puzzle *)

Lemma vget_lt {A : Type} (v : list A) (i : nat) (x : A) : vget v i = Ok x -> i < length v.
Proof.
  unfold vget. destruct (v !! i) as [y |] eqn:E; [| discriminate].
  intros _. apply (lookup_lt_Some _ _ _ E).
Qed.

Lemma clue_step_preserves (T : torus) (cc fuel : nat) (puzzle : grid) (i j : nat)
    (h0 : heap) (s0 : state) (st st' : nat * state) :
  data_ok T h0 -> enough_fuel T fuel ->
  clues_inv T cc puzzle h0 s0 st -> clue_step fuel puzzle i j st = Ok st' ->
  clues_inv T cc puzzle h0 s0 st'.
Proof.
  intros Hdata Hfuel Hinv E. pose proof Hinv as (clues & hs & Ei & Hs & Hc & Hsols & Hall).
  destruct st as [index s]. cbn [fst snd] in *. subst index.
  assert (Hi : i < length puzzle /\ j < length (nth i puzzle [])).
  { unfold clue_step in E.
    destruct (vget puzzle i) as [row |] eqn:E1; cbn [bind] in E; [| discriminate].
    pose proof (vget_lt _ _ _ E1) as Hi. split; [exact Hi |].
    rewrite (vget_nth puzzle i []) in E1 by exact Hi. injection E1 as <-.
    destruct (vget (nth i puzzle []) j) as [v |] eqn:E2; cbn [bind] in E; [| discriminate].
    apply (vget_lt _ _ _ E2). }
  destruct Hi as [Hi Hj].
  destruct (decide (length clues < cc)) as [Hlt | Hge].
  - destruct (clue_step_state T cc fuel puzzle i j clues h0 hs s Hs Hdata Hfuel Hlt Hi Hj)
      as (p & hs' & s' & _ & E' & Hs' & Hc' & Hsols' & Hp & _).
    rewrite E' in E. injection E as <-.
    exists (if p =? 0 then clues else clues ++ [p]), hs'. cbn [fst snd].
    split; [reflexivity |]. split; [exact Hs' |].
    split; [congruence |]. split; [congruence |].
    destruct (Nat.eqb_spec p 0) as [| Hne]; [exact Hall |].
    apply Forall_app. split; [exact Hall |].
    constructor; [| constructor]. exists i, j. apply (Hp Hne).
  - unfold clue_step in E.
    rewrite (vget_nth puzzle i []) in E by exact Hi. cbn [bind] in E.
    rewrite (vget_nth _ j 0%Z) in E by exact Hj. cbn [bind] in E.
    destruct (0 <? nth j (nth i puzzle []) 0)%Z; [| injection E as <-; exact Hinv].
    destruct (findNodeForClue fuel s _ i j) as [temp |]; cbn [bind] in E; [| discriminate].
    destruct (temp =? 0); [injection E as <-; exact Hinv |].
    destruct (coverColumn fuel _ (allNodes s)) as [h1 |]; cbn [bind] in E; [| discriminate].
    destruct Hs as (_ & _ & _ & _ & Hclues & _).
    unfold vset in E. rewrite Hclues in E.
    rewrite decide_False in E; [discriminate |].
    unfold pad. rewrite length_app, length_replicate. lia.
Qed.

(** Whatever the puzzle, when [applyInitialConstraints] returns, the
    search starts from a state that holds the nodes of the clues
    found, with the columns of their rows covered. *)
Lemma applyInitialConstraints_partial (T : torus) (sv : SudokuDLXSolver) (fuel : nat)
    (puzzle : grid) (h0 : heap) (s0 s : state) :
  search_state T (cellCount sv) [] h0 (t_cols T) [] s0 -> data_ok T h0 ->
  enough_fuel T fuel ->
  applyInitialConstraints sv fuel puzzle s0 = Ok s ->
  exists clues hs,
    search_state T (cellCount sv) clues h0 hs [] s
    /\ solutionCount s = solutionCount s0 /\ solutions s = solutions s0
    /\ Forall (clue_of puzzle h0) clues.
Proof.
  intros H0 Hdata Hfuel E. unfold applyInitialConstraints in E.
  destruct (for_range (gridSize sv) 0 _ (0, s0)) as [st |] eqn:E1; cbn [bind] in E;
    [| discriminate].
  injection E as <-.
  assert (Hinv : clues_inv T (cellCount sv) puzzle h0 s0 st).
  { apply (for_range_preserves (clues_inv T (cellCount sv) puzzle h0 s0)
             (fun i st => for_range (gridSize sv) 0 (clue_step fuel puzzle i) st))
      with (count := gridSize sv) (lo := 0) (st := (0, s0)); [| | exact E1].
    - intros i st1 st2 H1 E2.
      apply (for_range_preserves (clues_inv T (cellCount sv) puzzle h0 s0)
               (clue_step fuel puzzle i))
        with (count := gridSize sv) (lo := 0) (st := st1); [| exact H1 | exact E2].
      intros j st3 st4 H3 E3.
      apply (clue_step_preserves T (cellCount sv) fuel puzzle i j h0 s0 st3 st4
               Hdata Hfuel H3 E3).
    - exists [], (t_cols T). cbn. auto. }
  destruct Hinv as (clues & hs & _ & Hs & Hc & Hsols & Hall).
  exists clues, hs. auto.
Qed.

(** ** The search of a Sudoku *)

(** [searchDLX] from a state of the torus of a Sudoku: it returns,
    unless [mapSolutionToGrid] overruns a vector at a leaf that it
    reaches, and it adds solved grids only. *)
Lemma sudoku_search_leaf (k d : nat) (h0 : heap) (limit : Z) (allow_fail : Prop)
    (clues hs chosen : list nat) (s : state) :
  1 <= k -> length hs < d ->
  Rep (sudoku_torus (solver k)) (seq 2 (exactCoverCols (solver k)))
    (column_nodes (sudoku_torus (solver k)) h0) h0 ->
  (forall i, i < exactCoverRows (solver k) ->
     (forall p, p ∈ row_nodes (solver k) i ->
        rowData_of h0 p = id_vector (row_id (solver k) i))
     /\ column_of h0 <$> row_nodes (solver k) i
        = (fun j => j + 2) <$> row_columns (solver k) i) ->
  search_state (sudoku_torus (solver k)) (cellCount (solver k)) clues h0 hs chosen s ->
  (forall chosen1 s1,
     search_state (sudoku_torus (solver k)) (cellCount (solver k)) clues h0 []
       chosen1 s1 ->
     ~ (1 <= length clues < cellCount (solver k)) -> allow_fail) ->
  outcome allow_fail
    (search_result (sudoku_torus (solver k)) limit (sudoku_leaf (solver k) h0 clues)
       (found_from (sudoku_torus (solver k)) h0 limit (sudoku_leaf (solver k) h0 clues)
          hs chosen (allNodes s)) s)
    (searchDLX d (solver k) (ring_fuel (solver k)) (length chosen) limit s).
Proof.
  intros Hk Hd HR0 Hlab Hst Hallow.
  set (sv := solver k) in *. set (N := k * k).
  assert (HN : gridSize sv = N) by reflexivity.
  assert (Hbs : blockSize sv = k) by reflexivity.
  assert (Hcc : cellCount sv = N * N) by reflexivity.
  assert (HR : exactCoverRows sv = N * (N * N)) by reflexivity.
  assert (HC : exactCoverCols sv = 4 * (N * N)) by reflexivity.
  assert (Hsq : N = k * k) by reflexivity.
  assert (Hpos : 0 < k) by lia.
  assert (Hnd0 : NoDup (concat (t_rows (sudoku_torus sv)))).
  { apply (Rep_rows_NoDup _ _ _ _ HR0). }
  clearbody sv N.
  apply (searchDLX_ok (sudoku_torus sv) sv (ring_fuel sv) limit clues h0
           (sudoku_leaf sv h0 clues) allow_fail (sudoku_enough_fuel sv))
    with (hs := hs) (chosen := chosen).
  - intros s1 chosen1 Hs1. rewrite HN.
    destruct (decide (1 <= length clues < cellCount sv)) as [Hlen | Hlen].
    + destruct (leaf_grid sv N k HN Hbs Hcc HR HC Hsq Hpos h0 Hnd0 Hlab clues chosen1 s1
                  Hs1 Hlen) as (g & Eg & Hg & Hkeeps).
      rewrite Eg. cbn [outcome]. split; [split; [exact Hg | exact Hkeeps] |].
      intros p Hp. apply (proj1 (proj2 (proj2 (proj2 (proj2 (proj2 Hs1))))) p).
      apply elem_of_app. auto.
    + rewrite (leaf_overrun sv N k HN Hbs Hcc HR HC Hsq Hpos h0 Hnd0 Hlab clues chosen1 s1
                 _ Hs1 Hlen).
      cbn [outcome]. apply (Hallow chosen1 s1 Hs1 Hlen).
  - intros g nodes nodes' t t' [[Hsolved Hkeeps] Hin] [[_ Hkeeps'] Hin'] Ht Ht' Ecol.
    apply (kept_nodes_distinct sv N k HN Hbs Hcc HR HC Hsq Hpos h0 Hnd0 Hlab g Hsolved
             t t' (Hin t Ht) (Hin' t' Ht')); [| | exact Ecol].
    + apply Hkeeps. apply elem_of_app. auto.
    + apply Hkeeps'. apply elem_of_app. auto.
  - intros hs1 chosen1 a p b Hpart Hrow Hin.
    pose proof (sudoku_room sv N k HN Hbs Hcc HR HC Hsq Hpos h0 Hnd0 Hlab hs1
                  (chosen1 ++ clues) a p b Hpart Hrow Hin) as Hlt.
    rewrite length_app in Hlt. rewrite Hcc. lia.
  - exact Hst.
  - reflexivity.
  - exact Hd.
Qed.

(** [searchDLX] from a state of the torus of a Sudoku: it returns,
    unless [mapSolutionToGrid] overruns a vector at a leaf, and it adds
    solved grids only. *)
Lemma sudoku_search (k d : nat) (h0 : heap) (limit : Z) (allow_fail : Prop)
    (clues hs chosen : list nat) (s : state) :
  1 <= k -> length hs < d ->
  Rep (sudoku_torus (solver k)) (seq 2 (exactCoverCols (solver k)))
    (column_nodes (sudoku_torus (solver k)) h0) h0 ->
  (forall i, i < exactCoverRows (solver k) ->
     (forall p, p ∈ row_nodes (solver k) i ->
        rowData_of h0 p = id_vector (row_id (solver k) i))
     /\ column_of h0 <$> row_nodes (solver k) i
        = (fun j => j + 2) <$> row_columns (solver k) i) ->
  search_state (sudoku_torus (solver k)) (cellCount (solver k)) clues h0 hs chosen s ->
  (~ (1 <= length clues < cellCount (solver k)) -> allow_fail) ->
  outcome allow_fail
    (search_result (sudoku_torus (solver k)) limit (sudoku_leaf (solver k) h0 clues)
       (found_from (sudoku_torus (solver k)) h0 limit (sudoku_leaf (solver k) h0 clues)
          hs chosen (allNodes s)) s)
    (searchDLX d (solver k) (ring_fuel (solver k)) (length chosen) limit s).
Proof.
  intros Hk Hd HR0 Hlab Hst Hallow.
  apply (sudoku_search_leaf k d h0 limit allow_fail clues hs chosen s Hk Hd HR0 Hlab Hst).
  intros chosen1 s1 _. exact Hallow.
Qed.

(** The depth that [solve] allows suffices. *)
Lemma sudoku_depth (sv : SudokuDLXSolver) (cc : nat) (clues : list nat) (h0 : heap)
    (hs chosen : list nat) (s : state) :
  search_state (sudoku_torus sv) cc clues h0 hs chosen s ->
  length hs < S (exactCoverCols sv).
Proof.
  intros (_ & Hwf & _).
  destruct (well_formed_NoDup _ _ _ Hwf) as (Hndhs & _ & Hsub).
  pose proof (NoDup_length_le hs (t_cols (sudoku_torus sv)) Hndhs Hsub) as Hle.
  cbn [sudoku_torus t_cols] in Hle. rewrite length_seq in Hle. lia.
Qed.

(** The state from which [solve] applies the clues. *)
Lemma solve_start_state (k : nat) (h0 : heap) :
  Rep (sudoku_torus (solver k)) (seq 2 (exactCoverCols (solver k)))
    (column_nodes (sudoku_torus (solver k)) h0) h0 ->
  search_state (sudoku_torus (solver k)) (cellCount (solver k)) [] h0
    (t_cols (sudoku_torus (solver k))) []
    (mkState 1 (replicate (cellCount (solver k)) 0)
       (replicate (cellCount (solver k)) 0) h0 0%Z []).
Proof.
  intros HR0. split; [reflexivity |]. split; [eexists; exact HR0 |].
  split; [intros q; split; reflexivity |].
  split; [cbn [solution]; rewrite pad_nil; reflexivity |].
  split; [cbn [fixedClues]; rewrite pad_nil; reflexivity |].
  split; [intros p Hp; apply elem_of_nil in Hp; contradiction |].
  cbn. rewrite app_nil_r. reflexivity.
Qed.

Lemma sudoku_data_ok (k : nat) (h0 : heap) :
  (forall i, i < exactCoverRows (solver k) ->
     (forall p, p ∈ row_nodes (solver k) i ->
        rowData_of h0 p = id_vector (row_id (solver k) i))
     /\ column_of h0 <$> row_nodes (solver k) i
        = (fun j => j + 2) <$> row_columns (solver k) i) ->
  data_ok (sudoku_torus (solver k)) h0.
Proof.
  intros Hlab p Hp. apply sudoku_torus_nodes in Hp as (i & Hi & Hp).
  rewrite (proj1 (Hlab i Hi) p Hp). reflexivity.
Qed.

(** What [solve] returns, whatever the puzzle and the limit: solved
    grids that keep the digits of the clues found, and no more of them
    than the limit. *)
Lemma solve_grids (k : nat) (puzzle : grid) (limit : Z) (gs : list grid) :
  1 <= k -> solve (solver k) puzzle limit = Ok gs ->
  exists h s1 clues,
    initial_torus (solver k) = Ok (1, h)
    /\ applyInitialConstraints (solver k) (ring_fuel (solver k)) puzzle
         (mkState 1 (replicate (cellCount (solver k)) 0)
            (replicate (cellCount (solver k)) 0) h 0%Z []) = Ok s1
    /\ fixedClues s1 = pad (cellCount (solver k)) clues
    /\ Forall (clue_of puzzle h) clues
    /\ Forall (solved_with (solver k) h clues) gs
    /\ (Z.of_nat (length gs) <= Z.max 0 limit)%Z
    /\ NoDup gs.
Proof.
  intros Hk E. rewrite solve_unfold in E.
  destruct (negb (dimensions_ok (solver k) puzzle)); [discriminate |].
  destruct (solutions_max_size <? limit mod 2 ^ 64)%Z; [discriminate |].
  destruct (initial_torus_built k Hk) as (h & E0 & HR0 & Hlab).
  rewrite E0 in E. cbn [bind fst snd] in E.
  destruct (applyInitialConstraints (solver k) (ring_fuel (solver k)) puzzle _)
    as [s1 |] eqn:Ea; cbn [bind] in E; [| discriminate].
  destruct (applyInitialConstraints_partial (sudoku_torus (solver k)) (solver k)
              (ring_fuel (solver k)) puzzle h _ s1 (solve_start_state k h HR0)
              (sudoku_data_ok k h Hlab) (sudoku_enough_fuel (solver k)) Ea)
    as (clues & hs & Hs1 & Hcnt & Hsols & Hall).
  cbn [solutionCount solutions] in Hcnt, Hsols.
  exists h, s1, clues. split; [exact E0 |]. split; [exact Ea |].
  split; [apply Hs1 |]. split; [exact Hall |].
  pose proof (sudoku_search k _ h limit True clues hs [] s1 Hk
                (sudoku_depth _ _ _ _ _ _ _ Hs1) HR0 Hlab Hs1 (fun _ => I)) as Hout.
  cbn [length] in Hout.
  destruct (searchDLX _ (solver k) (ring_fuel (solver k)) 0 limit s1) as [s2 |] eqn:E2;
    cbn [bind outcome] in E, Hout; [| discriminate].
  injection E as <-.
  destruct Hout as (_ & _ & _ & _ & new & Hn & Hc & Hg & Hlim & _ & Hndnew & _).
  rewrite Hsols in Hn. cbn [app] in Hn. rewrite Hn.
  split; [| split; [| exact Hndnew]].
  { apply (Forall_impl _ _ _ Hg). intros g (nodes & [Hs Hkeeps] & _).
    split; [exact Hs |]. intros p Hp. apply Hkeeps. apply elem_of_app. auto. }
  rewrite Hcnt in Hc, Hlim.
  destruct (Z.leb_spec limit 0) as [Hle | Hgt].
  - cbn [searchDLX] in E2. rewrite Hcnt in E2.
    destruct (Z.leb_spec limit 0) as [_ | H]; [| lia].
    injection E2 as <-. rewrite Hsols in Hn. destruct new; [cbn; lia | discriminate].
  - lia.
Qed.
(** ** The clues of a puzzle that has a completion *)

Lemma node_data (h : heap) (p : nat) :
  length (rowData_of h p) = 3 ->
  rowData_of h p = [node_digit h p; (node_row h p + 1)%Z; (node_col h p + 1)%Z].
Proof.
  unfold node_digit, node_row, node_col. intros H.
  destruct (rowData_of h p) as [| a [| b [| c [| e l]]]]; try discriminate.
  cbn. f_equal. f_equal; [lia |]. f_equal. lia.
Qed.

Lemma filter_seq_S (P : nat -> Prop) `{!forall x, Decision (P x)} (n : nat) :
  filter P (seq 0 (S n)) = filter P (seq 0 n) ++ (if decide (P n) then [n] else []).
Proof.
  rewrite seq_S, filter_app. reflexivity.
Qed.

Lemma row_of_in (T : torus) (p x : nat) :
  x ∈ row_of T p -> p ∈ row_of T p /\ row_of T p ∈ t_rows T.
Proof.
  unfold row_of. intros Hx.
  destruct (filter (fun row => p ∈ row) (t_rows T)) as [| row l] eqn:E;
    [apply elem_of_nil in Hx; contradiction |].
  cbn in Hx |- *.
  assert (H : row ∈ filter (fun row => p ∈ row) (t_rows T)).
  { rewrite E. apply elem_of_cons. auto. }
  apply list_elem_of_filter in H. exact H.
Qed.

Section Extends.
Variable sv : SudokuDLXSolver.
Variable N : nat.
Hypothesis HN : gridSize sv = N.
Variables G puzzle : grid.
Hypothesis Hext : extends sv puzzle G = true.

Lemma extends_cell (r c : nat) :
  r < N -> c < N -> (0 < cell puzzle r c)%Z -> cell puzzle r c = cell G r c.
Proof.
  intros Hr Hc Hpos. unfold extends in Hext. rewrite HN in Hext.
  rewrite forallb_forall in Hext. specialize (Hext r ltac:(apply in_seq; lia)).
  rewrite forallb_forall in Hext. specialize (Hext c ltac:(apply in_seq; lia)).
  apply orb_true_iff in Hext as [H | H]; [apply Z.eqb_eq in H; lia |].
  apply Z.eqb_eq in H. exact H.
Qed.

Lemma extends_zero (r c : nat) :
  r < N -> c < N -> (0 < cell G r c)%Z -> (cell puzzle r c <= 0)%Z -> cell puzzle r c = 0%Z.
Proof.
  intros Hr Hc HG Hle. unfold extends in Hext. rewrite HN in Hext.
  rewrite forallb_forall in Hext. specialize (Hext r ltac:(apply in_seq; lia)).
  rewrite forallb_forall in Hext. specialize (Hext c ltac:(apply in_seq; lia)).
  apply orb_true_iff in Hext as [H | H]; apply Z.eqb_eq in H; lia.
Qed.
End Extends.

Section Located.
Variable sv : SudokuDLXSolver.
Variables N bs : nat.
Hypothesis HN : gridSize sv = N.
Hypothesis Hbs : blockSize sv = bs.
Hypothesis Hcc : cellCount sv = N * N.
Hypothesis HR : exactCoverRows sv = N * (N * N).
Hypothesis HC : exactCoverCols sv = 4 * (N * N).
Hypothesis Hsq : N = bs * bs.
Hypothesis Hbspos : 0 < bs.
Variable h0 : heap.
Hypothesis Hnd0 : NoDup (concat (t_rows (sudoku_torus sv))).
Hypothesis Hlab : forall i, i < exactCoverRows sv ->
  (forall p, p ∈ row_nodes sv i -> rowData_of h0 p = id_vector (row_id sv i))
  /\ column_of h0 <$> row_nodes sv i = (fun j => j + 2) <$> row_columns sv i.
Variables G puzzle : grid.
Hypothesis Hdig : forall r c, r < N -> c < N -> given N puzzle (r * N + c) ->
  exists d, d < N /\ cell G r c = Z.of_nat (d + 1).
Hypothesis Hinj : forall r c r' c',
  r < N -> c < N -> r' < N -> c' < N ->
  given N puzzle (r * N + c) -> given N puzzle (r' * N + c') ->
  cell G r c = cell G r' c' ->
  r = r' \/ c = c' \/ block_of sv r c = block_of sv r' c' ->
  r = r' /\ c = c'.
Hypothesis Hsame : forall r c, r < N -> c < N ->
  (0 < cell puzzle r c)%Z -> cell puzzle r c = cell G r c.
Variable fuel : nat.
Hypothesis Hfuel : enough_fuel (sudoku_torus sv) fuel.
Variable s0 : state.

Lemma data_ok_h0 : data_ok (sudoku_torus sv) h0.
Proof.
  intros p Hp. apply sudoku_torus_nodes in Hp as (i & Hi & Hp).
  rewrite (proj1 (Hlab i Hi) p Hp). reflexivity.
Qed.

(** One cell: a given digit is found and recorded. *)
Lemma located_step (i j : nat) (st : nat * state) :
  i < N -> j < N -> i < length puzzle -> j < length (nth i puzzle []) ->
  located_inv sv puzzle G h0 s0 (i * N + j) st ->
  exists st', clue_step fuel puzzle i j st = Ok st'
    /\ located_inv sv puzzle G h0 s0 (S (i * N + j)) st'.
Proof.
  intros Hi Hj Hil Hjl (clues & hs & Eidx & Hst & Hcomp & Hcnt & Hsols & Hrows).
  destruct st as [index s]. cbn [fst snd] in *. subst index.
  set (n := i * N + j) in *. set (T := sudoku_torus sv) in *.
  assert (Hn : n < N * N) by (unfold n; nia).
  destruct (divmod_intro N i j Hj) as [Ediv Emod]. fold n in Ediv, Emod.
  assert (Hlen : length clues <= n).
  { apply (f_equal length) in Hrows. rewrite !length_fmap in Hrows. rewrite Hrows.
    etransitivity; [apply length_filter |]. rewrite length_seq. lia. }
  destruct (clue_step_state T (cellCount sv) fuel puzzle i j clues h0 hs s Hst
              data_ok_h0 Hfuel ltac:(rewrite Hcc; lia) Hil Hjl)
    as (p & hs' & s' & Efind & Estep & Hst' & Hcnt' & Hsols' & Hp & Hcomp').
  eexists. split; [exact Estep |].
  exists (if p =? 0 then clues else clues ++ [p]), hs'. cbn [fst snd].
  split; [reflexivity |]. split; [exact Hst' |]. split; [apply Hcomp'; exact Hcomp |].
  split; [congruence |]. split; [congruence |].
  rewrite HN, filter_seq_S.
  pose proof Hst as (Hroot & Hwf & Hdata & _ & _ & Hpart).
  destruct (decide (given N puzzle n)) as [Hpos | Hpos];
    unfold given in Hpos; rewrite Ediv, Emod in Hpos.
  2:{ destruct (Z.ltb_spec 0 (cell puzzle i j)) as [| _]; [contradiction |].
      subst p. cbn [Nat.eqb]. rewrite app_nil_r. rewrite <- HN. exact Hrows. }
  destruct (Z.ltb_spec 0 (cell puzzle i j)) as [_ | ]; [| lia].
  assert (Hgv : given N puzzle n) by (unfold given; rewrite Ediv, Emod; exact Hpos).
  destruct (partial_node_spec sv N bs HN Hbs Hcc HR HC Hsq Hbspos h0 Hnd0 Hlab G (given N puzzle) Hdig n Hn Hgv)
    as (d & Hd & Ed & Hgin & Hg0 & Egdata & Egcols).
  rewrite Ediv, Emod in Ed, Egdata, Egcols.
  pose proof (Hsame i j Hi Hj Hpos) as Ev.
  destruct (row_of_node T (grid_node sv G n) Hnd0 Hgin) as [Hgrow Hgself].
  assert (Hp0 : p <> 0).
  { intros ->.
    apply (findNodeForClue_complete T hs s fuel (cell puzzle i j) i j
             (row_of T (grid_node sv G n)) (grid_node sv G n) Hroot Hwf Hcomp
             Hgrow Hgself Hg0); [| | exact Efind].
    - intros q Hq. rewrite (proj1 (Hdata q)).
      assert (Hx : column_of h0 q ∈ row_cols T h0 (grid_node sv G n)).
      { unfold row_cols. apply list_elem_of_fmap. eauto. }
      assert (Hcol : column_of h0 q ∈ t_cols T).
      { change (column_of h0 q ∈ seq 2 (exactCoverCols sv)).
        pose proof Hx as Hx'. unfold T in Hx'. rewrite Egcols in Hx'.
        destruct (columns_in_blocks sv N bs HN Hbs Hcc HR HC Hsq Hbspos _ _ d Hi Hj Hd)
          as (B1 & B2 & B3 & B4).
        apply elem_of_seq. rewrite HC. cbn [fmap list_fmap] in Hx'.
        repeat (apply elem_of_cons in Hx' as [-> | Hx']; [lia |]).
        apply elem_of_nil in Hx'. contradiction. }
      destruct Hpart as [_ Hperm]. rewrite <- Hperm in Hcol. cbn [app] in Hcol.
      apply elem_of_app in Hcol as [Hcol | Hcol]; [exact Hcol | exfalso].
      apply elem_of_concat in Hcol as (cols & Hcols & Hxc).
      apply list_elem_of_fmap in Hcols as (p' & -> & Hp').
      assert (Hrp : row_of T p' ∈ row_of T <$> clues).
      { apply list_elem_of_fmap. eauto. }
      rewrite Hrows in Hrp. apply list_elem_of_fmap in Hrp as (n' & Ern & Hn').
      apply list_elem_of_filter in Hn' as [Hgv' Hn']. apply elem_of_seq in Hn'.
      rewrite HN in Hgv'.
      assert (n = n'); [| lia].
      apply (partial_rows_disjoint sv N bs HN Hbs Hcc HR HC Hsq Hbspos h0 Hnd0 Hlab G (given N puzzle) Hdig Hinj
               n n' (column_of h0 q) Hn ltac:(lia) Hgv Hgv' Hx).
      unfold row_cols in Hxc |- *. cbv beta in Ern. fold T. rewrite <- Ern. exact Hxc.
    - rewrite (proj2 (Hdata _)), Egdata, Ev, Ed.
      repeat f_equal; lia. }
  destruct (Nat.eqb_spec p 0) as [| _]; [contradiction |].
  rewrite <- HN. fold T. rewrite !fmap_app, Hrows. f_equal. cbn. f_equal.
  destruct (Hp Hp0) as (Hpin & Er & Ec & Edg & _).
  apply (same_data_row sv N bs HN Hbs Hcc HR HC Hsq Hbspos h0 Hnd0 Hlab G (given N puzzle) Hdig Hinj p _ Hpin Hgin).
  rewrite (node_data h0 p (data_ok_h0 p Hpin)), Egdata, Er, Ec, Edg, Ev, Ed.
  repeat f_equal; lia.
Qed.

(** All the cells: every given digit is recorded. *)
Lemma located_all :
  is_square sv puzzle = true ->
  located_inv sv puzzle G h0 s0 0 (0, s0) ->
  exists st,
    applyInitialConstraints sv fuel puzzle s0 = Ok st.2
    /\ located_inv sv puzzle G h0 s0 (N * N) st.
Proof.
  intros Hsqp H0. unfold is_square in Hsqp. rewrite HN in Hsqp.
  apply andb_true_iff in Hsqp as [Hlen Hrows].
  apply Nat.eqb_eq in Hlen. rewrite forallb_forall in Hrows.
  assert (Hrow : forall i, i < N -> length (nth i puzzle []) = N).
  { intros i Hi. apply Nat.eqb_eq. apply Hrows. apply nth_In. lia. }
  unfold applyInitialConstraints. rewrite HN.
  destruct (for_range_inv (fun i st => located_inv sv puzzle G h0 s0 (i * N) st)
    (fun i st => for_range N 0 (clue_step fuel puzzle i) st) N 0 (0, s0))
    as (st & E & Hst).
  - exact H0.
  - intros i st Hi Hst.
    destruct (for_range_inv (fun j st => located_inv sv puzzle G h0 s0 (i * N + j) st)
      (clue_step fuel puzzle i) N 0 st) as (st' & E' & Hst').
    + rewrite Nat.add_0_r. exact Hst.
    + intros j st1 Hj Hst1. rewrite Nat.add_succ_r.
      apply (located_step i j st1); try lia; [rewrite Hrow; lia | exact Hst1].
    + exists st'. split; [exact E' |].
      replace (S i * N) with (i * N + (0 + N)) by lia. exact Hst'.
  - exists st. rewrite E. cbn [bind]. split; [reflexivity |].
    replace (N * N) with ((0 + N) * N) by lia. exact Hst.
Qed.

Section After.
Variables clues hs : list nat.
Hypothesis Hpart : partition_of (sudoku_torus sv) h0 hs clues.
Hypothesis Hrows :
  row_of (sudoku_torus sv) <$> clues
  = (fun n' => row_of (sudoku_torus sv) (grid_node sv G n'))
      <$> filter (given (gridSize sv) puzzle) (seq 0 (N * N)).

Lemma located_given (n : nat) :
  n < N * N -> given N puzzle n ->
  exists p, p ∈ clues
    /\ row_of (sudoku_torus sv) p = row_of (sudoku_torus sv) (grid_node sv G n).
Proof.
  intros Hn Hgiven.
  assert (H : row_of (sudoku_torus sv) (grid_node sv G n)
              ∈ row_of (sudoku_torus sv) <$> clues).
  { rewrite Hrows.
    apply (list_elem_of_fmap_2 (fun n' => row_of (sudoku_torus sv) (grid_node sv G n'))).
    apply list_elem_of_filter. rewrite HN. split; [exact Hgiven |].
    apply elem_of_seq. lia. }
  apply list_elem_of_fmap in H as (p & E & Hp). eauto.
Qed.

Lemma located_count :
  length clues = length (filter (given N puzzle) (seq 0 (N * N))).
Proof.
  pose proof (f_equal length Hrows) as H. rewrite !length_fmap, HN in H. exact H.
Qed.

(** A grid that keeps the nodes of the clues keeps the given digits of
    the puzzle. *)
Lemma located_extends (g : grid) :
  (forall r c, r < N -> c < N -> (cell puzzle r c <= 0)%Z -> cell puzzle r c = 0%Z) ->
  (forall p, p ∈ clues -> keeps_node h0 g p) -> extends sv puzzle g = true.
Proof.
  intros Hzero Hkeeps. unfold extends. rewrite HN.
  apply forallb_forall. intros r Hr. apply forallb_forall. intros c Hc.
  apply in_seq in Hr, Hc. apply orb_true_iff.
  destruct (Z.ltb_spec 0 (cell puzzle r c)) as [Hpos | Hnpos].
  - right. apply Z.eqb_eq.
    assert (Hn : r * N + c < N * N) by nia.
    destruct (divmod_intro N r c ltac:(lia)) as [E1 E2].
    assert (Hgv : given N puzzle (r * N + c)) by (unfold given; rewrite E1, E2; exact Hpos).
    destruct (located_given (r * N + c) Hn Hgv) as (p & Hp & Erow).
    destruct (partial_node_spec sv N bs HN Hbs Hcc HR HC Hsq Hbspos h0 Hnd0 Hlab G (given N puzzle) Hdig _ Hn Hgv)
      as (d & Hd & Ed & Hgin & _ & Egdata & _).
    rewrite E1, E2 in Ed, Egdata.
    apply (same_data_row sv N bs HN Hbs Hcc HR HC Hsq Hbspos h0 Hnd0 Hlab G (given N puzzle) Hdig Hinj p _
             (proj1 Hpart p Hp) Hgin) in Erow.
    pose proof (Hkeeps p Hp) as K. unfold keeps_node, node_row, node_col, node_digit in K.
    rewrite Erow, Egdata in K. cbn [nth] in K.
    replace (Z.to_nat (Z.of_nat (r + 1) - 1)) with r in K by lia.
    replace (Z.to_nat (Z.of_nat (c + 1) - 1)) with c in K by lia.
    rewrite K, <- Ed. apply Hsame; [lia | lia | exact Hpos].
  - left. apply Z.eqb_eq. apply Hzero; lia.
Qed.
End After.
End Located.

Section Completed.
Variable sv : SudokuDLXSolver.
Variables N bs : nat.
Hypothesis HN : gridSize sv = N.
Hypothesis Hbs : blockSize sv = bs.
Hypothesis Hcc : cellCount sv = N * N.
Hypothesis HR : exactCoverRows sv = N * (N * N).
Hypothesis HC : exactCoverCols sv = 4 * (N * N).
Hypothesis Hsq : N = bs * bs.
Hypothesis Hbspos : 0 < bs.
Variable h0 : heap.
Hypothesis Hnd0 : NoDup (concat (t_rows (sudoku_torus sv))).
Hypothesis Hlab : forall i, i < exactCoverRows sv ->
  (forall p, p ∈ row_nodes sv i -> rowData_of h0 p = id_vector (row_id sv i))
  /\ column_of h0 <$> row_nodes sv i = (fun j => j + 2) <$> row_columns sv i.
Variable G : grid.
Hypothesis HG : is_solved sv G = true.
Variable puzzle : grid.
Variables clues hs : list nat.
Hypothesis Hpart : partition_of (sudoku_torus sv) h0 hs clues.
Hypothesis Hrows :
  row_of (sudoku_torus sv) <$> clues
  = (fun n' => row_of (sudoku_torus sv) (grid_node sv G n'))
      <$> filter (given (gridSize sv) puzzle) (seq 0 (N * N)).

(** The rows of the completion for the cells that are not given cover
    exactly the columns that are still linked. *)
Lemma located_cover :
  exact_cover (sudoku_torus sv) h0 hs
    (grid_node sv G <$> filter (fun n => ~ given N puzzle n) (seq 0 (N * N))).
Proof.
  split.
  - intros p Hp. apply list_elem_of_fmap in Hp as (n & -> & Hn).
    apply list_elem_of_filter in Hn as [_ Hn]. apply elem_of_seq in Hn.
    destruct (grid_node_spec sv N bs HN Hbs Hcc HR HC Hsq Hbspos h0 Hnd0 Hlab G HG n
                ltac:(lia)) as (d & _ & _ & Hin & _).
    exact Hin.
  - destruct Hpart as [_ Hperm].
    apply (Permutation_app_inv_r (concat (row_cols (sudoku_torus sv) h0 <$> clues))).
    rewrite Hperm. cbn [sudoku_torus t_cols].
    rewrite <- (grid_rows_cover sv N bs HN Hbs Hcc HR HC Hsq Hbspos h0 Hnd0 Hlab G HG).
    assert (Ec : row_cols (sudoku_torus sv) h0 <$> clues
                 = row_cols (sudoku_torus sv) h0
                     <$> (grid_node sv G <$> filter (given N puzzle) (seq 0 (N * N)))).
    { transitivity (fmap (column_of h0) <$> (row_of (sudoku_torus sv) <$> clues)).
      - rewrite <- list_fmap_compose. reflexivity.
      - rewrite Hrows, HN, <- !list_fmap_compose. reflexivity. }
    rewrite Ec, <- concat_app, <- !fmap_app.
    apply perm_concat_fmap. apply fmap_Permutation.
    rewrite Permutation_app_comm. apply filter_app_complement.
Qed.

(** A grid that keeps the nodes of the clues and of a cover of the
    linked columns by the rows of the completion is the completion. *)
Lemma located_grid (ext : list nat) (g : grid) :
  row_of (sudoku_torus sv) <$> ext
  ≡ₚ row_of (sudoku_torus sv)
       <$> (grid_node sv G <$> filter (fun n => ~ given N puzzle n) (seq 0 (N * N))) ->
  square_grid N g ->
  (forall p, p ∈ ext ++ clues -> keeps_node h0 g p) ->
  g = G.
Proof.
  intros Hperm Hg Hkeeps.
  pose proof (solved_square sv N bs HN Hbs Hsq Hbspos G HG) as HGsq.
  assert (Hcell : forall n, n < N * N ->
            cell g (n / N) (n mod N) = cell G (n / N) (n mod N)).
  { intros n Hn.
    destruct (grid_node_spec sv N bs HN Hbs Hcc HR HC Hsq Hbspos h0 Hnd0 Hlab G HG n Hn)
      as (d & Hd & Ed & Hgin & _ & Egdata & _).
    assert (Hex : exists p, p ∈ ext ++ clues
                    /\ p ∈ concat (t_rows (sudoku_torus sv))
                    /\ row_of (sudoku_torus sv) p
                       = row_of (sudoku_torus sv) (grid_node sv G n)).
    { destruct (decide (given N puzzle n)) as [Hgv | Hgv].
      - destruct (located_given sv N bs HN Hbs Hcc HR HC Hsq Hbspos G puzzle clues Hrows n Hn Hgv)
          as (p & Hp & E). exists p.
        split; [apply elem_of_app; auto |]. split; [| exact E].
        apply (proj1 Hpart p Hp).
      - assert (H : row_of (sudoku_torus sv) (grid_node sv G n)
                    ∈ row_of (sudoku_torus sv) <$> ext).
        { rewrite Hperm. apply list_elem_of_fmap_2. apply list_elem_of_fmap_2.
          apply list_elem_of_filter. split; [exact Hgv |]. apply elem_of_seq. lia. }
        apply list_elem_of_fmap in H as (p & E & Hp). exists p.
        split; [apply elem_of_app; auto |]. split; [| auto].
        destruct (row_of_node (sudoku_torus sv) _ Hnd0 Hgin) as [_ Hself].
        rewrite E in Hself. destruct (row_of_in _ _ _ Hself) as [H1 H2].
        apply elem_of_concat. eauto. }
    destruct Hex as (p & Hp & Hpin & Erow).
    apply (same_data_same_row sv N bs HN Hbs Hcc HR HC Hsq Hbspos h0 Hnd0 Hlab G HG p _
             Hpin Hgin) in Erow.
    pose proof (Hkeeps p Hp) as K. unfold keeps_node, node_row, node_col, node_digit in K.
    rewrite Erow, Egdata in K. cbn [nth] in K.
    replace (Z.to_nat (Z.of_nat (n / N + 1) - 1)) with (n / N) in K by lia.
    replace (Z.to_nat (Z.of_nat (n mod N + 1) - 1)) with (n mod N) in K by lia.
    rewrite K, Ed. reflexivity. }
  destruct Hg as [Hlen Hrowlen]. destruct HGsq as [HlenG HrowlenG].
  apply (nth_ext g G [] []); [lia |]. intros r Hr. rewrite Hlen in Hr.
  apply (nth_ext _ _ 0%Z 0%Z); [rewrite Hrowlen, HrowlenG by lia; reflexivity |].
  intros c Hc. rewrite Hrowlen in Hc by lia.
  specialize (Hcell (r * N + c) ltac:(nia)).
  destruct (divmod_intro N r c Hc) as [E1 E2]. rewrite E1, E2 in Hcell. exact Hcell.
Qed.

End Completed.
(** ** [solve] on a puzzle that has a completion *)

Lemma initial_complete (T : torus) (hs : list nat) (h : heap) :
  Rep T hs (column_nodes T h) h -> complete T hs h.
Proof.
  intros HR. apply (complete_vr T hs _ h HR). intros row q Hrow _ Hq.
  unfold column_nodes. apply list_elem_of_filter. split; [reflexivity |].
  apply elem_of_concat. eauto.
Qed.

Lemma valid_completion_parts (sv : SudokuDLXSolver) (puzzle G : grid) :
  valid_completion sv puzzle G = true <->
  is_solved sv G = true /\ extends sv puzzle G = true.
Proof. unfold valid_completion. apply andb_true_iff. Qed.

(** What a completion gives for the cells of the puzzle. *)
Lemma completion_digit (k : nat) (puzzle G : grid) (r c : nat) :
  1 <= k -> is_solved (solver k) G = true ->
  r < k * k -> c < k * k -> given (k * k) puzzle (r * (k * k) + c) ->
  exists d, d < k * k /\ cell G r c = Z.of_nat (d + 1).
Proof.
  intros Hk HG Hr Hc _.
  apply (solved_digit (solver k) (k * k) k eq_refl eq_refl eq_refl ltac:(lia) G HG r c Hr Hc).
Qed.

Lemma completion_inj (k : nat) (puzzle G : grid) (r c r' c' : nat) :
  1 <= k -> is_solved (solver k) G = true ->
  r < k * k -> c < k * k -> r' < k * k -> c' < k * k ->
  given (k * k) puzzle (r * (k * k) + c) -> given (k * k) puzzle (r' * (k * k) + c') ->
  cell G r c = cell G r' c' ->
  r = r' \/ c = c' \/ block_of (solver k) r c = block_of (solver k) r' c' ->
  r = r' /\ c = c'.
Proof.
  intros Hk HG Hr Hc Hr' Hc' _ _.
  apply (solved_unit_inj (solver k) (k * k) k eq_refl eq_refl eq_refl ltac:(lia) G HG
           r c r' c' Hr Hc Hr' Hc').
Qed.

(** The state in which the search starts, for a puzzle of [N] rows of
    [N] entries whose given digits are digits of the grid [G], no two
    of them equal in a row, a column or a block. *)
Lemma solve_located_rows (k : nat) (puzzle G : grid) :
  1 <= k -> is_square (solver k) puzzle = true ->
  (forall r c, r < k * k -> c < k * k -> given (k * k) puzzle (r * (k * k) + c) ->
     exists d, d < k * k /\ cell G r c = Z.of_nat (d + 1)) ->
  (forall r c r' c', r < k * k -> c < k * k -> r' < k * k -> c' < k * k ->
     given (k * k) puzzle (r * (k * k) + c) -> given (k * k) puzzle (r' * (k * k) + c') ->
     cell G r c = cell G r' c' ->
     r = r' \/ c = c' \/ block_of (solver k) r c = block_of (solver k) r' c' ->
     r = r' /\ c = c') ->
  (forall r c, r < k * k -> c < k * k ->
     (0 < cell puzzle r c)%Z -> cell puzzle r c = cell G r c) ->
  exists h s1 clues hs,
    initial_torus (solver k) = Ok (1, h)
    /\ Rep (sudoku_torus (solver k)) (seq 2 (exactCoverCols (solver k)))
         (column_nodes (sudoku_torus (solver k)) h) h
    /\ (forall i, i < exactCoverRows (solver k) ->
          (forall p, p ∈ row_nodes (solver k) i ->
             rowData_of h p = id_vector (row_id (solver k) i))
          /\ column_of h <$> row_nodes (solver k) i
             = (fun j => j + 2) <$> row_columns (solver k) i)
    /\ applyInitialConstraints (solver k) (ring_fuel (solver k)) puzzle
         (mkState 1 (replicate (cellCount (solver k)) 0)
            (replicate (cellCount (solver k)) 0) h 0%Z []) = Ok s1
    /\ search_state (sudoku_torus (solver k)) (cellCount (solver k)) clues h hs [] s1
    /\ complete (sudoku_torus (solver k)) hs (allNodes s1)
    /\ solutionCount s1 = 0%Z /\ solutions s1 = []
    /\ row_of (sudoku_torus (solver k)) <$> clues
       = (fun n' => row_of (sudoku_torus (solver k)) (grid_node (solver k) G n'))
           <$> filter (given (gridSize (solver k)) puzzle) (seq 0 (k * k * (k * k))).
Proof.
  intros Hk Hsqp Hdig Hinj Hsame.
  destruct (initial_torus_built k Hk) as (h & E0 & HR0 & Hlab).
  exists h.
  set (s0 := mkState 1 (replicate (cellCount (solver k)) 0)
               (replicate (cellCount (solver k)) 0) h 0%Z []).
  destruct (located_all (solver k) (k * k) k eq_refl eq_refl eq_refl eq_refl eq_refl
              eq_refl ltac:(lia) h (Rep_rows_NoDup _ _ _ _ HR0) Hlab G puzzle
              Hdig Hinj Hsame
              (ring_fuel (solver k)) (sudoku_enough_fuel (solver k)) s0 Hsqp)
    as ([idx s1] & Ea & (clues & hs & _ & Hs1 & Hcomp & Hcnt & Hsols & Hrows)).
  - exists [], (seq 2 (exactCoverCols (solver k))). cbn [fst snd].
    split; [reflexivity |]. split; [apply (solve_start_state k h HR0) |].
    split; [apply (initial_complete _ _ _ HR0) |]. auto.
  - cbn [fst snd] in *. exists s1, clues, hs. auto 10.
Qed.

(** The state in which the search starts, for a puzzle of [N] rows of
    [N] entries that the solved grid [G] completes. *)
Lemma solve_located (k : nat) (puzzle G : grid) :
  1 <= k -> is_square (solver k) puzzle = true ->
  valid_completion (solver k) puzzle G = true ->
  exists h s1 clues hs,
    initial_torus (solver k) = Ok (1, h)
    /\ Rep (sudoku_torus (solver k)) (seq 2 (exactCoverCols (solver k)))
         (column_nodes (sudoku_torus (solver k)) h) h
    /\ (forall i, i < exactCoverRows (solver k) ->
          (forall p, p ∈ row_nodes (solver k) i ->
             rowData_of h p = id_vector (row_id (solver k) i))
          /\ column_of h <$> row_nodes (solver k) i
             = (fun j => j + 2) <$> row_columns (solver k) i)
    /\ applyInitialConstraints (solver k) (ring_fuel (solver k)) puzzle
         (mkState 1 (replicate (cellCount (solver k)) 0)
            (replicate (cellCount (solver k)) 0) h 0%Z []) = Ok s1
    /\ search_state (sudoku_torus (solver k)) (cellCount (solver k)) clues h hs [] s1
    /\ complete (sudoku_torus (solver k)) hs (allNodes s1)
    /\ solutionCount s1 = 0%Z /\ solutions s1 = []
    /\ row_of (sudoku_torus (solver k)) <$> clues
       = (fun n' => row_of (sudoku_torus (solver k)) (grid_node (solver k) G n'))
           <$> filter (given (gridSize (solver k)) puzzle) (seq 0 (k * k * (k * k))).
Proof.
  intros Hk Hsqp Hvalid. apply valid_completion_parts in Hvalid as [HG Hext].
  apply (solve_located_rows k puzzle G Hk Hsqp).
  - intros r c. apply (completion_digit k puzzle G r c Hk HG).
  - intros r c r' c'. apply (completion_inj k puzzle G r c r' c' Hk HG).
  - apply (extends_cell (solver k) (k * k) eq_refl G puzzle Hext).
Qed.

(** What [solve] returns for such a puzzle, when it returns. *)
Lemma solve_completions (k : nat) (puzzle G : grid) (limit : Z) (gs : list grid) :
  1 <= k -> is_square (solver k) puzzle = true ->
  valid_completion (solver k) puzzle G = true ->
  solve (solver k) puzzle limit = Ok gs ->
  Forall (fun g => valid_completion (solver k) puzzle g = true) gs
  /\ ((Z.of_nat (length gs) < limit)%Z -> G ∈ gs).
Proof.
  intros Hk Hsqp Hvalid E.
  destruct (solve_located k puzzle G Hk Hsqp Hvalid)
    as (h & s1 & clues & hs & E0 & HR0 & Hlab & Ea & Hs1 & Hcomp & Hcnt & Hsols & Hrows).
  apply valid_completion_parts in Hvalid as [HG Hext].
  rewrite solve_unfold in E.
  destruct (negb (dimensions_ok (solver k) puzzle)); [discriminate |].
  destruct (solutions_max_size <? limit mod 2 ^ 64)%Z; [discriminate |].
  rewrite E0 in E. cbn [bind fst snd] in E. rewrite Ea in E. cbn [bind] in E.
  pose proof (sudoku_search k _ h limit True clues hs [] s1 Hk
                (sudoku_depth _ _ _ _ _ _ _ Hs1) HR0 Hlab Hs1 (fun _ => I)) as Hout.
  cbn [length] in Hout.
  destruct (searchDLX _ (solver k) (ring_fuel (solver k)) 0 limit s1) as [s2 |] eqn:E2;
    cbn [bind outcome] in E, Hout; [| discriminate].
  injection E as <-.
  destruct Hout as (_ & _ & _ & _ & new & Hn & Hc & Hg & _ & _ & _ & Hfound).
  rewrite Hsols in Hn. cbn [app] in Hn. rewrite Hn. rewrite Hcnt in Hc.
  pose proof (Rep_rows_NoDup _ _ _ _ HR0) as Hnd0.
  assert (Hpart : partition_of (sudoku_torus (solver k)) h hs clues) by apply Hs1.
  split.
  - apply (Forall_impl _ _ _ Hg). intros g (nodes & [Hsolved Hkeeps] & _).
    apply valid_completion_parts. split; [exact Hsolved |].
    apply (located_extends (solver k) (k * k) k eq_refl eq_refl eq_refl eq_refl eq_refl
             eq_refl ltac:(lia) h Hnd0 Hlab G puzzle
             (fun r c => completion_digit k puzzle G r c Hk HG)
             (fun r c r' c' => completion_inj k puzzle G r c r' c' Hk HG)
             (extends_cell (solver k) (k * k) eq_refl G puzzle Hext)
             clues hs Hpart Hrows).
    + intros r c Hr Hcc.
      destruct (solved_digit (solver k) (k * k) k eq_refl eq_refl eq_refl ltac:(lia) G HG
                  r c Hr Hcc) as (d & _ & Ed).
      apply (extends_zero (solver k) (k * k) eq_refl G puzzle Hext r c Hr Hcc). lia.
    + intros p Hp. apply Hkeeps. apply elem_of_app. auto.
  - intros Hlt.
    destruct (Hfound Hcomp ltac:(lia) _
                (located_cover (solver k) (k * k) k eq_refl eq_refl eq_refl eq_refl eq_refl
                   eq_refl ltac:(lia) h Hnd0 Hlab G HG puzzle clues hs Hpart Hrows))
      as (ext & g & Hperm & Hgin & [Hsolved Hkeeps] & _).
    cbn [app] in Hkeeps.
    assert (g = G); [| subst g; exact Hgin].
    apply (located_grid (solver k) (k * k) k eq_refl eq_refl eq_refl eq_refl eq_refl
             eq_refl ltac:(lia) h Hnd0 Hlab G HG puzzle clues hs Hpart Hrows ext g Hperm).
    + apply (solved_square (solver k) (k * k) k eq_refl eq_refl eq_refl ltac:(lia) g Hsolved).
    + exact Hkeeps.
Qed.

(** [solve] returns when every given digit is found, the puzzle gives
    a digit and leaves a cell open, and the limit is one that [reserve]
    accepts. *)
Lemma solve_total_rows (k : nat) (puzzle G : grid) (limit : Z) (n1 n2 : nat) :
  1 <= k -> is_square (solver k) puzzle = true ->
  (forall r c, r < k * k -> c < k * k -> given (k * k) puzzle (r * (k * k) + c) ->
     exists d, d < k * k /\ cell G r c = Z.of_nat (d + 1)) ->
  (forall r c r' c', r < k * k -> c < k * k -> r' < k * k -> c' < k * k ->
     given (k * k) puzzle (r * (k * k) + c) -> given (k * k) puzzle (r' * (k * k) + c') ->
     cell G r c = cell G r' c' ->
     r = r' \/ c = c' \/ block_of (solver k) r c = block_of (solver k) r' c' ->
     r = r' /\ c = c') ->
  (forall r c, r < k * k -> c < k * k ->
     (0 < cell puzzle r c)%Z -> cell puzzle r c = cell G r c) ->
  (0 <= limit <= solutions_max_size)%Z ->
  n1 < k * k * (k * k) -> given (k * k) puzzle n1 ->
  n2 < k * k * (k * k) -> ~ given (k * k) puzzle n2 ->
  exists gs, solve (solver k) puzzle limit = Ok gs.
Proof.
  intros Hk Hsqp Hdig Hinj Hsame Hlimit Hn1 Hg1 Hn2 Hg2.
  destruct (solve_located_rows k puzzle G Hk Hsqp Hdig Hinj Hsame)
    as (h & s1 & clues & hs & E0 & HR0 & Hlab & Ea & Hs1 & Hcomp & Hcnt & Hsols & Hrows).
  rewrite solve_unfold.
  rewrite (is_square_dimensions_ok _ _ Hsqp). cbn [negb].
  assert (Hmod : (limit mod 2 ^ 64 = limit)%Z).
  { apply Z.mod_small. split; [lia |].
    assert (solutions_max_size < 2 ^ 64)%Z by reflexivity. lia. }
  rewrite Hmod. destruct (Z.ltb_spec solutions_max_size limit) as [| _]; [lia |].
  rewrite E0. cbn [bind fst snd]. rewrite Ea. cbn [bind].
  assert (Hlen : 1 <= length clues < cellCount (solver k)).
  { apply (f_equal length) in Hrows. rewrite !length_fmap in Hrows. rewrite Hrows.
    change (gridSize (solver k)) with (k * k).
    change (cellCount (solver k)) with (k * k * (k * k)). split.
    - assert (H : n1 ∈ filter (given (k * k) puzzle) (seq 0 (k * k * (k * k)))).
      { apply list_elem_of_filter. split; [exact Hg1 |]. apply elem_of_seq. lia. }
      destruct (filter _ _) as [| x l]; [apply elem_of_nil in H; contradiction |].
      cbn. lia.
    - pose proof (length_filter_lt (given (k * k) puzzle) (seq 0 (k * k * (k * k))) n2
                    ltac:(apply elem_of_seq; lia) Hg2) as H.
      rewrite length_seq in H. exact H. }
  pose proof (sudoku_search k _ h limit False clues hs [] s1 Hk
                (sudoku_depth _ _ _ _ _ _ _ Hs1) HR0 Hlab Hs1
                (fun H => H Hlen)) as Hout.
  cbn [length] in Hout.
  destruct (searchDLX _ (solver k) (ring_fuel (solver k)) 0 limit s1) as [s2 |];
    cbn [bind outcome] in Hout |- *; [eauto | contradiction].
Qed.

(** [solve] returns for a puzzle that has a completion when it gives a
    digit and leaves a cell open, and the limit is one that [reserve]
    accepts. *)
Lemma solve_total (k : nat) (puzzle G : grid) (limit : Z) (n1 n2 : nat) :
  1 <= k -> is_square (solver k) puzzle = true ->
  valid_completion (solver k) puzzle G = true ->
  (0 <= limit <= solutions_max_size)%Z ->
  n1 < k * k * (k * k) -> given (k * k) puzzle n1 ->
  n2 < k * k * (k * k) -> ~ given (k * k) puzzle n2 ->
  exists gs, solve (solver k) puzzle limit = Ok gs.
Proof.
  intros Hk Hsqp Hvalid. apply valid_completion_parts in Hvalid as [HG Hext].
  apply (solve_total_rows k puzzle G limit n1 n2 Hk Hsqp).
  - intros r c. apply (completion_digit k puzzle G r c Hk HG).
  - intros r c r' c'. apply (completion_inj k puzzle G r c r' c' Hk HG).
  - apply (extends_cell (solver k) (k * k) eq_refl G puzzle Hext).
Qed.

(** The clues that [applyInitialConstraints] records for a puzzle that
    has a completion: one node for each given digit, in the order of
    the cells. *)
Lemma solve_records_givens (k : nat) (puzzle G : grid) :
  1 <= k -> is_square (solver k) puzzle = true ->
  valid_completion (solver k) puzzle G = true ->
  exists h s1 clues,
    initial_torus (solver k) = Ok (1, h)
    /\ applyInitialConstraints (solver k) (ring_fuel (solver k)) puzzle
         (mkState 1 (replicate (cellCount (solver k)) 0)
            (replicate (cellCount (solver k)) 0) h 0%Z []) = Ok s1
    /\ fixedClues s1 = pad (cellCount (solver k)) clues
    /\ rowData_of h <$> clues
       = (fun n => [cell puzzle (n / (k * k)) (n mod (k * k));
                    Z.of_nat (n / (k * k) + 1); Z.of_nat (n mod (k * k) + 1)])
           <$> filter (given (k * k) puzzle) (seq 0 (k * k * (k * k))).
Proof.
  intros Hk Hsqp Hvalid.
  destruct (solve_located k puzzle G Hk Hsqp Hvalid)
    as (h & s1 & clues & hs & E0 & HR0 & Hlab & Ea & Hs1 & Hcomp & Hcnt & Hsols & Hrows).
  apply valid_completion_parts in Hvalid as [HG Hext].
  exists h, s1, clues. split; [exact E0 |]. split; [exact Ea |].
  split; [apply Hs1 |].
  pose proof (Rep_rows_NoDup _ _ _ _ HR0) as Hnd0.
  assert (Hpart : partition_of (sudoku_torus (solver k)) h hs clues) by apply Hs1.
  change (gridSize (solver k)) with (k * k) in Hrows.
  apply list_eq. intros i. rewrite !list_lookup_fmap.
  pose proof (f_equal (fun l => l !! i) Hrows) as Hi. cbv beta in Hi.
  rewrite !list_lookup_fmap in Hi.
  destruct (clues !! i) as [p |] eqn:Ep;
    destruct (filter (given (k * k) puzzle) (seq 0 (k * k * (k * k))) !! i) as [n |] eqn:En;
    cbn in Hi |- *; try discriminate; [| reflexivity].
  injection Hi as Hi. f_equal.
  apply list_elem_of_lookup_2 in Ep, En.
  apply list_elem_of_filter in En as [Hgv Hn]. apply elem_of_seq in Hn.
  destruct (grid_node_spec (solver k) (k * k) k eq_refl eq_refl eq_refl eq_refl eq_refl
              eq_refl ltac:(lia) h Hnd0 Hlab G HG n ltac:(lia))
    as (d & Hd & Ed & Hgin & _ & Egdata & _).
  apply (same_data_same_row (solver k) (k * k) k eq_refl eq_refl eq_refl eq_refl eq_refl
           eq_refl ltac:(lia) h Hnd0 Hlab G HG p _ (proj1 Hpart p Ep) Hgin) in Hi.
  rewrite Hi, Egdata, <- Ed.
  assert (Hr : n / (k * k) < k * k) by (apply Nat.Div0.div_lt_upper_bound; lia).
  assert (Hc : n mod (k * k) < k * k) by (apply Nat.mod_upper_bound; nia).
  rewrite (extends_cell (solver k) (k * k) eq_refl G puzzle Hext _ _ Hr Hc Hgv).
  reflexivity.
Qed.

(** [solve] returns when the clues recorded leave [fixedClues] and
    [solution] their [nullptr]: at least one clue, and not a clue in
    every cell. *)
Lemma solve_total_recorded (k : nat) (puzzle : grid) (limit : Z) (v : list nat) :
  1 <= k -> is_square (solver k) puzzle = true ->
  (0 <= limit <= solutions_max_size)%Z ->
  recorded_clues (solver k) puzzle = Ok v ->
  head v <> Some 0 -> last v = Some 0 ->
  exists gs, solve (solver k) puzzle limit = Ok gs.
Proof.
  intros Hk Hsqp Hlimit Ev Hhead Hlast.
  destruct (initial_torus_built k Hk) as (h & E0 & HR0 & Hlab).
  destruct (applyInitialConstraints_state (sudoku_torus (solver k)) (solver k)
              (ring_fuel (solver k)) puzzle h _ (solve_start_state k h HR0)
              (sudoku_data_ok k h Hlab) (sudoku_enough_fuel (solver k)) eq_refl Hsqp)
    as (s1 & clues & hs & Ea & Hs1 & Hle & Hcnt & Hsols & Hall).
  unfold recorded_clues in Ev. rewrite E0 in Ev. cbn [bind fst snd] in Ev.
  rewrite Ea in Ev. cbn [bind] in Ev. injection Ev as <-.
  pose proof Hs1 as (_ & _ & _ & _ & Hclues & Hpart).
  rewrite Hclues in Hhead, Hlast. unfold pad in Hhead, Hlast.
  assert (Hnz : forall p, p ∈ clues -> p <> 0).
  { intros p Hp. destruct Hpart as [Hn _]. specialize (Hn p Hp).
    apply sudoku_torus_nodes in Hn as (i & _ & Hn). unfold row_nodes in Hn.
    apply elem_of_seq in Hn. lia. }
  assert (Hlen : 1 <= length clues < cellCount (solver k)).
  { split.
    - destruct clues as [| p clues]; [| cbn; lia]. exfalso. apply Hhead.
      cbn [app length]. rewrite Nat.sub_0_r.
      change (cellCount (solver k)) with (k * k * (k * k)).
      destruct (k * k * (k * k)) as [| m] eqn:E; [nia | reflexivity].
    - destruct (decide (length clues < cellCount (solver k))) as [| Hge]; [assumption |].
      exfalso. replace (cellCount (solver k) - length clues) with 0 in Hlast by lia.
      cbn [replicate] in Hlast. rewrite app_nil_r in Hlast.
      apply last_Some_elem_of in Hlast. apply (Hnz 0 Hlast). reflexivity. }
  rewrite solve_unfold.
  rewrite (is_square_dimensions_ok _ _ Hsqp). cbn [negb].
  assert (Hmod : (limit mod 2 ^ 64 = limit)%Z).
  { apply Z.mod_small. split; [lia |].
    assert (solutions_max_size < 2 ^ 64)%Z by reflexivity. lia. }
  rewrite Hmod. destruct (Z.ltb_spec solutions_max_size limit) as [| _]; [lia |].
  rewrite E0. cbn [bind fst snd]. rewrite Ea. cbn [bind].
  pose proof (sudoku_search k _ h limit False clues hs [] s1 Hk
                (sudoku_depth _ _ _ _ _ _ _ Hs1) HR0 Hlab Hs1
                (fun H => H Hlen)) as Hout.
  cbn [length] in Hout.
  destruct (searchDLX _ (solver k) (ring_fuel (solver k)) 0 limit s1) as [s2 |];
    cbn [bind outcome] in Hout |- *; [eauto | contradiction].
Qed.

(** [solve] stops at the limit when the puzzle has that many
    completions. *)
Lemma solve_reaches_limit (k : nat) (puzzle : grid) (limit : Z) (gs Gs : list grid) :
  1 <= k -> is_square (solver k) puzzle = true ->
  solve (solver k) puzzle limit = Ok gs ->
  NoDup Gs -> Forall (fun G => valid_completion (solver k) puzzle G = true) Gs ->
  (0 <= limit <= Z.of_nat (length Gs))%Z ->
  Z.of_nat (length gs) = limit.
Proof.
  intros Hk Hsqp E HndG HallG Hlimit.
  destruct (solve_grids k puzzle limit gs Hk E)
    as (h & s1 & clues & _ & _ & _ & _ & _ & Hle & _).
  destruct (Z.lt_ge_cases (Z.of_nat (length gs)) limit) as [Hlt | Hge]; [| lia].
  exfalso. rewrite Forall_forall in HallG.
  assert (Hsub : Gs ⊆+ gs).
  { apply NoDup_submseteq; [exact HndG |]. intros G HG.
    apply (proj2 (solve_completions k puzzle G limit gs Hk Hsqp (HallG G HG) E) Hlt). }
  apply submseteq_length in Hsub. lia.
Qed.

(** ** [solve] on a puzzle without two equal digits in a unit *)

Lemma puzzle_cell_range (sv : SudokuDLXSolver) (puzzle : grid) (r c : nat) :
  is_square sv puzzle = true -> entries_in_range sv puzzle = true ->
  r < gridSize sv -> c < gridSize sv ->
  (0 <= cell puzzle r c <= Z.of_nat (gridSize sv))%Z.
Proof.
  intros Hsqp Hrange Hr Hc. unfold is_square in Hsqp.
  apply andb_true_iff in Hsqp as [Hlen Hrows].
  apply Nat.eqb_eq in Hlen. rewrite forallb_forall in Hrows.
  assert (Hin : In (nth r puzzle []) puzzle) by (apply nth_In; lia).
  pose proof (Hrows _ Hin) as Hrow. apply Nat.eqb_eq in Hrow.
  unfold entries_in_range in Hrange. rewrite forallb_forall in Hrange.
  pose proof (Hrange _ Hin) as Hrg. rewrite forallb_forall in Hrg.
  specialize (Hrg (cell puzzle r c) ltac:(apply nth_In; lia)).
  apply andb_true_iff in Hrg as [H1 H2]. apply Z.leb_le in H1, H2. lia.
Qed.

Lemma consistent_inj (k : nat) (puzzle : grid) (r c r' c' : nat) :
  1 <= k -> consistent (solver k) puzzle = true ->
  r < k * k -> c < k * k -> r' < k * k -> c' < k * k ->
  given (k * k) puzzle (r * (k * k) + c) -> given (k * k) puzzle (r' * (k * k) + c') ->
  cell puzzle r c = cell puzzle r' c' ->
  r = r' \/ c = c' \/ block_of (solver k) r c = block_of (solver k) r' c' ->
  r = r' /\ c = c'.
Proof.
  intros Hk Hcons Hr Hc Hr' Hc' Hg _ Heq Hunit.
  unfold consistent in Hcons. rewrite forallb_forall in Hcons.
  change (cellCount (solver k)) with (k * k * (k * k)) in Hcons.
  specialize (Hcons (r * (k * k) + c) ltac:(apply in_seq; nia)).
  rewrite forallb_forall in Hcons.
  specialize (Hcons (r' * (k * k) + c') ltac:(apply in_seq; nia)).
  unfold clash in Hcons. change (gridSize (solver k)) with (k * k) in Hcons.
  unfold given in Hg.
  destruct (divmod_intro (k * k) r c Hc) as [E1 E2].
  destruct (divmod_intro (k * k) r' c' Hc') as [E1' E2'].
  rewrite E1, E2 in Hg. rewrite E1, E2, E1', E2' in Hcons.
  apply negb_true_iff in Hcons.
  destruct (Z.ltb_spec 0 (cell puzzle r c)) as [_ |]; [| lia].
  destruct (Z.eqb_spec (cell puzzle r c) (cell puzzle r' c')) as [_ |]; [| contradiction].
  cbn [andb] in Hcons.
  destruct (Nat.eqb_spec (r * (k * k) + c) (r' * (k * k) + c')) as [E | _].
  - pose proof (f_equal (fun n => n / (k * k)) E) as Ea.
    pose proof (f_equal (fun n => n mod (k * k)) E) as Eb.
    cbv beta in Ea, Eb. rewrite E1, E1' in Ea. rewrite E2, E2' in Eb. auto.
  - cbn [negb andb] in Hcons. exfalso.
    apply orb_false_iff in Hcons as [Hcons Hb]. apply orb_false_iff in Hcons as [Ha Hb'].
    apply Nat.eqb_neq in Ha, Hb, Hb'. tauto.
Qed.

Lemma consistent_digit (k : nat) (puzzle : grid) (r c : nat) :
  is_square (solver k) puzzle = true -> entries_in_range (solver k) puzzle = true ->
  r < k * k -> c < k * k -> given (k * k) puzzle (r * (k * k) + c) ->
  exists d, d < k * k /\ cell puzzle r c = Z.of_nat (d + 1).
Proof.
  intros Hsqp Hrange Hr Hc Hg. unfold given in Hg.
  destruct (divmod_intro (k * k) r c Hc) as [E1 E2]. rewrite E1, E2 in Hg.
  pose proof (puzzle_cell_range (solver k) puzzle r c Hsqp Hrange Hr Hc) as Hrg.
  change (gridSize (solver k)) with (k * k) in Hrg.
  exists (Z.to_nat (cell puzzle r c) - 1). lia.
Qed.

(** What [solve] returns for a puzzle whose given digits are digits
    1..N, no two of them equal in a row, a column or a block. *)
Lemma solve_consistent (k : nat) (puzzle : grid) (limit : Z) (gs : list grid) :
  1 <= k -> is_square (solver k) puzzle = true ->
  entries_in_range (solver k) puzzle = true ->
  consistent (solver k) puzzle = true ->
  solve (solver k) puzzle limit = Ok gs ->
  Forall (fun g => valid_completion (solver k) puzzle g = true) gs.
Proof.
  intros Hk Hsqp Hrange Hcons E.
  assert (Hrg : forall r c, r < k * k -> c < k * k ->
            (0 <= cell puzzle r c <= Z.of_nat (k * k))%Z).
  { intros r c Hr Hc. apply (puzzle_cell_range (solver k) puzzle r c Hsqp Hrange Hr Hc). }
  assert (Hdig : forall r c, r < k * k -> c < k * k ->
            given (k * k) puzzle (r * (k * k) + c) ->
            exists d, d < k * k /\ cell puzzle r c = Z.of_nat (d + 1)).
  { intros r c Hr Hc Hg. unfold given in Hg.
    destruct (divmod_intro (k * k) r c Hc) as [E1 E2]. rewrite E1, E2 in Hg.
    specialize (Hrg r c Hr Hc). exists (Z.to_nat (cell puzzle r c) - 1). lia. }
  pose proof (fun r c r' c' => consistent_inj k puzzle r c r' c' Hk Hcons) as Hinj.
  assert (Hsame : forall r c, r < k * k -> c < k * k ->
            (0 < cell puzzle r c)%Z -> cell puzzle r c = cell puzzle r c) by reflexivity.
  destruct (solve_located_rows k puzzle puzzle Hk Hsqp Hdig Hinj Hsame)
    as (h & s1 & clues & hs & E0 & HR0 & Hlab & Ea & Hs1 & Hcomp & Hcnt & Hsols & Hrows).
  rewrite solve_unfold in E.
  destruct (negb (dimensions_ok (solver k) puzzle)); [discriminate |].
  destruct (solutions_max_size <? limit mod 2 ^ 64)%Z; [discriminate |].
  rewrite E0 in E. cbn [bind fst snd] in E. rewrite Ea in E. cbn [bind] in E.
  pose proof (sudoku_search k _ h limit True clues hs [] s1 Hk
                (sudoku_depth _ _ _ _ _ _ _ Hs1) HR0 Hlab Hs1 (fun _ => I)) as Hout.
  cbn [length] in Hout.
  destruct (searchDLX _ (solver k) (ring_fuel (solver k)) 0 limit s1) as [s2 |] eqn:E2;
    cbn [bind outcome] in E, Hout; [| discriminate].
  injection E as <-.
  destruct Hout as (_ & _ & _ & _ & new & Hn & Hc & Hg & _ & _ & _ & Hfound).
  rewrite Hsols in Hn. cbn [app] in Hn. rewrite Hn.
  pose proof (Rep_rows_NoDup _ _ _ _ HR0) as Hnd0.
  assert (Hpart : partition_of (sudoku_torus (solver k)) h hs clues) by apply Hs1.
  apply (Forall_impl _ _ _ Hg). intros g (nodes & [Hsolved Hkeeps] & _).
  apply valid_completion_parts. split; [exact Hsolved |].
  apply (located_extends (solver k) (k * k) k eq_refl eq_refl eq_refl eq_refl eq_refl
           eq_refl ltac:(lia) h Hnd0 Hlab puzzle puzzle Hdig Hinj Hsame
           clues hs Hpart Hrows).
  - intros r c Hr Hcc Hle. specialize (Hrg r c Hr Hcc). lia.
  - intros p Hp. apply Hkeeps. apply elem_of_app. auto.
Qed.

(** [solve] returns for such a puzzle when it gives a digit and leaves
    a cell open, and the limit is one that [reserve] accepts. *)
Lemma solve_total_consistent (k : nat) (puzzle : grid) (limit : Z) (n1 n2 : nat) :
  1 <= k -> is_square (solver k) puzzle = true ->
  entries_in_range (solver k) puzzle = true ->
  consistent (solver k) puzzle = true ->
  (0 <= limit <= solutions_max_size)%Z ->
  n1 < k * k * (k * k) -> given (k * k) puzzle n1 ->
  n2 < k * k * (k * k) -> ~ given (k * k) puzzle n2 ->
  exists gs, solve (solver k) puzzle limit = Ok gs.
Proof.
  intros Hk Hsqp Hrange Hcons.
  apply (solve_total_rows k puzzle puzzle limit n1 n2 Hk Hsqp).
  - intros r c. apply (consistent_digit k puzzle r c Hsqp Hrange).
  - intros r c r' c'. apply (consistent_inj k puzzle r c r' c' Hk Hcons).
  - reflexivity.
Qed.

(** * Further properties of the code *)

(** ** The builder *)



(** X2.  In the torus that [solve] builds for the grid size
    [N = k * k] with [k] up to 28 (the sizes for which the [int]
    sizes of the source, the argument of [allNodes.reserve] among
    them, do not overflow), the four nodes of matrix row [i] are the nodes
    [4 N^2 + 2 + 4 i + t] for [t < 4]; each stores the digit
    [i mod N + 1], the grid row [i / N^2 + 1] and the grid column
    [i / N mod N + 1], and the [t]-th of them points to the header of
    the [t]-th constraint of the row: the cell, the digit in its row,
    the digit in its column, the digit in its block. *)
Theorem row_nodes_metadata (k : nat) :
  1 <= k <= 28 ->
  let sv := solver k in
  exists h,
    initial_torus sv = Ok (1, h)
    /\ forall i t, i < exactCoverRows sv -> t < 4 ->
         rowData_of h (exactCoverCols sv + 2 + 4 * i + t)
         = [Z.of_nat (i mod gridSize sv + 1);
            Z.of_nat (i / cellCount sv + 1);
            Z.of_nat (i / gridSize sv mod gridSize sv + 1)]
         /\ column_of h (exactCoverCols sv + 2 + 4 * i + t)
            = nth t (row_columns sv i) 0 + 2.
Proof.
  intros [Hk _] sv. subst sv. assert (HNpos : 0 < k * k) by (clear - Hk; nia).
  destruct (initial_torus_built k Hk) as (h & E & _ & Hlab).
  exists h. split; [exact E |]. intros i t Hi Ht.
  destruct (Hlab i Hi) as (L1 & L2). split.
  - rewrite L1 by (unfold row_nodes; apply elem_of_seq; lia).
    rewrite (row_id_closed (solver k) (k * k) eq_refl eq_refl HNpos).
    reflexivity.
  - unfold row_nodes, row_columns in L2. cbn [seq fmap list_fmap] in L2.
    injection L2 as E0 E1 E2 E3. unfold row_columns.
    destruct t as [| [| [| [| t]]]]; [| | | | lia]; cbn [nth].
    + rewrite Nat.add_0_r. exact E0.
    + rewrite Nat.add_1_r. exact E1.
    + replace (exactCoverCols (solver k) + 2 + 4 * i + 2)
        with (S (S (exactCoverCols (solver k) + 2 + 4 * i))) by lia. exact E2.
    + replace (exactCoverCols (solver k) + 2 + 4 * i + 3)
        with (S (S (S (exactCoverCols (solver k) + 2 + 4 * i)))) by lia. exact E3.
Qed.

Lemma row_nodes_metadata_witness :
  1 <= 2 <= 28
  /\ exists h,
       initial_torus solver4 = Ok (1, h)
       /\ rowData_of h (64 + 2 + 4 * 1 + 0) = [2; 1; 1]%Z
       /\ column_of h (64 + 2 + 4 * 1 + 3) = 49 + 2.
Proof.
  assert (H : 1 <= 2 <= 28) by lia. split; [exact H |].
  destruct (row_nodes_metadata 2 H) as (h & E & Hrow).
  exists h. split; [exact E |]. split.
  - apply (Hrow 1 0); cbn; lia.
  - apply (Hrow 1 3); cbn; lia.
Defined.

(** ** Cover and uncover *)

(** X3.  [coverColumn] on a column that is linked in the ring of the
    root returns.  Afterwards the column is out of the ring of the
    root, and the other nodes of every row that has a node in the
    column are out of their column rings; the row rings and the ring of
    the covered column are as before, and every column ring is again a
    ring through the nodes that are left. *)
Theorem coverColumn_hides_column (T : torus) (hs : list nat)
    (vr : nat -> list nat) (h : heap) (c : nat) (l1 l2 : list nat) (fuel : nat) :
  Rep T hs vr h -> hs = l1 ++ c :: l2 -> enough_fuel T fuel ->
  exists h',
    coverColumn fuel c h = Ok h'
    /\ Rep T (l1 ++ l2)
         (fun c' => filter (fun p => p ∉ hidden_by T (vr c)) (vr c')) h'.
Proof.
  intros HR Ehs Hfuel. eexists. split.
  - apply (coverColumn_spec T hs vr); [exact HR | | exact Hfuel].
    rewrite Ehs. apply elem_of_app. right. apply elem_of_cons. auto.
  - apply (cover_Rep T hs vr h c l1 l2 HR Ehs).
Qed.

Lemma coverColumn_hides_column_witness :
  exists h h',
    initial_torus (solver 1) = Ok (1, h)
    /\ coverColumn 10 3 h = Ok h'
    /\ Rep (sudoku_torus (solver 1)) ([2] ++ [4; 5])
         (fun c' => filter (fun p => p ∉ hidden_by (sudoku_torus (solver 1))
                                        (column_nodes (sudoku_torus (solver 1)) h 3))
                      (column_nodes (sudoku_torus (solver 1)) h c')) h'.
Proof.
  destruct (initial_torus_built 1 (le_n 1)) as (h & E & HR & _).
  destruct (coverColumn_hides_column (sudoku_torus (solver 1)) [2; 3; 4; 5]
              (column_nodes (sudoku_torus (solver 1)) h) h 3 [2] [4; 5] 10 HR eq_refl)
    as (h' & E' & HR').
  - unfold enough_fuel. cbn. lia.
  - exists h, h'. split; [exact E |]. split; [exact E' | exact HR'].
Defined.

(** X4.  [uncoverColumn] after [coverColumn] on a linked column both
    return, and every field of every node is then as it was before the
    cover, except possibly the left link of the root. *)
Theorem uncoverColumn_undoes_coverColumn (T : torus) (hs : list nat)
    (vr : nat -> list nat) (h : heap) (c fuel : nat) :
  Rep T hs vr h -> c ∈ hs -> enough_fuel T fuel ->
  exists h1 h2,
    coverColumn fuel c h = Ok h1 /\ uncoverColumn fuel c h1 = Ok h2
    /\ forall p,
         right_of h2 p = right_of h p /\ up_of h2 p = up_of h p
         /\ down_of h2 p = down_of h p /\ column_of h2 p = column_of h p
         /\ size_of h2 p = size_of h p /\ rowData_of h2 p = rowData_of h p
         /\ (p <> t_root T -> left_of h2 p = left_of h p).
Proof.
  intros HR Hc Hfuel.
  destruct (uncover_cover T hs vr h c fuel _ HR Hc Hfuel (same_links_refl _ _))
    as (h2 & E2 & Hsame).
  eexists. exists h2. split; [apply (coverColumn_spec T hs vr); assumption |].
  split; [exact E2 | exact Hsame].
Qed.

Lemma uncoverColumn_undoes_coverColumn_witness :
  exists h h1 h2,
    initial_torus (solver 1) = Ok (1, h)
    /\ coverColumn 10 3 h = Ok h1 /\ uncoverColumn 10 3 h1 = Ok h2
    /\ forall p,
         right_of h2 p = right_of h p /\ up_of h2 p = up_of h p
         /\ down_of h2 p = down_of h p /\ column_of h2 p = column_of h p
         /\ size_of h2 p = size_of h p /\ rowData_of h2 p = rowData_of h p
         /\ (p <> 1 -> left_of h2 p = left_of h p).
Proof.
  destruct (initial_torus_built 1 (le_n 1)) as (h & E & HR & _).
  destruct (uncoverColumn_undoes_coverColumn (sudoku_torus (solver 1)) [2; 3; 4; 5]
              (column_nodes (sudoku_torus (solver 1)) h) h 3 10 HR)
    as (h1 & h2 & E1 & E2 & Hsame).
  - apply elem_of_cons. right. apply elem_of_cons. left. reflexivity.
  - unfold enough_fuel. cbn. lia.
  - exists h, h1, h2. split; [exact E |]. split; [exact E1 |].
    split; [exact E2 | exact Hsame].
Defined.

(** X5.  Whatever the state of the nodes, a [coverColumn] that returns
    has changed no [column] pointer and no row metadata, no right link
    but that of the left neighbour of the header, and no left link but
    that of the right neighbour of the header. *)
Theorem coverColumn_keeps_rows (fuel c : nat) (h h' : heap) :
  coverColumn fuel c h = Ok h' ->
  forall q,
    column_of h' q = column_of h q /\ rowData_of h' q = rowData_of h q
    /\ (q <> left_of h c -> right_of h' q = right_of h q)
    /\ (q <> right_of h c -> left_of h' q = left_of h q).
Proof. apply coverColumn_frame. Qed.

Lemma coverColumn_keeps_rows_witness :
  exists h h',
    initial_torus (solver 1) = Ok (1, h)
    /\ coverColumn 10 3 h = Ok h'
    /\ forall q,
         column_of h' q = column_of h q /\ rowData_of h' q = rowData_of h q
         /\ (q <> left_of h 3 -> right_of h' q = right_of h q)
         /\ (q <> right_of h 3 -> left_of h' q = left_of h q).
Proof.
  destruct (initial_torus_built 1 (le_n 1)) as (h & E & HR & _).
  assert (E' : coverColumn 10 3 h
               = Ok (unlink_all (hidden_by (sudoku_torus (solver 1))
                                   (column_nodes (sudoku_torus (solver 1)) h 3))
                       (unlink_lr 3 h))).
  { apply (coverColumn_spec (sudoku_torus (solver 1)) [2; 3; 4; 5]); [exact HR | |].
    - apply elem_of_cons. right. apply elem_of_cons. left. reflexivity.
    - unfold enough_fuel. cbn. lia. }
  eexists h, _. split; [exact E |]. split; [exact E' |].
  apply (coverColumn_keeps_rows 10 3 h _ E').
Defined.

(** ** The search for the node of a clue *)

(** X6.  Whatever the state of the nodes, a [findNodeForClue] that
    returns a node other than [nullptr] returns a node whose metadata
    are the value, the row plus one and the column plus one that it was
    asked for. *)
Theorem findNodeForClue_sound (fuel : nat) (s : state) (value : Z) (row col p : nat) :
  findNodeForClue fuel s value row col = Ok p -> p <> 0 ->
  rowData_at (allNodes s) p 0 = Ok value
  /\ rowData_at (allNodes s) p 1 = Ok (Z.of_nat row + 1)%Z
  /\ rowData_at (allNodes s) p 2 = Ok (Z.of_nat col + 1)%Z.
Proof. apply findNodeForClue_matches. Qed.

Lemma findNodeForClue_sound_witness :
  exists h,
    initial_torus (solver 1) = Ok (1, h)
    /\ findNodeForClue 10 (mkState 1 [0] [0] h 0 []) 1 0 0 = Ok 6
    /\ rowData_at h 6 0 = Ok 1%Z
    /\ rowData_at h 6 1 = Ok (Z.of_nat 0 + 1)%Z
    /\ rowData_at h 6 2 = Ok (Z.of_nat 0 + 1)%Z.
Proof.
  assert (F : (let* b := initial_torus (solver 1) in
               findNodeForClue 10 (mkState 1 [0] [0] b.2 0 []) 1 0 0) = Ok 6)
    by (vm_compute; reflexivity).
  destruct (initial_torus_built 1 (le_n 1)) as (h & E & _).
  rewrite E in F. cbn [bind snd] in F.
  exists h. split; [exact E |]. split; [exact F |].
  apply (findNodeForClue_sound 10 (mkState 1 [0] [0] h 0 []) 1 0 0 6 F).
  discriminate.
Defined.

(** ** Writing the nodes of a solution into a grid *)

(** X7.  [mapSolutionToGrid] finds the end of each of its two vectors
    by the first [nullptr] only: when [solution] or [fixedClues] holds
    no [nullptr], it returns no grid but reads past the end of a
    vector, whatever the nodes and the grid are. *)
Theorem mapSolutionToGrid_needs_nullptr (s : state) (sudoku : grid) :
  (forall p, p ∈ solution s -> p <> 0) \/ (forall p, p ∈ fixedClues s -> p <> 0) ->
  mapSolutionToGrid s sudoku = Fail out_of_range.
Proof. apply mapSolutionToGrid_no_null. Qed.

Lemma mapSolutionToGrid_needs_nullptr_witness :
  exists h,
    initial_torus (solver 1) = Ok (1, h)
    /\ mapSolutionToGrid (mkState 1 [6; 0] [0] h 0 []) [[0]]%Z = Ok [[1]]%Z
    /\ mapSolutionToGrid (mkState 1 [6] [0] h 0 []) [[0]]%Z = Fail out_of_range.
Proof.
  assert (F : (let* b := initial_torus (solver 1) in
               mapSolutionToGrid (mkState 1 [6; 0] [0] b.2 0 []) [[0]]%Z)
              = Ok [[1]]%Z)
    by (vm_compute; reflexivity).
  destruct (initial_torus_built 1 (le_n 1)) as (h & E & _).
  rewrite E in F. cbn [bind snd] in F.
  exists h. split; [exact E |]. split; [exact F |].
  apply mapSolutionToGrid_needs_nullptr. left. cbn [solution].
  intros p Hp. apply list_elem_of_singleton in Hp. subst p. discriminate.
Defined.

(** ** The checks at the head of [solve] *)

(** X8.  [solve] throws [std::invalid_argument] when the puzzle has not
    [gridSize] rows, and when its first row has not [gridSize]
    entries, whatever the search limit is. *)
Theorem solve_rejects_wrong_dimensions (sv : SudokuDLXSolver) (puzzle : grid)
    (searchLimit : Z) :
  length puzzle <> gridSize sv \/ length (nth 0 puzzle []) <> gridSize sv ->
  solve sv puzzle searchLimit = Fail invalid_argument.
Proof.
  intros H. unfold solve, dimensions_ok.
  destruct (Nat.eqb_spec (length puzzle) (gridSize sv)) as [El | _]; [| reflexivity].
  destruct H as [H | H]; [contradiction |].
  destruct puzzle as [| row0 rest]; [cbn in El, H; congruence |].
  cbn in H. destruct (Nat.eqb_spec (length row0) (gridSize sv)); [contradiction |].
  reflexivity.
Qed.

Lemma solve_rejects_wrong_dimensions_witness :
  solve solver4 [[1; 2; 3]; [0; 0; 0; 0]; [0; 0; 0; 0]; [0; 0; 0; 0]]%Z 5
  = Fail invalid_argument.
Proof.
  apply solve_rejects_wrong_dimensions. right. cbn. lia.
Defined.

(** X9.  For a puzzle that passes the check of the dimensions, a
    negative search limit makes [solve] throw [std::length_error] from
    [solutions.reserve], before the matrix is built. *)
Theorem solve_negative_limit_length_error (sv : SudokuDLXSolver) (puzzle : grid)
    (searchLimit : Z) :
  dimensions_ok sv puzzle = true ->
  (- 2 ^ 31 <= searchLimit < 0)%Z ->
  solve sv puzzle searchLimit = Fail length_error.
Proof.
  intros Hd Hl. unfold solve. rewrite Hd. cbn [negb].
  assert (E : (searchLimit mod 2 ^ 64 = searchLimit + 2 ^ 64)%Z).
  { symmetry. apply (Z.mod_unique _ _ (-1)); lia. }
  rewrite E. unfold solutions_max_size.
  destruct (Z.ltb_spec ((2 ^ 63 - 1) / 24) (searchLimit + 2 ^ 64)) as [_ | H];
    [reflexivity |].
  exfalso. assert ((2 ^ 63 - 1) / 24 < 2 ^ 63)%Z; [| lia].
  apply Z.div_lt_upper_bound; lia.
Qed.

Lemma solve_negative_limit_length_error_witness :
  solve solver4 [[0; 0; 0; 0]; [0; 0; 0; 0]; [0; 0; 0; 0]; [0; 0; 0; 0]]%Z (-3)
  = Fail length_error.
Proof.
  apply solve_negative_limit_length_error; [reflexivity | lia].
Defined.

(** ** The clues *)

(** X10.  On a puzzle of the configured dimensions without any positive
    entry, [applyInitialConstraints] returns and leaves the solver as it
    was: no column is covered and no clue is recorded. *)
Theorem applyInitialConstraints_without_clues (sv : SudokuDLXSolver) (fuel : nat)
    (puzzle : grid) (s : state) :
  is_square sv puzzle = true ->
  forallb (forallb (fun v => (v <=? 0)%Z)) puzzle = true ->
  applyInitialConstraints sv fuel puzzle s = Ok s.
Proof.
  intros Hsq Hz. unfold is_square in Hsq.
  apply andb_true_iff in Hsq as [Hlen Hrows].
  apply Nat.eqb_eq in Hlen. rewrite forallb_forall in Hrows.
  rewrite forallb_forall in Hz.
  assert (Hstep : forall i j st, i < gridSize sv -> j < gridSize sv ->
            clue_step fuel puzzle i j st = Ok st).
  { intros i j [index s0] Hi Hj. unfold clue_step, vget.
    destruct (puzzle !! i) as [row |] eqn:Ei.
    2:{ apply lookup_ge_None in Ei. lia. }
    cbn [bind].
    assert (Hrow : length row = gridSize sv).
    { apply Nat.eqb_eq. apply Hrows. apply list_elem_of_In.
      apply (list_elem_of_lookup_2 _ _ _ Ei). }
    destruct (row !! j) as [v |] eqn:Ej.
    2:{ apply lookup_ge_None in Ej. lia. }
    cbn [bind].
    assert (Hv : (v <=? 0)%Z = true).
    { specialize (Hz row). rewrite forallb_forall in Hz. apply Hz.
      - apply list_elem_of_In. apply (list_elem_of_lookup_2 _ _ _ Ei).
      - apply list_elem_of_In. apply (list_elem_of_lookup_2 _ _ _ Ej). }
    apply Z.leb_le in Hv.
    destruct (Z.ltb_spec 0 v); [lia | reflexivity]. }
  unfold applyInitialConstraints.
  destruct (for_range_inv (fun _ st => st = (0, s))
              (fun i st => for_range (gridSize sv) 0 (clue_step fuel puzzle i) st)
              (gridSize sv) 0 (0, s) eq_refl) as (st & E & ->).
  - intros i st Hi ->.
    destruct (for_range_inv (fun _ st => st = (0, s)) (clue_step fuel puzzle i)
                (gridSize sv) 0 (0, s) eq_refl) as (st & E & ->).
    + intros j st Hj ->. exists (0, s). split; [| reflexivity].
      apply Hstep; lia.
    + exists (0, s). auto.
  - rewrite E. reflexivity.
Qed.

Lemma applyInitialConstraints_without_clues_witness :
  applyInitialConstraints solver4 10
    [[0; 0; 0; 0]; [0; 0; 0; 0]; [0; 0; 0; 0]; [0; 0; 0; 0]]%Z
    (mkState 1 (replicate 16 0) (replicate 16 0) ∅ 0 [])
  = Ok (mkState 1 (replicate 16 0) (replicate 16 0) ∅ 0 []).
Proof.
  apply applyInitialConstraints_without_clues; reflexivity.
Defined.


(** X11.  On a grid of [N] rows of [N] entries, the loop of
    [mapSolutionToGrid] over a vector stops at the first [nullptr] and
    returns when each node before it addresses a cell of the grid.  The
    grid is then of the same dimensions; a cell that no node addresses
    keeps its entry, and every other cell holds the digit of the last
    node that addresses it. *)
Theorem place_nodes_writes (N : nat) (h : heap) (l rest : list nat) :
  forall g,
  square_grid N g -> (forall p, p ∈ l -> addresses_cell N h p) ->
  exists g',
    place_nodes h (l ++ 0 :: rest) g = Ok g' /\ square_grid N g'
    /\ forall r c, cell g' r c
         = default (cell g r c) (node_digit h <$> last_at h l r c).
Proof. apply place_nodes_spec. Qed.

Lemma place_nodes_writes_witness :
  exists h g',
    initial_torus (solver 1) = Ok (1, h)
    /\ place_nodes h ([6] ++ 0 :: [7]) [[0]]%Z = Ok g' /\ square_grid 1 g'
    /\ forall r c, cell g' r c
         = default (cell [[0]]%Z r c) (node_digit h <$> last_at h [6] r c).
Proof.
  assert (F : (let* b := initial_torus (solver 1) in Ok (rowData_of b.2 6))
              = Ok [1; 1; 1]%Z) by (vm_compute; reflexivity).
  destruct (initial_torus_built 1 (le_n 1)) as (h & E & _).
  rewrite E in F. cbn [bind snd] in F. injection F as F.
  destruct (place_nodes_writes 1 h [6] [7] [[0]]%Z) as (g' & E' & Hg' & Hcell).
  - split; [reflexivity |]. intros r Hr. destruct r; [reflexivity | lia].
  - intros p Hp. apply list_elem_of_singleton in Hp. subst p.
    unfold addresses_cell, node_row, node_col. rewrite F. cbn. lia.
  - exists h, g'. auto.
Defined.

(** X12.  For the grid size [N = k * k] with [k] up to 28 (the sizes
    for which the [int] sizes of the source do not overflow) and every
    puzzle of [N] rows of [N] entries, whatever the entries are,
    [applyInitialConstraints] on
    the torus as built returns: no loop runs out of the torus and no
    vector is read or written outside its bounds.  Afterwards the torus
    is well formed with some of the columns linked, the vector of the
    clues still has [cellCount] entries, and the vectors of the search
    are untouched. *)
Theorem applyInitialConstraints_returns (k : nat) (puzzle : grid) :
  1 <= k <= 28 -> is_square (solver k) puzzle = true ->
  let sv := solver k in
  exists h s,
    initial_torus sv = Ok (1, h)
    /\ applyInitialConstraints sv (ring_fuel sv) puzzle
         (mkState 1 (replicate (cellCount sv) 0) (replicate (cellCount sv) 0) h 0%Z [])
       = Ok s
    /\ rootHeader s = 1
    /\ (exists hs, well_formed (sudoku_torus sv) hs (allNodes s))
    /\ length (fixedClues s) = cellCount sv
    /\ solution s = replicate (cellCount sv) 0
    /\ solutionCount s = 0%Z /\ solutions s = [].
Proof.
  intros [Hk _] Hsq sv.
  destruct (solve_after_clues k puzzle Hk Hsq)
    as (h & s & E & Es & (H1 & H2 & _ & H4 & H5 & H6 & H7)).
  exists h, s. auto 10.
Qed.

Lemma applyInitialConstraints_returns_witness :
  exists h s,
    initial_torus solver4 = Ok (1, h)
    /\ applyInitialConstraints solver4 (ring_fuel solver4)
         [[1; 1; 0; 0]; [0; 0; 7; 0]; [0; -2; 0; 0]; [0; 0; 0; 4]]%Z
         (mkState 1 (replicate 16 0) (replicate 16 0) h 0%Z [])
       = Ok s
    /\ rootHeader s = 1
    /\ (exists hs, well_formed (sudoku_torus solver4) hs (allNodes s))
    /\ length (fixedClues s) = 16
    /\ solution s = replicate 16 0
    /\ solutionCount s = 0%Z /\ solutions s = [].
Proof.
  apply (applyInitialConstraints_returns 2
           [[1; 1; 0; 0]; [0; 0; 7; 0]; [0; -2; 0; 0]; [0; 0; 0; 4]]%Z);
    [lia | reflexivity].
Defined.

(** X13.  With the search limit 0, [solve] returns the empty sequence
    and throws nothing, for the grid size [N = k * k] with [k] up to 28
    (the sizes for which the [int] sizes of the source do not
    overflow) and every puzzle of [N] rows of [N] entries, whatever
    the entries are: the guard
    [solutionCount >= searchLimit] holds on entry to [searchDLX]. *)
Theorem solve_limit_zero (k : nat) (puzzle : grid) :
  1 <= k <= 28 -> is_square (solver k) puzzle = true ->
  solve (solver k) puzzle 0 = Ok [].
Proof.
  intros [Hk _] Hsq. rewrite solve_unfold.
  rewrite (is_square_dimensions_ok _ _ Hsq). cbn [negb].
  change (solutions_max_size <? 0 mod 2 ^ 64)%Z with false. cbv iota.
  destruct (solve_after_clues k puzzle Hk Hsq)
    as (h & s & E & Es & (_ & _ & _ & _ & _ & Hcnt & Hsols)).
  rewrite E. cbn [bind fst snd]. rewrite Es. cbn [bind].
  cbn [searchDLX]. rewrite Hcnt. cbn [solutionCount Z.leb Z.compare].
  cbn [bind]. rewrite Hsols. reflexivity.
Qed.

Lemma solve_limit_zero_witness :
  solve solver4 [[1; 2; 3; 4]; [3; 4; 1; 2]; [2; 1; 4; 3]; [4; 3; 2; 1]]%Z 0 = Ok [].
Proof.
  apply (solve_limit_zero 2); [lia | reflexivity].
Defined.

Lemma elem_of_insert_inv {A : Type} (l : list A) (i : nat) (x p : A) :
  p ∈ <[i := x]> l -> p = x \/ p ∈ l.
Proof.
  intros H. apply list_elem_of_lookup in H as (j & Hj).
  destruct (decide (j = i)) as [-> | Hne].
  - destruct (decide (i < length l)).
    + rewrite list_lookup_insert_eq in Hj by assumption. injection Hj as <-. auto.
    + rewrite list_insert_ge in Hj by lia. right.
      apply (list_elem_of_lookup_2 _ _ _ Hj).
  - rewrite list_lookup_insert_ne in Hj by congruence. right.
    apply (list_elem_of_lookup_2 _ _ _ Hj).
Qed.

(** X14.  Whatever the state of the solver, when
    [applyInitialConstraints] returns, every node in [fixedClues] that
    was not there before stands for a clue of the puzzle: it is not
    [nullptr] and its metadata are a positive entry of the puzzle with
    the row and the column of that entry, each plus one.  The root, the
    vector [solution] and the solutions found are as before, and no
    node has changed its metadata. *)
Theorem applyInitialConstraints_records_clues (sv : SudokuDLXSolver) (fuel : nat)
    (puzzle : grid) (s s' : state) :
  applyInitialConstraints sv fuel puzzle s = Ok s' ->
  rootHeader s' = rootHeader s /\ solution s' = solution s
  /\ solutionCount s' = solutionCount s /\ solutions s' = solutions s
  /\ (forall q, rowData_of (allNodes s') q = rowData_of (allNodes s) q)
  /\ forall p, p ∈ fixedClues s' ->
       p ∈ fixedClues s
       \/ exists r c, r < gridSize sv /\ c < gridSize sv /\ p <> 0
            /\ (0 < cell puzzle r c)%Z
            /\ rowData_at (allNodes s') p 0 = Ok (cell puzzle r c)
            /\ rowData_at (allNodes s') p 1 = Ok (Z.of_nat r + 1)%Z
            /\ rowData_at (allNodes s') p 2 = Ok (Z.of_nat c + 1)%Z.
Proof.
  intros E. unfold applyInitialConstraints in E.
  set (Inv := fun st : nat * state =>
    rootHeader st.2 = rootHeader s /\ solution st.2 = solution s
    /\ solutionCount st.2 = solutionCount s /\ solutions st.2 = solutions s
    /\ (forall q, rowData_of (allNodes st.2) q = rowData_of (allNodes s) q)
    /\ forall p, p ∈ fixedClues st.2 ->
         p ∈ fixedClues s
         \/ exists r c, r < gridSize sv /\ c < gridSize sv /\ p <> 0
              /\ (0 < cell puzzle r c)%Z
              /\ rowData_at (allNodes s) p 0 = Ok (cell puzzle r c)
              /\ rowData_at (allNodes s) p 1 = Ok (Z.of_nat r + 1)%Z
              /\ rowData_at (allNodes s) p 2 = Ok (Z.of_nat c + 1)%Z).
  assert (Hstep : forall i j st st', i < gridSize sv -> j < gridSize sv ->
            Inv st -> clue_step fuel puzzle i j st = Ok st' -> Inv st').
  { intros i j [index s1] st' Hi Hj HI Est. unfold clue_step in Est.
    destruct (vget puzzle i) as [row | e] eqn:Erow; cbn [bind] in Est; [| discriminate].
    destruct (vget row j) as [v | e] eqn:Ev; cbn [bind] in Est; [| discriminate].
    assert (Ecell : cell puzzle i j = v).
    { unfold cell, vget in *. rewrite !nth_lookup.
      destruct (puzzle !! i); [| discriminate]. injection Erow as ->. cbn.
      destruct (row !! j); [| discriminate]. injection Ev as ->. reflexivity. }
    destruct (Z.ltb_spec 0 v) as [Hv | _]; [| injection Est as <-; exact HI].
    destruct (findNodeForClue fuel s1 v i j) as [temp | e] eqn:Ef; cbn [bind] in Est;
      [| discriminate].
    destruct (Nat.eqb_spec temp 0) as [| Hne]; [injection Est as <-; exact HI |].
    destruct (coverColumn fuel _ (allNodes s1)) as [h1 | e] eqn:E1; cbn [bind] in Est;
      [| discriminate].
    destruct (vset (fixedClues s1) index temp) as [clues | e] eqn:Ec; cbn [bind] in Est;
      [| discriminate].
    destruct (for_ring fuel right_of temp _ (right_of h1 temp) h1) as [h2 | e] eqn:E2;
      cbn [bind] in Est; [| discriminate].
    injection Est as <-. cbn [fst snd] in *.
    destruct HI as (I1 & I2 & I3 & I4 & I5 & I6).
    assert (Hd1 : forall q, rowData_of h1 q = rowData_of (allNodes s1) q).
    { intros q. apply (coverColumn_frame _ _ _ _ E1 q). }
    assert (Hd2 : forall q, rowData_of h2 q = rowData_of h1 q).
    { apply (for_ring_preserves
               (fun st => forall q, rowData_of st q = rowData_of h1 q)
               right_of temp
               (fun node h => coverColumn fuel (column_of h node) h))
        with (3 := E2); [| auto].
      intros p st st1 Hst Ecov q.
      rewrite (proj1 (proj2 (coverColumn_frame _ _ _ _ Ecov q))). apply Hst. }
    split; [exact I1 |]. split; [exact I2 |]. split; [exact I3 |]. split; [exact I4 |].
    split; [intros q; cbn; rewrite Hd2, Hd1; apply I5 |].
    intros p Hp. cbn in Hp. unfold vset in Ec.
    destruct (decide (index < length (fixedClues s1))); [| discriminate].
    injection Ec as <-. apply elem_of_insert_inv in Hp as [-> | Hp]; [| apply I6; exact Hp].
    right. exists i, j.
    destruct (findNodeForClue_matches fuel s1 v i j temp Ef Hne) as (M0 & M1 & M2).
    unfold rowData_at in *. rewrite I5 in M0, M1, M2. rewrite Ecell.
    repeat split; assumption. }
  assert (HI : Inv (0, s)).
  { unfold Inv. cbn. repeat split; auto. }
  pose proof (fun st' => for_range_preserves_in Inv
                (fun i st => for_range (gridSize sv) 0 (clue_step fuel puzzle i) st)
                (gridSize sv) 0 (0, s) st') as Houter.
  destruct (for_range (gridSize sv) 0 _ (0, s)) as [st' | e] eqn:Er; cbn [bind] in E;
    [| discriminate].
  injection E as <-.
  assert (Hfin : Inv st').
  { apply Houter; [| exact HI | reflexivity].
    intros i st1 st2 Hi HI1 E1.
    apply (for_range_preserves_in Inv (clue_step fuel puzzle i)
             (gridSize sv) 0 st1 st2); [| exact HI1 | exact E1].
    intros j sa sb Hj HIa Ea. apply (Hstep i j sa sb); [lia | lia | exact HIa | exact Ea]. }
  destruct Hfin as (I1 & I2 & I3 & I4 & I5 & I6).
  split; [exact I1 |]. split; [exact I2 |]. split; [exact I3 |]. split; [exact I4 |].
  split; [exact I5 |]. intros p Hp.
  destruct (I6 p Hp) as [H | (r & c & H)]; [auto |]. right. exists r, c.
  unfold rowData_at in *. rewrite I5. exact H.
Qed.

Lemma applyInitialConstraints_records_clues_witness :
  exists h s',
    initial_torus solver4 = Ok (1, h)
    /\ applyInitialConstraints solver4 (ring_fuel solver4)
         [[1; 0; 0; 0]; [0; 0; 3; 0]; [0; 0; 0; 0]; [0; 0; 0; 4]]%Z
         (mkState 1 (replicate 16 0) (replicate 16 0) h 0%Z [])
       = Ok s'
    /\ solution s' = replicate 16 0
    /\ forall p, p ∈ fixedClues s' ->
         p ∈ replicate 16 0
         \/ exists r c, r < 4 /\ c < 4 /\ p <> 0
              /\ (0 < cell [[1; 0; 0; 0]; [0; 0; 3; 0]; [0; 0; 0; 0]; [0; 0; 0; 4]]%Z r c)%Z
              /\ rowData_at (allNodes s') p 0
                 = Ok (cell [[1; 0; 0; 0]; [0; 0; 3; 0]; [0; 0; 0; 0]; [0; 0; 0; 4]]%Z r c)
              /\ rowData_at (allNodes s') p 1 = Ok (Z.of_nat r + 1)%Z
              /\ rowData_at (allNodes s') p 2 = Ok (Z.of_nat c + 1)%Z.
Proof.
  destruct (solve_after_clues 2
              [[1; 0; 0; 0]; [0; 0; 3; 0]; [0; 0; 0; 0]; [0; 0; 0; 4]]%Z
              ltac:(lia) eq_refl) as (h & s' & E & Es & _).
  exists h, s'. split; [exact E |]. split; [exact Es |].
  destruct (applyInitialConstraints_records_clues _ _ _ _ _ Es)
    as (_ & Hsol & _ & _ & _ & Hclues).
  split; [exact Hsol | exact Hclues].
Defined.

(** ** The choice of the column *)

(** X15.  When the columns [hs] are linked in the ring of the root and
    there is at least one, [select_column], the loop at the head of the
    search step, returns the first column of least [columnSize]: the
    columns before it in the ring are strictly larger and those after
    it are not smaller. *)
Theorem select_column_first_least (h : heap) (root : nat) (hs : list nat) (fuel : nat) :
  NoDup (root :: hs) -> seg (right_of h) (left_of h) root hs root ->
  hs <> [] -> length hs <= fuel ->
  exists c l1 l2,
    select_column fuel h root = Ok c /\ hs = l1 ++ c :: l2
    /\ (forall c', c' ∈ l1 -> (size_of h c < size_of h c')%Z)
    /\ (forall c', c' ∈ l2 -> (size_of h c <= size_of h c')%Z).
Proof. apply select_column_spec. Qed.

Lemma select_column_first_least_witness :
  exists h c l1 l2,
    initial_torus (solver 1) = Ok (1, h)
    /\ select_column 10 h 1 = Ok c /\ [2; 3; 4; 5] = l1 ++ c :: l2
    /\ (forall c', c' ∈ l1 -> (size_of h c < size_of h c')%Z)
    /\ (forall c', c' ∈ l2 -> (size_of h c <= size_of h c')%Z).
Proof.
  destruct (initial_torus_built 1 (le_n 1)) as (h & E & HR & _).
  destruct HR as (_ & _ & _ & (_ & _ & Hs) & _).
  destruct (select_column_first_least h 1 [2; 3; 4; 5] 10 (NoDup_seq 1 5) Hs)
    as (c & l1 & l2 & Ec & H).
  - discriminate.
  - cbn. lia.
  - exists h, c, l1, l2. split; [exact E |]. split; [exact Ec | exact H].
Defined.

(** ** The links between covers *)

(** X16.  From the torus built for the grid size [N = k * k] with [k]
    up to 28 (the sizes for which the [int] sizes of the source do not
    overflow), covering any distinct columns in turn returns, and in
    the state reached:
    every row node is the left neighbour of its right neighbour and the
    right neighbour of its left neighbour; every column header, covered
    or not, and every node that the loop down from a header meets, is
    the upper neighbour of its lower neighbour and the lower neighbour
    of its upper neighbour; and every header that the loop to the right
    from the root meets is the right neighbour of its left neighbour,
    and the left neighbour of its right neighbour unless that is the
    root. *)
Theorem links_between_covers (k : nat) (cols : list nat) :
  1 <= k <= 28 -> NoDup cols ->
  (forall c, c ∈ cols -> 2 <= c <= exactCoverCols (solver k) + 1) ->
  let sv := solver k in
  exists h,
    covered_torus sv cols = Ok h
    /\ (forall i t, i < exactCoverRows sv -> t < 4 ->
          let p := exactCoverCols sv + 2 + 4 * i + t in
          left_of h (right_of h p) = p /\ right_of h (left_of h p) = p)
    /\ (forall c p, 2 <= c <= exactCoverCols sv + 1 ->
          p = c \/ on_ring (down_of h) c (down_of h c) p ->
          up_of h (down_of h p) = p /\ down_of h (up_of h p) = p)
    /\ (forall c, linked 1 h c ->
          right_of h (left_of h c) = c
          /\ (right_of h c <> 1 -> left_of h (right_of h c) = c)).
Proof.
  intros [Hk _] Hnd Hcols sv. subst sv.
  destruct (initial_torus_built k Hk) as (h0 & E0 & HR & _).
  destruct (covers_ok (sudoku_torus (solver k)) (ring_fuel (solver k)) cols
              (seq 2 (exactCoverCols (solver k))) h0) as (h & E & Hwf).
  - eexists. exact HR.
  - apply sudoku_enough_fuel.
  - exact Hnd.
  - intros c Hc. apply elem_of_seq. specialize (Hcols c Hc). lia.
  - exists h. split.
    { unfold covered_torus. rewrite E0. cbn [bind snd]. exact E. }
    destruct (well_formed_links _ _ _ Hwf) as (L1 & L2 & L3).
    split; [| split; [| exact L3]].
    + intros i t Hi Ht p. apply L1. apply sudoku_torus_nodes.
      exists i. split; [exact Hi |]. unfold row_nodes. apply elem_of_seq.
      unfold p. lia.
    + intros c p Hc Hp. apply (L2 c p); [| exact Hp].
      cbn [sudoku_torus t_cols]. apply elem_of_seq. lia.
Qed.

Lemma links_between_covers_witness :
  1 <= 2 <= 28 /\ NoDup (seq 2 3)
  /\ exists h,
       covered_torus solver4 (seq 2 3) = Ok h
       /\ (forall i t, i < 64 -> t < 4 ->
             left_of h (right_of h (64 + 2 + 4 * i + t)) = 64 + 2 + 4 * i + t
             /\ right_of h (left_of h (64 + 2 + 4 * i + t)) = 64 + 2 + 4 * i + t)
       /\ (forall c p, 2 <= c <= 64 + 1 ->
             p = c \/ on_ring (down_of h) c (down_of h c) p ->
             up_of h (down_of h p) = p /\ down_of h (up_of h p) = p).
Proof.
  assert (H : 1 <= 2 <= 28) by lia. split; [exact H |].
  split; [apply NoDup_seq |].
  destruct (links_between_covers 2 (seq 2 3) H (NoDup_seq 2 3))
    as (h & E & L1 & L2 & _).
  - intros c Hc. apply elem_of_seq in Hc. cbn. lia.
  - exists h. split; [exact E |]. split; [exact L1 | exact L2].
Defined.

(** ** The grids that [solve] returns *)

(** X17.  For the grid size [N = k * k], whatever the puzzle and the
    search limit are: every grid of the sequence that [solve] returns
    is a solved grid, [N] rows of [N] entries with each digit of 1..N
    exactly once in every row, every column and every block. *)
Theorem solve_returns_solved_grids (k : nat) (puzzle : grid) (limit : Z)
    (gs : list grid) :
  1 <= k -> solve (solver k) puzzle limit = Ok gs ->
  Forall (fun g => is_solved (solver k) g = true) gs.
Proof.
  intros Hk E.
  destruct (solve_grids k puzzle limit gs Hk E) as (h & s1 & clues & _ & _ & _ & _ & Hg & _).
  apply (Forall_impl _ _ _ Hg). intros g [Hs _]. exact Hs.
Qed.

Lemma solve_returns_solved_grids_witness :
  Forall (fun g => is_solved (solver 2) g = true)
    [[[1; 2; 3; 4]; [3; 4; 1; 2]; [2; 1; 4; 3]; [4; 3; 2; 1]]%Z;
     [[1; 2; 3; 4]; [3; 4; 1; 2]; [4; 1; 2; 3]; [2; 3; 4; 1]]%Z].
Proof.
  apply (solve_returns_solved_grids 2
           [[1; 0; 0; 0]; [0; 0; 0; 0]; [0; 0; 0; 0]; [0; 0; 0; 0]]%Z 2);
    [lia | vm_compute; reflexivity].
Defined.

(** X18.  For the grid size [N = k * k], whatever the puzzle is:
    [solve] returns at most [searchLimit] grids, and none when the
    limit is not positive. *)
Theorem solve_respects_limit (k : nat) (puzzle : grid) (limit : Z) (gs : list grid) :
  1 <= k -> solve (solver k) puzzle limit = Ok gs ->
  (Z.of_nat (length gs) <= Z.max 0 limit)%Z.
Proof.
  intros Hk E.
  destruct (solve_grids k puzzle limit gs Hk E)
    as (h & s1 & clues & _ & _ & _ & _ & _ & Hl & _).
  exact Hl.
Qed.

Lemma solve_respects_limit_witness :
  (Z.of_nat (length [[[1; 2; 3; 4]; [3; 4; 1; 2]; [2; 1; 4; 3]; [4; 3; 2; 1]]%Z;
                     [[1; 2; 3; 4]; [3; 4; 1; 2]; [4; 1; 2; 3]; [2; 3; 4; 1]]%Z])
   <= Z.max 0 2)%Z.
Proof.
  apply (solve_respects_limit 2
           [[1; 0; 0; 0]; [0; 0; 0; 0]; [0; 0; 0; 0]; [0; 0; 0; 0]]%Z 2);
    [lia | vm_compute; reflexivity].
Defined.

(** X19.  For the grid size [N = k * k], whatever the puzzle is: each
    node that [applyInitialConstraints] has recorded in [fixedClues]
    stands for a positive entry of the puzzle, and every grid that
    [solve] returns holds that entry in the same cell. *)
Theorem solve_keeps_recorded_clues (k : nat) (puzzle : grid) (limit : Z)
    (gs : list grid) :
  1 <= k -> solve (solver k) puzzle limit = Ok gs ->
  exists h s1,
    initial_torus (solver k) = Ok (1, h)
    /\ applyInitialConstraints (solver k) (ring_fuel (solver k)) puzzle
         (mkState 1 (replicate (cellCount (solver k)) 0)
            (replicate (cellCount (solver k)) 0) h 0%Z []) = Ok s1
    /\ forall g p, g ∈ gs -> p ∈ fixedClues s1 -> p <> 0 ->
         exists r c,
           node_row h p = Z.of_nat r /\ node_col h p = Z.of_nat c
           /\ node_digit h p = cell puzzle r c
           /\ (0 < cell puzzle r c)%Z /\ cell g r c = cell puzzle r c.
Proof.
  intros Hk E.
  destruct (solve_grids k puzzle limit gs Hk E)
    as (h & s1 & clues & E0 & Ea & Hf & Hall & Hg & _).
  exists h, s1. split; [exact E0 |]. split; [exact Ea |].
  intros g p Hgin Hp Hp0. rewrite Hf in Hp. unfold pad in Hp.
  apply elem_of_app in Hp as [Hp | Hp].
  2:{ apply elem_of_replicate in Hp as [-> _]. contradiction. }
  rewrite Forall_forall in Hall. rewrite Forall_forall in Hg.
  destruct (Hall p Hp) as (r & c & Er & Ec & Ed & Hpos).
  destruct (Hg g Hgin) as [_ Hkeeps]. specialize (Hkeeps p Hp).
  unfold keeps_node in Hkeeps. rewrite Er, Ec, !Nat2Z.id, Ed in Hkeeps.
  exists r, c. auto.
Qed.

Lemma solve_keeps_recorded_clues_witness :
  exists h s1,
    initial_torus (solver 2) = Ok (1, h)
    /\ applyInitialConstraints (solver 2) (ring_fuel (solver 2))
         [[1; 0; 0; 0]; [0; 0; 3; 0]; [0; 0; 0; 0]; [0; 4; 0; 0]]%Z
         (mkState 1 (replicate (cellCount (solver 2)) 0)
            (replicate (cellCount (solver 2)) 0) h 0%Z []) = Ok s1
    /\ forall g p,
         g ∈ [[[1; 3; 2; 4]; [4; 2; 3; 1]; [2; 1; 4; 3]; [3; 4; 1; 2]]%Z] ->
         p ∈ fixedClues s1 -> p <> 0 ->
         exists r c,
           node_row h p = Z.of_nat r /\ node_col h p = Z.of_nat c
           /\ node_digit h p
              = cell [[1; 0; 0; 0]; [0; 0; 3; 0]; [0; 0; 0; 0]; [0; 4; 0; 0]]%Z r c
           /\ (0 < cell [[1; 0; 0; 0]; [0; 0; 3; 0]; [0; 0; 0; 0]; [0; 4; 0; 0]]%Z r c)%Z
           /\ cell g r c
              = cell [[1; 0; 0; 0]; [0; 0; 3; 0]; [0; 0; 0; 0]; [0; 4; 0; 0]]%Z r c.
Proof.
  apply (solve_keeps_recorded_clues 2
           [[1; 0; 0; 0]; [0; 0; 3; 0]; [0; 0; 0; 0]; [0; 4; 0; 0]]%Z 1);
    [lia | vm_compute; reflexivity].
Defined.

(** ** The search restores what it changes *)

(** X20.  On the torus of the grid size [N = k * k], from any state of
    the search (some columns covered for the clues and for the rows
    chosen so far, [solution] holding the chosen nodes): when
    [searchDLX] returns, every link of every node is as it was on
    entry, but for the left link of the root; [solution] and
    [fixedClues] are as on entry; the grids found are appended to the
    solutions, [solutionCount] is raised by their number, and it does
    not pass the limit if it was not above it. *)
Theorem searchDLX_restores (k d : nat) (h0 : heap) (limit : Z)
    (clues hs chosen : list nat) (s s' : state) :
  1 <= k -> initial_torus (solver k) = Ok (1, h0) ->
  search_state (sudoku_torus (solver k)) (cellCount (solver k)) clues h0 hs chosen s ->
  length hs < d ->
  searchDLX d (solver k) (ring_fuel (solver k)) (length chosen) limit s = Ok s' ->
  same_links 1 (allNodes s') (allNodes s)
  /\ rootHeader s' = rootHeader s
  /\ solution s' = solution s /\ fixedClues s' = fixedClues s
  /\ exists new,
       solutions s' = solutions s ++ new
       /\ solutionCount s' = (solutionCount s + Z.of_nat (length new))%Z
       /\ ((solutionCount s <= limit)%Z -> (solutionCount s' <= limit)%Z).
Proof.
  intros Hk E0 Hst Hd E.
  destruct (initial_torus_built k Hk) as (h & E0' & HR0 & Hlab).
  rewrite E0 in E0'. injection E0' as <-.
  pose proof (sudoku_search k d h0 limit True clues hs chosen s Hk Hd HR0 Hlab Hst
                (fun _ => I)) as Hout.
  rewrite E in Hout. cbn [outcome] in Hout.
  destruct Hout as (H1 & H2 & H3 & H4 & new & H5 & H6 & _ & H7 & _).
  split; [exact H1 |]. split; [exact H2 |]. split; [exact H3 |]. split; [exact H4 |].
  exists new. auto.
Qed.

Lemma searchDLX_restores_witness :
  match
    (let* b := initial_torus (solver 2) in
     let* s := applyInitialConstraints (solver 2) (ring_fuel (solver 2))
                 [[1; 0; 0; 0]; [0; 0; 3; 0]; [0; 0; 0; 0]; [0; 4; 0; 0]]%Z
                 (mkState 1 (replicate (cellCount (solver 2)) 0)
                    (replicate (cellCount (solver 2)) 0) b.2 0%Z []) in
     let* s' := searchDLX 65 (solver 2) (ring_fuel (solver 2)) 0 2 s in
     Ok (s, s'))
  with
  | Ok (s, s') =>
      same_links 1 (allNodes s') (allNodes s)
      /\ rootHeader s' = rootHeader s
      /\ solution s' = solution s /\ fixedClues s' = fixedClues s
      /\ exists new,
           solutions s' = solutions s ++ new
           /\ solutionCount s' = (solutionCount s + Z.of_nat (length new))%Z
           /\ ((solutionCount s <= 2)%Z -> (solutionCount s' <= 2)%Z)
  | Fail _ => False
  end.
Proof.
  assert (F : match
            (let* b := initial_torus (solver 2) in
             let* s := applyInitialConstraints (solver 2) (ring_fuel (solver 2))
                         [[1; 0; 0; 0]; [0; 0; 3; 0]; [0; 0; 0; 0]; [0; 4; 0; 0]]%Z
                         (mkState 1 (replicate (cellCount (solver 2)) 0)
                            (replicate (cellCount (solver 2)) 0) b.2 0%Z []) in
             let* s' := searchDLX 65 (solver 2) (ring_fuel (solver 2)) 0 2 s in
             Ok (s, s'))
          with Ok _ => True | Fail _ => False end) by (vm_compute; exact I).
  destruct (initial_torus_built 2 (le_S 1 1 (le_n 1))) as (h & E0 & HR0 & Hlab).
  rewrite E0 in F |- *. cbn [bind fst snd] in F |- *.
  destruct (applyInitialConstraints (solver 2) (ring_fuel (solver 2)) _ _)
    as [s |] eqn:Ea; cbn [bind] in F |- *; [| exact F].
  destruct (applyInitialConstraints_partial (sudoku_torus (solver 2)) (solver 2)
              (ring_fuel (solver 2)) _ h _ s (solve_start_state 2 h HR0)
              (sudoku_data_ok 2 h Hlab) (sudoku_enough_fuel (solver 2)) Ea)
    as (clues & hs & Hs & _).
  destruct (searchDLX 65 (solver 2) (ring_fuel (solver 2)) 0 2 s) as [s' |] eqn:E2;
    cbn [bind] in F |- *; [| exact F].
  apply (searchDLX_restores 2 65 h 2 clues hs [] s s' (le_S 1 1 (le_n 1)) E0 Hs
           (sudoku_depth _ _ _ _ _ _ _ Hs) E2).
Defined.

(** ** [solve] on a puzzle that has a completion *)

(** X21.  For the grid size [N = k * k] and a puzzle of [N] rows of
    [N] entries that has a valid completion: every grid that [solve]
    returns is a valid completion of the puzzle, a solved grid that
    keeps every given digit. *)
Theorem solve_returns_valid_completions (k : nat) (puzzle G : grid) (limit : Z)
    (gs : list grid) :
  1 <= k -> is_square (solver k) puzzle = true ->
  valid_completion (solver k) puzzle G = true ->
  solve (solver k) puzzle limit = Ok gs ->
  Forall (fun g => valid_completion (solver k) puzzle g = true) gs.
Proof.
  intros Hk Hsq HG E. apply (solve_completions k puzzle G limit gs Hk Hsq HG E).
Qed.

Lemma solve_returns_valid_completions_witness :
  Forall (fun g => valid_completion (solver 2)
                     [[1; 0; 0; 0]; [0; 0; 3; 0]; [0; 0; 0; 0]; [0; 4; 0; 0]]%Z g = true)
    [[[1; 3; 2; 4]; [4; 2; 3; 1]; [2; 1; 4; 3]; [3; 4; 1; 2]]%Z;
     [[1; 3; 2; 4]; [4; 2; 3; 1]; [3; 1; 4; 2]; [2; 4; 1; 3]]%Z;
     [[1; 3; 4; 2]; [4; 2; 3; 1]; [3; 1; 2; 4]; [2; 4; 1; 3]]%Z].
Proof.
  apply (solve_returns_valid_completions 2
           [[1; 0; 0; 0]; [0; 0; 3; 0]; [0; 0; 0; 0]; [0; 4; 0; 0]]%Z
           [[1; 3; 4; 2]; [4; 2; 3; 1]; [3; 1; 2; 4]; [2; 4; 1; 3]]%Z 10);
    [lia | reflexivity | vm_compute; reflexivity | vm_compute; reflexivity].
Defined.

(** X22.  For the grid size [N = k * k] and a puzzle of [N] rows of
    [N] entries: when [solve] returns fewer grids than the search
    limit, it has returned every valid completion of the puzzle. *)
Theorem solve_finds_every_completion (k : nat) (puzzle G : grid) (limit : Z)
    (gs : list grid) :
  1 <= k -> is_square (solver k) puzzle = true ->
  valid_completion (solver k) puzzle G = true ->
  solve (solver k) puzzle limit = Ok gs ->
  (Z.of_nat (length gs) < limit)%Z ->
  G ∈ gs.
Proof.
  intros Hk Hsq HG E. apply (solve_completions k puzzle G limit gs Hk Hsq HG E).
Qed.

Lemma solve_finds_every_completion_witness :
  [[1; 3; 4; 2]; [4; 2; 3; 1]; [3; 1; 2; 4]; [2; 4; 1; 3]]%Z
  ∈ [[[1; 3; 2; 4]; [4; 2; 3; 1]; [2; 1; 4; 3]; [3; 4; 1; 2]]%Z;
     [[1; 3; 2; 4]; [4; 2; 3; 1]; [3; 1; 4; 2]; [2; 4; 1; 3]]%Z;
     [[1; 3; 4; 2]; [4; 2; 3; 1]; [3; 1; 2; 4]; [2; 4; 1; 3]]%Z].
Proof.
  apply (solve_finds_every_completion 2
           [[1; 0; 0; 0]; [0; 0; 3; 0]; [0; 0; 0; 0]; [0; 4; 0; 0]]%Z
           [[1; 3; 4; 2]; [4; 2; 3; 1]; [3; 1; 2; 4]; [2; 4; 1; 3]]%Z 10);
    [lia | reflexivity | vm_compute; reflexivity | vm_compute; reflexivity
    | vm_compute; reflexivity].
Defined.

(** X24.  For the grid size [N = k * k] with [k] up to 28 (the sizes
    for which the [int] sizes of the source do not overflow) and a
    puzzle of [N] rows of [N] entries that has a valid completion:
    [applyInitialConstraints]
    returns and [findNodeForClue] has found every given digit.
    [fixedClues] then holds one node for each positive entry of the
    puzzle, in the order of the cells row by row, with the entry, the
    row and the column (from 1) as its metadata, and [nullptr] after
    them. *)
Theorem applyInitialConstraints_records_every_given (k : nat) (puzzle G : grid) :
  1 <= k <= 28 -> is_square (solver k) puzzle = true ->
  valid_completion (solver k) puzzle G = true ->
  exists h s1 clues,
    initial_torus (solver k) = Ok (1, h)
    /\ applyInitialConstraints (solver k) (ring_fuel (solver k)) puzzle
         (mkState 1 (replicate (cellCount (solver k)) 0)
            (replicate (cellCount (solver k)) 0) h 0%Z []) = Ok s1
    /\ fixedClues s1 = pad (cellCount (solver k)) clues
    /\ rowData_of h <$> clues
       = (fun n => [cell puzzle (n / (k * k)) (n mod (k * k));
                    Z.of_nat (n / (k * k) + 1); Z.of_nat (n mod (k * k) + 1)])
           <$> filter (given (k * k) puzzle) (seq 0 (k * k * (k * k))).
Proof. intros [Hk _]. apply solve_records_givens. exact Hk. Qed.

Lemma applyInitialConstraints_records_every_given_witness :
  exists h s1 clues,
    initial_torus (solver 2) = Ok (1, h)
    /\ applyInitialConstraints (solver 2) (ring_fuel (solver 2))
         [[1; 0; 0; 0]; [0; 0; 3; 0]; [0; 0; 0; 0]; [0; 4; 0; 0]]%Z
         (mkState 1 (replicate (cellCount (solver 2)) 0)
            (replicate (cellCount (solver 2)) 0) h 0%Z []) = Ok s1
    /\ fixedClues s1 = pad (cellCount (solver 2)) clues
    /\ rowData_of h <$> clues
       = (fun n => [cell [[1; 0; 0; 0]; [0; 0; 3; 0]; [0; 0; 0; 0]; [0; 4; 0; 0]]%Z
                      (n / (2 * 2)) (n mod (2 * 2));
                    Z.of_nat (n / (2 * 2) + 1); Z.of_nat (n mod (2 * 2) + 1)])
           <$> filter (given (2 * 2)
                         [[1; 0; 0; 0]; [0; 0; 3; 0]; [0; 0; 0; 0]; [0; 4; 0; 0]]%Z)
                 (seq 0 (2 * 2 * (2 * 2))).
Proof.
  apply (applyInitialConstraints_records_every_given 2
           [[1; 0; 0; 0]; [0; 0; 3; 0]; [0; 0; 0; 0]; [0; 4; 0; 0]]%Z
           [[1; 3; 4; 2]; [4; 2; 3; 1]; [3; 1; 2; 4]; [2; 4; 1; 3]]%Z);
    [lia | reflexivity | vm_compute; reflexivity].
Defined.

(** X25.  For the grid size [N = k * k], whatever the puzzle and the
    search limit are: [solve] returns no grid twice. *)
Theorem solve_returns_distinct_grids (k : nat) (puzzle : grid) (limit : Z)
    (gs : list grid) :
  1 <= k -> solve (solver k) puzzle limit = Ok gs -> NoDup gs.
Proof.
  intros Hk E.
  destruct (solve_grids k puzzle limit gs Hk E)
    as (h & s1 & clues & _ & _ & _ & _ & _ & _ & Hnd).
  exact Hnd.
Qed.

Lemma solve_returns_distinct_grids_witness :
  NoDup [[[1; 3; 2; 4]; [4; 2; 3; 1]; [2; 1; 4; 3]; [3; 4; 1; 2]]%Z;
         [[1; 3; 2; 4]; [4; 2; 3; 1]; [3; 1; 4; 2]; [2; 4; 1; 3]]%Z;
         [[1; 3; 4; 2]; [4; 2; 3; 1]; [3; 1; 2; 4]; [2; 4; 1; 3]]%Z].
Proof.
  apply (solve_returns_distinct_grids 2
           [[1; 0; 0; 0]; [0; 0; 3; 0]; [0; 0; 0; 0]; [0; 4; 0; 0]]%Z 10);
    [lia | vm_compute; reflexivity].
Defined.

(** X26.  For the grid size [N = k * k] with [k] up to 28 (the sizes
    for which the [int] sizes of the source do not overflow), every
    puzzle of [N] rows of [N] entries, whatever the entries are and
    whether or not it can be
    completed, and a search limit from 0 to [max_size()]: when
    [applyInitialConstraints] has recorded at least one clue and has
    left the last entry of [fixedClues] [nullptr], [solve] returns a
    sequence of grids and throws nothing. *)
Theorem solve_returns_when_clues_recorded (k : nat) (puzzle : grid) (limit : Z)
    (v : list nat) :
  1 <= k <= 28 -> is_square (solver k) puzzle = true ->
  (0 <= limit <= solutions_max_size)%Z ->
  recorded_clues (solver k) puzzle = Ok v ->
  head v <> Some 0 -> last v = Some 0 ->
  exists gs, solve (solver k) puzzle limit = Ok gs.
Proof. intros [Hk _]. apply solve_total_recorded. exact Hk. Qed.

Lemma solve_returns_when_clues_recorded_witness :
  exists gs,
    solve (solver 2) [[1; 1; 0; 0]; [0; 0; 0; 0]; [0; 0; 0; 0]; [0; 0; 0; 0]]%Z 3
    = Ok gs.
Proof.
  eapply (solve_returns_when_clues_recorded 2
            [[1; 1; 0; 0]; [0; 0; 0; 0]; [0; 0; 0; 0]; [0; 0; 0; 0]]%Z 3);
    [lia | reflexivity | vm_compute; split; discriminate | vm_compute; reflexivity
    | discriminate | reflexivity].
Defined.

(** X27.  For the grid size [N = k * k] and a puzzle of [N] rows of [N]
    entries: when the puzzle has at least [searchLimit] valid
    completions (the distinct grids [Gs] are some of them) and the
    limit is not negative, [solve] returns exactly [searchLimit]
    grids; the search stops at the limit and not before. *)
Theorem solve_stops_at_limit (k : nat) (puzzle : grid) (limit : Z)
    (gs Gs : list grid) :
  1 <= k -> is_square (solver k) puzzle = true ->
  solve (solver k) puzzle limit = Ok gs ->
  NoDup Gs -> Forall (fun G => valid_completion (solver k) puzzle G = true) Gs ->
  (0 <= limit <= Z.of_nat (length Gs))%Z ->
  Z.of_nat (length gs) = limit.
Proof. apply solve_reaches_limit. Qed.

Lemma solve_stops_at_limit_witness :
  Z.of_nat (length [[[1; 3; 2; 4]; [4; 2; 3; 1]; [2; 1; 4; 3]; [3; 4; 1; 2]]%Z;
                    [[1; 3; 2; 4]; [4; 2; 3; 1]; [3; 1; 4; 2]; [2; 4; 1; 3]]%Z])
  = 2%Z.
Proof.
  apply (solve_stops_at_limit 2
           [[1; 0; 0; 0]; [0; 0; 3; 0]; [0; 0; 0; 0]; [0; 4; 0; 0]]%Z 2 _
           [[[1; 3; 2; 4]; [4; 2; 3; 1]; [2; 1; 4; 3]; [3; 4; 1; 2]]%Z;
            [[1; 3; 2; 4]; [4; 2; 3; 1]; [3; 1; 4; 2]; [2; 4; 1; 3]]%Z;
            [[1; 3; 4; 2]; [4; 2; 3; 1]; [3; 1; 2; 4]; [2; 4; 1; 3]]%Z]);
    [lia | reflexivity | vm_compute; reflexivity
    | apply (bool_decide_unpack _); vm_compute; exact I
    | repeat constructor | cbn; lia].
Defined.



(** X29.  For the grid size [N = k * k] with [k] up to 28 (the sizes
    for which the [int] sizes of the source do not overflow), a puzzle
    of [N] rows of [N] entries, each from 0 to [N], in which no digit
    is given twice in a
    row, a column or a block, which gives at least one digit and leaves
    at least one cell empty, and a search limit from 0 to [max_size()]:
    [solve] returns and throws nothing, whether or not the puzzle can
    be completed, and it returns no grid when the puzzle has no valid
    completion. *)
Theorem solve_returns_on_consistent_puzzle (k : nat) (puzzle : grid) (limit : Z)
    (r1 c1 r2 c2 : nat) :
  1 <= k <= 28 -> is_square (solver k) puzzle = true ->
  entries_in_range (solver k) puzzle = true ->
  consistent (solver k) puzzle = true ->
  (0 <= limit <= solutions_max_size)%Z ->
  r1 < k * k -> c1 < k * k -> (0 < cell puzzle r1 c1)%Z ->
  r2 < k * k -> c2 < k * k -> cell puzzle r2 c2 = 0%Z ->
  exists gs,
    solve (solver k) puzzle limit = Ok gs
    /\ ((forall G, valid_completion (solver k) puzzle G = false) -> gs = []).
Proof.
  intros [Hk _] Hsq Hrange Hcons Hlimit Hr1 Hc1 H1 Hr2 Hc2 H2.
  destruct (divmod_intro (k * k) r1 c1 Hc1) as [E1 E2].
  destruct (divmod_intro (k * k) r2 c2 Hc2) as [E3 E4].
  destruct (solve_total_consistent k puzzle limit (r1 * (k * k) + c1) (r2 * (k * k) + c2)
              Hk Hsq Hrange Hcons Hlimit) as [gs E].
  - nia.
  - unfold given. rewrite E1, E2. exact H1.
  - nia.
  - unfold given. rewrite E3, E4. lia.
  - exists gs. split; [exact E |]. intros Hnone.
    pose proof (solve_consistent k puzzle limit gs Hk Hsq Hrange Hcons E) as Hall.
    destruct gs as [| g gs]; [reflexivity |].
    apply Forall_cons in Hall as [Hg _]. rewrite Hnone in Hg. discriminate.
Qed.

Lemma solve_returns_on_consistent_puzzle_witness :
  exists gs,
    solve (solver 2) [[1; 2; 0; 0]; [0; 0; 0; 0]; [0; 0; 3; 0]; [0; 0; 4; 0]]%Z 5 = Ok gs
    /\ ((forall G, valid_completion (solver 2)
                     [[1; 2; 0; 0]; [0; 0; 0; 0]; [0; 0; 3; 0]; [0; 0; 4; 0]]%Z G = false)
        -> gs = []).
Proof.
  apply (solve_returns_on_consistent_puzzle 2
           [[1; 2; 0; 0]; [0; 0; 0; 0]; [0; 0; 3; 0]; [0; 0; 4; 0]]%Z 5 0 0 0 2);
    [lia | reflexivity | vm_compute; reflexivity | vm_compute; reflexivity
    | vm_compute; split; discriminate
    | cbn; lia | cbn; lia | reflexivity | cbn; lia | cbn; lia | reflexivity].
Defined.
(** * The printed grid *)

Lemma separator_at_app_l (l l' : text) (p : nat) :
  p < length l -> separator_at (l ++ l') p = separator_at l p.
Proof. intros Hp. unfold separator_at. rewrite lookup_app_l by exact Hp. reflexivity. Qed.

Lemma separator_at_app_r (l l' : text) (p : nat) :
  length l <= p -> separator_at (l ++ l') p = separator_at l' (p - length l).
Proof. intros Hp. unfold separator_at. rewrite lookup_app_r by exact Hp. reflexivity. Qed.

Lemma aligned_app (W : nat) (l t : text) :
  aligned W l ->
  (forall q, q < length t ->
     (separator_at t q = true <-> (length l + q) mod W = 0)) ->
  aligned W (l ++ t).
Proof.
  intros Hl Ht p Hp. rewrite length_app in Hp.
  destruct (Nat.lt_ge_cases p (length l)) as [Hlt | Hge].
  - rewrite separator_at_app_l by exact Hlt. apply Hl. exact Hlt.
  - rewrite separator_at_app_r by exact Hge.
    rewrite (Ht (p - length l)) by lia.
    replace (length l + (p - length l)) with p by lia. reflexivity.
Qed.

(** Positions inside a block. *)
Lemma mod_offset (W m o : nat) : o < W -> (m * W + o) mod W = o.
Proof.
  intros Ho. rewrite Nat.add_comm, Nat.Div0.mod_add. apply Nat.mod_small. exact Ho.
Qed.

(** ** The borders *)

Lemma separator_test (W i : nat) :
  2 <= W ->
  ((0 <? i) && (i mod (W * (1 + i / W) - 1) =? 0)) = ((i + 1) mod W =? 0)
  /\ (i + 1) / W = i / W + (if (i + 1) mod W =? 0 then 1 else 0).
Proof.
  intros HW.
  pose proof (Nat.div_mod_eq i W) as E.
  pose proof (Nat.mod_upper_bound i W ltac:(lia)) as Hr.
  set (q := i / W) in *. set (r := i mod W) in *.
  destruct (decide (r = W - 1)) as [Hlast | Hin].
  - assert (E1 : i + 1 = (q + 1) * W + 0) by nia.
    assert (Es : W * (1 + q) - 1 = i) by nia.
    assert (Em : (i + 1) mod W = 0) by (rewrite E1; apply mod_offset; lia).
    assert (Ed : (i + 1) / W = q + 1).
    { rewrite E1, Nat.div_add_l by lia. rewrite Nat.div_small by lia. lia. }
    rewrite Es, Nat.Div0.mod_same, Em, Ed. cbn [Nat.eqb]. rewrite andb_true_r.
    split; [| reflexivity]. apply Nat.ltb_lt. nia.
  - assert (E1 : i + 1 = q * W + (r + 1)) by nia.
    assert (Em : (i + 1) mod W = r + 1) by (rewrite E1; apply mod_offset; lia).
    assert (Ed : (i + 1) / W = q).
    { rewrite E1, Nat.div_add_l by lia. rewrite (Nat.div_small (r + 1) W) by lia. lia. }
    rewrite Em, Ed.
    destruct (Nat.eqb_spec (r + 1) 0) as [| _]; [lia |].
    split; [| lia].
    rewrite (Nat.mod_small i) by nia.
    destruct i as [| i]; reflexivity.
Qed.

Lemma block_width_ge (N bs : nat) : 2 <= block_width N bs.
Proof. unfold block_width. lia. Qed.

Lemma replicate_snoc {A : Type} (n : nat) (x : A) :
  replicate n x ++ [x] = replicate (S n) x.
Proof. induction n as [| n IH]; [reflexivity |]. cbn. rewrite IH. reflexivity. Qed.

Lemma aligned_snoc (W : nat) (l : text) (c : ascii) :
  aligned W l ->
  (bool_decide (c = "|"%char) || bool_decide (c = "+"%char) = true
   <-> length l mod W = 0) ->
  aligned W (l ++ [c]).
Proof.
  intros Hl Hc. apply aligned_app; [exact Hl |].
  intros q Hq. cbn in Hq. assert (q = 0) by lia. subst q.
  rewrite Nat.add_0_r. exact Hc.
Qed.

(** The state of the loop over the positions of the borders after [n]
    rounds. *)
Lemma border_loop (N bs n : nat) :
  exists inner,
    fold_left (border_step N bs) (seq 0 n) (["+"%char], ["|"%char], 1)
    = ("+"%char :: replicate n "-"%char, inner, 1 + n / block_width N bs)
    /\ length inner = n + 1
    /\ aligned (block_width N bs) inner.
Proof.
  pose proof (block_width_ge N bs) as HW. set (W := block_width N bs) in *.
  induction n as [| n (inner & E & Hlen & Hal)].
  - exists ["|"%char]. cbn [seq fold_left replicate].
    rewrite Nat.Div0.div_0_l. split; [reflexivity |]. split; [reflexivity |].
    intros p Hp. cbn in Hp. assert (p = 0) by lia. subst p.
    rewrite Nat.Div0.mod_0_l. cbn. tauto.
  - rewrite seq_S, fold_left_app, E. cbn [fold_left Nat.add border_step].
    assert (Es : (bs * 2 + bs * (if 9 <? N then 1 else 0) + 1) * (1 + n / W)
                 + (1 + n / W) - 1 = W * (1 + n / W) - 1).
    { unfold W, block_width. destruct (9 <? N); nia. }
    cbn [Nat.add] in Es. rewrite Es.
    destruct (separator_test W n HW) as [Et Ed]. cbn [Nat.add] in Et. rewrite Et.
    replace (S n) with (n + 1) by lia. rewrite Ed.
    assert (Eo : ("+"%char :: replicate n "-"%char) ++ ["-"%char]
                 = "+"%char :: replicate (n + 1) "-"%char).
    { cbn [app]. rewrite replicate_snoc. f_equal. f_equal. lia. }
    rewrite Eo.
    destruct (Nat.eqb_spec ((n + 1) mod W) 0) as [Hm | Hm].
    + exists (inner ++ ["+"%char]). split; [f_equal; lia |].
      split; [rewrite length_app; cbn; lia |].
      apply aligned_snoc; [exact Hal |]. rewrite Hlen. cbn. tauto.
    + exists (inner ++ ["-"%char]). split; [f_equal; lia |].
      split; [rewrite length_app; cbn; lia |].
      apply aligned_snoc; [exact Hal |]. rewrite Hlen. cbn. split; [discriminate | tauto].
Qed.

(** The borders of a grid of [bs * bs] rows. *)
Lemma borders_spec (bs : nat) :
  1 <= bs ->
  exists inner,
    borders (bs * bs) bs
    = ("+"%char :: replicate (bs * block_width (bs * bs) bs - 1) "-"%char ++ ["+"%char],
       inner)
    /\ length inner = bs * block_width (bs * bs) bs + 1
    /\ aligned (block_width (bs * bs) bs) inner.
Proof.
  intros Hbs. unfold borders.
  pose proof (block_width_ge (bs * bs) bs) as HW.
  assert (El : (bs * bs + bs - 1) * 2 + (if 9 <? bs * bs then bs * bs else 0) + 1
               = bs * block_width (bs * bs) bs - 1).
  { unfold block_width. destruct (9 <? bs * bs); nia. }
  rewrite El.
  destruct (border_loop (bs * bs) bs (bs * block_width (bs * bs) bs - 1))
    as (inner & E & Hlen & Hal).
  rewrite E. exists (inner ++ ["|"%char]). split; [reflexivity |].
  set (W := block_width (bs * bs) bs) in *.
  assert (Epos : bs * W - 1 + 1 = bs * W + 0) by nia.
  split; [rewrite length_app, Hlen; cbn [length]; lia |].
  apply aligned_snoc; [exact Hal |]. rewrite Hlen, Epos.
  rewrite (mod_offset W bs 0) by lia. cbn. tauto.
Qed.

(** ** The rows *)

Lemma div_succ (b i : nat) :
  1 <= b ->
  (i + 1) / b = i / b + (if (i + 1) mod b =? 0 then 1 else 0)
  /\ ((i + 1) mod b = 0 <-> i mod b = b - 1).
Proof.
  intros Hb.
  pose proof (Nat.div_mod_eq i b) as E.
  pose proof (Nat.mod_upper_bound i b ltac:(lia)) as Hr.
  set (q := i / b) in *. set (r := i mod b) in *.
  destruct (decide (r = b - 1)) as [Hlast | Hin].
  - assert (E1 : i + 1 = (q + 1) * b + 0) by nia.
    assert (Em : (i + 1) mod b = 0) by (rewrite E1; apply mod_offset; lia).
    assert (Ed : (i + 1) / b = q + 1).
    { rewrite E1, Nat.div_add_l by lia. rewrite Nat.div_small by lia. lia. }
    rewrite Em, Ed. cbn [Nat.eqb]. tauto.
  - assert (E1 : i + 1 = q * b + (r + 1)) by nia.
    assert (Em : (i + 1) mod b = r + 1) by (rewrite E1; apply mod_offset; lia).
    assert (Ed : (i + 1) / b = q).
    { rewrite E1, Nat.div_add_l by lia. rewrite (Nat.div_small (r + 1) b) by lia. lia. }
    rewrite Em, Ed.
    destruct (Nat.eqb_spec (r + 1) 0) as [| _]; lia.
Qed.

Lemma no_separator (t : text) (q : nat) :
  forallb (fun c => negb (bool_decide (c = "|"%char) || bool_decide (c = "+"%char))) t
  = true ->
  separator_at t q = false.
Proof.
  intros H. unfold separator_at. destruct (t !! q) as [c |] eqn:E; [| reflexivity].
  apply list_elem_of_lookup_2 in E. apply list_elem_of_In in E.
  rewrite forallb_forall in H. apply negb_true_iff. apply H. exact E.
Qed.

(** What [printGrid] writes for an entry, before the separator. *)
Lemma cell_text (extra : bool) (v : Z) :
  (0 <= v <= (if extra then 99 else 9))%Z ->
  exists txt,
    (if extra && (v <? 10)%Z
     then ((if (v =? 0)%Z then ["."%char] else print_int v) ++ [" "%char]) ++ [" "%char]
     else (if (v =? 0)%Z then ["."%char] else print_int v) ++ [" "%char]) = txt
    /\ length txt = (if extra then 3 else 2)
    /\ forall q, separator_at txt q = false.
Proof.
  intros Hv. eexists. split; [reflexivity |].
  set (txt := fun (e : bool) (x : Z) =>
    if e && (x <? 10)%Z
    then ((if (x =? 0)%Z then ["."%char] else print_int x) ++ [" "%char]) ++ [" "%char]
    else (if (x =? 0)%Z then ["."%char] else print_int x) ++ [" "%char]).
  set (ok := fun (e : bool) (n : nat) =>
    (length (txt e (Z.of_nat n)) =? (if e then 3 else 2))
    && forallb (fun c => negb (bool_decide (c = "|"%char) || bool_decide (c = "+"%char)))
         (txt e (Z.of_nat n))).
  assert (H9 : forallb (ok false) (seq 0 10) = true) by (vm_compute; reflexivity).
  assert (H99 : forallb (ok true) (seq 0 100) = true) by (vm_compute; reflexivity).
  assert (H : ok extra (Z.to_nat v) = true).
  { destruct extra.
    - rewrite forallb_forall in H99. apply H99. apply in_seq. lia.
    - rewrite forallb_forall in H9. apply H9. apply in_seq. lia. }
  unfold ok in H. rewrite Z2Nat.id in H by lia.
  apply andb_true_iff in H as [Hl Hs]. apply Nat.eqb_eq in Hl.
  split; [exact Hl |]. intros q. apply no_separator. exact Hs.
Qed.

Lemma print_cell_spec (N bs : nat) (row : list Z) (j : nat) (v : Z) (out : text) :
  row !! j = Some v -> (0 <= v <= widest_entry N)%Z ->
  exists txt,
    print_cell N bs row j out
    = Ok (out ++ txt ++ (if (j + 1) mod bs =? 0 then ["|"; " "]%char else []))
    /\ length txt = (if 9 <? N then 3 else 2)
    /\ forall q, separator_at txt q = false.
Proof.
  intros Ev Hv. unfold print_cell, vget. rewrite Ev. cbn [bind].
  unfold widest_entry in Hv.
  destruct (cell_text (9 <? N) v Hv) as (txt & Et & Hl & Hs).
  exists txt. split; [| split; [exact Hl | exact Hs]]. f_equal.
  assert (Ex : (0 <? (if 9 <? N then N else 0)) = (9 <? N)).
  { destruct (Nat.ltb_spec 9 N) as [H |]; [apply Nat.ltb_lt; lia | reflexivity]. }
  rewrite Ex. subst txt.
  destruct (9 <? N), (v <? 10)%Z, (v =? 0)%Z, ((j + 1) mod bs =? 0);
    cbn [andb]; rewrite <- ?app_assoc, ?app_nil_r; reflexivity.
Qed.

(** The cells of a row: the line of the row. *)
Lemma print_cells_spec (bs : nat) (row : list Z) (out : text) :
  1 <= bs -> length row = bs * bs ->
  Forall (fun v => (0 <= v <= widest_entry (bs * bs))%Z) row ->
  exists L,
    for_range (bs * bs) 0 (print_cell (bs * bs) bs row) (out ++ ["|"; " "]%char)
    = Ok (out ++ L)
    /\ length L = bs * block_width (bs * bs) bs + 2
    /\ aligned (block_width (bs * bs) bs) L.
Proof.
  intros Hbs Hlen Hrow.
  set (N := bs * bs) in *. set (w := if 9 <? N then 3 else 2).
  assert (EW : block_width N bs = w * bs + 2) by reflexivity.
  set (W := block_width N bs) in *.
  assert (Hw : 2 <= w) by (unfold w; destruct (9 <? N); lia).
  destruct (for_range_inv
    (fun j st => exists L, st = out ++ L
                   /\ length L = 2 + j * w + 2 * (j / bs) /\ aligned W L)
    (print_cell N bs row) N 0 (out ++ ["|"; " "]%char)) as (st & E & L & -> & HL & Hal).
  - exists ["|"; " "]%char. split; [reflexivity |].
    rewrite Nat.Div0.div_0_l. split; [reflexivity |].
    intros p Hp. cbn in Hp.
    destruct p as [| [| p]]; [| | lia].
    + rewrite Nat.Div0.mod_0_l. cbn. tauto.
    + rewrite (Nat.mod_small 1 W) by lia. cbn. split; [discriminate | lia].
  - intros j st Hj (L & -> & HL & Hal).
    destruct (lookup_lt_is_Some_2 row j ltac:(lia)) as [v Ev].
    rewrite Forall_lookup in Hrow.
    destruct (print_cell_spec N bs row j v (out ++ L) Ev (Hrow j v Ev))
      as (txt & Ep & Htl & Hts).
    fold w in Htl.
    eexists. split; [exact Ep |].
    exists (L ++ txt ++ (if (j + 1) mod bs =? 0 then ["|"; " "]%char else [])).
    split; [rewrite <- app_assoc; reflexivity |].
    destruct (div_succ bs j Hbs) as [Ed Em].
    pose proof (Nat.div_mod_eq j bs) as Ej.
    pose proof (Nat.mod_upper_bound j bs ltac:(lia)) as Hr.
    set (m := j / bs) in *. set (r := j mod bs) in *.
    assert (HLm : length L = m * W + (2 + r * w)) by nia.
    replace (S j) with (j + 1) by lia. rewrite Ed.
    split.
    + rewrite !length_app, HL, Htl.
      destruct ((j + 1) mod bs =? 0); cbn [length]; lia.
    + apply aligned_app; [exact Hal |]. intros q Hq.
      rewrite length_app, Htl in Hq.
      destruct (Nat.lt_ge_cases q w) as [Hqw | Hqw].
      * rewrite separator_at_app_l by lia. rewrite Hts.
        replace (length L + q) with (m * W + (2 + r * w + q)) by lia.
        rewrite mod_offset by nia. split; [discriminate | lia].
      * rewrite separator_at_app_r by lia. rewrite Htl.
        destruct (Nat.eqb_spec ((j + 1) mod bs) 0) as [H0 | H0];
          [| cbn [length] in Hq; lia].
        apply Em in H0. cbn [length] in Hq.
        assert (Hq' : q = w \/ q = w + 1) by lia.
        destruct Hq' as [-> | ->].
        -- replace (w - w) with 0 by lia.
           replace (length L + w) with ((m + 1) * W + 0) by nia.
           rewrite mod_offset by lia. cbn. tauto.
        -- replace (w + 1 - w) with 1 by lia.
           replace (length L + (w + 1)) with ((m + 1) * W + 1) by nia.
           rewrite mod_offset by lia. cbn. split; [discriminate | lia].
  - exists L. split; [exact E |]. split; [| exact Hal].
    rewrite HL. cbn [Nat.add]. unfold N. rewrite Nat.div_mul by lia. nia.
Qed.

Lemma unlines_app (ls ls' : list text) : unlines (ls ++ ls') = unlines ls ++ unlines ls'.
Proof. unfold unlines. rewrite fmap_app, concat_app. reflexivity. Qed.

Lemma unlines_cons (l : text) (ls : list text) :
  unlines (l :: ls) = l ++ newline :: unlines ls.
Proof. unfold unlines. cbn. rewrite <- app_assoc. reflexivity. Qed.

(** A row, with the inner border that follows it if any. *)
Lemma print_row_spec (bs : nat) (inner : text) (g : grid) (i : nat) (row : list Z)
    (out : text) :
  1 <= bs -> g !! i = Some row -> length row = bs * bs ->
  Forall (fun v => (0 <= v <= widest_entry (bs * bs))%Z) row ->
  exists L,
    print_row (bs * bs) bs inner g i out
    = Ok (out ++ unlines (L :: (if ((i + 1) mod bs =? 0) && (i + 1 <? bs * bs)
                                then [inner] else [])))
    /\ length L = bs * block_width (bs * bs) bs + 2
    /\ aligned (block_width (bs * bs) bs) L.
Proof.
  intros Hbs Ei Hlen Hrow. unfold print_row, vget. rewrite Ei. cbn [bind].
  destruct (print_cells_spec bs row out Hbs Hlen Hrow) as (L & E & HL & Hal).
  rewrite E. cbn [bind]. exists L. split; [| split; [exact HL | exact Hal]].
  f_equal. rewrite unlines_cons.
  destruct (((i + 1) mod bs =? 0) && (i + 1 <? bs * bs)).
  - rewrite unlines_cons. unfold unlines. cbn [fmap list_fmap concat].
    rewrite <- !app_assoc. reflexivity.
  - unfold unlines. cbn [fmap list_fmap concat]. rewrite <- !app_assoc. reflexivity.
Qed.

(** X30.  For a grid of [N = bs * bs] rows of [N] entries, each from 0
    to 9, or from 0 to 99 when [N] is above 9: [printGrid] reads no
    entry outside a row and writes the outer border (a [+], dashes, a
    [+]), then [N + bs - 1] lines, the rows and the inner borders
    between the blocks, then the outer border again and an empty line.
    In every row and in every inner border the separators [|] and [+]
    stand at the multiples of the width of a block and nowhere else,
    so that they line up, and the outer border ends above the last
    separator. *)
Theorem printGrid_aligns_separators (bs : nat) (g : grid) (out : text) :
  1 <= bs -> length g = bs * bs ->
  Forall (fun row => length row = bs * bs) g ->
  Forall (Forall (fun v => (0 <= v <= widest_entry (bs * bs))%Z)) g ->
  exists mid,
    printGrid g out
    = Ok (out
          ++ unlines
               (("+"%char :: replicate (bs * block_width (bs * bs) bs - 1) "-"%char
                   ++ ["+"%char])
                :: mid
                ++ ["+"%char :: replicate (bs * block_width (bs * bs) bs - 1) "-"%char
                      ++ ["+"%char]])
          ++ [newline])
    /\ length mid = bs * bs + bs - 1
    /\ Forall (fun l => bs * block_width (bs * bs) bs < length l
                        /\ aligned (block_width (bs * bs) bs) l) mid.
Proof.
  intros Hbs Hlen Hrows Hrange. unfold printGrid.
  destruct (decide (g = [])) as [-> | _]; [cbn in Hlen; nia |].
  rewrite Hlen, Nat.sqrt_square, Nat.eqb_refl. cbn [negb].
  destruct (borders_spec bs Hbs) as (inner & -> & Hil & Hial).
  set (N := bs * bs) in *. set (W := block_width N bs) in *.
  set (outer := "+"%char :: replicate (bs * W - 1) "-"%char ++ ["+"%char]).
  rewrite Forall_lookup in Hrows. rewrite Forall_lookup in Hrange.
  destruct (for_range_inv
    (fun i st => exists mid, st = (out ++ outer ++ [newline]) ++ unlines mid
                   /\ length mid = i + Nat.min (i / bs) (bs - 1)
                   /\ Forall (fun l => bs * W < length l /\ aligned W l) mid)
    (print_row N bs inner g) N 0 (out ++ outer ++ [newline]))
    as (st & E & mid & -> & Hml & Hmid).
  - exists []. rewrite Nat.Div0.div_0_l. split; [rewrite app_nil_r; reflexivity |].
    split; [reflexivity | constructor].
  - intros i st Hi (mid & -> & Hml & Hmid).
    destruct (lookup_lt_is_Some_2 g i ltac:(lia)) as [row Er].
    destruct (print_row_spec bs inner g i row ((out ++ outer ++ [newline]) ++ unlines mid)
                Hbs Er (Hrows i row Er) (Hrange i row Er)) as (L & Ep & HL & Hal).
    eexists. split; [exact Ep |].
    exists (mid ++ L :: (if ((i + 1) mod bs =? 0) && (i + 1 <? N) then [inner] else [])).
    split; [rewrite unlines_app; symmetry; apply app_assoc |].
    destruct (div_succ bs i Hbs) as [Ed _].
    assert (Hq : i / bs < bs) by (apply Nat.Div0.div_lt_upper_bound; unfold N in Hi; lia).
    replace (S i) with (i + 1) by lia. rewrite Ed. split.
    + rewrite length_app, Hml. cbn [length].
      destruct (Nat.eqb_spec ((i + 1) mod bs) 0) as [H0 | H0]; cbn [andb].
      * destruct (Nat.ltb_spec (i + 1) N) as [Hlt | Hge]; cbn [length].
        -- assert ((i + 1) / bs < bs)
             by (apply Nat.Div0.div_lt_upper_bound; unfold N in Hlt; lia).
           lia.
        -- assert ((i + 1) / bs = bs).
           { replace (i + 1) with (bs * bs) by (unfold N in Hi, Hge; lia).
             apply Nat.div_mul. lia. }
           lia.
      * cbn [length]. lia.
    + apply Forall_app. split; [exact Hmid |].
      apply Forall_cons. split; [split; [unfold W, N; lia | exact Hal] |].
      destruct (((i + 1) mod bs =? 0) && (i + 1 <? N)); [| constructor].
      apply Forall_cons. split; [split; [lia | exact Hial] | constructor].
  - exists mid. rewrite E. cbn [bind]. split; [| split; [| exact Hmid]].
    + f_equal. rewrite unlines_cons, unlines_app, (unlines_cons outer []).
      change (unlines []) with (@nil ascii).
      rewrite <- !app_assoc. cbn [app]. rewrite <- !app_assoc. reflexivity.
    + rewrite Hml. cbn [Nat.add]. unfold N. rewrite Nat.div_mul by lia. lia.
Qed.

Lemma printGrid_aligns_separators_witness :
  exists mid,
    printGrid [[1; 0; 0; 4]; [0; 4; 1; 0]; [2; 0; 0; 3]; [0; 3; 2; 0]]%Z []
    = Ok ([]
          ++ unlines
               (("+"%char :: replicate (2 * block_width (2 * 2) 2 - 1) "-"%char
                   ++ ["+"%char])
                :: mid
                ++ ["+"%char :: replicate (2 * block_width (2 * 2) 2 - 1) "-"%char
                      ++ ["+"%char]])
          ++ [newline])
    /\ length mid = 2 * 2 + 2 - 1
    /\ Forall (fun l => 2 * block_width (2 * 2) 2 < length l
                        /\ aligned (block_width (2 * 2) 2) l) mid.
Proof.
  apply (printGrid_aligns_separators 2
           [[1; 0; 0; 4]; [0; 4; 1; 0]; [2; 0; 0; 3]; [0; 3; 2; 0]]%Z []);
    [lia | reflexivity | repeat constructor
    | repeat constructor; unfold widest_entry; cbn; lia].
Defined.

(** ** The solutions printed *)

Lemma print_loop (solutions : list grid) (count i : nat) (out : text) :
  i + count <= length solutions ->
  for_range count i
    (fun i out =>
       let out := out ++ String.list_ascii_of_string "Solution " ++ print_size (i + 1)
                      ++ [":"%char; newline] in
       let* g := vget solutions i in
       printGrid g out)
    out
  = print_numbered (i + 1) (take count (drop i solutions)) out.
Proof.
  revert i out. induction count as [| c IH]; intros i out Hi; [reflexivity |].
  destruct (lookup_lt_is_Some_2 solutions i ltac:(lia)) as [g Eg].
  rewrite (drop_S _ _ _ Eg). cbn [for_range take print_numbered].
  unfold vget at 1. rewrite Eg. cbn [bind].
  destruct (printGrid g _) as [out' | e]; cbn [bind]; [| reflexivity].
  rewrite IH by lia. reflexivity.
Qed.

(** X23.  [printSolutions] prints the first [printLimit] solutions, or
    all of them when there are fewer, each under its heading
    [Solution i:] with [i] counted from 1, and it reads no solution
    past the end of the vector.  A negative [printLimit] does not
    print nothing: cast to [size_t] it is above every size, and all
    the solutions are printed. *)
Theorem printSolutions_prints_first (solutions : list grid) (printLimit : Z)
    (out : text) :
  (- 2 ^ 31 <= printLimit < 2 ^ 31)%Z ->
  (Z.of_nat (length solutions) < 2 ^ 63)%Z ->
  printSolutions solutions printLimit out
  = print_numbered 1
      (if (printLimit <? 0)%Z then solutions else take (Z.to_nat printLimit) solutions)
      out.
Proof.
  intros Hlimit Hsize. unfold printSolutions.
  rewrite print_loop.
  2:{ cbn [Nat.add]. lia. }
  rewrite drop_0. cbn [Nat.add]. f_equal.
  destruct (Z.ltb_spec printLimit 0) as [Hneg | Hpos].
  - assert (Em : (printLimit mod 2 ^ 64 = printLimit + 2 ^ 64)%Z).
    { symmetry. apply (Z.mod_unique _ _ (-1)); lia. }
    rewrite Em, Z.min_r by lia. rewrite Nat2Z.id. apply firstn_all.
  - rewrite Z.mod_small by lia.
    destruct (Z.le_ge_cases printLimit (Z.of_nat (length solutions))) as [Hle | Hge].
    + rewrite Z.min_l by lia. reflexivity.
    + rewrite Z.min_r by lia. rewrite Nat2Z.id.
      rewrite firstn_all. symmetry. apply take_ge. lia.
Qed.

Lemma printSolutions_prints_first_witness :
  printSolutions [[[1]]; [[0]]; [[7]]]%Z (-1) []
  = print_numbered 1
      (if (-1 <? 0)%Z then [[[1]]; [[0]]; [[7]]]%Z
       else take (Z.to_nat (-1)) [[[1]]; [[0]]; [[7]]]%Z)
      [].
Proof.
  apply (printSolutions_prints_first [[[1]]; [[0]]; [[7]]]%Z (-1) []); cbn; lia.
Defined.
(** * The claims that the code corrects *)

(** ** A puzzle without a completion *)

(** [solve] on a puzzle whose given digits are digits 1..N, no two of
    them equal in a row, a column or a block, and that has no valid
    completion: the search reaches no leaf, so that
    [mapSolutionToGrid] is never called, and no grid is returned. *)
Lemma solve_no_completion (k : nat) (puzzle : grid) (limit : Z) :
  1 <= k -> is_square (solver k) puzzle = true ->
  entries_in_range (solver k) puzzle = true ->
  consistent (solver k) puzzle = true ->
  (forall G, valid_completion (solver k) puzzle G = false) ->
  (0 <= limit <= solutions_max_size)%Z ->
  solve (solver k) puzzle limit = Ok [].
Proof.
  intros Hk Hsqp Hrange Hcons Hnone Hlimit.
  pose proof (fun r c => consistent_digit k puzzle r c Hsqp Hrange) as Hdig.
  pose proof (fun r c r' c' => consistent_inj k puzzle r c r' c' Hk Hcons) as Hinj.
  assert (Hsame : forall r c, r < k * k -> c < k * k ->
            (0 < cell puzzle r c)%Z -> cell puzzle r c = cell puzzle r c) by reflexivity.
  destruct (solve_located_rows k puzzle puzzle Hk Hsqp Hdig Hinj Hsame)
    as (h & s1 & clues & hs & E0 & HR0 & Hlab & Ea & Hs1 & Hcomp & Hcnt & Hsols & Hrows).
  pose proof (Rep_rows_NoDup _ _ _ _ HR0) as Hnd0.
  assert (Hpart : partition_of (sudoku_torus (solver k)) h hs clues) by apply Hs1.
  assert (Hex : exists gs, solve (solver k) puzzle limit = Ok gs).
  { rewrite solve_unfold.
    rewrite (is_square_dimensions_ok _ _ Hsqp). cbn [negb].
    assert (Hmod : (limit mod 2 ^ 64 = limit)%Z).
    { apply Z.mod_small. split; [lia |].
      assert (solutions_max_size < 2 ^ 64)%Z by reflexivity. lia. }
    rewrite Hmod. destruct (Z.ltb_spec solutions_max_size limit) as [| _]; [lia |].
    rewrite E0. cbn [bind fst snd]. rewrite Ea. cbn [bind].
    pose proof (sudoku_search_leaf k _ h limit False clues hs [] s1 Hk
                  (sudoku_depth _ _ _ _ _ _ _ Hs1) HR0 Hlab Hs1) as Hout.
    cbn [length] in Hout.
    destruct (searchDLX _ (solver k) (ring_fuel (solver k)) 0 limit s1) as [s2 |];
      cbn [bind outcome] in Hout |- *; [eauto |].
    exfalso. apply Hout. intros chosen1 st1 Hst1 _.
    destruct (leaf_completion (solver k) (k * k) k eq_refl eq_refl eq_refl eq_refl eq_refl
                eq_refl ltac:(lia) h Hnd0 Hlab clues chosen1 st1 Hst1)
      as (g & Hsolved & Hkeeps).
    assert (Hext : extends (solver k) puzzle g = true).
    { apply (located_extends (solver k) (k * k) k eq_refl eq_refl eq_refl eq_refl eq_refl
               eq_refl ltac:(lia) h Hnd0 Hlab puzzle puzzle Hdig Hinj Hsame
               clues hs Hpart Hrows).
      - intros r c Hr Hcc Hle.
        pose proof (puzzle_cell_range (solver k) puzzle r c Hsqp Hrange Hr Hcc). lia.
      - intros p Hp. apply Hkeeps. apply elem_of_app. auto. }
    specialize (Hnone g). unfold valid_completion in Hnone.
    rewrite Hsolved, Hext in Hnone. discriminate. }
  destruct Hex as [gs E]. rewrite E. f_equal.
  pose proof (solve_consistent k puzzle limit gs Hk Hsqp Hrange Hcons E) as Hall.
  destruct gs as [| g gs]; [reflexivity |].
  apply Forall_cons in Hall as [Hg _]. rewrite Hnone in Hg. discriminate.
Qed.

(** A puzzle of the 4 x 4 solver without two equal digits in a row, a
    column or a block, and without a completion: the third cell of the
    first row can hold none of the four digits. *)
Lemma blocked_cell_no_completion (G : grid) :
  valid_completion (solver 2)
    [[1; 2; 0; 0]; [0; 0; 0; 0]; [0; 0; 3; 0]; [0; 0; 4; 0]]%Z G = false.
Proof.
  destruct (valid_completion _ _ G) eqn:E; [exfalso | reflexivity].
  apply valid_completion_parts in E as [HG Hext].
  pose proof (extends_cell (solver 2) (2 * 2) eq_refl G _ Hext) as Hcell.
  pose proof (Hcell 0 0 ltac:(lia) ltac:(lia) ltac:(reflexivity)) as E00.
  pose proof (Hcell 0 1 ltac:(lia) ltac:(lia) ltac:(reflexivity)) as E01.
  pose proof (Hcell 2 2 ltac:(lia) ltac:(lia) ltac:(reflexivity)) as E22.
  pose proof (Hcell 3 2 ltac:(lia) ltac:(lia) ltac:(reflexivity)) as E32.
  cbn in E00, E01, E22, E32.
  destruct (solved_digit (solver 2) (2 * 2) 2 eq_refl eq_refl eq_refl ltac:(lia) G HG
              0 2 ltac:(lia) ltac:(lia)) as (d & Hd & Ed).
  pose proof (solved_unit_inj (solver 2) (2 * 2) 2 eq_refl eq_refl eq_refl ltac:(lia) G HG)
    as Hinj.
  assert (Hcase : d = 0 \/ d = 1 \/ d = 2 \/ d = 3) by lia.
  destruct Hcase as [-> | [-> | [-> | ->]]].
  - destruct (Hinj 0 2 0 0 ltac:(lia) ltac:(lia) ltac:(lia) ltac:(lia)); [| auto | lia].
    rewrite Ed, <- E00. reflexivity.
  - destruct (Hinj 0 2 0 1 ltac:(lia) ltac:(lia) ltac:(lia) ltac:(lia)); [| auto | lia].
    rewrite Ed, <- E01. reflexivity.
  - destruct (Hinj 0 2 2 2 ltac:(lia) ltac:(lia) ltac:(lia) ltac:(lia)); [| auto | lia].
    rewrite Ed, <- E22. reflexivity.
  - destruct (Hinj 0 2 3 2 ltac:(lia) ltac:(lia) ltac:(lia) ltac:(lia)); [| auto | lia].
    rewrite Ed, <- E32. reflexivity.
Qed.

(** C1.  For the grid size [N = k * k] with [k] up to 28, a puzzle of
    [N] rows of [N] entries, each from 0 to [N], in which no digit is
    given twice in a row, a column or a block, and which has no valid
    completion: [solve] returns the empty sequence, for every positive
    search limit.  (When a digit is given twice in a row, a column or
    a block, the second clue is skipped and [solve] may return grids.) *)
Theorem solve_unsolvable_puzzle_empty (k : nat) (puzzle : grid) (limit : Z) :
  1 <= k <= 28 -> is_square (solver k) puzzle = true ->
  entries_in_range (solver k) puzzle = true ->
  consistent (solver k) puzzle = true ->
  (forall G, valid_completion (solver k) puzzle G = false) ->
  (0 < limit < 2 ^ 31)%Z ->
  solve (solver k) puzzle limit = Ok [].
Proof.
  intros [Hk _] Hsqp Hrange Hcons Hnone Hlimit.
  apply (solve_no_completion k puzzle limit Hk Hsqp Hrange Hcons Hnone).
  assert (2 ^ 31 <= solutions_max_size)%Z by (vm_compute; discriminate). lia.
Qed.

Lemma solve_unsolvable_puzzle_empty_witness :
  solve (solver 2) [[1; 2; 0; 0]; [0; 0; 0; 0]; [0; 0; 3; 0]; [0; 0; 4; 0]]%Z 5 = Ok [].
Proof.
  apply (solve_unsolvable_puzzle_empty 2
           [[1; 2; 0; 0]; [0; 0; 0; 0]; [0; 0; 3; 0]; [0; 0; 4; 0]]%Z 5);
    [lia | reflexivity | vm_compute; reflexivity | vm_compute; reflexivity
    | exact blocked_cell_no_completion | lia].
Defined.

(** ** A search limit that is not positive *)

(** C10.  For the grid size [N = k * k] with [k] up to 28 and every
    puzzle of [N] rows of [N] entries: with the search limit 0,
    [solve] returns the empty sequence and throws nothing, even when
    the puzzle has completions, the guard [solutionCount >= searchLimit]
    holding on entry to [searchDLX]; with a negative search limit,
    [solve] does not reach the search: [solutions.reserve] throws
    [std::length_error]. *)
Theorem solve_nonpositive_limit (k : nat) (puzzle : grid) (limit : Z) :
  1 <= k <= 28 -> is_square (solver k) puzzle = true ->
  (- 2 ^ 31 <= limit <= 0)%Z ->
  solve (solver k) puzzle limit
  = if (limit =? 0)%Z then Ok [] else Fail length_error.
Proof.
  intros [Hk _] Hsq Hlimit. rewrite solve_unfold.
  rewrite (is_square_dimensions_ok _ _ Hsq). cbn [negb].
  destruct (Z.eqb_spec limit 0) as [-> | Hneg].
  - change (solutions_max_size <? 0 mod 2 ^ 64)%Z with false. cbv iota.
    destruct (solve_after_clues k puzzle Hk Hsq)
      as (h & s & E & Es & (_ & _ & _ & _ & _ & Hcnt & Hsols)).
    rewrite E. cbn [bind fst snd]. rewrite Es. cbn [bind].
    cbn [searchDLX]. rewrite Hcnt. cbn [solutionCount Z.leb Z.compare].
    cbn [bind]. rewrite Hsols. reflexivity.
  - assert (E : (limit mod 2 ^ 64 = limit + 2 ^ 64)%Z).
    { symmetry. apply (Z.mod_unique _ _ (-1)); lia. }
    rewrite E. unfold solutions_max_size.
    destruct (Z.ltb_spec ((2 ^ 63 - 1) / 24) (limit + 2 ^ 64)) as [_ | H];
      [reflexivity |].
    exfalso. assert ((2 ^ 63 - 1) / 24 < 2 ^ 63)%Z; [| lia].
    apply Z.div_lt_upper_bound; lia.
Qed.

Lemma solve_nonpositive_limit_witness :
  solve (solver 2) [[1; 0; 0; 0]; [0; 0; 3; 0]; [0; 0; 0; 0]; [0; 4; 0; 0]]%Z 0 = Ok []
  /\ solve (solver 2) [[1; 0; 0; 0]; [0; 0; 3; 0]; [0; 0; 0; 0]; [0; 4; 0; 0]]%Z (-7)
     = Fail length_error.
Proof.
  split.
  - apply (solve_nonpositive_limit 2
             [[1; 0; 0; 0]; [0; 0; 3; 0]; [0; 0; 0; 0]; [0; 4; 0; 0]]%Z 0);
      [lia | reflexivity | lia].
  - apply (solve_nonpositive_limit 2
             [[1; 0; 0; 0]; [0; 0; 3; 0]; [0; 0; 0; 0]; [0; 4; 0; 0]]%Z (-7));
      [lia | reflexivity | lia].
Defined.

(** ** The matrix rows and the metadata of their nodes *)

(** C3.  For the grid size [N = k * k] with [k] up to 28, the rows of
    the exact-cover matrix are [N] runs of [N * N] rows, one run for
    each row of the grid (not for each digit); in the run of grid row
    [r], the row of digit [d + 1] in grid column [c] is at the index
    [c * N + d].  Matrix row [i = r * N^2 + c * N + d] has its true
    entries at the four constraints of that digit in that cell, each of
    its four nodes stores the digit, the row and the column from 1,
    and the three are read off the index: [r = i / N^2],
    [c = i / N mod N], [d = i mod N]. *)
Theorem matrix_rows_by_grid_row (k : nat) :
  1 <= k <= 28 ->
  let sv := solver k in
  let N := k * k in
  exists M h,
    buildExactCoverMatrix sv (new_matrix (exactCoverRows sv) (exactCoverCols sv)) = Ok M
    /\ buildDLXLinkedList sv M = Ok (1, h)
    /\ (forall i, i < N * (N * N) ->
          exists r c d, r < N /\ c < N /\ d < N /\ i = r * (N * N) + (c * N + d))
    /\ (forall r c d, r < N -> c < N -> d < N ->
          let i := r * (N * N) + (c * N + d) in
          i < N * (N * N)
          /\ (forall j, mat M i j = true
                <-> j = cell_column sv r c \/ j = row_column sv r d
                    \/ j = col_column sv c d \/ j = block_column sv r c d)
          /\ (forall t, t < 4 ->
                rowData_of h (exactCoverCols sv + 2 + 4 * i + t)
                = [Z.of_nat (d + 1); Z.of_nat (r + 1); Z.of_nat (c + 1)])
          /\ r = i / (N * N) /\ c = i / N mod N /\ d = i mod N).
Proof.
  intros [Hk _] sv N.
  assert (HN : gridSize sv = N) by reflexivity.
  assert (Hbs : blockSize sv = k) by reflexivity.
  assert (Hcc : cellCount sv = N * N) by reflexivity.
  assert (HR : exactCoverRows sv = N * (N * N)) by reflexivity.
  assert (HC : exactCoverCols sv = 4 * (N * N)) by reflexivity.
  assert (Hsq : N = k * k) by reflexivity.
  assert (Hpos : 0 < k) by lia.
  assert (HNpos : 0 < N) by (unfold N; nia).
  destruct (encoder_ok sv N k HN Hbs Hcc HR HC Hsq Hpos) as (M & E & Hd & HM).
  destruct (initial_torus_built k Hk) as (h & E0 & HR0 & Hlab).
  fold sv in E0, HR0, Hlab.
  unfold initial_torus in E0. rewrite E in E0. cbn [bind] in E0.
  pose proof (Rep_rows_NoDup _ _ _ _ HR0) as Hnd0.
  clearbody sv N.
  exists M, h. split; [exact E |]. split; [exact E0 |]. split.
  - intros i Hi.
    destruct (row_parts_index sv N HN Hcc HNpos i) as (Ei & Hc & Hdd).
    pose proof (row_r_bound sv N HN Hcc HNpos i Hi) as Hr.
    exists (row_r sv i), (row_c sv i), (row_d sv i).
    split; [exact Hr |]. split; [exact Hc |]. split; [exact Hdd |].
    unfold row_index in Ei. rewrite HN, Hcc in Ei. lia.
  - intros r c d Hr Hc Hdd i.
    assert (Ei : i = row_index sv r c d).
    { unfold i, row_index. rewrite HN, Hcc. lia. }
    clearbody i. subst i.
    pose proof (row_index_bound sv N HN Hcc HNpos r c d Hr Hc Hdd) as Hi.
    destruct (row_index_parts sv N HN Hcc HNpos r c d Hc Hdd) as (E1 & E2 & E3).
    split; [exact Hi |]. split; [| split].
    + intros j. rewrite (HM _ j Hi).
      apply (entry_row_index sv N k HN Hbs Hcc HR HC Hsq Hpos); assumption.
    + intros t Ht.
      destruct (sudoku_row_node sv N k HN Hbs Hcc HR HC Hsq Hpos h Hnd0 Hlab
                  (row_index sv r c d) (exactCoverCols sv + 2 + 4 * row_index sv r c d + t)
                  Hi) as (_ & _ & _ & _ & _ & _ & Edata & _).
      { unfold row_nodes. apply elem_of_seq. lia. }
      rewrite Edata, E1, E2, E3. reflexivity.
    + split; [unfold row_r in E1; rewrite Hcc in E1; auto |].
      split; [| unfold row_d in E3; rewrite HN in E3; auto].
      rewrite (div_gridSize sv N HN Hcc HNpos), E1, E2.
      unfold cell_column. rewrite HN.
      symmetry. apply (divmod_intro N r c Hc).
Qed.

Lemma matrix_rows_by_grid_row_witness :
  1 <= 2 <= 28
  /\ exists M h,
       buildExactCoverMatrix solver4 (new_matrix 64 64) = Ok M
       /\ buildDLXLinkedList solver4 M = Ok (1, h)
       /\ (forall j, mat M 1 j = true <-> j = 0 \/ j = 17 \/ j = 33 \/ j = 49)
       /\ rowData_of h (64 + 2 + 4 * 1 + 0) = [2; 1; 1]%Z
       /\ rowData_of h (64 + 2 + 4 * 17 + 3) = [2; 2; 1]%Z.
Proof.
  assert (H : 1 <= 2 <= 28) by lia. split; [exact H |].
  destruct (matrix_rows_by_grid_row 2 H) as (M & h & E & E0 & _ & Hrow).
  exists M, h. split; [exact E |]. split; [exact E0 |].
  destruct (Hrow 0 0 1 ltac:(cbn; lia) ltac:(cbn; lia) ltac:(cbn; lia))
    as (_ & Hmat & Hdata & _).
  destruct (Hrow 1 0 1 ltac:(cbn; lia) ltac:(cbn; lia) ltac:(cbn; lia))
    as (_ & _ & Hdata' & _).
  split; [exact Hmat |]. split.
  - apply (Hdata 0). lia.
  - apply (Hdata' 3). lia.
Defined.

(** ** The links of the nodes that are linked *)

(** C5.  From the torus built for the grid size [N = k * k] with [k]
    up to 28, in the state reached by covering any distinct columns in
    turn, that is between completed calls of [coverColumn]: every row
    node is the left neighbour of its right neighbour; every column
    header that the loop to the right from the root meets is the left
    neighbour of its right neighbour, unless that is the root; and
    every column header, covered or not, and every node that the loop
    down from a header meets, is the upper neighbour of its lower
    neighbour.  (A covered header and a node of a removed row keep
    their own links, and their neighbours skip them.) *)
Theorem links_of_linked_nodes (k : nat) (cols : list nat) :
  1 <= k <= 28 -> NoDup cols ->
  (forall c, c ∈ cols -> 2 <= c <= exactCoverCols (solver k) + 1) ->
  let sv := solver k in
  exists h,
    covered_torus sv cols = Ok h
    /\ (forall i t, i < exactCoverRows sv -> t < 4 ->
          let p := exactCoverCols sv + 2 + 4 * i + t in
          left_of h (right_of h p) = p)
    /\ (forall c, linked 1 h c -> right_of h c <> 1 ->
          left_of h (right_of h c) = c)
    /\ (forall c p, 2 <= c <= exactCoverCols sv + 1 ->
          p = c \/ on_ring (down_of h) c (down_of h c) p ->
          up_of h (down_of h p) = p).
Proof.
  intros [Hk _] Hnd Hcols sv. subst sv.
  destruct (initial_torus_built k Hk) as (h0 & E0 & HR & _).
  destruct (covers_ok (sudoku_torus (solver k)) (ring_fuel (solver k)) cols
              (seq 2 (exactCoverCols (solver k))) h0) as (h & E & Hwf).
  - eexists. exact HR.
  - apply sudoku_enough_fuel.
  - exact Hnd.
  - intros c Hc. apply elem_of_seq. specialize (Hcols c Hc). lia.
  - exists h. split.
    { unfold covered_torus. rewrite E0. cbn [bind snd]. exact E. }
    destruct (well_formed_links _ _ _ Hwf) as (L1 & L2 & L3).
    split; [| split].
    + intros i t Hi Ht p. apply L1. apply sudoku_torus_nodes.
      exists i. split; [exact Hi |]. unfold row_nodes. apply elem_of_seq.
      unfold p. lia.
    + intros c Hc Hne. apply (proj2 (L3 c Hc)). exact Hne.
    + intros c p Hc Hp. apply (L2 c p); [| exact Hp].
      cbn [sudoku_torus t_cols]. apply elem_of_seq. lia.
Qed.

Lemma links_of_linked_nodes_witness :
  1 <= 2 <= 28 /\ NoDup (seq 2 3)
  /\ exists h,
       covered_torus solver4 (seq 2 3) = Ok h
       /\ (forall i t, i < 64 -> t < 4 ->
             left_of h (right_of h (64 + 2 + 4 * i + t)) = 64 + 2 + 4 * i + t)
       /\ (forall c p, 2 <= c <= 64 + 1 ->
             p = c \/ on_ring (down_of h) c (down_of h c) p ->
             up_of h (down_of h p) = p).
Proof.
  assert (H : 1 <= 2 <= 28) by lia. split; [exact H |].
  split; [apply NoDup_seq |].
  destruct (links_of_linked_nodes 2 (seq 2 3) H (NoDup_seq 2 3))
    as (h & E & L1 & _ & L2).
  - intros c Hc. apply elem_of_seq in Hc. cbn. lia.
  - exists h. split; [exact E |]. split; [exact L1 | exact L2].
Defined.
